(** * TEFingerprint: clustering engine and loci algebra

    A shallow embedding of the univariate density clustering code
    ([tefingerprint/cluster.py]), of the loci containers
    ([tectoolkit/loci.py]) and of the two SAM string parsers
    ([tectoolkit/reads.py], [tectoolkit/libtec.py]), with the properties
    of the specification stated against them.

    Conventions.
    - A one-dimensional numpy array is a [list]; arrays of [np.int64]
      hold [Z] values and every arithmetic operation numpy performs on
      them is wrapped to 64 bits ([wrap64]).
    - A Python exception is a value of [exn]; code that may raise
      returns a [result].
    - Python slices [a[lo:hi]] are [slice], with the clamping and the
      negative indices of the language. *)

From Stdlib Require Import ZArith Lia List String Ascii.
From stdpp Require Import base option list sorting gmap strings.

Local Open Scope Z_scope.

(** ** Exceptions *)

Inductive exn : Type :=
| AssertionError
| ValueError
| TypeError
| IndexError
| KeyError.

Inductive result (A : Type) : Type :=
| Ok (a : A)
| Raise (e : exn).

Arguments Ok {A} a.
Arguments Raise {A} e.

Definition rbind {A B} (r : result A) (f : A -> result B) : result B :=
  match r with
  | Ok a => f a
  | Raise e => Raise e
  end.

Notation "x <-- r ;; k" := (rbind r (fun x => k))
  (at level 100, r at next level, right associativity).

Fixpoint rmapM {A B} (f : A -> result B) (l : list A) : result (list B) :=
  match l with
  | [] => Ok []
  | a :: l' => b <-- f a ;; bs <-- rmapM f l' ;; Ok (b :: bs)
  end.

Definition is_ok {A} (r : result A) : Prop := exists a, r = Ok a.

(** ** numpy on one-dimensional int64 arrays *)

Module Np.

Definition wrap64 (z : Z) : Z := (z + 2 ^ 63) mod 2 ^ 64 - 2 ^ 63.

Definition int64 (z : Z) : Prop := - 2 ^ 63 <= z < 2 ^ 63.

(** [a - b] and [a + b] on np.int64 values. *)
Definition sub (a b : Z) : Z := wrap64 (a - b).
Definition add (a b : Z) : Z := wrap64 (a + b).

(** Position designated by a slice bound [i] in an array of length [n]. *)
Definition bound (n : nat) (i : Z) : nat :=
  if i <? 0 then Z.to_nat (Z.max 0 (Z.of_nat n + i))
  else Z.to_nat (Z.min i (Z.of_nat n)).

(** [a[lo:hi]] *)
Definition slice {A} (a : list A) (lo hi : Z) : list A :=
  let s := bound (length a) lo in
  let e := bound (length a) hi in
  take (e - s) (drop s a).

(** [a[lo:]] *)
Definition slice_from {A} (a : list A) (lo : Z) : list A :=
  drop (bound (length a) lo) a.

(** [a[lo:hi] = vals], with the broadcast of a single value. *)
Definition set_slice (a : list Z) (lo hi : Z) (vals : list Z)
  : result (list Z) :=
  let s := bound (length a) lo in
  let e := bound (length a) hi in
  let len := (e - s)%nat in
  if decide (length vals = len) then
    Ok (take s a ++ vals ++ drop (s + len) a)
  else match vals with
       | [v] => Ok (take s a ++ replicate len v ++ drop (s + len) a)
       | _ => Raise ValueError
       end.

(** Element-wise binary operation with the broadcast rule for 1-d arrays. *)
Definition broadcast {B} (f : Z -> Z -> B) (a b : list Z)
  : result (list B) :=
  if decide (length a = length b) then Ok (zip_with f a b)
  else match a, b with
       | [x], _ => Ok ((fun y => f x y) <$> b)
       | _, [y] => Ok ((fun x => f x y) <$> a)
       | _, _ => Raise ValueError
       end.

(** [np.max(a)] and [np.min(a)]; both refuse an empty array. *)
Definition max (a : list Z) : result Z :=
  match a with
  | [] => Raise ValueError
  | x :: a' => Ok (foldl Z.max x a')
  end.

Definition min (a : list Z) : result Z :=
  match a with
  | [] => Raise ValueError
  | x :: a' => Ok (foldl Z.min x a')
  end.

(** [np.full((rows, cols), v)]; a negative dimension is refused. *)
Definition full (rows cols : Z) (v : Z) : result (list (list Z)) :=
  if (rows <? 0) || (cols <? 0) then Raise ValueError
  else Ok (replicate (Z.to_nat rows) (replicate (Z.to_nat cols) v)).

(** [np.min(m, axis=0)] *)
Definition min_axis0 (m : list (list Z)) : result (list Z) :=
  match m with
  | [] => Raise ValueError
  | r :: rs => Ok (foldl (zip_with Z.min) r rs)
  end.

(** [np.sum(mask)] for a boolean array: the number of [True]. *)
Definition count_true (mask : list bool) : Z :=
  Z.of_nat (length (filter (fun b => b = true) mask)).

(** [np.sum(a)] on int64 values. *)
Definition sum (a : list Z) : Z := wrap64 (foldr Z.add 0 a).

(** [a[mask]] for a boolean mask, which must have the length of [a]. *)
Fixpoint pick {A} (a : list A) (mask : list bool) : list A :=
  match a, mask with
  | x :: a', b :: mask' =>
      if b then x :: pick a' mask' else pick a' mask'
  | _, _ => []
  end.

Definition select {A} (a : list A) (mask : list bool) : result (list A) :=
  if decide (length a = length mask) then Ok (pick a mask)
  else Raise IndexError.

(** [np.arange(lo, hi)] *)
Definition arange (lo hi : Z) : list Z := seqZ lo (hi - lo).

(** [range(n)] as integers. *)
Definition range (n : Z) : list Z := seqZ 0 n.

(** [a[lo:hi] += c] on an int64 array. *)
Definition add_slice (a : list Z) (lo hi : Z) (c : Z) : list Z :=
  let s := bound (length a) lo in
  let e := bound (length a) hi in
  take s a ++ ((fun x => add x c) <$> take (e - s) (drop s a))
         ++ drop (s + (e - s)) a.

(** [a[lo:hi] = vals] for an array of any type; the shapes must agree
    unless [vals] holds a single value. *)
Definition assign_slice {A} (a : list A) (lo hi : Z) (vals : list A)
  : result (list A) :=
  let s := bound (length a) lo in
  let e := bound (length a) hi in
  let len := (e - s)%nat in
  if decide (length vals = len) then
    Ok (take s a ++ vals ++ drop (s + len) a)
  else match vals with
       | [v] => Ok (take s a ++ replicate len v ++ drop (s + len) a)
       | _ => Raise ValueError
       end.

End Np.

(** [X[i]] for an index [i] inside the array. *)
Definition at_ (X : list Z) (i : Z) : Z := default 0 (X !! Z.to_nat i).

(** ** cluster.py *)

Module Cluster.

(** [core_distances(array, min_points)] *)
Definition core_distances (array : list Z) (min_points : Z)
  : result (list Z) :=
  if negb (1 <? min_points) then Raise AssertionError else
  let offset := min_points - 1 in
  let length := Z.of_nat (length array) in
  let lower := Np.slice array 0 (length - offset) in
  let upper := Np.slice array offset length in
  eps_values <-- Np.broadcast Np.sub upper lower ;;
  m <-- Np.max eps_values ;;
  eps_2d <-- Np.full min_points length m ;;
  eps_2d <-- rmapM (fun '(i, row) =>
               Np.set_slice row i (length - (offset - i)) eps_values)
             (zip (Np.range min_points) eps_2d) ;;
  Np.min_axis0 eps_2d.

(** [_DTYPE_SLICE]: a pair [(lower, upper)] of indices. *)
Abbreviation slice_t := (Z * Z)%type.

(** *** class UDBSCANx *)

Module UDBSCANx.

Record t : Type := mk {
  min_points : Z;
  epsilon : Z;
  slices : list slice_t;
  input_array : list Z
}.

Definition __init__ (min_points epsilon : Z) : t :=
  mk min_points epsilon [] [].

(** [np.sum(array[1:] - array[:-1] < 0) == 0]; the two slices always
    have the same length. *)
Definition _sorted_ascending (array : list Z) : bool :=
  let diffs :=
    zip_with Np.sub (Np.slice_from array 1) (Np.slice array 0 (-1)) in
  Np.count_true ((fun d => d <? 0) <$> diffs) =? 0.

(** The generator [_melter]: the loop over [i = 1 ..], reading
    [splits[i]], [slices[i]] and [uppers[i]], runs over the zipped
    tails of the three arrays. *)
Fixpoint _melter (l u : Z) (rest : list (bool * slice_t))
  : list slice_t :=
  match rest with
  | [] => [(l, u)]
  | (split, (li, ui)) :: rest' =>
      if split then (l, u) :: _melter li ui rest'
      else _melter l ui rest'
  end.

(** [lowers] and [uppers] are views of the two columns of [slices] and
    are sorted in place, each on its own: afterwards [slices] holds the
    sorted columns side by side. *)
Definition _melt_slices (slices : list slice_t)
  : result (list slice_t) :=
  let lowers := merge_sort Z.le (fst <$> slices) in
  let uppers := merge_sort Z.le (snd <$> slices) in
  let slices := zip lowers uppers in
  let splits :=
    false :: zip_with Z.leb (Np.slice uppers 0 (-1))
                            (Np.slice_from lowers 1) in
  match lowers, uppers with
  | l :: _, u :: _ => Ok (_melter l u (drop 1 (zip splits slices)))
  | _, _ => Raise IndexError
  end.

Definition _subcluster (array : list Z) (min_points epsilon : Z)
  : result (list slice_t) :=
  if negb (_sorted_ascending array) then Raise AssertionError else
  let offset := min_points - 1 in
  let upper := Np.slice_from array offset in
  let lower := Np.slice array 0 (- offset) in
  selected <-- Np.broadcast (fun u l => Np.sub u l <=? epsilon)
                            upper lower ;;
  lower_index <--
    Np.select (Np.arange 0 (Z.of_nat (length lower))) selected ;;
  upper_index <--
    Np.select (Np.arange offset (Z.of_nat (length array))) selected ;;
  Ok (zip lower_index ((fun i => i + 1) <$> upper_index)).

Definition _cluster (array : list Z) (min_points epsilon : Z)
  : result (list slice_t) :=
  slices <-- _subcluster array min_points epsilon ;;
  if 1 <? Z.of_nat (length slices) then _melt_slices slices
  else Ok slices.

(** [fit] returns the object after the call. *)
Definition fit (self : t) (array : list Z) : result t :=
  if negb (_sorted_ascending array) then Raise AssertionError else
  let input_array := array in
  slices <-- _cluster input_array (min_points self) (epsilon self) ;;
  Ok (mk (min_points self) (epsilon self) slices input_array).

Definition udbscanx (array : list Z) (min_points epsilon : Z)
  : result (list slice_t) :=
  model <-- fit (__init__ min_points epsilon) array ;;
  Ok (slices model).

(** [cluster_extremities]: [(input_array[lower], input_array[upper-1])]. *)
Definition cluster_extremities (self : t) : list (Z * Z) :=
  (fun '(lower, upper) =>
     (at_ (input_array self) lower, at_ (input_array self) (upper - 1)))
  <$> slices self.

(** [clusters]: [input_array[lower:upper]] for every slice. *)
Definition clusters (self : t) : list (list Z) :=
  (fun '(lower, upper) => Np.slice (input_array self) lower upper)
  <$> slices self.

(** [labels]: the loop [labels[lower:upper] += (i + 1)] over the
    enumerated slices, from an array filled with [-1]. *)
Definition labels (self : t) : list Z :=
  foldl (fun labels '(i, (lower, upper)) =>
           Np.add_slice labels lower upper (i + 1))
        (replicate (length (input_array self)) (-1))
        (zip (seqZ 0 (Z.of_nat (length (slices self)))) (slices self)).

End UDBSCANx.

(** *** class UDBSCANxH *)

Module UDBSCANxH.

Record t : Type := mk {
  min_points : Z;
  max_eps : option Z;
  min_eps : option Z;
  method : string;
  slices : list slice_t;
  input_array : list Z
}.

Definition valid_method (method : string) : bool :=
  String.eqb method "aggressive" || String.eqb method "conservative".

Definition __init__ (min_points : Z) (max_eps min_eps : option Z)
           (method : string) : result t :=
  if negb (valid_method method) then Raise AssertionError
  else Ok (mk min_points max_eps min_eps method [] []).

(** Truth value of an optional integer: [None] and [0] are false. *)
Definition truthy (o : option Z) : bool :=
  match o with
  | None => false
  | Some v => negb (v =? 0)
  end.

Definition _core_distances := core_distances.

(** [_fork_epsilon]: [Ok None] is the Python [None]. *)
Definition _fork_epsilon (array : list Z) (min_points : Z)
  : result (option Z) :=
  if Z.of_nat (length array) <=? min_points then Ok None else
  let offset := min_points - 1 in
  eps_values <-- Np.broadcast Np.sub (Np.slice_from array offset)
                                     (Np.slice array 0 (- offset)) ;;
  m <-- Np.max eps_values ;;
  let len_eps := Z.of_nat (length eps_values) in
  eps_2d <-- Np.full offset (len_eps + offset - 1) m ;;
  eps_2d <-- rmapM (fun '(i, row) =>
               Np.set_slice row i (len_eps + i) eps_values)
             (zip (Np.range offset) eps_2d) ;;
  splits <-- Np.min_axis0 eps_2d ;;
  (* Remove plateaus *)
  let gradients :=
    zip_with Np.sub (Np.slice_from splits 1) (Np.slice splits 0 (-1)) in
  splits <-- Np.select splits
               (true :: ((fun g => negb (g =? 0)) <$> gradients)) ;;
  (* Remove non-peaks *)
  let rising :=
    zip_with Z.gtb (Np.slice_from splits 1) (Np.slice splits 0 (-1)) in
  let falling :=
    zip_with Z.gtb (Np.slice splits 0 (-1)) (Np.slice_from splits 1) in
  let is_peak := zip_with andb (false :: rising) (falling ++ [false]) in
  splits <-- Np.select splits is_peak ;;
  match splits with
  | [] => Ok None
  | _ => v <-- Np.max splits ;; Ok (Some v)
  end.

(** A nested list of slices, as [_traverse_cluster_tree] returns it. *)
#[warnings="-register-all"]
Inductive nested : Type :=
| Leaf (s : slice_t)
| Nested (items : list nested).

Fixpoint _flatten_list (item : nested) : list slice_t :=
  match item with
  | Leaf s => [s]
  | Nested items => flat_map _flatten_list items
  end.

(** A row of the structured array [points]. *)
Record point : Type := mk_point {
  value : Z;
  index : Z;
  core_dist : Z
}.

(** [(local_points['index'][0], local_points['index'][-1] + 1)] *)
Definition bounds (local_points : list point) : result nested :=
  match local_points, last local_points with
  | p :: _, Some q => Ok (Leaf (index p, index q + 1))
  | _, _ => Raise IndexError
  end.

(** Evaluation of a list comprehension whose elements may raise, in a
    computation that may run out of fuel ([None]). *)
Fixpoint comprehension {A B} (f : A -> option (result B)) (l : list A)
  : option (result (list B)) :=
  match l with
  | [] => Some (Ok [])
  | a :: l' =>
      match f a with
      | None => None
      | Some (Raise e) => Some (Raise e)
      | Some (Ok b) =>
          match comprehension f l' with
          | None => None
          | Some (Raise e) => Some (Raise e)
          | Some (Ok bs) => Some (Ok (b :: bs))
          end
      end
  end.

(** [_traverse_cluster_tree]; the recursion is bounded by [fuel] and
    [None] is returned when it runs out. *)
Fixpoint _traverse_cluster_tree (fuel : nat) (self : t)
         (local_points : list point) (local_max_eps : Z)
  : option (result nested) :=
  match fuel with
  | O => None
  | S fuel =>
      match _fork_epsilon (value <$> local_points) (min_points self) with
      | Raise e => Some (Raise e)
      | Ok None => Some (bounds local_points)
      | Ok (Some fork_epsilon) =>
          let local_min_eps := fork_epsilon in
          let core := core_dist <$> local_points in
          let support : result Z :=
            if String.eqb (method self) "aggressive" then
              Ok (Np.sum ((fun d => Np.sub local_max_eps
                                      (Z.max local_min_eps d)) <$> core))
            else if String.eqb (method self) "conservative" then
              match max_eps self with
              | Some E =>
                  Ok (Np.sum ((fun d => Np.sub E (Z.max local_min_eps d))
                              <$> core))
              | None => Raise TypeError
              end
            else Raise ValueError in
          match support with
          | Raise e => Some (Raise e)
          | Ok support =>
              let support_children :=
                Np.sum ((fun d => Z.max 0 (Np.sub local_min_eps d))
                        <$> core) in
              if support >=? support_children then
                Some (bounds local_points)
              else
                match UDBSCANx._cluster (value <$> local_points)
                        (min_points self) (Np.sub local_min_eps 1) with
                | Raise e => Some (Raise e)
                | Ok child_cluster_bounds =>
                    match comprehension
                            (fun '(left_, right_) =>
                               _traverse_cluster_tree fuel self
                                 (Np.slice local_points left_ right_)
                                 local_min_eps)
                            child_cluster_bounds with
                    | None => None
                    | Some (Raise e) => Some (Raise e)
                    | Some (Ok items) => Some (Ok (Nested items))
                    end
                end
          end
      end
  end.

(** [_run] returns the slices together with the object, whose
    [max_eps] it may have assigned.  [max_eps] and [min_eps] stand
    for parameters that fit in 64 bits, on which the arithmetic with
    the int64 columns stays in int64. *)
Definition _run (fuel : nat) (self : t) (array : list Z)
  : option (result (t * list slice_t)) :=
  if negb (UDBSCANx._sorted_ascending array) then
    Some (Raise AssertionError)
  else if negb (valid_method (method self)) then
    Some (Raise AssertionError)
  else if Z.of_nat (length array) <? min_points self then
    Some (Ok (self, []))
  else
    match _core_distances array (min_points self) with
    | Raise e => Some (Raise e)
    | Ok core =>
        let set_max_eps : result t :=
          if negb (truthy (max_eps self)) then
            f <-- _fork_epsilon array (min_points self) ;;
            match f with
            | None => Raise TypeError
            | Some f =>
                Ok (mk (min_points self) (Some (Np.sub f 1))
                       (min_eps self) (method self) (slices self)
                       (input_array self))
            end
          else Ok self in
        match set_max_eps with
        | Raise e => Some (Raise e)
        | Ok self =>
            let core :=
              match min_eps self with
              | Some e_min =>
                  if truthy (min_eps self) then Z.max e_min <$> core
                  else core
              | None => core
              end in
            let points :=
              zip_with (fun '(v, i) c => mk_point v i c)
                (zip array (Np.arange 0 (Z.of_nat (length array))))
                core in
            match max_eps self with
            | None => Some (Raise TypeError)
            | Some E =>
                match UDBSCANx._cluster (value <$> points)
                        (min_points self) E with
                | Raise e => Some (Raise e)
                | Ok initial_cluster_bounds =>
                    match comprehension
                            (fun '(left_, right_) =>
                               _traverse_cluster_tree fuel self
                                 (Np.slice points left_ right_) E)
                            initial_cluster_bounds with
                    | None => None
                    | Some (Raise e) => Some (Raise e)
                    | Some (Ok clusters) =>
                        Some (Ok (self, _flatten_list (Nested clusters)))
                    end
                end
            end
        end
    end.

Definition fit (fuel : nat) (self : t) (array : list Z)
  : option (result t) :=
  let input_array := array in
  match _run fuel self input_array with
  | None => None
  | Some (Raise e) => Some (Raise e)
  | Some (Ok (self, slices)) =>
      Some (Ok (mk (min_points self) (max_eps self) (min_eps self)
                   (method self) slices input_array))
  end.

Definition cluster_extremities (self : t) : list (Z * Z) :=
  (fun '(lower, upper) =>
     (at_ (input_array self) lower, at_ (input_array self) (upper - 1)))
  <$> slices self.

(** [udbscanxh(array, min_points, max_eps, min_eps, method)] *)
Definition udbscanxh (fuel : nat) (array : list Z) (min_points : Z)
           (max_eps min_eps : option Z) (method : string)
  : option (result (list slice_t)) :=
  match __init__ min_points max_eps min_eps method with
  | Raise e => Some (Raise e)
  | Ok model =>
      match fit fuel model array with
      | None => None
      | Some (Raise e) => Some (Raise e)
      | Some (Ok model) => Some (Ok (slices model))
      end
  end.

(** [clusters] and [labels], inherited from [UDBSCANx]: they read
    [input_array] and [slices] only. *)
Definition clusters (self : t) : list (list Z) :=
  (fun '(lower, upper) => Np.slice (input_array self) lower upper)
  <$> slices self.

Definition labels (self : t) : list Z :=
  foldl (fun labels '(i, (lower, upper)) =>
           Np.add_slice labels lower upper (i + 1))
        (replicate (length (input_array self)) (-1))
        (zip (seqZ 0 (Z.of_nat (length (slices self)))) (slices self)).

End UDBSCANxH.

End Cluster.


(** ** Auxiliary definitions used by the statements and proofs *)

(** Row [i] of the two-dimensional array that [core_distances] and
    [_fork_epsilon] build: the span array shifted right by [i] columns in a
    row of [n] cells otherwise filled with [m]. *)
Definition shifted (n : nat) (m : Z) (eps : list Z) (i : nat) : list Z :=
  replicate i m ++ eps ++ replicate (n - i - length eps) m.

(** The column-wise minimum of the [r] rows [shifted 0 .. shifted (r-1)]. *)
Definition stacked_min (m : Z) (eps : list Z) (r : nat) : list Z :=
  let n := (length eps + r - 1)%nat in
  foldl (zip_with Z.min) (shifted n m eps 0)
        (shifted n m eps <$> seq 1 (r - 1)).

(** The span array of [X] for windows of [k] points:
    [X[k-1:] - X[:n-(k-1)]]. *)
Definition spans (X : list Z) (k : nat) : list Z :=
  zip_with Np.sub (drop (k - 1) X) (take (length X - (k - 1)) X).

(** The span of the window of [k] consecutive entries that starts at [j],
    [X[j+k-1] - X[j]], as numpy computes it on int64 values. *)
Definition window_span (X : list Z) (k j : Z) : Z :=
  Np.sub (at_ X (j + k - 1)) (at_ X j).

(** The same span as the difference of integers [X[j+k-1] - X[j]] that the
    specification writes. *)
Definition window_diff (X : list Z) (k j : Z) : Z :=
  at_ X (j + k - 1) - at_ X j.

(** [d] is the minimum of [f j] over the integers [lo <= j <= hi]. *)
Definition is_min_over (lo hi : Z) (f : Z -> Z) (d : Z) : Prop :=
  (exists j, lo <= j <= hi /\ d = f j)
  /\ (forall j, lo <= j <= hi -> d <= f j).

(** ** The fork epsilon as section 4.2 of the specification words it

    These definitions follow the words of the specification, not the code;
    they are compared with [Cluster.UDBSCANxH._fork_epsilon] below. *)


Definition list_max (l : list Z) : option Z :=
  match l with
  | [] => None
  | x :: l' => Some (foldl Z.max x l')
  end.



(** Deleting plateau runs: of consecutive equal values one is kept. *)
Fixpoint delete_plateaus_from (prev : Z) (l : list Z) : list Z :=
  match l with
  | [] => []
  | x :: l' =>
      if x =? prev then delete_plateaus_from prev l'
      else x :: delete_plateaus_from x l'
  end.

Definition delete_plateaus (l : list Z) : list Z :=
  match l with
  | [] => []
  | x :: l' => x :: delete_plateaus_from x l'
  end.

(** The strict local peaks: the values greater than both neighbours. *)
Fixpoint peaks_from (prev : Z) (l : list Z) : list Z :=
  match l with
  | x :: l' =>
      match l' with
      | y :: _ =>
          if (prev <? x) && (y <? x) then x :: peaks_from x l'
          else peaks_from x l'
      | [] => []
      end
  | [] => []
  end.

Definition strict_peaks (l : list Z) : list Z :=
  match l with
  | [] => []
  | x :: l' => peaks_from x l'
  end.



(** ** Python strings *)

Module Py.

Definition tab : ascii := ascii_of_nat 9.

(** [s.split(sep)] for a separator of one character. *)
Fixpoint split (sep : ascii) (s : string) : list string :=
  match s with
  | EmptyString => [EmptyString]
  | String c s' =>
      if Ascii.eqb c sep then EmptyString :: split sep s'
      else match split sep s' with
           | [] => [String c EmptyString]
           | w :: ws => String c w :: ws
           end
  end.

Definition digit (c : ascii) : option Z :=
  let n := Z.of_nat (nat_of_ascii c) in
  if (48 <=? n) && (n <=? 57) then Some (n - 48) else None.

Fixpoint digits (acc : Z) (s : string) : option Z :=
  match s with
  | EmptyString => Some acc
  | String c s' =>
      match digit c with
      | Some d => digits (10 * acc + d) s'
      | None => None
      end
  end.

(** [int(s)] for a decimal literal with an optional sign, the form the
    fields of a SAM line have; anything else raises [ValueError]. *)
Definition int (s : string) : result Z :=
  let unsigned (s : string) : result Z :=
    match s with
    | EmptyString => Raise ValueError
    | _ => match digits 0 s with
           | Some z => Ok z
           | None => Raise ValueError
           end
    end in
  match s with
  | String c s' =>
      if Ascii.eqb c (ascii_of_nat 45) then z <-- unsigned s' ;; Ok (- z)
      else if Ascii.eqb c (ascii_of_nat 43) then unsigned s'
      else unsigned s
  | EmptyString => Raise ValueError
  end.

(** [l[i]] for [i >= 0]. *)
Definition item {A} (l : list A) (i : nat) : result A :=
  match l !! i with
  | Some x => Ok x
  | None => Raise IndexError
  end.

(** [len(s)] *)
Definition len (s : string) : Z := Z.of_nat (String.length s).

(** The binary digits of a positive number, the highest first. *)
Fixpoint bin_digits (p : positive) : string :=
  match p with
  | xH => "1"
  | xO p' => bin_digits p' ++ "0"
  | xI p' => bin_digits p' ++ "1"
  end%string.

(** [bin(n)] *)
Definition bin (n : Z) : string :=
  match n with
  | Z0 => "0b0"
  | Zpos p => "0b" ++ bin_digits p
  | Zneg p => "-0b" ++ bin_digits p
  end%string.

End Py.

(** ** reads.py *)

Module Reads.

(** Modelled from the spec: [bam_io.flag_orientation] is called by
    [ReadGroup._parse_sam_strings] but [bam_io] is not among the sources.
    Section 6: "Strand is derived from the SAM flag bit 0x10"; an
    unmapped read (bit 0x4) has no strand, as in
    [classes.ReadGroup._flag_orientation]. *)
Definition flag_orientation (flag : Z) : option string :=
  if Z.testbit flag 2 then None
  else if Z.testbit flag 4 then Some "-"%string
  else Some "+"%string.

(** A read: [(tip, tail, strand, name)]. *)
Abbreviation read := (Z * Z * string * string)%type.

(** The inner function [_parse_sam_string]; [Ok None] is the Python
    [None] returned when the strand is neither ["+"] nor ["-"]. *)
Definition _parse_sam_string (flag_orientation : Z -> option string)
           (str : string) (strand : option string)
  : result (option read) :=
  let attr := Py.split Py.tab str in
  name <-- Py.item attr 0 ;;
  a3 <-- Py.item attr 3 ;;
  start <-- Py.int a3 ;;
  a9 <-- Py.item attr 9 ;;
  let length := Py.len a9 in
  let end_ := start + length - 1 in
  strand <-- match strand with
             | None =>
                 a1 <-- Py.item attr 1 ;;
                 flag <-- Py.int a1 ;;
                 Ok (flag_orientation flag)
             | Some s => Ok (Some s)
             end ;;
  match strand with
  | Some s =>
      if String.eqb s "+" then
        let tip := end_ in
        let tail := start in
        Ok (Some (tip, tail, s, name))
      else if String.eqb s "-" then
        let tip := start in
        let tail := end_ in
        Ok (Some (tip, tail, s, name))
      else Ok None
  | None => Ok None
  end.

(** [ReadGroup._parse_sam_strings(strings, strand)] *)
Definition _parse_sam_strings (flag_orientation : Z -> option string)
           (strings : list string) (strand : option string)
  : result (list (option read)) :=
  match strand with
  | Some s =>
      if negb (String.eqb s "+" || String.eqb s "-")
      then Raise AssertionError
      else rmapM (fun str => _parse_sam_string flag_orientation str strand)
                 strings
  | None =>
      rmapM (fun str => _parse_sam_string flag_orientation str strand)
            strings
  end.

(** The fields of a stored read. *)
Definition read_tip (r : read) : Z := r.1.1.1.
Definition read_tail (r : read) : Z := r.1.1.2.
Definition read_strand (r : read) : string := r.1.2.

(** [ReadGroup.strand()] on the stored array [self.reads];
    [variation.pop()] of an empty set raises [KeyError]. *)
Definition strand (reads : list read) : result string :=
  let variation := remove_dups (read_strand <$> reads) in
  if 1 <? Z.of_nat (length variation) then Ok "."%string
  else match variation with
       | [] => Raise KeyError
       | s :: _ => Ok s
       end.

(** [np.logical_and(reads[field] >= start, reads[field] <= stop)] *)
Definition within (field : read -> Z) (start stop : Z)
           (reads : list read) : list bool :=
  zip_with andb ((fun r => field r >=? start) <$> reads)
                ((fun r => field r <=? stop) <$> reads).

(** [ReadGroup.subset_by_locus(start, stop, margin, end)] on the stored
    array [self.reads]. *)
Definition subset_by_locus (reads : list read) (start stop margin : Z)
           (end_ : string) : result (list read) :=
  if negb (String.eqb end_ "tip" || String.eqb end_ "tail"
           || String.eqb end_ "both")
  then Raise AssertionError
  else
    let start := start - margin in
    let stop := stop + margin in
    if String.eqb end_ "both" then
      let reads := Np.pick reads (within read_tip start stop reads) in
      let reads := Np.pick reads (within read_tail start stop reads) in
      Ok reads
    else
      let field := if String.eqb end_ "tip" then read_tip else read_tail in
      Ok (Np.pick reads (within field start stop reads)).

End Reads.

(** ** classes.py *)

Module Classes.

(** [ReadGroup._parse_sam_flag(flag)]: the characters of [bin(flag)]
    after the first two, the last first, each through [int] into a
    boolean, stored at the front of twelve [False]. *)
Definition _parse_sam_flag (flag : Z) : result (list bool) :=
  let attributes := replicate 12 false in
  bits <-- rmapM (fun c => z <-- Py.int (String c EmptyString) ;;
                           Ok (negb (z =? 0)))
                 (reverse (drop 2 (list_ascii_of_string (Py.bin flag)))) ;;
  Np.assign_slice attributes 0 (Z.of_nat (length bits)) bits.

(** [ReadGroup._flag_orientation(flag)]; [Ok None] is the Python
    [None]. *)
Definition _flag_orientation (flag : Z) : result (option string) :=
  attributes <-- _parse_sam_flag flag ;;
  a2 <-- Py.item attributes 2 ;;
  if a2 then Ok None
  else
    a4 <-- Py.item attributes 4 ;;
    if a4 then Ok (Some "-"%string)
    else Ok (Some "+"%string).

(** The tuple of names of [_flag_attributes]. *)
Definition attribute_names : list string :=
  ["read paired";
   "read mapped in proper pair";
   "read unmapped mate unmapped";
   "read reverse strand";
   "mate reverse strand";
   "first in pair";
   "second in pair";
   "not primary alignment";
   "read fails platform / vendor quality checks";
   "read is PCR or optical duplicate";
   "supplementary alignment"]%string.

(** [ReadGroup._flag_attributes(flag)]: [dict(zip(attributes, values))]. *)
Definition _flag_attributes (flag : Z) : result (gmap string bool) :=
  values <-- _parse_sam_flag flag ;;
  Ok (foldl (fun d '(k, v) => <[k := v]> d) ∅
            (zip attribute_names values)).

End Classes.

(** ** libtec.py *)

Module Libtec.

(** [sam_read]: [(tip, tail, length, reverse)]. *)
Abbreviation sam_read := (Z * Z * Z * bool)%type.

Definition parse_sam_string (sam_string : string) (strand : string)
  : result (option sam_read) :=
  let attr := Py.split Py.tab sam_string in
  a3 <-- Py.item attr 3 ;;
  start <-- Py.int a3 ;;
  a9 <-- Py.item attr 9 ;;
  let length := Py.len a9 in
  let end_ := start + length in
  if String.eqb strand "+" then
    let reverse := true in
    let tip := end_ in
    let tail := start in
    Ok (Some (tip, tail, length, reverse))
  else if String.eqb strand "-" then
    let reverse := false in
    let tip := start in
    let tail := end_ in
    Ok (Some (tip, tail, length, reverse))
  else Ok None.

(** The order of [reads.sort(order=('tip', 'tail'))]. *)
Definition tip_tail_le (a b : sam_read) : Prop :=
  let '(tip_a, tail_a, _, _) := a in
  let '(tip_b, tail_b, _, _) := b in
  tip_a < tip_b \/ (tip_a = tip_b /\ tail_a <= tail_b).

Global Instance tip_tail_le_dec a b : Decision (tip_tail_le a b).
Proof.
  destruct a as [[[ta la] ?] ?], b as [[[tb lb] ?] ?]. simpl.
  apply _.
Defined.

(** [parse_sam_strings(sam_strings, strand)]; [np.fromiter] refuses the
    [None] that a strand other than ["+"] and ["-"] produces. *)
Definition parse_sam_strings (sam_strings : list string) (strand : string)
  : result (list sam_read) :=
  reads <-- rmapM (fun s =>
              r <-- parse_sam_string s strand ;;
              match r with
              | Some x => Ok x
              | None => Raise TypeError
              end) sam_strings ;;
  Ok (merge_sort tip_tail_le reads).

(** [locus]: [(start, stop)]. *)
Abbreviation locus := (Z * Z)%type.

Definition tip (r : sam_read) : Z := r.1.1.1.

(** [simple_subcluster(reads, minpts, eps)].  The reads are first sorted
    in place by [('tip', 'tail')]; the two selections use one mask, so
    [lower] and [upper] have the same length when both succeed and the
    pairs [(lower[i], upper[i])] are their zip. *)
Definition simple_subcluster (reads : list sam_read) (minpts eps : Z)
  : result (list locus) :=
  let reads := merge_sort tip_tail_le reads in
  let offset := minpts - 1 in
  let upper := Np.slice_from (tip <$> reads) offset in
  let lower := Np.slice (tip <$> reads) 0 (- offset) in
  diff <-- Np.broadcast Np.sub upper lower ;;
  let dense := (fun d => d <=? eps) <$> diff in
  lower <-- Np.select lower dense ;;
  upper <-- Np.select upper dense ;;
  Ok (zip lower upper).

(** The order of [sub_clusters.sort(order=('start', 'stop'))]. *)
Definition start_stop_le (a b : locus) : Prop :=
  a.1 < b.1 \/ (a.1 = b.1 /\ a.2 <= b.2).

Global Instance start_stop_le_dec a b : Decision (start_stop_le a b).
Proof. unfold start_stop_le. apply _. Defined.

(** The loop of the generator [merge] over [i = 1 ..]: the stop of the
    current cluster is replaced by the stop of every sub-cluster that
    begins at or before it. *)
Fixpoint merge_loop (start stop : Z) (rest : list locus) : list locus :=
  match rest with
  | [] => [(start, stop)]
  | (start_i, stop_i) :: rest' =>
      if start_i <=? stop then merge_loop start stop_i rest'
      else (start, stop) :: merge_loop start_i stop_i rest'
  end.

(** [merge_clusters(clusters)] *)
Definition merge_clusters (clusters : list locus) : result (list locus) :=
  match merge_sort start_stop_le clusters with
  | (start, stop) :: rest => Ok (merge_loop start stop rest)
  | [] => Raise IndexError
  end.

(** [simple_cluster(reads, minpts, eps)] *)
Definition simple_cluster (reads : list sam_read) (minpts eps : Z)
  : result (list locus) :=
  subclusters <-- simple_subcluster reads minpts eps ;;
  merge_clusters subclusters.

(** [reads_in_locus(reads, locus, margin)] *)
Definition reads_in_locus (reads : list sam_read) (locus : locus)
           (margin : Z) : list sam_read :=
  let '(start, stop) := locus in
  Np.pick reads
    ((fun r => (tip r >=? start - margin) && (tip r <=? stop + margin))
     <$> reads).

(** [depth[tip] += 1] with the index rule of the language: a negative
    index counts from the end, an index out of range raises
    [IndexError]. *)
Definition increment (depth : list Z) (i : Z) : result (list Z) :=
  let n := Z.of_nat (length depth) in
  if (0 <=? i) && (i <? n) then
    Ok (alter (fun x => Np.add x 1) (Z.to_nat i) depth)
  else if (- n <=? i) && (i <? 0) then
    Ok (alter (fun x => Np.add x 1) (Z.to_nat (n + i)) depth)
  else Raise IndexError.

(** [cluster_depth(reads, cluster)]; [np.zeros] refuses a negative
    size. *)
Definition cluster_depth (reads : list sam_read) (cluster : locus)
  : result (list Z) :=
  let '(start, stop) := cluster in
  let size := stop - (start - 1) in
  if size <? 0 then Raise ValueError else
  let depth := replicate (Z.to_nat size) 0 in
  let tips := (fun r => Np.sub (tip r) start) <$> reads in
  foldl (fun acc tip => depth <-- acc ;; increment depth tip)
        (Ok depth) tips.

End Libtec.

(** The SAM lines of [tests/test_reads.py]. *)
Definition sam_line (fields : list string) : string :=
  String.concat (String Py.tab EmptyString) fields.

Definition sam_forward_2_7 : string :=
  sam_line ["Gypsy27_a"; "0"; "chr1"; "2"; "66M19S"; "*"; "0"; "0";
            "AACCCTA"; "FFFIIII"; "NM:i:0"; "MD:Z:66"; "AS:i:66";
            "XS:i:66"]%string.

Definition sam_reverse_7_3 : string :=
  sam_line ["Gypsy27_c"; "16"; "chr1"; "7"; "66M19S"; "*"; "0"; "0";
            "AAC"; "FFF"; "NM:i:0"; "MD:Z:66"; "AS:i:66"; "XS:i:66"]%string.

(** ** loci.py *)

Module Loci.

(** A group key is a tuple of strings:
    [(reference, strand, category, source)] for reads and fingerprints,
    [(reference, strand, category)] for bins. *)
Abbreviation group := (list string).

(** A Python dict with tuple keys, in insertion order. *)
Abbreviation dict V := (list (list string * V)).

(** [d[k]] *)
Fixpoint dict_get {V} (d : dict V) (k : group) : result V :=
  match d with
  | [] => Raise KeyError
  | (k', v) :: d' => if decide (k' = k) then Ok v else dict_get d' k
  end.

(** [d[k] = v] *)
Fixpoint dict_set {V} (d : dict V) (k : group) (v : V) : dict V :=
  match d with
  | [] => [(k, v)]
  | (k', v') :: d' =>
      if decide (k' = k) then (k, v) :: d' else (k', v') :: dict_set d' k v
  end.

(** [_Loci._DTYPE_LOCI]: [(start, stop)]. *)
Abbreviation locus := (Z * Z)%type.

(** [ReadLoci._DTYPE_LOCI]: [(start, stop, name)]. *)
Abbreviation read_locus := (Z * Z * string)%type.

(** The loop of [_loci_melter] over [i = 1 ..], on the zipped tails of
    the sorted starts and stops. *)
Fixpoint _loci_melter_loop (start stop : Z) (rest : list (Z * Z))
  : list locus :=
  match rest with
  | [] => [(start, stop)]
  | (start_i, stop_i) :: rest' =>
      if start_i <=? stop then
        if stop_i >? stop then _loci_melter_loop start stop_i rest'
        else _loci_melter_loop start stop rest'
      else (start, stop) :: _loci_melter_loop start_i stop_i rest'
  end.

(** [_loci_melter(array)]: the intervals it yields. *)
Definition _loci_melter (array : list locus) : result (list locus) :=
  let array_starts := merge_sort Z.le (fst <$> array) in
  let array_stops := merge_sort Z.le (snd <$> array) in
  match array_starts, array_stops with
  | start :: _, stop :: _ =>
      Ok (_loci_melter_loop start stop
            (drop 1 (zip array_starts array_stops)))
  | _, _ => Raise IndexError
  end.

(** *** class ReadLoci

    The object is its [_dict]: the interval array of every group.  A
    field of a structured array ([loci["stop"]]) is a view: it shares the
    memory of the array, and is modelled as a reference to a column of
    the array stored under a group. *)

Abbreviation ReadLoci := (dict (list read_locus)).

Inductive column : Type := Start | Stop.

Record view : Type := mk_view { view_group : group; view_column : column }.

Definition get_column (c : column) (loci : list read_locus) : list Z :=
  match c with
  | Start => (fun r => r.1.1) <$> loci
  | Stop => (fun r => r.1.2) <$> loci
  end.

Definition set_column (c : column) (vals : list Z)
           (loci : list read_locus) : list read_locus :=
  zip_with (fun v r =>
              match c with
              | Start => (v, r.1.2, r.2)
              | Stop => (r.1.1, v, r.2)
              end) vals loci.

(** The values seen through a view. *)
Definition deref (self : ReadLoci) (v : view) : result (list Z) :=
  loci <-- dict_get self (view_group v) ;;
  Ok (get_column (view_column v) loci).

(** [v.sort()]: the column is sorted in place, in the stored array. *)
Definition sort_view (self : ReadLoci) (v : view) : ReadLoci :=
  match dict_get self (view_group v) with
  | Ok loci =>
      dict_set self (view_group v)
        (set_column (view_column v)
           (merge_sort Z.le (get_column (view_column v) loci)) loci)
  | Raise _ => self
  end.

(** [ReadLoci.tips] *)
Definition tips (self : ReadLoci) : result (dict view) :=
  rmapM (fun '(group, loci) =>
           strand <-- Py.item group 1 ;;
           if String.eqb strand "+" then Ok (group, mk_view group Stop)
           else Ok (group, mk_view group Start))
        self.

(** *** class FingerPrint *)
Abbreviation FingerPrint := (dict (list locus)).

(** The loop of [ReadLoci.fingerprint].  [model_fit] stands for the
    construction of the model ([HUDC] or [UDC] of [tectoolkit.cluster],
    which is not among the sources), its [fit] on the tips and its
    [cluster_extremities]; [fit] copies the array it is given. *)
Fixpoint fingerprint_loop (model_fit : list Z -> result (list locus))
         (self : ReadLoci) (items : dict view) (dictionary : FingerPrint)
  : ReadLoci * result FingerPrint :=
  match items with
  | [] => (self, Ok dictionary)
  | (group, tips) :: items' =>
      let self := sort_view self tips in
      match deref self tips with
      | Raise e => (self, Raise e)
      | Ok values =>
          match model_fit values with
          | Raise e => (self, Raise e)
          | Ok positions =>
              fingerprint_loop model_fit self items'
                (dict_set dictionary group positions)
          end
      end
  end.

(** [ReadLoci.fingerprint(min_reads, eps, min_eps, hierarchical)]: the
    object after the call and the fingerprint returned. *)
Definition fingerprint
           (cluster : bool -> Z -> Z -> Z -> list Z -> result (list locus))
           (self : ReadLoci) (min_reads eps min_eps : Z)
           (hierarchical : bool)
  : ReadLoci * result FingerPrint :=
  match tips self with
  | Raise e => (self, Raise e)
  | Ok views =>
      fingerprint_loop (cluster hierarchical min_reads eps min_eps)
                       self views []
  end.

(** *** class ComparativeBins *)
Abbreviation ComparativeBins := (dict (list locus)).

(** [ComparativeBins.from_union] of the arguments [args].  The keys of [dictionary] come
    out of a [set], in no particular order: the result is a finite
    map. *)
Definition from_union_append (dictionary : gmap group (list locus))
           (arg : dict (list locus)) : gmap group (list locus) :=
  foldl (fun d '(group, loci) =>
           <[take 3 group := default [] (d !! take 3 group) ++ loci]> d)
        dictionary arg.

(** The loop that replaces every value of [dictionary] by its melt; it
    raises as soon as one melt does. *)
Definition melt_values (dictionary : gmap group (result (list locus)))
  : result (gmap group (list locus)) :=
  map_fold (fun k r acc => acc <-- acc ;; v <-- r ;; Ok (<[k := v]> acc))
           (Ok ∅) dictionary.

Definition from_union (args : list (dict (list locus)))
  : result (gmap group (list locus)) :=
  let groups : gset group :=
    list_to_set
      (args ≫= fun arg => (fun '(group, _) => take 3 group) <$> arg) in
  let dictionary : gmap group (list locus) :=
    gset_to_gmap [] groups in
  let dictionary := foldl from_union_append dictionary args in
  melt_values (_loci_melter <$> dictionary).

(** *** class Comparison *)

(** [Comparison._DTYPE_LOCI]: [(start, stop, samples, counts)]. *)
Record comparison_locus : Type := mk_comparison_locus {
  c_start : Z;
  c_stop : Z;
  c_samples : list string;
  c_counts : list Z
}.

Abbreviation Comparison := (dict (list comparison_locus)).

Definition string_le (a b : string) : Prop := String.leb a b = true.

Global Instance string_le_dec a b : Decision (string_le a b).
Proof. unfold string_le. apply _. Defined.

(** [np.sum(np.logical_and(tips >= start, tips <= stop))] *)
Definition count_in (tips : list Z) (start stop : Z) : Z :=
  Np.count_true ((fun t => (t >=? start) && (t <=? stop)) <$> tips).

(** [ComparativeBins.compare(reads)] *)
Definition compare (self : ComparativeBins) (reads : ReadLoci)
  : result Comparison :=
  sources <-- rmapM (fun '(group, _) => Py.item group 3) reads ;;
  let samples := merge_sort string_le (remove_dups sources) in
  tips_dict <-- tips reads ;;
  rmapM (fun '(group, bins) =>
           sample_tips <--
             rmapM (fun sample =>
                      v <-- dict_get tips_dict (group ++ [sample]) ;;
                      deref reads v)
                   samples ;;
           Ok (group,
               (fun '(start, stop) =>
                  mk_comparison_locus start stop samples
                    ((fun tips => count_in tips start stop)
                     <$> sample_tips))
               <$> bins))
        self.

(** *** class _Loci and merge *)

(** The classes of containers: [type(arg)]. *)
Inductive loci_class : Type :=
| Class_Loci
| Class_ReadLoci
| Class_FingerPrint
| Class_ComparativeBins
| Class_Comparison.

Global Instance loci_class_eq_dec : EqDecision loci_class.
Proof. solve_decision. Defined.

(** [_Loci._update_dict(dictionary)]: [self._dict.update(dictionary)]. *)
Definition _update_dict {V} (self dictionary : dict V) : dict V :=
  foldl (fun d '(k, v) => dict_set d k v) self dictionary.

(** [merge] of the arguments [args], each an object with its class and
    its [_dict]; the merged object is a new object of the class of the
    first, updated with every argument in turn. *)
Definition merge {V} (args : list (loci_class * dict V))
  : result (loci_class * dict V) :=
  if negb (length (remove_dups (fst <$> args)) =? 1)%nat
  then Raise AssertionError
  else match args with
       | (class, _) :: _ =>
           Ok (class,
               foldl (fun merged arg => _update_dict merged arg.2) [] args)
       | [] => Raise IndexError
       end.

End Loci.

(** The shape of a melted sequence of intervals: starts ascending, stops
    ascending, and every interval beginning after the end of the one
    before it. *)
Definition separated (out : list Loci.locus) : Prop :=
  Sorted (fun a b => a.2 < b.1) out.

Definition melted (out : list Loci.locus) : Prop :=
  Sorted Z.le (fst <$> out) /\ Sorted Z.le (snd <$> out) /\ separated out.

(** The intervals that an argument of [from_union] contributes to the
    projected key [g], in the order of its items. *)
Definition contribution (g : Loci.group) (arg : Loci.dict (list Loci.locus))
  : list Loci.locus :=
  arg ≫= fun '(group, loci) => if decide (take 3 group = g) then loci else [].

(** ** The comparator as section 4.9 of the specification words it *)

(** The [source] of every read group of [R] whose
    [(reference, strand, category)] is [g]. *)
Definition group_sources (R : Loci.ReadLoci) (g : Loci.group) : list string :=
  omap (fun '(group, _) =>
          if decide (take 3 group = g) then group !! 3%nat else None) R.

(** The [source] of every read group of [R]. *)
Definition all_sources (R : Loci.ReadLoci) : list string :=
  omap (fun '(group, _) => group !! 3%nat) R.

(** The ascending de-duplicated list of a list of samples. *)
Definition ascending_distinct (l : list string) : list string :=
  merge_sort Loci.string_le (remove_dups l).

(** The tip of a read: its higher coordinate on the + strand, its lower
    coordinate otherwise. *)
Definition tip_of (group : Loci.group) (r : Loci.read_locus) : Z :=
  if decide (group !! 1%nat = Some "+"%string) then r.1.2 else r.1.1.

(** The column that holds the tips of a group. *)
Definition tip_column (group : Loci.group) : Loci.column :=
  if decide (group !! 1%nat = Some "+"%string) then Loci.Stop
  else Loci.Start.

(** The tips of the read group [key] of [R]. *)
Definition tips_of (R : Loci.ReadLoci) (key : Loci.group) : option (list Z) :=
  match Loci.dict_get R key with
  | Ok loci => Some (tip_of key <$> loci)
  | Raise _ => None
  end.

(** The number of positions of [tips] in the closed range
    [[start, stop]]. *)
Definition count_between (tips : list Z) (start stop : Z) : Z :=
  Z.of_nat (length (filter (fun t => start <= t <= stop) tips)).

(** What the specification says of one bin of the result: the row of the
    bin [(start, stop)] of the bin group [g]. *)
Definition bin_row_spec (R : Loci.ReadLoci) (g : Loci.group)
           (start stop : Z) (row : Loci.comparison_locus) : Prop :=
  Loci.c_start row = start
  /\ Loci.c_stop row = stop
  /\ Loci.c_samples row = ascending_distinct (group_sources R g)
  /\ length (Loci.c_counts row) = length (Loci.c_samples row)
  /\ forall n s, Loci.c_samples row !! n = Some s ->
       exists tips, tips_of R (g ++ [s]) = Some tips
         /\ Loci.c_counts row !! n = Some (count_between tips start stop).

(** ** The interval merge as section 4.3 of the specification words it

    "Iterate in order, extending the current slice's upper whenever the
    next lower [merges] with the current upper, otherwise emit and
    restart."  The specification takes [next.lower <= current.upper] for
    [merges]. *)

Fixpoint interval_merge (merges : Z -> Z -> bool) (l u : Z)
         (rest : list Cluster.slice_t) : list Cluster.slice_t :=
  match rest with
  | [] => [(l, u)]
  | (l', u') :: rest' =>
      if merges l' u then interval_merge merges l (Z.max u u') rest'
      else (l, u) :: interval_merge merges l' u' rest'
  end.

Definition merge_slices (merges : Z -> Z -> bool)
           (slices : list Cluster.slice_t) : list Cluster.slice_t :=
  match slices with
  | [] => []
  | (l, u) :: rest => interval_merge merges l u rest
  end.

(** The generator [_melter] with the test of [splits[i]] written out:
    [uppers[i-1] <= lowers[i]]. *)
Fixpoint melt_last (l u : Z) (rest : list Cluster.slice_t)
  : list Cluster.slice_t :=
  match rest with
  | [] => [(l, u)]
  | (li, ui) :: rest' =>
      if u <=? li then (l, u) :: melt_last li ui rest'
      else melt_last l ui rest'
  end.

(** Insertion sort, used to follow the sort of the upper bounds one
    element at a time. *)
Fixpoint insert_sorted (u : Z) (V : list Z) : list Z :=
  match V with
  | [] => [u]
  | v :: V' => if u <=? v then u :: V else v :: insert_sorted u V'
  end.

Fixpoint isort (l : list Z) : list Z :=
  match l with
  | [] => []
  | x :: l' => insert_sorted x (isort l')
  end.

(** ** The shape of emitted slices *)

(** Consecutive slices [[l1, u1)] and [[l2, u2)] satisfy [u1 <= l2]. *)
Definition ascending_disjoint (slices : list Cluster.slice_t) : Prop :=
  Sorted (fun a b => a.2 <= b.1) slices.

(** The window of [k] points that starts at [j], as a slice. *)
Definition window (k : Z) (j : Z) : Cluster.slice_t := (j, j + k).

(** The gap between the points [c] and [c + 1] of [array] is covered at
    [epsilon] when some window of [k] points that contains both has a span
    of at most [epsilon]. *)
Definition covered (array : list Z) (k : nat) (epsilon : Z) (c : Z) : Prop :=
  exists (j : nat) (e : Z),
    spans array k !! j = Some e /\ e <= epsilon
    /\ Z.of_nat j <= c < Z.of_nat j + (Z.of_nat k - 1).

(** Every gap inside the slice [[l, u)] is covered. *)
Definition gap_covered (array : list Z) (k : nat) (epsilon : Z)
           (l u : Z) : Prop :=
  forall c, l <= c < u - 1 -> covered array k epsilon c.

(** The rows of [points] that a cluster holds carry consecutive indices,
    from [base] on. *)
Definition consecutive (base : Z)
           (local_points : list Cluster.UDBSCANxH.point) : Prop :=
  Cluster.UDBSCANxH.index <$> local_points
  = seqZ base (Z.of_nat (length local_points)).

(** Slices that are non-empty, lie between [base] and [base + len], and
    each end before all the later ones begin. *)
Definition disjoint_within (base len : Z) (out : list Cluster.slice_t)
  : Prop :=
  StronglySorted (fun a b => a.2 <= b.1) out
  /\ Forall (fun s => base <= s.1 /\ s.1 < s.2 /\ s.2 <= base + len) out.

(** The object on which [_run] goes on once it has assigned [max_eps]. *)
Definition with_max_eps (self : Cluster.UDBSCANxH.t) (X : list Z)
  : result Cluster.UDBSCANxH.t :=
  if negb (Cluster.UDBSCANxH.truthy (Cluster.UDBSCANxH.max_eps self)) then
    f <-- Cluster.UDBSCANxH._fork_epsilon X
            (Cluster.UDBSCANxH.min_points self) ;;
    match f with
    | None => Raise TypeError
    | Some f =>
        Ok (Cluster.UDBSCANxH.mk
              (Cluster.UDBSCANxH.min_points self) (Some (Np.sub f 1))
              (Cluster.UDBSCANxH.min_eps self)
              (Cluster.UDBSCANxH.method self)
              (Cluster.UDBSCANxH.slices self)
              (Cluster.UDBSCANxH.input_array self))
    end
  else Ok self.

(** Coordinates whose differences fit in 64 bits. *)
Definition small (z : Z) : Prop := - 2 ^ 62 <= z < 2 ^ 62.

(** ** Auxiliary definitions for the properties of the remaining code *)

(** Position [c] lies in the half-open slice [s], and in one of the
    slices [bs]. *)
Definition in_slice (c : Z) (s : Cluster.slice_t) : Prop := s.1 <= c < s.2.

Definition in_slices (c : Z) (bs : list Cluster.slice_t) : Prop :=
  exists s, s ∈ bs /\ in_slice c s.

(** The windows of [k] points of [array] whose span is at most
    [epsilon], in ascending order: the sub-clusters of the scan. *)
Definition dense_windows (array : list Z) (k : nat) (epsilon : Z)
  : list Cluster.slice_t :=
  Np.pick (window (Z.of_nat k)
           <$> seqZ 0 (Z.of_nat (length array - (k - 1))))
          ((fun e => e <=? epsilon) <$> spans array k).

(** The body of the loop of [labels]. *)
Definition labels_step (labels : list Z) (item : Z * Cluster.slice_t)
  : list Z :=
  let '(i, (lower, upper)) := item in
  Np.add_slice labels lower upper (i + 1).

(** The pairs [ex] are the extremities of the clusters [cs]: every pair
    holds the least and the greatest value of its cluster, and the pairs
    ascend without overlap. *)
Definition extremities_of (cs : list (list Z)) (ex : list (Z * Z)) : Prop :=
  Forall2 (fun c p => p.1 ∈ c /\ p.2 ∈ c /\ Forall (fun x => p.1 <= x <= p.2) c)
          cs ex
  /\ Sorted (fun a b => a.2 <= b.1) ex.

(** The structured array [points] that [_run] builds from the array and
    the core distances. *)
Definition points_of (X core : list Z) : list Cluster.UDBSCANxH.point :=
  zip_with (fun '(v, i) c => Cluster.UDBSCANxH.mk_point v i c)
           (zip X (Np.arange 0 (Z.of_nat (length X)))) core.

(** The core distances after [np.maximum(self.min_eps, ...)], applied
    when [min_eps] is given and not zero. *)
Definition raised_core (self : Cluster.UDBSCANxH.t) (core : list Z)
  : list Z :=
  match Cluster.UDBSCANxH.min_eps self with
  | Some e_min =>
      if Cluster.UDBSCANxH.truthy (Cluster.UDBSCANxH.min_eps self)
      then Z.max e_min <$> core
      else core
  | None => core
  end.

(** The object with another [max_eps]. *)
Definition set_max_eps (self : Cluster.UDBSCANxH.t) (E : option Z)
  : Cluster.UDBSCANxH.t :=
  Cluster.UDBSCANxH.mk
    (Cluster.UDBSCANxH.min_points self) E
    (Cluster.UDBSCANxH.min_eps self)
    (Cluster.UDBSCANxH.method self)
    (Cluster.UDBSCANxH.slices self)
    (Cluster.UDBSCANxH.input_array self).

(** What [_run] does once the array is long enough and [max_eps] is
    assigned: the initial clusters at [max_eps] and the traversal of
    each. *)
Definition run_from (fuel : nat) (self : Cluster.UDBSCANxH.t) (X : list Z)
           (core : list Z)
  : option (result (Cluster.UDBSCANxH.t * list Cluster.slice_t)) :=
  let points := points_of X (raised_core self core) in
  match Cluster.UDBSCANxH.max_eps self with
  | None => Some (Raise TypeError)
  | Some E =>
      match Cluster.UDBSCANx._cluster
              (Cluster.UDBSCANxH.value <$> points)
              (Cluster.UDBSCANxH.min_points self) E with
      | Raise e => Some (Raise e)
      | Ok initial_cluster_bounds =>
          match Cluster.UDBSCANxH.comprehension
                  (fun '(left_, right_) =>
                     Cluster.UDBSCANxH._traverse_cluster_tree fuel self
                       (Np.slice points left_ right_) E)
                  initial_cluster_bounds with
          | None => None
          | Some (Raise e) => Some (Raise e)
          | Some (Ok clusters) =>
              Some (Ok (self,
                        Cluster.UDBSCANxH._flatten_list
                          (Cluster.UDBSCANxH.Nested clusters)))
          end
      end
  end.

(** Every slice of [inner] lies inside a slice of [outer]. *)
Definition refines (inner outer : list Cluster.slice_t) : Prop :=
  Forall (fun s => exists b, b ∈ outer /\ b.1 <= s.1 /\ s.2 <= b.2) inner.

(** The keys of the dictionary that [from_union] builds: the projection
    [group[0:3]] of every key of every argument. *)
Definition projected_keys (args : list (Loci.dict (list Loci.locus)))
  : list Loci.group :=
  args ≫= fun arg => (fun '(group, _) => take 3 group) <$> arg.

(** Position [c] lies in the closed interval [s], and in one of the
    intervals [l]. *)
Definition in_locus (c : Z) (s : Loci.locus) : Prop := s.1 <= c <= s.2.

Definition in_loci (c : Z) (l : list Loci.locus) : Prop :=
  exists s, s ∈ l /\ in_locus c s.

(** The order of intervals by their start. *)
Definition start_le (a b : Loci.locus) : Prop := a.1 <= b.1.

#[global] Instance start_le_dec a b : Decision (start_le a b).
Proof. unfold start_le. apply _. Defined.

(** The views that [tips] returns for groups whose keys have a strand. *)
Definition views_of (self : Loci.ReadLoci) : Loci.dict Loci.view :=
  (fun '(g, _) => (g, Loci.mk_view g (tip_column g))) <$> self.

(** The array of a group with its column of tips sorted in place. *)
Definition sort_tips (g : Loci.group) (loci : list Loci.read_locus)
  : list Loci.read_locus :=
  Loci.set_column (tip_column g)
    (merge_sort Z.le (Loci.get_column (tip_column g) loci)) loci.

(** The reads after the column of tips of every group has been sorted in
    place. *)
Definition sorted_tips_store (self : Loci.ReadLoci) : Loci.ReadLoci :=
  (fun '(g, loci) => (g, sort_tips g loci)) <$> self.

(** The value of the last item with the key [k] among the items of the
    dictionaries [args], taken in order. *)
Definition last_value {V} (args : list (Loci.dict V)) (k : Loci.group)
  : result V :=
  Loci.dict_get (reverse (concat args)) k.

(** ** libtec.py *)

(** The tips of the reads after [reads.sort(order=('tip', 'tail'))]. *)
Definition sorted_tips (reads : list Libtec.sam_read) : list Z :=
  Libtec.tip <$> merge_sort Libtec.tip_tail_le reads.

(** The least and the greatest value of the slice [s] of the sorted
    array [T]: [(T[lower], T[upper - 1])]. *)
Definition extremes (T : list Z) (s : Cluster.slice_t) : Z * Z :=
  (at_ T s.1, at_ T (s.2 - 1)).

(** The windows of [k] points selected by a mask whose first entry stands
    for the window that starts at [p]. *)
Fixpoint scan_from (k : nat) (p : nat) (mask : list bool)
  : list Cluster.slice_t :=
  match mask with
  | [] => []
  | b :: mask' =>
      if b then window (Z.of_nat k) (Z.of_nat p) :: scan_from k (S p) mask'
      else scan_from k (S p) mask'
  end.

(** The mask of the dense windows of [T]. *)
Definition dense_mask (T : list Z) (k : nat) (epsilon : Z) : list bool :=
  (fun e => e <=? epsilon) <$> spans T k.

(** An optional parameter that, when given, fits in 64 bits. *)
Definition int64_param (p : option Z) : Prop :=
  match p with
  | Some z => Np.int64 z
  | None => True
  end.

(** The number of entries of [l] equal to [i]. *)
Definition occurrences (i : Z) (l : list Z) : Z :=
  Z.of_nat (length (filter (fun t => t = i) l)).

(** The number of reads whose tip is at position [p]. *)
Definition count_tip (reads : list Libtec.sam_read) (p : Z) : Z :=
  occurrences p (Libtec.tip <$> reads).

(** One step of the loop of [cluster_depth]. *)
Definition depth_step (acc : result (list Z)) (tip : Z) : result (list Z) :=
  depth <-- acc ;; Libtec.increment depth tip.

(** ** reads.py *)

(** The ends of the read [r] that [end] names lie within [[lo, hi]]. *)
Definition end_within (end_ : string) (lo hi : Z) (r : Reads.read) : Prop :=
  (end_ <> "tail"%string -> lo <= Reads.read_tip r <= hi)
  /\ (end_ <> "tip"%string -> lo <= Reads.read_tail r <= hi).

Global Instance end_within_dec end_ lo hi r :
  Decision (end_within end_ lo hi r).
Proof. unfold end_within. apply _. Defined.

(** ** classes.py *)

(** The bits of a positive number, the lowest first. *)
Fixpoint pos_bits (p : positive) : list bool :=
  match p with
  | xH => [true]
  | xO p' => false :: pos_bits p'
  | xI p' => true :: pos_bits p'
  end.

(** One character of [bin(flag)] through [int] into a boolean. *)
Definition parse_bit (c : ascii) : result bool :=
  z <-- Py.int (String c EmptyString) ;; Ok (negb (z =? 0)).

(** [dict(pairs)] *)
Definition dict_of {V} (pairs : list (string * V)) : gmap string V :=
  foldl (fun d '(k, v) => <[k := v]> d) ∅ pairs.
Example core_distances_ex1 :
  Cluster.core_distances [0; 0; 3; 4; 4; 6; 26; 28; 28; 29; 32; 32] 3
  = Ok [3; 3; 1; 1; 1; 2; 2; 1; 1; 1; 3; 3].
Proof. vm_compute. reflexivity. Qed.

(** ** Facts about the numpy operations *)

Section np_facts.

Lemma bound_nonneg (n : nat) (i : Z) :
  0 <= i <= Z.of_nat n -> Np.bound n i = Z.to_nat i.
Proof.
  intros H. unfold Np.bound.
  destruct (Z.ltb_spec i 0); [lia|]. f_equal. lia.
Qed.

Lemma wrap64_id z : Np.int64 z -> Np.wrap64 z = z.
Proof.
  unfold Np.int64, Np.wrap64. intros H.
  rewrite Z.mod_small; lia.
Qed.

Lemma wrap64_int64 z : Np.int64 (Np.wrap64 z).
Proof.
  unfold Np.int64, Np.wrap64.
  pose proof (Z.mod_pos_bound (z + 2 ^ 63) (2 ^ 64) ltac:(lia)). lia.
Qed.

(** On values whose difference fits in 64 bits the numpy subtraction is
    the integer subtraction. *)
Lemma sub_exact a b : Np.int64 (a - b) -> Np.sub a b = a - b.
Proof. apply wrap64_id. Qed.

Lemma foldl_min_le x l : foldl Z.min x l <= x.
Proof.
  revert x. induction l as [|y l IH]; intros x; simpl; [lia|].
  specialize (IH (Z.min x y)). lia.
Qed.

Lemma foldl_min_lower x l y : y ∈ l -> foldl Z.min x l <= y.
Proof.
  revert x. induction l as [|z l IH]; intros x Hy; simpl.
  - by apply elem_of_nil in Hy.
  - apply elem_of_cons in Hy as [->|Hy].
    + pose proof (foldl_min_le (Z.min x z) l). lia.
    + by apply IH.
Qed.

Lemma foldl_min_elem x l : foldl Z.min x l = x \/ foldl Z.min x l ∈ l.
Proof.
  revert x. induction l as [|z l IH]; intros x; simpl; [by left|].
  destruct (IH (Z.min x z)) as [H|H].
  - rewrite H. destruct (Z.min_spec x z) as [[_ ->]|[_ ->]].
    + by left.
    + right. by left.
  - right. by right.
Qed.

Lemma foldl_max_ge x l : x <= foldl Z.max x l.
Proof.
  revert x. induction l as [|y l IH]; intros x; simpl; [lia|].
  specialize (IH (Z.max x y)). lia.
Qed.

Lemma foldl_max_upper x l y : y ∈ l -> y <= foldl Z.max x l.
Proof.
  revert x. induction l as [|z l IH]; intros x Hy; simpl.
  - by apply elem_of_nil in Hy.
  - apply elem_of_cons in Hy as [->|Hy].
    + pose proof (foldl_max_ge (Z.max x z) l). lia.
    + by apply IH.
Qed.

Lemma foldl_max_elem x l : foldl Z.max x l = x \/ foldl Z.max x l ∈ l.
Proof.
  revert x. induction l as [|z l IH]; intros x; simpl; [by left|].
  destruct (IH (Z.max x z)) as [H|H].
  - rewrite H. destruct (Z.max_spec x z) as [[_ ->]|[_ ->]].
    + right. by left.
    + by left.
  - right. by right.
Qed.

Lemma np_max_spec a m :
  Np.max a = Ok m -> m ∈ a /\ forall y, y ∈ a -> y <= m.
Proof.
  destruct a as [|x a]; simpl; [discriminate|]. intros [= <-]. split.
  - destruct (foldl_max_elem x a) as [->|H]; [by left|by right].
  - intros y [->|Hy]%elem_of_cons.
    + apply foldl_max_ge.
    + by apply foldl_max_upper.
Qed.

Lemma np_max_ok a : a <> [] -> exists m, Np.max a = Ok m.
Proof. destruct a; [done|]. eauto. Qed.

(** Column [c] of the column-wise minimum is the minimum of column [c]. *)
Lemma foldl_zip_min_lookup (rs : list (list Z)) (r : list Z) (c : nat) x :
  Forall (fun row => length row = length r) rs ->
  r !! c = Some x ->
  foldl (zip_with Z.min) r rs !! c
  = Some (foldl Z.min x ((fun row => default 0 (row !! c)) <$> rs)).
Proof.
  revert r x. induction rs as [|row rs IH]; intros r x Hlen Hx; simpl.
  - done.
  - inversion Hlen as [|? ? Hrow Hrs]; subst.
    destruct (lookup_lt_is_Some_2 row c) as [y Hy].
    { rewrite Hrow. by eapply lookup_lt_Some. }
    rewrite Hy. simpl. apply IH.
    + eapply Forall_impl; [exact Hrs|]. intros row' Hr'. simpl in Hr'.
      rewrite length_zip_with. lia.
    + rewrite lookup_zip_with, Hx, Hy. done.
Qed.

Lemma foldl_zip_min_length (rs : list (list Z)) (r : list Z) :
  Forall (fun row => length row = length r) rs ->
  length (foldl (zip_with Z.min) r rs) = length r.
Proof.
  revert r. induction rs as [|row rs IH]; intros r Hlen; simpl; [done|].
  inversion Hlen as [|? ? Hrow Hrs]; subst.
  rewrite IH.
  - rewrite length_zip_with. lia.
  - eapply Forall_impl; [exact Hrs|]. intros row' Hr'. simpl in Hr'.
    rewrite length_zip_with. lia.
Qed.

End np_facts.

(** ** The stack of shifted rows and its column-wise minimum *)

Section stacked.
Local Open Scope nat_scope.

Variables (m : Z) (eps : list Z) (r : nat).
Hypothesis r_pos : 0 < r.
Hypothesis eps_ne : eps <> [].
Hypothesis m_upper : forall e, e ∈ eps -> (e <= m)%Z.

Local Abbreviation n := (length eps + r - 1).
Local Abbreviation smin := (stacked_min m eps r).

Lemma shifted_length i : i < r -> length (shifted n m eps i) = n.
Proof.
  intros Hi. unfold shifted.
  rewrite !length_app, !length_replicate. lia.
Qed.

Lemma shifted_lookup_in i c :
  i < r -> i <= c < i + length eps ->
  shifted n m eps i !! c = eps !! (c - i).
Proof.
  intros Hi Hc. unfold shifted.
  rewrite lookup_app_r by (rewrite length_replicate; lia).
  rewrite length_replicate.
  rewrite lookup_app_l by lia. done.
Qed.

Lemma shifted_lookup_out i c :
  i < r -> c < n -> ~ (i <= c < i + length eps) ->
  shifted n m eps i !! c = Some m.
Proof.
  intros Hi Hc Hout. unfold shifted.
  destruct (decide (c < i)) as [Hlt|Hge].
  - rewrite lookup_app_l by (rewrite length_replicate; lia).
    by apply lookup_replicate_2.
  - rewrite lookup_app_r by (rewrite length_replicate; lia).
    rewrite length_replicate.
    rewrite lookup_app_r by lia.
    apply lookup_replicate_2. lia.
Qed.

Lemma stacked_min_length : length smin = n.
Proof.
  unfold stacked_min. rewrite foldl_zip_min_length.
  - apply shifted_length. lia.
  - apply Forall_fmap, Forall_forall. intros i Hi%elem_of_seq. simpl.
    rewrite !shifted_length; lia.
Qed.

(** Column [c] of the minimum is below the cell of every row. *)
Lemma stacked_min_below c v i x :
  smin !! c = Some v -> i < r ->
  shifted n m eps i !! c = Some x -> (v <= x)%Z.
Proof.
  intros Hv Hi Hx.
  assert (Hc : c < n).
  { rewrite <- stacked_min_length. by eapply lookup_lt_Some. }
  destruct (lookup_lt_is_Some_2 (shifted n m eps 0) c) as [x0 Hx0].
  { rewrite shifted_length; lia. }
  unfold stacked_min in Hv.
  rewrite (foldl_zip_min_lookup _ _ _ x0) in Hv; [|
    apply Forall_fmap, Forall_forall; intros k Hk%elem_of_seq; simpl;
    rewrite !shifted_length; lia | done].
  injection Hv as <-.
  destruct (decide (i = 0)) as [->|Hne].
  - rewrite Hx0 in Hx. injection Hx as <-. apply foldl_min_le.
  - apply foldl_min_lower.
    apply list_elem_of_fmap. exists (shifted n m eps i). split.
    + by rewrite Hx.
    + apply list_elem_of_fmap. exists i. split; [done|].
      apply elem_of_seq. lia.
Qed.

(** Column [c] of the minimum is the cell of some row. *)
Lemma stacked_min_attained c v :
  smin !! c = Some v ->
  exists i, i < r /\ shifted n m eps i !! c = Some v.
Proof.
  intros Hv.
  assert (Hc : c < n).
  { rewrite <- stacked_min_length. by eapply lookup_lt_Some. }
  destruct (lookup_lt_is_Some_2 (shifted n m eps 0) c) as [x0 Hx0].
  { rewrite shifted_length; lia. }
  unfold stacked_min in Hv.
  rewrite (foldl_zip_min_lookup _ _ _ x0) in Hv; [|
    apply Forall_fmap, Forall_forall; intros k Hk%elem_of_seq; simpl;
    rewrite !shifted_length; lia | done].
  injection Hv as <-.
  match goal with |- context [foldl Z.min x0 ?l] =>
    destruct (foldl_min_elem x0 l) as [->|Hin] end.
  - exists 0. split; [lia|done].
  - apply list_elem_of_fmap in Hin as (row & Hrow & Hin).
    apply list_elem_of_fmap in Hin as (i & -> & Hi%elem_of_seq).
    exists i. split; [lia|].
    destruct (lookup_lt_is_Some_2 (shifted n m eps i) c) as [y Hy].
    { rewrite shifted_length; lia. }
    rewrite Hy in Hrow. simpl in Hrow. by rewrite Hrow.
Qed.

(** The minimum at column [c] is the least span among the windows
    [j] with [j <= c < j + r]. *)
Lemma stacked_min_spec c :
  c < n ->
  exists v, smin !! c = Some v
    /\ (exists j, j <= c < j + r /\ eps !! j = Some v)
    /\ (forall j e, j <= c < j + r -> eps !! j = Some e -> (v <= e)%Z).
Proof.
  intros Hc.
  destruct (lookup_lt_is_Some_2 smin c) as [v Hv].
  { by rewrite stacked_min_length. }
  exists v. split; [done|].
  assert (Hlow : forall j e, j <= c < j + r -> eps !! j = Some e ->
                             (v <= e)%Z).
  { intros j e Hj He.
    assert (Hjlt : j < length eps) by (by eapply lookup_lt_Some).
    apply (stacked_min_below c v (c - j) e Hv); [lia|].
    rewrite shifted_lookup_in by lia.
    replace (c - (c - j)) with j by lia. done. }
  split; [|done].
  destruct (stacked_min_attained c v Hv) as (i & Hi & Hrow).
  destruct (decide (i <= c < i + length eps)) as [Hin|Hout].
  - exists (c - i). split; [lia|].
    by rewrite shifted_lookup_in in Hrow by lia.
  - rewrite shifted_lookup_out in Hrow by done. injection Hrow as <-.
    set (j0 := c - (r - 1)).
    assert (0 < length eps) by (destruct eps; [done|simpl; lia]).
    assert (Hj0 : j0 < length eps) by (subst j0; lia).
    destruct (lookup_lt_is_Some_2 eps j0 Hj0) as [e He].
    exists j0. split; [subst j0; lia|].
    assert (e <= m)%Z by (apply m_upper; by eapply list_elem_of_lookup_2).
    assert (m <= e)%Z by (apply (Hlow j0 e); [subst j0; lia|done]).
    rewrite He. f_equal. lia.
Qed.

End stacked.

(** ** core_distances *)

Section core_distances_facts.

Lemma rmapM_indexed {B} (f : Z * list Z -> result B) (g : nat -> B)
      (row : list Z) (len s : nat) :
  (forall i, (s <= i < s + len)%nat -> f (Z.of_nat i + 0, row) = Ok (g i)) ->
  rmapM f (zip ((fun i : nat => Z.of_nat i + 0) <$> seq s len)
               (replicate len row))
  = Ok (g <$> seq s len).
Proof.
  revert s. induction len as [|len IH]; intros s Hf; simpl; [done|].
  rewrite Hf by lia. simpl.
  rewrite IH; [done|]. intros i Hi. apply Hf. lia.
Qed.

Lemma spans_length X k :
  (1 <= k <= length X)%nat -> length (spans X k) = (length X - (k - 1))%nat.
Proof.
  intros Hk. unfold spans.
  rewrite length_zip_with, length_drop, length_take. lia.
Qed.

Lemma spans_lookup X k j a b :
  (1 <= k)%nat -> X !! j = Some a -> X !! (j + (k - 1))%nat = Some b ->
  spans X k !! j = Some (Np.sub b a).
Proof.
  intros Hk Ha Hb. unfold spans.
  assert (j + (k - 1) < length X)%nat by (by eapply lookup_lt_Some).
  rewrite lookup_zip_with, lookup_drop.
  replace (k - 1 + j)%nat with (j + (k - 1))%nat by lia.
  rewrite Hb. simpl. rewrite lookup_take_lt by lia. by rewrite Ha.
Qed.

Lemma spans_nonempty X k : (1 <= k <= length X)%nat -> spans X k <> [].
Proof.
  intros Hk Hnil. apply (f_equal length) in Hnil.
  rewrite spans_length in Hnil by done. simpl in Hnil. lia.
Qed.

Lemma slice_lower (X : list Z) (k : nat) :
  (1 <= k <= length X)%nat ->
  Np.slice X 0 (Z.of_nat (length X) - (Z.of_nat k - 1))
  = take (length X - (k - 1)) X.
Proof.
  intros Hk. unfold Np.slice.
  rewrite !bound_nonneg by lia. simpl. rewrite drop_0. f_equal. lia.
Qed.

Lemma slice_upper (X : list Z) (k : nat) :
  (1 <= k <= length X)%nat ->
  Np.slice X (Z.of_nat k - 1) (Z.of_nat (length X)) = drop (k - 1) X.
Proof.
  intros Hk. unfold Np.slice.
  rewrite !bound_nonneg by lia.
  rewrite take_ge; [f_equal; lia|]. rewrite length_drop. lia.
Qed.

Lemma set_slice_full (n : nat) m eps (i : nat) (hi : Z) :
  (i + length eps <= n)%nat -> hi = Z.of_nat (i + length eps) ->
  Np.set_slice (replicate n m) (Z.of_nat i + 0) hi eps
  = Ok (shifted n m eps i).
Proof.
  intros Hi ->. unfold Np.set_slice. rewrite length_replicate.
  rewrite !bound_nonneg by lia.
  replace (Z.to_nat (Z.of_nat (i + length eps)) - Z.to_nat (Z.of_nat i + 0))%nat
    with (length eps) by lia.
  rewrite decide_True by done.
  unfold shifted. rewrite take_replicate, drop_replicate.
  do 3 f_equal; f_equal; lia.
Qed.

(** The result of [core_distances] is the column-wise minimum of the
    [k] shifted copies of the span array. *)
Lemma core_distances_stacked X (k : nat) :
  (2 <= k <= length X)%nat ->
  exists m, Np.max (spans X k) = Ok m
    /\ Cluster.core_distances X (Z.of_nat k)
       = Ok (stacked_min m (spans X k) k).
Proof.
  intros Hk.
  destruct (np_max_ok (spans X k)) as [m Hm].
  { apply spans_nonempty. lia. }
  exists m. split; [done|].
  unfold Cluster.core_distances.
  destruct (Z.ltb_spec 1 (Z.of_nat k)); [simpl|lia].
  rewrite slice_lower, slice_upper by lia.
  unfold Np.broadcast.
  rewrite decide_True by (rewrite length_drop, length_take; lia).
  simpl. fold (spans X k). rewrite Hm. simpl.
  unfold Np.range, seqZ, Np.full.
  destruct (Z.ltb_spec (Z.of_nat k) 0); [lia|].
  destruct (Z.ltb_spec (Z.of_nat (length X)) 0); [lia|]. simpl.
  rewrite !Nat2Z.id.
  rewrite (rmapM_indexed _ (shifted (length X) m (spans X k))).
  - simpl. destruct k as [|k]; [lia|]. simpl.
    unfold stacked_min. rewrite spans_length by lia.
    replace (length X - (S k - 1) + S k - 1)%nat with (length X) by lia.
    replace (S k - 1)%nat with k by lia. done.
  - intros i Hi. apply set_slice_full.
    + rewrite spans_length by lia. lia.
    + rewrite spans_length by lia. lia.
Qed.

End core_distances_facts.

Lemma spans_window_span (X : list Z) (k j : nat) :
  (1 <= k)%nat -> (j + (k - 1) < length X)%nat ->
  spans X k !! j = Some (window_span X (Z.of_nat k) (Z.of_nat j)).
Proof.
  intros Hk Hj.
  destruct (lookup_lt_is_Some_2 X j) as [a Ha]; [lia|].
  destruct (lookup_lt_is_Some_2 X (j + (k - 1))) as [b Hb]; [lia|].
  rewrite (spans_lookup X k j a b) by done.
  unfold window_span, at_.
  replace (Z.to_nat (Z.of_nat j + Z.of_nat k - 1)) with (j + (k - 1))%nat
    by lia.
  rewrite Nat2Z.id, Ha, Hb. done.
Qed.

(** For every array [X] of length [n] and every [k] with [2 <= k <= n],
    [core_distances X k] returns an array [D] of length [n] and, for every
    index [i], [D[i]] is the minimum over the [j] with
    [max(0, i-k+1) <= j <= min(n-k, i)] of the span [X[j+k-1] - X[j]]
    as the int64 arrays give it ([window_span]). *)
Lemma core_distances_wrapped_min (X : list Z) (k : Z) :
  2 <= k <= Z.of_nat (length X) ->
  exists D, Cluster.core_distances X k = Ok D
    /\ length D = length X
    /\ forall i, 0 <= i < Z.of_nat (length X) ->
         exists d, D !! Z.to_nat i = Some d
           /\ is_min_over (Z.max 0 (i - k + 1))
                          (Z.min (Z.of_nat (length X) - k) i)
                          (window_span X k) d.
Proof.
  intros Hk.
  set (k' := Z.to_nat k).
  assert (Hk' : (2 <= k' <= length X)%nat) by lia.
  destruct (core_distances_stacked X k' Hk') as (m & Hm & HD).
  replace (Z.of_nat k') with k in HD by lia.
  exists (stacked_min m (spans X k') k'). split; [done|].
  assert (Hne : spans X k' <> []) by (apply spans_nonempty; lia).
  assert (Hup : forall e, e ∈ spans X k' -> e <= m).
  { intros e He. by apply (np_max_spec _ _ Hm). }
  assert (Hlen : (length (spans X k') + k' - 1)%nat = length X).
  { rewrite spans_length by lia. lia. }
  split.
  { rewrite stacked_min_length by (done || lia). done. }
  intros i Hi.
  destruct (stacked_min_spec m (spans X k') k' ltac:(lia) Hne Hup (Z.to_nat i))
    as (v & Hv & (j & Hj & Hjv) & Hlow); [lia|].
  exists v. split; [done|].
  assert (Hjlt : (j < length (spans X k'))%nat) by (by eapply lookup_lt_Some).
  rewrite spans_length in Hjlt by lia.
  split.
  - exists (Z.of_nat j). split; [lia|].
    rewrite spans_window_span in Hjv by lia.
    replace (Z.of_nat k') with k in Hjv by lia. congruence.
  - intros j' Hj'.
    replace k with (Z.of_nat k') by lia.
    replace j' with (Z.of_nat (Z.to_nat j')) by lia.
    apply (Hlow (Z.to_nat j')); [lia|].
    apply spans_window_span; lia.
Qed.

(** Within the array, differences of entries below [2^62] in absolute
    value are not wrapped. *)
Lemma window_span_diff (X : list Z) (k j : Z) :
  Forall small X ->
  0 <= j -> 1 <= k -> j + k - 1 < Z.of_nat (length X) ->
  window_span X k j = window_diff X k j.
Proof.
  intros HX Hj Hk Hjk. unfold window_span, window_diff.
  assert (Hat : forall i, 0 <= i < Z.of_nat (length X) -> small (at_ X i)).
  { intros i Hi. unfold at_.
    destruct (lookup_lt_is_Some_2 X (Z.to_nat i)) as [x Hx]; [lia|].
    rewrite Hx. simpl.
    exact (proj1 (Forall_lookup _ _) HX _ _ Hx). }
  pose proof (Hat j ltac:(lia)) as Hlo.
  pose proof (Hat (j + k - 1) ltac:(lia)) as Hhi.
  apply sub_exact. unfold Np.int64, small in *. lia.
Qed.

(** C1 (amended).  For every array [X] of length [n] whose entries are
    below [2^62] in absolute value and every [k] with [2 <= k <= n],
    [core_distances X k] returns an array [D] of length [n] and, for every
    index [i], [D[i]] is the minimum of the integer differences
    [X[j+k-1] - X[j]] over the [j] with
    [max(0, i-k+1) <= j <= min(n-k, i)].  Sortedness of [X] is not
    needed. *)
Theorem core_distances_window_min (X : list Z) (k : Z) :
  Forall small X ->
  2 <= k <= Z.of_nat (length X) ->
  exists D, Cluster.core_distances X k = Ok D
    /\ length D = length X
    /\ forall i, 0 <= i < Z.of_nat (length X) ->
         exists d, D !! Z.to_nat i = Some d
           /\ is_min_over (Z.max 0 (i - k + 1))
                          (Z.min (Z.of_nat (length X) - k) i)
                          (window_diff X k) d.
Proof.
  intros HX Hk.
  destruct (core_distances_wrapped_min X k Hk) as (D & HD & Hlen & Hmin).
  exists D. split; [done|]. split; [done|].
  intros i Hi. destruct (Hmin i Hi) as (d & Hd & (j & Hj & Hdj) & Hlow).
  exists d. split; [done|]. split.
  - exists j. split; [done|].
    rewrite <- (window_span_diff X k j HX) by lia. done.
  - intros j' Hj'.
    rewrite <- (window_span_diff X k j' HX) by lia. by apply Hlow.
Qed.

Lemma core_distances_window_min_witness :
  exists D, Cluster.core_distances [0; 0; 3; 4; 4; 6; 26] 3 = Ok D
    /\ length D = 7%nat
    /\ forall i, 0 <= i < 7 ->
         exists d, D !! Z.to_nat i = Some d
           /\ is_min_over (Z.max 0 (i - 3 + 1)) (Z.min (7 - 3) i)
                          (window_diff [0; 0; 3; 4; 4; 6; 26] 3) d.
Proof.
  apply (core_distances_window_min [0; 0; 3; 4; 4; 6; 26] 3).
  - repeat constructor; unfold small; lia.
  - simpl. lia.
Defined.

(** C1 as the specification states it fails: on a sorted int64 array
    whose first two entries are [2^63] apart, with [k = 2], the only
    window that contains index 0 has the difference [2^63], which does
    not fit in 64 bits; the function returns [-2^63] there. *)
Lemma core_distances_overflow_counterexample :
  Sorted Z.le [- 2 ^ 63; 0; 2 ^ 63 - 1]
  /\ Forall Np.int64 [- 2 ^ 63; 0; 2 ^ 63 - 1]
  /\ Cluster.core_distances [- 2 ^ 63; 0; 2 ^ 63 - 1] 2
     = Ok [- 2 ^ 63; - 2 ^ 63; 2 ^ 63 - 1]
  /\ window_diff [- 2 ^ 63; 0; 2 ^ 63 - 1] 2 0 = 2 ^ 63
  /\ ~ is_min_over (Z.max 0 (0 - 2 + 1)) (Z.min (3 - 2) 0)
                   (window_diff [- 2 ^ 63; 0; 2 ^ 63 - 1] 2) (- 2 ^ 63).
Proof.
  split; [repeat constructor; lia|].
  split; [repeat constructor; unfold Np.int64; lia|].
  split; [vm_compute; reflexivity|].
  split; [vm_compute; reflexivity|].
  intros [(j & Hj & Hd) _].
  assert (j = 0) as -> by lia.
  vm_compute in Hd. discriminate.
Qed.

(** Outside of [2 <= k <= n] the function raises. *)
Example core_distances_k1 :
  Cluster.core_distances [1; 2; 3] 1 = Raise AssertionError.
Proof. reflexivity. Qed.

Example core_distances_k_large :
  Cluster.core_distances [1; 2; 3] 5 = Raise ValueError.
Proof. reflexivity. Qed.

(** ** _fork_epsilon *)

Section fork_epsilon_facts.

Lemma slice_from_1 {A} (s : list A) : Np.slice_from s 1 = drop 1 s.
Proof.
  unfold Np.slice_from, Np.bound. simpl.
  destruct s as [|x s]; [done|]. f_equal. simpl length. lia.
Qed.

Lemma slice_init {A} (s : list A) :
  Np.slice s 0 (-1) = take (length s - 1) s.
Proof.
  unfold Np.slice, Np.bound. simpl.
  replace (Z.to_nat (0 `min` Z.of_nat (length s))) with 0%nat by lia.
  rewrite drop_0. f_equal. lia.
Qed.

Lemma sub_zero_iff a b :
  Np.int64 a -> Np.int64 b -> Np.sub a b = 0 <-> a = b.
Proof.
  unfold Np.int64, Np.sub, Np.wrap64. intros Ha Hb. split.
  - intros H.
    pose proof (Z.div_mod (a - b + 2 ^ 63) (2 ^ 64) ltac:(lia)) as Hdm.
    set (q := (a - b + 2 ^ 63) / 2 ^ 64) in *.
    lia.
  - intros ->. rewrite Z.sub_diag. reflexivity.
Qed.

(** The mask built from the gradients keeps one value of every run. *)
Lemma pick_gradients prev l :
  Np.int64 prev -> Forall Np.int64 l ->
  Np.pick l ((fun g => negb (g =? 0)) <$> zip_with Np.sub l (prev :: l))
  = delete_plateaus_from prev l.
Proof.
  revert prev. induction l as [|y l IH]; intros prev Hp Hl; [done|].
  inversion Hl as [|? ? Hy Hl']; subst. simpl.
  destruct (Z.eqb_spec (Np.sub y prev) 0) as [Hz|Hnz]; simpl.
  - apply (proj1 (sub_zero_iff y prev Hy Hp)) in Hz. subst prev.
    rewrite Z.eqb_refl. by apply IH.
  - destruct (Z.eqb_spec y prev) as [->|Hne].
    + exfalso. apply Hnz. by apply (proj2 (sub_zero_iff prev prev Hy Hp)).
    + f_equal. by apply IH.
Qed.

Lemma plateau_select s :
  s <> [] -> Forall Np.int64 s ->
  Np.select s
    (true :: ((fun g => negb (g =? 0))
              <$> zip_with Np.sub (Np.slice_from s 1) (Np.slice s 0 (-1))))
  = Ok (delete_plateaus s).
Proof.
  intros Hne Hs. destruct s as [|x l]; [done|].
  inversion Hs as [|? ? Hx Hl]; subst.
  rewrite slice_from_1, slice_init.
  change (drop 1 (x :: l)) with l.
  replace (length (x :: l) - 1)%nat with (length l) by (simpl; lia).
  rewrite zip_with_take_r.
  unfold Np.select. rewrite decide_True.
  - simpl. f_equal. f_equal. by apply pick_gradients.
  - simpl. rewrite length_fmap, length_zip_with. simpl. lia.
Qed.

(** The peak mask keeps the values greater than both neighbours. *)
Lemma pick_peaks prev l :
  Np.pick l (zip_with andb (zip_with Z.gtb l (prev :: l))
                           (zip_with Z.gtb l (drop 1 l) ++ [false]))
  = peaks_from prev l.
Proof.
  revert prev. induction l as [|y l IH]; intros prev; [done|].
  destruct l as [|z l'].
  { simpl. by destruct (y >? prev). }
  specialize (IH y).
  change (drop 1 (y :: z :: l')) with (z :: l').
  change (drop 1 (z :: l')) with l' in IH.
  cbn [zip_with app Np.pick peaks_from].
  cbn [zip_with app] in IH.
  rewrite !Z.gtb_ltb. rewrite !Z.gtb_ltb in IH.
  destruct ((prev <? y) && (z <? y)).
  - f_equal. exact IH.
  - exact IH.
Qed.

Lemma peak_select s :
  s <> [] ->
  Np.select s
    (zip_with andb
       (false :: zip_with Z.gtb (Np.slice_from s 1) (Np.slice s 0 (-1)))
       (zip_with Z.gtb (Np.slice s 0 (-1)) (Np.slice_from s 1) ++ [false]))
  = Ok (strict_peaks s).
Proof.
  intros Hne. destruct s as [|x l]; [done|].
  rewrite slice_from_1, slice_init.
  change (drop 1 (x :: l)) with l.
  replace (length (x :: l) - 1)%nat with (length l) by (simpl; lia).
  rewrite zip_with_take_r, zip_with_take_l.
  assert (Hmask :
    zip_with andb (false :: zip_with Z.gtb l (x :: l))
                  (zip_with Z.gtb (x :: l) l ++ [false])
    = false :: zip_with andb (zip_with Z.gtb l (x :: l))
                             (zip_with Z.gtb l (drop 1 l) ++ [false])).
  { destruct l as [|y l']; [done|]. simpl. done. }
  rewrite Hmask.
  unfold Np.select. rewrite decide_True.
  - simpl. f_equal. apply pick_peaks.
  - simpl. f_equal. rewrite !length_zip_with, length_app, !length_zip_with.
    simpl. rewrite length_drop. lia.
Qed.

End fork_epsilon_facts.

Section coverage.
Local Open Scope nat_scope.


Lemma list_max_spec l v :
  list_max l = Some v -> v ∈ l /\ forall y, y ∈ l -> (y <= v)%Z.
Proof.
  destruct l as [|x l]; simpl; [discriminate|]. intros [= <-]. split.
  - destruct (foldl_max_elem x l) as [->|H]; [by left|by right].
  - intros y [->|Hy]%elem_of_cons.
    + apply foldl_max_ge.
    + by apply foldl_max_upper.
Qed.




Lemma stacked_min_int64 (m : Z) (eps : list Z) (r : nat) :
  0 < r -> eps <> [] -> (forall e, e ∈ eps -> (e <= m)%Z) ->
  Forall Np.int64 eps -> Forall Np.int64 (stacked_min m eps r).
Proof.
  intros Hr Hne Hm Heps. apply Forall_forall. intros v Hv.
  apply list_elem_of_lookup_1 in Hv as [c Hv].
  assert (Hc : c < length eps + r - 1).
  { rewrite <- (stacked_min_length m eps r) by done.
    by eapply lookup_lt_Some. }
  destruct (stacked_min_spec m eps r Hr Hne Hm c Hc)
    as (v' & Hv' & (j & Hj & Hjv) & _).
  rewrite Hv in Hv'. injection Hv' as <-.
  rewrite Forall_forall in Heps. apply Heps.
  by eapply list_elem_of_lookup_2.
Qed.

Lemma spans_int64 (X : list Z) (k : nat) : Forall Np.int64 (spans X k).
Proof.
  unfold spans. apply Forall_forall. intros v Hv.
  apply list_elem_of_lookup_1 in Hv as [i Hv].
  apply lookup_zip_with_Some in Hv as (a & b & -> & _ & _).
  apply wrap64_int64.
Qed.

End coverage.

Section fork_epsilon_correct.

Lemma fork_slice_upper (X : list Z) (k : nat) :
  (1 <= k <= length X)%nat ->
  Np.slice_from X (Z.of_nat k - 1) = drop (k - 1) X.
Proof.
  intros Hk. unfold Np.slice_from. rewrite bound_nonneg by lia.
  f_equal. lia.
Qed.

Lemma fork_slice_lower (X : list Z) (k : nat) :
  (2 <= k <= length X)%nat ->
  Np.slice X 0 (- (Z.of_nat k - 1)) = take (length X - (k - 1)) X.
Proof.
  intros Hk. unfold Np.slice. rewrite (bound_nonneg _ 0) by lia.
  unfold Np.bound. destruct (Z.ltb_spec (- (Z.of_nat k - 1)) 0); [|lia].
  simpl. rewrite drop_0. f_equal. lia.
Qed.

Lemma delete_plateaus_nonempty s : s <> [] -> delete_plateaus s <> [].
Proof. by destruct s. Qed.

Lemma list_max_np_max s :
  match s with
  | [] => Ok None
  | _ => v <-- Np.max s ;; Ok (Some v)
  end = Ok (list_max s).
Proof. by destruct s. Qed.

Lemma min_axis0_shifted m eps (r : nat) :
  (0 < r)%nat ->
  Np.min_axis0 (shifted (length eps + r - 1) m eps <$> seq 0 r)
  = Ok (stacked_min m eps r).
Proof.
  intros Hr. destruct r as [|r]; [lia|]. simpl.
  unfold stacked_min.
  replace (S r - 1)%nat with r by lia. done.
Qed.

(** With more than [k] points the code computes the maximum of the peaks
    that survive in the column-wise minimum of the shifted rows. *)
Lemma fork_epsilon_stacked (X : list Z) (k : nat) :
  (2 <= k < length X)%nat ->
  exists m, Np.max (spans X k) = Ok m
    /\ Cluster.UDBSCANxH._fork_epsilon X (Z.of_nat k)
       = Ok (list_max (strict_peaks (delete_plateaus
               (stacked_min m (spans X k) (k - 1))))).
Proof.
  intros Hk.
  destruct (np_max_ok (spans X k)) as [m Hm].
  { apply spans_nonempty. lia. }
  assert (Hup : forall e, e ∈ spans X k -> e <= m).
  { intros e He. by apply (np_max_spec _ _ Hm). }
  assert (Hne : spans X k <> []) by (apply spans_nonempty; lia).
  exists m. split; [done|].
  unfold Cluster.UDBSCANxH._fork_epsilon.
  destruct (Z.leb_spec (Z.of_nat (length X)) (Z.of_nat k)); [lia|].
  rewrite fork_slice_upper, fork_slice_lower by lia.
  unfold Np.broadcast.
  rewrite decide_True by (rewrite length_drop, length_take; lia).
  simpl rbind. fold (spans X k). rewrite Hm. simpl rbind.
  unfold Np.full, Np.range, seqZ.
  destruct (Z.ltb_spec (Z.of_nat k - 1) 0); [lia|].
  destruct (Z.ltb_spec
              (Z.of_nat (length (spans X k)) + (Z.of_nat k - 1) - 1) 0);
    [lia|].
  simpl rbind.
  replace (Z.to_nat (Z.of_nat k - 1)) with (k - 1)%nat by lia.
  replace (Z.to_nat (Z.of_nat (length (spans X k)) + (Z.of_nat k - 1) - 1))
    with (length (spans X k) + (k - 1) - 1)%nat by lia.
  rewrite (rmapM_indexed _
             (shifted (length (spans X k) + (k - 1) - 1) m (spans X k))).
  2:{ intros i Hi. apply set_slice_full; lia. }
  simpl rbind.
  rewrite min_axis0_shifted by lia. simpl rbind.
  assert (Hs : stacked_min m (spans X k) (k - 1) <> []).
  { intros Hnil. apply (f_equal length) in Hnil.
    rewrite stacked_min_length in Hnil by (done || lia).
    assert (0 < length (spans X k))%nat
      by (destruct (spans X k); [done|simpl; lia]).
    simpl in Hnil. lia. }
  rewrite plateau_select; [|done|].
  2:{ apply stacked_min_int64; [lia|done|done|apply spans_int64]. }
  simpl rbind.
  rewrite peak_select by (by apply delete_plateaus_nonempty).
  simpl rbind. apply list_max_np_max.
Qed.



End fork_epsilon_correct.




(** ** Comprehensions that may raise *)

Lemma rmapM_Ok_Forall2 {A B} (f : A -> result B) (l : list A) (l' : list B) :
  rmapM f l = Ok l' -> Forall2 (fun x y => f x = Ok y) l l'.
Proof.
  revert l'. induction l as [|a l IH]; intros l'; simpl.
  - intros [= <-]. constructor.
  - destruct (f a) as [b|e] eqn:Hb; simpl; [|discriminate].
    destruct (rmapM f l) as [bs|e]; simpl; [|discriminate].
    intros [= <-]. constructor; [done|]. by apply IH.
Qed.

Lemma Forall2_rmapM_Ok {A B} (f : A -> result B) (l : list A) (l' : list B) :
  Forall2 (fun x y => f x = Ok y) l l' -> rmapM f l = Ok l'.
Proof.
  induction 1 as [|a b l l' Hab _ IH]; simpl; [done|].
  by rewrite Hab, IH.
Qed.

(** ** The SAM parsers *)

(** [ReadGroup._parse_sam_strings] of [reads.py] gives the tips and tails of
    the tests, with the strand given and with the strand read off the
    flag. *)
Lemma reads_parse_sam_tip_tail (orientation : Z -> option string) :
  Reads._parse_sam_strings orientation [sam_forward_2_7] (Some "+"%string)
  = Ok [Some (8, 2, "+"%string, "Gypsy27_a"%string)]
  /\ Reads._parse_sam_strings orientation [sam_reverse_7_3] (Some "-"%string)
     = Ok [Some (7, 9, "-"%string, "Gypsy27_c"%string)]
  /\ Reads._parse_sam_strings Reads.flag_orientation
       [sam_forward_2_7; sam_reverse_7_3] None
     = Ok [Some (8, 2, "+"%string, "Gypsy27_a"%string);
           Some (7, 9, "-"%string, "Gypsy27_c"%string)].
Proof.
  split; [reflexivity|]. split; [reflexivity|]. vm_compute. reflexivity.
Qed.

(** C10.  [libtec.parse_sam_strings] computes the end of a read as
    [start + length], without the [- 1] of the 1-based inclusive
    coordinates that [ReadGroup._parse_sam_strings] applies: the read on the
    + strand at position 2 with a SEQ of length 7 gets tip 9 (not 8) and
    tail 2, and the read on the - strand at position 7 with a SEQ of
    length 3 gets tip 7 and tail 10 (not 9). *)
Theorem libtec_parse_sam_off_by_one :
  Libtec.parse_sam_strings [sam_forward_2_7] "+"%string
  = Ok [(9, 2, 7, true)]
  /\ Libtec.parse_sam_strings [sam_reverse_7_3] "-"%string
     = Ok [(7, 10, 3, false)].
Proof.
  split; vm_compute; reflexivity.
Qed.

(** ** ReadLoci.fingerprint and the stored arrays *)

(** [tips] returns views of the stored columns: what is read through them
    is what the object holds. *)
Lemma tips_views (self : Loci.ReadLoci) (views : Loci.dict Loci.view) :
  Loci.tips self = Ok views ->
  Forall2 (fun '(group, loci) '(group', v) =>
             group' = group /\ Loci.view_group v = group)
          self views.
Proof.
  intros Ht. apply rmapM_Ok_Forall2 in Ht.
  eapply Forall2_impl; [exact Ht|].
  intros [group loci] [group' v] Hf. simpl in Hf.
  destruct (Py.item group 1) as [strand|e]; simpl in Hf; [|discriminate].
  destruct (String.eqb strand "+"); injection Hf as <- <-; done.
Qed.

(** C7.  [fingerprint] sorts the tips through the view that [tips]
    returned, that is inside the array the object stores: with the group
    [("chr1", "+", "gypsy", "s1")] holding the reads [(1, 9, a)] and
    [(2, 5, b)], the object holds [(1, 5, a)] and [(2, 9, b)] after the
    call, whatever the clustering model does with the tips. *)
Theorem fingerprint_sorts_stored_column
        (cluster : bool -> Z -> Z -> Z -> list Z -> result (list Loci.locus)) :
  let key := ["chr1"; "+"; "gypsy"; "s1"]%string in
  let r := [(key, [(1, 9, "a"%string); (2, 5, "b"%string)])] in
  (Loci.fingerprint cluster r 2 10 0 true).1
  = [(key, [(1, 5, "a"%string); (2, 9, "b"%string)])]
  /\ (Loci.fingerprint cluster r 2 10 0 true).1 <> r.
Proof.
  intros key r.
  assert (Hfst : (Loci.fingerprint cluster r 2 10 0 true).1
                 = [(key, [(1, 5, "a"%string); (2, 9, "b"%string)])]).
  { unfold Loci.fingerprint.
    assert (Ht : Loci.tips r = Ok [(key, Loci.mk_view key Loci.Stop)])
      by reflexivity.
    rewrite Ht. cbn [Loci.fingerprint_loop].
    assert (Hs : Loci.sort_view r (Loci.mk_view key Loci.Stop)
                 = [(key, [(1, 5, "a"%string); (2, 9, "b"%string)])])
      by (vm_compute; reflexivity).
    rewrite Hs.
    assert (Hd : Loci.deref
                   [(key, [(1, 5, "a"%string); (2, 9, "b"%string)])]
                   (Loci.mk_view key Loci.Stop) = Ok [5; 9])
      by reflexivity.
    rewrite Hd.
    destruct (cluster true 2 10 0 [5; 9]); reflexivity. }
  split; [exact Hfst|].
  rewrite Hfst. discriminate.
Qed.

(** ** fit on an array without a fork *)

(** C4.  With [max_eps] left to its default the hierarchical clusterer
    computes it as [_fork_epsilon(...) - 1]; on the sorted array
    [0, 1, ..., 9] with [min_points = 3] there is no fork,
    [_fork_epsilon] returns [None] and [fit] raises [TypeError]. *)
Theorem hudc_fit_without_fork_raises (fuel : nat) :
  Sorted Z.le [0; 1; 2; 3; 4; 5; 6; 7; 8; 9]
  /\ Cluster.UDBSCANxH.__init__ 3 None None "conservative"
     = Ok (Cluster.UDBSCANxH.mk 3 None None "conservative" [] [])
  /\ Cluster.UDBSCANxH._fork_epsilon [0; 1; 2; 3; 4; 5; 6; 7; 8; 9] 3
     = Ok None
  /\ Cluster.UDBSCANxH.fit fuel
       (Cluster.UDBSCANxH.mk 3 None None "conservative" [] [])
       [0; 1; 2; 3; 4; 5; 6; 7; 8; 9]
     = Some (Raise TypeError).
Proof.
  split; [repeat constructor; lia|].
  split; [reflexivity|].
  split; [vm_compute; reflexivity|].
  vm_compute. reflexivity.
Qed.

(** ** Sorting *)

Section sorting_facts.

Lemma merge_sort_sorted_id (l : list Z) :
  Sorted Z.le l -> merge_sort Z.le l = l.
Proof.
  intros Hl. apply (Sorted_unique_strong Z.le).
  - intros x1 x2 _ _ H1 H2. lia.
  - apply Sorted_merge_sort. apply _.
  - done.
  - apply merge_sort_Permutation.
Qed.

Lemma merge_sort_perm (l1 l2 : list Z) :
  l1 ≡ₚ l2 -> merge_sort Z.le l1 = merge_sort Z.le l2.
Proof.
  intros Hp. apply (Sorted_unique_strong Z.le).
  - intros x1 x2 _ _ H1 H2. lia.
  - apply Sorted_merge_sort. apply _.
  - apply Sorted_merge_sort. apply _.
  - by rewrite !merge_sort_Permutation.
Qed.

Lemma merge_sort_length (l : list Z) :
  length (merge_sort Z.le l) = length l.
Proof. by rewrite merge_sort_Permutation. Qed.

Lemma merge_sort_strongly_sorted (l : list Z) :
  StronglySorted Z.le (merge_sort Z.le l).
Proof. apply StronglySorted_merge_sort; apply _. Qed.

End sorting_facts.

(** ** _loci_melter *)

Section loci_melter_facts.

(** The loop on ascending starts and stops yields a melted sequence that
    begins at [start] and whose first interval ends at or after
    [stop]. *)
Lemma loci_melter_loop_melted start stop rest :
  StronglySorted Z.le (start :: (fst <$> rest)) ->
  StronglySorted Z.le (stop :: (snd <$> rest)) ->
  exists stop' tl,
    Loci._loci_melter_loop start stop rest = (start, stop') :: tl
    /\ stop <= stop'
    /\ melted ((start, stop') :: tl).
Proof.
  revert start stop.
  induction rest as [|[start_i stop_i] rest IH]; intros start stop Hs Ht.
  - exists stop, []. split; [done|]. split; [lia|].
    repeat split; repeat constructor.
  - simpl in Hs, Ht.
    apply StronglySorted_inv in Hs as [Hs_tl Hs_hd].
    apply StronglySorted_inv in Ht as [Ht_tl Ht_hd].
    pose proof Hs_tl as Hs_tl'. pose proof Ht_tl as Ht_tl'.
    apply StronglySorted_inv in Hs_tl' as [Hs_tl2 Hs_hd2].
    apply StronglySorted_inv in Ht_tl' as [Ht_tl2 Ht_hd2].
    inversion Hs_hd as [|? ? Hs1 Hs_rest]; subst.
    inversion Ht_hd as [|? ? Ht1 Ht_rest]; subst.
    simpl. destruct (Z.leb_spec start_i stop) as [Hle|Hgt].
    + destruct (Z.gtb_spec stop_i stop) as [Hup|Hkeep].
      * destruct (IH start stop_i) as (stop' & tl & Heq & Hge & Hm).
        { by constructor. }
        { done. }
        exists stop', tl. split; [done|]. split; [lia|done].
      * destruct (IH start stop) as (stop' & tl & Heq & Hge & Hm).
        { by constructor. }
        { by constructor. }
        exists stop', tl. split; [done|]. split; [lia|done].
    + destruct (IH start_i stop_i Hs_tl Ht_tl)
        as (stop' & tl & Heq & Hge & Hs' & Ht' & Hsep).
      exists stop, ((start_i, stop') :: tl). rewrite Heq.
      split; [done|]. split; [lia|]. repeat split.
      * simpl. constructor; [exact Hs'|]. constructor. lia.
      * simpl. constructor; [exact Ht'|]. constructor. simpl. lia.
      * constructor; [exact Hsep|]. constructor. simpl. lia.
Qed.

(** On a separated sequence the loop changes nothing. *)
Lemma loci_melter_loop_separated start stop tl :
  separated ((start, stop) :: tl) ->
  Loci._loci_melter_loop start stop tl = (start, stop) :: tl.
Proof.
  revert start stop. induction tl as [|[s t] tl IH]; intros start stop Hsep.
  - done.
  - apply Sorted_inv in Hsep as [Htl Hhd].
    inversion Hhd as [|? ? Hlt]; subst. simpl in Hlt. simpl.
    destruct (Z.leb_spec s stop) as [Hle|Hgt]; [lia|].
    f_equal. by apply IH.
Qed.

Lemma loci_melter_melted array out :
  Loci._loci_melter array = Ok out -> out <> [] /\ melted out.
Proof.
  unfold Loci._loci_melter.
  pose proof (merge_sort_strongly_sorted (fst <$> array)) as Hs.
  pose proof (merge_sort_strongly_sorted (snd <$> array)) as Ht.
  pose proof (merge_sort_length (fst <$> array)) as Hls.
  pose proof (merge_sort_length (snd <$> array)) as Hlt.
  rewrite length_fmap in Hls, Hlt.
  destruct (merge_sort Z.le (fst <$> array)) as [|s0 S']; [discriminate|].
  destruct (merge_sort Z.le (snd <$> array)) as [|t0 T']; [discriminate|].
  intros [= <-]. simpl drop. rewrite drop_0.
  destruct (loci_melter_loop_melted s0 t0 (zip S' T'))
    as (stop' & tl & Heq & _ & Hm).
  - rewrite fst_zip; [done|]. simpl in Hls, Hlt. lia.
  - rewrite snd_zip; [done|]. simpl in Hls, Hlt. lia.
  - rewrite Heq. done.
Qed.

Lemma loci_melter_fixpoint out :
  out <> [] -> melted out -> Loci._loci_melter out = Ok out.
Proof.
  intros Hne (Hs & Ht & Hsep). unfold Loci._loci_melter.
  rewrite !merge_sort_sorted_id by done.
  destruct out as [|[s t] tl]; [done|]. simpl. rewrite drop_0.
  rewrite zip_fst_snd. f_equal. by apply loci_melter_loop_separated.
Qed.

End loci_melter_facts.

(** C8.  For every interval array [I] (any order, possibly overlapping),
    melting twice gives what melting once gives; on the empty array, where
    [_loci_melter] raises [IndexError], both sides raise it. *)
Theorem loci_melter_idempotent (I : list Loci.locus) :
  (out <-- Loci._loci_melter I ;; Loci._loci_melter out)
  = Loci._loci_melter I.
Proof.
  destruct (Loci._loci_melter I) as [out|e] eqn:Hm; simpl; [|done].
  apply loci_melter_melted in Hm as [Hne Hmelted].
  by apply loci_melter_fixpoint.
Qed.

Example loci_melter_scenario_S5 :
  Loci._loci_melter [(1, 5); (3, 7); (10, 12); (11, 20); (30, 30)]
  = Ok [(1, 7); (10, 20); (30, 30)].
Proof. vm_compute. reflexivity. Qed.

(** ** ComparativeBins.from_union *)

Section from_union_facts.

Lemma loci_melter_perm (l1 l2 : list Loci.locus) :
  l1 ≡ₚ l2 -> Loci._loci_melter l1 = Loci._loci_melter l2.
Proof.
  intros Hp. unfold Loci._loci_melter.
  rewrite (merge_sort_perm (fst <$> l1) (fst <$> l2)) by (by rewrite Hp).
  rewrite (merge_sort_perm (snd <$> l1) (snd <$> l2)) by (by rewrite Hp).
  done.
Qed.

Lemma from_union_append_lookup (d : gmap Loci.group (list Loci.locus))
      (arg : Loci.dict (list Loci.locus)) (g : Loci.group) :
  (forall group loci, (group, loci) ∈ arg -> is_Some (d !! take 3 group)) ->
  Loci.from_union_append d arg !! g
  = (fun v => v ++ contribution g arg) <$> (d !! g).
Proof.
  revert d. induction arg as [|[group loci] arg IH]; intros d Hpresent.
  - simpl. unfold contribution. simpl.
    destruct (d !! g); simpl; [by rewrite app_nil_r|done].
  - unfold Loci.from_union_append. simpl.
    fold (Loci.from_union_append
            (<[take 3 group := default [] (d !! take 3 group) ++ loci]> d)
            arg).
    rewrite IH.
    + destruct (Hpresent group loci) as [v Hv]; [by left|].
      rewrite Hv. unfold contribution at 2. simpl.
      fold (contribution g arg).
      destruct (decide (take 3 group = g)) as [<-|Hne].
      * rewrite lookup_insert_eq, Hv. simpl. by rewrite <- app_assoc.
      * by rewrite lookup_insert_ne by done.
    + intros group' loci' Hin.
      destruct (decide (take 3 group = take 3 group')) as [->|Hne].
      * rewrite lookup_insert_eq. eauto.
      * rewrite lookup_insert_ne by done. apply (Hpresent group' loci').
        by right.
Qed.

Lemma from_union_fold_lookup (args : list (Loci.dict (list Loci.locus)))
      (d : gmap Loci.group (list Loci.locus)) (g : Loci.group) :
  (forall arg group loci,
      arg ∈ args -> (group, loci) ∈ arg -> is_Some (d !! take 3 group)) ->
  foldl Loci.from_union_append d args !! g
  = (fun v => v ++ (args ≫= contribution g)) <$> (d !! g).
Proof.
  revert d. induction args as [|arg args IH]; intros d Hpresent.
  - simpl. destruct (d !! g); simpl; [by rewrite app_nil_r|done].
  - simpl. rewrite IH.
    + rewrite from_union_append_lookup.
      * destruct (d !! g); simpl; [by rewrite <- app_assoc|done].
      * intros group loci Hin. apply (Hpresent arg group loci); [by left|done].
    + intros arg' group loci Harg Hin.
      rewrite from_union_append_lookup.
      * destruct (Hpresent arg' group loci) as [v ->]; [by right|done|].
        simpl. eauto.
      * intros group' loci' Hin'.
        apply (Hpresent arg group' loci'); [by left|done].
Qed.

(** The dictionary that [from_union] melts: every projected key, with
    the contributions of all the arguments. *)
Lemma from_union_dictionary (args : list (Loci.dict (list Loci.locus)))
      (g : Loci.group) :
  let keys := args ≫= fun arg => (fun '(group, _) => take 3 group) <$> arg in
  foldl Loci.from_union_append
        (gset_to_gmap [] (list_to_set keys : gset Loci.group)) args !! g
  = if decide (g ∈ keys) then Some (args ≫= contribution g) else None.
Proof.
  intros keys. rewrite from_union_fold_lookup.
  - rewrite lookup_gset_to_gmap.
    destruct (decide (g ∈ keys)) as [Hin|Hout].
    + rewrite option_guard_True by (by apply elem_of_list_to_set). done.
    + rewrite option_guard_False by (by rewrite elem_of_list_to_set). done.
  - intros arg group loci Harg Hin.
    rewrite lookup_gset_to_gmap, option_guard_True; [eauto|].
    apply elem_of_list_to_set. subst keys.
    apply list_elem_of_bind. exists arg. split; [|done].
    apply list_elem_of_fmap. by exists (group, loci).
Qed.

(** The result of [from_union] does not depend on the order of its
    arguments. *)
Lemma from_union_perm (args args' : list (Loci.dict (list Loci.locus))) :
  args ≡ₚ args' -> Loci.from_union args = Loci.from_union args'.
Proof.
  intros Hp. unfold Loci.from_union. f_equal.
  apply map_eq. intros g. rewrite !lookup_fmap.
  rewrite !from_union_dictionary.
  set (keys := fun l : list (Loci.dict (list Loci.locus)) =>
                 l ≫= fun arg => (fun '(group, _) => take 3 group) <$> arg).
  assert (Hk : keys args ≡ₚ keys args') by (unfold keys; by rewrite Hp).
  fold (keys args). fold (keys args').
  destruct (decide (g ∈ keys args)) as [Hin|Hout].
  - rewrite decide_True by (by rewrite <- Hk). simpl.
    f_equal. apply loci_melter_perm. by rewrite Hp.
  - rewrite decide_False by (by rewrite <- Hk). done.
Qed.

End from_union_facts.

(** C9.  For all loci groups [a] and [b] with [(start, stop)] intervals,
    [from_union(a, b)] and [from_union(b, a)] are equal: both raise, or
    both return the same finite map from the projected
    [(reference, strand, category)] keys to melted intervals. *)
Theorem from_union_commutative (a b : Loci.dict (list Loci.locus)) :
  Loci.from_union [a; b] = Loci.from_union [b; a].
Proof.
  apply from_union_perm. apply Permutation_swap.
Qed.

Example from_union_example :
  Loci.from_union
    [[(["chr1"; "+"; "gypsy"; "s1"]%string, [(1, 9); (20, 50)])];
     [(["chr1"; "+"; "gypsy"; "s2"]%string, [(5, 12)])]]
  = Ok {[ ["chr1"; "+"; "gypsy"]%string := [(1, 12); (20, 50)] ]}.
Proof. vm_compute. reflexivity. Qed.

(** ** The order on sample names *)

Section string_order.

Lemma string_compare_trans (a b c : string) :
  String.compare a b <> Gt -> String.compare b c <> Gt ->
  String.compare a c <> Gt.
Proof.
  revert b c. induction a as [|ca a IH]; intros [|cb b] [|cc c]; simpl;
    try congruence.
  unfold Ascii.compare.
  destruct (N.compare_spec (N_of_ascii ca) (N_of_ascii cb)),
           (N.compare_spec (N_of_ascii cb) (N_of_ascii cc)),
           (N.compare_spec (N_of_ascii ca) (N_of_ascii cc));
    try congruence; try lia; eauto.
Qed.

Global Instance string_le_trans : Transitive Loci.string_le.
Proof.
  intros a b c. unfold Loci.string_le, String.leb. intros Hab Hbc.
  pose proof (string_compare_trans a b c) as Ht.
  destruct (String.compare a b), (String.compare b c),
           (String.compare a c); try done; exfalso; by apply Ht.
Qed.

Global Instance string_le_total : Total Loci.string_le.
Proof. intros a b. apply String.leb_total. Qed.

Lemma ascending_distinct_ext (l1 l2 : list string) :
  (forall s, s ∈ l1 <-> s ∈ l2) ->
  ascending_distinct l1 = ascending_distinct l2.
Proof.
  intros Hext. unfold ascending_distinct.
  apply (Sorted_unique_strong Loci.string_le).
  - intros x1 x2 _ _. apply String.leb_antisym.
  - apply Sorted_merge_sort. apply _.
  - apply Sorted_merge_sort. apply _.
  - rewrite !merge_sort_Permutation.
    apply NoDup_Permutation; [apply NoDup_remove_dups..|].
    intros s. rewrite !elem_of_remove_dups. apply Hext.
Qed.

Lemma ascending_distinct_elem (l : list string) (s : string) :
  s ∈ ascending_distinct l <-> s ∈ l.
Proof.
  unfold ascending_distinct.
  by rewrite merge_sort_Permutation, elem_of_remove_dups.
Qed.

Lemma ascending_distinct_sorted (l : list string) :
  Sorted Loci.string_le (ascending_distinct l)
  /\ NoDup (ascending_distinct l).
Proof.
  unfold ascending_distinct. split.
  - apply Sorted_merge_sort. apply _.
  - rewrite merge_sort_Permutation. apply NoDup_remove_dups.
Qed.

End string_order.

(** ** ComparativeBins.compare *)

Section compare_facts.

Lemma dict_get_elem {V} (d : Loci.dict V) (k : Loci.group) (v : V) :
  Loci.dict_get d k = Ok v -> (k, v) ∈ d.
Proof.
  induction d as [|[k' v'] d IH]; simpl; [discriminate|].
  destruct (decide (k' = k)) as [->|Hne].
  - intros [= ->]. by left.
  - intros H. right. by apply IH.
Qed.

Lemma item_lookup {A} (l : list A) (i : nat) (x : A) :
  Py.item l i = Ok x <-> l !! i = Some x.
Proof.
  unfold Py.item. destruct (l !! i); split; intros H; by inversion H.
Qed.

(** The sources collected by [compare] are the fourth fields of the
    keys of the reads. *)
Lemma sources_all (R : Loci.ReadLoci) (sources : list string) :
  rmapM (fun '(group, _) => Py.item group 3) R = Ok sources ->
  sources = all_sources R.
Proof.
  revert sources. induction R as [|[group loci] R IH]; intros sources.
  - by intros [= <-].
  - simpl. destruct (Py.item group 3) as [s|e] eqn:Hs; simpl; [|discriminate].
    apply item_lookup in Hs.
    destruct (rmapM _ R) as [ss|e]; simpl; [|discriminate].
    intros [= <-]. unfold all_sources. simpl. rewrite Hs. simpl.
    f_equal. by apply IH.
Qed.

Lemma tips_dict_get (R : Loci.ReadLoci) (views : Loci.dict Loci.view)
      (key : Loci.group) (v : Loci.view) :
  Loci.tips R = Ok views ->
  Loci.dict_get views key = Ok v ->
  v = Loci.mk_view key (tip_column key)
  /\ exists loci, Loci.dict_get R key = Ok loci.
Proof.
  revert views. induction R as [|[group loci] R IH]; intros views.
  - intros [= <-]. discriminate.
  - unfold Loci.tips. simpl.
    destruct (Py.item group 1) as [strand|e] eqn:Hstrand; simpl;
      [|discriminate].
    apply item_lookup in Hstrand.
    fold (Loci.tips R).
    assert (Hview :
      (if String.eqb strand "+"
       then Ok (group, Loci.mk_view group Loci.Stop)
       else Ok (group, Loci.mk_view group Loci.Start))
      = Ok (group, Loci.mk_view group (tip_column group))).
    { unfold tip_column. rewrite Hstrand.
      destruct (String.eqb_spec strand "+") as [->|Hne].
      - by rewrite decide_True.
      - rewrite decide_False; [done|]. by intros [= ->]. }
    rewrite Hview. simpl.
    destruct (Loci.tips R) as [views'|e]; simpl; [|discriminate].
    intros [= <-]. simpl.
    destruct (decide (group = key)) as [->|Hne].
    + intros [= <-]. split; [done|]. eauto.
    + intros Hget. by apply (IH views').
Qed.

Lemma deref_tips_of (R : Loci.ReadLoci) (key : Loci.group) (tips : list Z) :
  Loci.deref R (Loci.mk_view key (tip_column key)) = Ok tips ->
  tips_of R key = Some tips.
Proof.
  unfold Loci.deref, tips_of. simpl.
  destruct (Loci.dict_get R key) as [loci|e]; simpl; [|discriminate].
  intros [= <-]. f_equal. unfold tip_column, tip_of.
  destruct (decide (key !! 1%nat = Some "+"%string)); simpl;
    apply list_fmap_ext; by intros ? [[? ?] ?].
Qed.

Lemma count_in_between (tips : list Z) (start stop : Z) :
  Loci.count_in tips start stop = count_between tips start stop.
Proof.
  unfold Loci.count_in, Np.count_true, count_between. f_equal.
  induction tips as [|t tips IH]; [done|].
  simpl. rewrite !filter_cons.
  destruct (Z.geb_spec t start), (Z.leb_spec t stop); simpl.
  - rewrite decide_True by lia. simpl. f_equal. exact IH.
  - rewrite decide_False by lia. exact IH.
  - rewrite decide_False by lia. exact IH.
  - rewrite decide_False by lia. exact IH.
Qed.

Lemma group_sources_elem (R : Loci.ReadLoci) (g : Loci.group) (s : string) :
  s ∈ group_sources R g
  <-> exists group loci,
        (group, loci) ∈ R /\ take 3 group = g /\ group !! 3%nat = Some s.
Proof.
  unfold group_sources. rewrite list_elem_of_omap. split.
  - intros ([group loci] & Hin & Hs).
    destruct (decide (take 3 group = g)); [|discriminate]. eauto.
  - intros (group & loci & Hin & Hg & Hs). exists (group, loci).
    split; [done|]. by rewrite decide_True.
Qed.

Lemma all_sources_elem (R : Loci.ReadLoci) (s : string) :
  s ∈ all_sources R
  <-> exists group loci, (group, loci) ∈ R /\ group !! 3%nat = Some s.
Proof.
  unfold all_sources. rewrite list_elem_of_omap. split.
  - intros ([group loci] & Hin & Hs). eauto.
  - intros (group & loci & Hin & Hs). by exists (group, loci).
Qed.

End compare_facts.

Section compare_correct.

Variables (B : Loci.ComparativeBins) (R : Loci.ReadLoci).

(** What [compare] computes for one bin group once the samples and the
    views are known. *)
Lemma compare_group (views : Loci.dict Loci.view) (g : Loci.group)
      (bins : list Loci.locus) (sample_tips : list (list Z)) :
  length g = 3%nat ->
  Loci.tips R = Ok views ->
  rmapM (fun sample =>
           v <-- Loci.dict_get views (g ++ [sample]) ;; Loci.deref R v)
        (ascending_distinct (all_sources R)) = Ok sample_tips ->
  Forall2 (fun '(start, stop) row => bin_row_spec R g start stop row)
    bins
    ((fun '(start, stop) =>
        Loci.mk_comparison_locus start stop
          (ascending_distinct (all_sources R))
          ((fun tips => Loci.count_in tips start stop) <$> sample_tips))
     <$> bins).
Proof.
  intros Hg Hviews Htips.
  apply rmapM_Ok_Forall2 in Htips.
  assert (Hsample : forall n s,
            ascending_distinct (all_sources R) !! n = Some s ->
            exists tips, sample_tips !! n = Some tips
                         /\ tips_of R (g ++ [s]) = Some tips).
  { intros n s Hs.
    destruct (Forall2_lookup_l _ _ _ _ _ Htips Hs) as (tips & Ht & Hf).
    exists tips. split; [done|].
    destruct (Loci.dict_get views (g ++ [s])) as [v|e] eqn:Hv;
      simpl in Hf; [|discriminate].
    destruct (tips_dict_get R views _ _ Hviews Hv) as [-> _].
    by apply deref_tips_of. }
  assert (Hsamples : ascending_distinct (all_sources R)
                     = ascending_distinct (group_sources R g)).
  { apply ascending_distinct_ext. intros s. split.
    - intros Hs. apply ascending_distinct_elem in Hs.
      apply list_elem_of_lookup_1 in Hs as [n Hn].
      destruct (Hsample n s Hn) as (tips & _ & Htips_of).
      unfold tips_of in Htips_of.
      destruct (Loci.dict_get R (g ++ [s])) as [loci|e] eqn:Hget;
        [|discriminate].
      apply dict_get_elem in Hget.
      apply group_sources_elem. exists (g ++ [s]), loci.
      split; [done|]. split.
      + rewrite take_app_length'; done.
      + rewrite lookup_app_r by lia. by rewrite Hg.
    - intros (group & loci & Hin & _ & Hs)%group_sources_elem.
      apply all_sources_elem. eauto. }
  apply Forall2_fmap_r, Forall_Forall2_diag, Forall_forall.
  intros [start stop] _. unfold bin_row_spec. simpl.
  split; [done|]. split; [done|]. split; [done|]. split.
  - rewrite length_fmap. symmetry. by eapply Forall2_length.
  - intros n s Hs. destruct (Hsample n s Hs) as (tips & Ht & Htips_of).
    exists tips. split; [done|].
    rewrite list_lookup_fmap, Ht. simpl. by rewrite count_in_between.
Qed.

End compare_correct.

(** C6 (as amended).  For every ComparativeBins [B] whose keys have three
    fields and every ReadLoci [R], whenever [B.compare(R)] returns a
    Comparison [C], [C] has the groups of [B] in the same order and, for
    every bin group [g] and every bin [(start, stop)] of it, a row with
    these bounds, whose [samples] is the ascending de-duplicated list of
    the sources of the read groups of [R] whose
    [(reference, strand, category)] is [g], and whose [counts[i]] is the
    number of tips of the sample [samples[i]] in [[start, stop]]. *)
Theorem compare_bins_rows (B : Loci.ComparativeBins) (R : Loci.ReadLoci)
        (C : Loci.Comparison) :
  (forall g bins, (g, bins) ∈ B -> length g = 3%nat) ->
  Loci.compare B R = Ok C ->
  Forall2 (fun '(g, bins) '(g', rows) =>
             g' = g
             /\ Forall2 (fun '(start, stop) row =>
                           bin_row_spec R g start stop row) bins rows)
          B C.
Proof.
  intros Hkeys. unfold Loci.compare.
  destruct (rmapM _ R) as [sources|e] eqn:Hsources; simpl; [|discriminate].
  apply sources_all in Hsources. subst sources.
  fold (ascending_distinct (all_sources R)).
  destruct (Loci.tips R) as [views|e] eqn:Hviews; simpl; [|discriminate].
  intros HC. apply rmapM_Ok_Forall2 in HC.
  apply Forall2_same_length_lookup. split; [by eapply Forall2_length|].
  intros i [g bins] [g' rows] HB HCi.
  destruct (Forall2_lookup_l _ _ _ _ _ HC HB) as (y & Hy & Hf).
  rewrite HCi in Hy. injection Hy as <-.
  destruct (rmapM _ (ascending_distinct (all_sources R)))
    as [sample_tips|e] eqn:Htips; simpl in Hf; [|discriminate].
  injection Hf as <- <-. split; [done|].
  apply (compare_group R views); [|done|done].
  apply (Hkeys g bins). by eapply list_elem_of_lookup_2.
Qed.

Lemma compare_bins_rows_witness :
  Forall2 (fun '(g, bins) '(g', rows) =>
             g' = g
             /\ Forall2 (fun '(start, stop) row =>
                           bin_row_spec
                             [(["chr1"; "+"; "gypsy"; "sampleB"]%string,
                               [(0, 199, "r4"%string); (0, 200, "r5"%string);
                                (0, 201, "r6"%string)]);
                              (["chr1"; "+"; "gypsy"; "sampleA"]%string,
                               [(0, 105, "r1"%string); (0, 150, "r2"%string);
                                (0, 250, "r3"%string)])]
                             g start stop row) bins rows)
    [(["chr1"; "+"; "gypsy"]%string, [(100, 200)])]
    [(["chr1"; "+"; "gypsy"]%string,
      [Loci.mk_comparison_locus 100 200
         ["sampleA"; "sampleB"]%string [2; 2]])].
Proof.
  apply (compare_bins_rows
           [(["chr1"; "+"; "gypsy"]%string, [(100, 200)])]).
  - intros g bins Hin. apply list_elem_of_singleton in Hin.
    injection Hin as -> ->. reflexivity.
  - vm_compute. reflexivity.
Defined.

(** C6 as the specification states it fails: [compare] takes the samples
    from all the read groups and looks the tips of every sample up under
    every bin group; with a bin group on chr1 and a sample that has reads
    on chr2 only it raises [KeyError] and returns no Comparison. *)
Lemma compare_missing_group_counterexample :
  Loci.compare
    [(["chr1"; "+"; "gypsy"]%string, [(100, 200)])]
    [(["chr1"; "+"; "gypsy"; "sampleA"]%string,
      [(0, 105, "r1"%string); (0, 150, "r2"%string)]);
     (["chr2"; "+"; "gypsy"; "sampleB"]%string,
      [(0, 199, "r3"%string)])]
  = Raise KeyError
  /\ ascending_distinct
       (group_sources
          [(["chr1"; "+"; "gypsy"; "sampleA"]%string,
            [(0, 105, "r1"%string); (0, 150, "r2"%string)]);
           (["chr2"; "+"; "gypsy"; "sampleB"]%string,
            [(0, 199, "r3"%string)])]
          ["chr1"; "+"; "gypsy"]%string)
     = ["sampleA"%string].
Proof.
  split; vm_compute; reflexivity.
Qed.

Example compare_scenario_S6 :
  Loci.compare
    [(["chr1"; "+"; "gypsy"]%string, [(100, 200)])]
    [(["chr1"; "+"; "gypsy"; "sampleA"]%string,
      [(0, 105, "r1"%string); (0, 150, "r2"%string); (0, 250, "r3"%string)]);
     (["chr1"; "+"; "gypsy"; "sampleB"]%string,
      [(0, 199, "r4"%string); (0, 200, "r5"%string); (0, 201, "r6"%string)])]
  = Ok [(["chr1"; "+"; "gypsy"]%string,
         [Loci.mk_comparison_locus 100 200
            ["sampleA"; "sampleB"]%string [2; 2]])].
Proof. vm_compute. reflexivity. Qed.

(** ** _melt_slices *)

Section melt_slices_facts.

Lemma insert_sorted_perm u V : insert_sorted u V ≡ₚ u :: V.
Proof.
  induction V as [|v V IH]; simpl; [done|].
  destruct (u <=? v); [done|]. rewrite IH. apply Permutation_swap.
Qed.

Lemma insert_sorted_sorted u V :
  Sorted Z.le V -> Sorted Z.le (insert_sorted u V).
Proof.
  induction V as [|v V IH]; intros HV; simpl.
  - repeat constructor.
  - destruct (Z.leb_spec u v) as [Hle|Hgt].
    + constructor; [done|]. by constructor.
    + apply Sorted_inv in HV as [HV Hhd]. constructor; [by apply IH|].
      destruct V as [|v' V]; simpl.
      * constructor. lia.
      * inversion Hhd; subst. destruct (u <=? v'); constructor; lia.
Qed.

Lemma isort_merge_sort l : merge_sort Z.le l = isort l.
Proof.
  apply (Sorted_unique_strong Z.le).
  - intros x1 x2 _ _ H1 H2. lia.
  - apply Sorted_merge_sort. apply _.
  - induction l as [|x l IH]; simpl; [constructor|].
    by apply insert_sorted_sorted.
  - rewrite merge_sort_Permutation.
    induction l as [|x l IH]; simpl; [done|].
    by rewrite insert_sorted_perm, <- IH.
Qed.

Lemma insert_sorted_length u V :
  length (insert_sorted u V) = S (length V).
Proof. by rewrite insert_sorted_perm. Qed.

Lemma isort_length l : length (isort l) = length l.
Proof. by rewrite <- isort_merge_sort, merge_sort_length. Qed.

(** The generator on the zipped arrays is [melt_last]. *)
Lemma melter_melt_last l u0 Lt Ut :
  Cluster.UDBSCANx._melter l u0
    (zip (zip_with Z.leb (u0 :: Ut) Lt) (zip Lt Ut))
  = melt_last l u0 (zip Lt Ut).
Proof.
  revert l u0 Ut. induction Lt as [|li Lt IH]; intros l u0 Ut; [done|].
  destruct Ut as [|ui Ut]; [done|]. simpl.
  destruct (u0 <=? li); [f_equal|]; apply IH.
Qed.

Lemma melt_slices_melt_last (slices : list Cluster.slice_t) l0 u0 Lt Ut :
  merge_sort Z.le (fst <$> slices) = l0 :: Lt ->
  merge_sort Z.le (snd <$> slices) = u0 :: Ut ->
  Cluster.UDBSCANx._melt_slices slices = Ok (melt_last l0 u0 (zip Lt Ut)).
Proof.
  intros HL HU. unfold Cluster.UDBSCANx._melt_slices. rewrite HL, HU.
  f_equal.
  assert (Hlen : length Lt = length Ut).
  { apply (f_equal length) in HL, HU.
    rewrite merge_sort_length, length_fmap in HL, HU. simpl in *. lia. }
  rewrite slice_init, slice_from_1.
  change (drop 1 (l0 :: Lt)) with Lt.
  replace (length (u0 :: Ut) - 1)%nat with (length Lt) by (simpl; lia).
  rewrite zip_with_take_l. simpl. rewrite drop_0.
  apply melter_melt_last.
Qed.

(** On ascending upper bounds, keeping the last upper bound is keeping
    the greatest. *)
Lemma melt_last_interval_merge l u (rest : list Cluster.slice_t) :
  Sorted Z.le (u :: (snd <$> rest)) ->
  melt_last l u rest = interval_merge Z.ltb l u rest.
Proof.
  revert l u. induction rest as [|[li ui] rest IH]; intros l u Hs; [done|].
  simpl in *. apply Sorted_inv in Hs as [Hs Hhd].
  inversion Hhd; subst.
  destruct (Z.leb_spec u li), (Z.ltb_spec li u); try lia.
  - f_equal. by apply IH.
  - replace (Z.max u ui) with ui by lia. by apply IH.
Qed.

End melt_slices_facts.

Section interval_merge_sorted_uppers.

(** Inserting the upper bound of the first slice among the sorted upper
    bounds of the others keeps every lower bound below the upper bound
    at its position. *)
Lemma insert_sorted_dominated l0 u0 (Lt V : list Z) :
  l0 < u0 -> Sorted Z.le (l0 :: Lt) -> Forall2 Z.lt Lt V ->
  Forall2 Z.lt (l0 :: Lt) (insert_sorted u0 V).
Proof.
  revert l0 Lt. induction V as [|v V IH]; intros l0 Lt Hl0 Hs Hdom.
  - inversion Hdom; subst. simpl. by repeat constructor.
  - inversion Hdom as [|l1 ? Lt' ? Hl1 Hdom']; subst. simpl.
    apply Sorted_inv in Hs as [Hs Hhd]. inversion Hhd; subst.
    destruct (Z.leb_spec u0 v) as [Hle|Hgt].
    + constructor; [done|]. by constructor.
    + constructor; [lia|]. apply IH; [lia|done|done].
Qed.

Lemma isort_dominated (Lt Ut : list Z) :
  Sorted Z.le Lt -> Forall2 Z.lt Lt Ut -> Forall2 Z.lt Lt (isort Ut).
Proof.
  revert Lt. induction Ut as [|u Ut IH]; intros Lt Hs Hdom.
  - inversion Hdom; subst. constructor.
  - inversion Hdom as [|l ? Lt' ? Hl Hdom']; subst. simpl.
    apply insert_sorted_dominated; [done|done|].
    apply IH; [|done]. by apply Sorted_inv in Hs as [? _].
Qed.

(** One step of the insertion: the current upper bound may be exchanged
    with the least one ahead of it. *)
Lemma interval_merge_insert l x u (Lt V : list Z) :
  Forall2 Z.lt Lt V ->
  match insert_sorted u V with
  | w :: W =>
      interval_merge Z.ltb l (Z.max x u) (zip Lt V)
      = interval_merge Z.ltb l (Z.max x w) (zip Lt W)
  | [] => False
  end.
Proof.
  revert x Lt. induction V as [|v V IH]; intros x Lt Hdom.
  - inversion Hdom; subst. done.
  - inversion Hdom as [|l2 ? Lt' ? Hl2 Hdom']; subst. simpl.
    destruct (Z.leb_spec u v) as [Hle|Hgt]; [done|].
    specialize (IH (Z.max x v) Lt' Hdom').
    destruct (insert_sorted u V) as [|w2 W2]; [done|]. simpl.
    destruct (Z.ltb_spec l2 (Z.max x u)); [|lia].
    destruct (Z.ltb_spec l2 (Z.max x v)); [|lia].
    replace (Z.max (Z.max x u) v) with (Z.max (Z.max x v) u) by lia.
    exact IH.
Qed.

Lemma insert_sorted_head u V :
  match insert_sorted u V with
  | w :: _ => w <= u
  | [] => False
  end.
Proof.
  destruct V as [|v V]; simpl; [lia|].
  destruct (Z.leb_spec u v); lia.
Qed.

(** The merge does not depend on the order of the upper bounds ahead. *)
Lemma interval_merge_isort l c (Lt Ut : list Z) :
  Sorted Z.le Lt -> Forall2 Z.lt Lt Ut ->
  interval_merge Z.ltb l c (zip Lt Ut)
  = interval_merge Z.ltb l c (zip Lt (isort Ut)).
Proof.
  revert l c Lt. induction Ut as [|u1 Ut IH]; intros l c Lt Hs Hdom.
  - inversion Hdom; subst. done.
  - inversion Hdom as [|l1 ? Lt' ? Hl1 Hdom']; subst.
    assert (Hs' : Sorted Z.le Lt') by (by apply Sorted_inv in Hs as [? _]).
    pose proof (isort_dominated Lt' Ut Hs' Hdom') as Hdom_sorted.
    simpl isort.
    pose proof (interval_merge_insert l c u1 Lt' (isort Ut) Hdom_sorted)
      as Hmerge.
    pose proof (insert_sorted_head u1 (isort Ut)) as Hhead.
    destruct (insert_sorted u1 (isort Ut)) as [|w W] eqn:Hins; [done|].
    pose proof (interval_merge_insert l1 w u1 Lt' (isort Ut) Hdom_sorted)
      as Hsplit.
    rewrite Hins in Hsplit.
    simpl. destruct (l1 <? c).
    + rewrite IH by done. exact Hmerge.
    + f_equal. rewrite IH by done.
      replace (Z.max w u1) with u1 in Hsplit by lia.
      replace (Z.max w w) with w in Hsplit by lia.
      exact Hsplit.
Qed.

(** The merge of the slices is the merge of their sorted lower bounds
    zipped with their sorted upper bounds. *)
Lemma merge_slices_sorted_columns (slices : list Cluster.slice_t) :
  Sorted Z.le (fst <$> slices) -> Forall (fun s => s.1 < s.2) slices ->
  merge_slices Z.ltb slices
  = merge_slices Z.ltb (zip (fst <$> slices) (isort (snd <$> slices))).
Proof.
  intros Hs Hproper.
  destruct slices as [|[l0 u0] rest]; [done|].
  inversion Hproper as [|? ? Hl0 Hrest]; subst. simpl in Hl0.
  change (fst <$> (l0, u0) :: rest) with (l0 :: (fst <$> rest)) in *.
  change (isort (snd <$> (l0, u0) :: rest))
    with (insert_sorted u0 (isort (snd <$> rest))).
  assert (Hdom : Forall2 Z.lt (fst <$> rest) (snd <$> rest)).
  { apply Forall2_fmap, Forall_Forall2_diag.
    eapply Forall_impl; [exact Hrest|]. by intros [? ?]. }
  assert (Hs' : Sorted Z.le (fst <$> rest))
    by (by apply Sorted_inv in Hs as [? _]).
  pose proof (isort_dominated _ _ Hs' Hdom) as Hdom_sorted.
  pose proof (interval_merge_insert l0
                (match insert_sorted u0 (isort (snd <$> rest)) with
                 | w :: _ => w | [] => u0 end)
                u0 _ _ Hdom_sorted) as Hins.
  pose proof (insert_sorted_head u0 (isort (snd <$> rest))) as Hhead.
  destruct (insert_sorted u0 (isort (snd <$> rest))) as [|w W]; [done|].
  replace (Z.max w u0) with u0 in Hins by lia.
  replace (Z.max w w) with w in Hins by lia.
  cbn [merge_slices zip zip_with]. fold (zip (fst <$> rest) W).
  rewrite <- Hins.
  rewrite <- (zip_fst_snd rest) at 1.
  by apply interval_merge_isort.
Qed.

End interval_merge_sorted_uppers.

(** C5 (as amended).  For every non-empty sequence of half-open index
    slices ([lower < upper]) sorted by lower bound, [_melt_slices] merges
    two consecutive slices into one exactly when the next slice's lower
    bound is strictly less than the current slice's upper bound, and
    otherwise emits the current slice and restarts: adjacent slices, with
    [next.lower = current.upper], are kept apart. *)
Theorem melt_slices_strict_merge (slices : list Cluster.slice_t) :
  slices <> [] ->
  Sorted Z.le (fst <$> slices) ->
  Forall (fun s => s.1 < s.2) slices ->
  Cluster.UDBSCANx._melt_slices slices = Ok (merge_slices Z.ltb slices).
Proof.
  intros Hne Hs Hproper.
  rewrite merge_slices_sorted_columns by done.
  assert (HL : merge_sort Z.le (fst <$> slices) = fst <$> slices)
    by (by apply merge_sort_sorted_id).
  assert (HU : merge_sort Z.le (snd <$> slices) = isort (snd <$> slices))
    by apply isort_merge_sort.
  assert (Hsorted : Sorted Z.le (isort (snd <$> slices))).
  { rewrite <- HU. apply Sorted_merge_sort. apply _. }
  assert (Hlen : length (isort (snd <$> slices)) = length slices)
    by (by rewrite isort_length, length_fmap).
  destruct slices as [|[l0 u0] rest]; [done|].
  destruct (isort (snd <$> (l0, u0) :: rest)) as [|w W] eqn:HW;
    [simpl in Hlen; lia|].
  rewrite (melt_slices_melt_last ((l0, u0) :: rest) l0 w _ W HL HU).
  change (fst <$> (l0, u0) :: rest) with (l0 :: (fst <$> rest)).
  f_equal. cbn [merge_slices zip zip_with]. fold (zip (fst <$> rest) W).
  apply melt_last_interval_merge.
  rewrite snd_zip; [done|]. rewrite length_fmap. simpl in Hlen. lia.
Qed.

Lemma melt_slices_strict_merge_witness :
  Cluster.UDBSCANx._melt_slices [(0, 3); (1, 4); (4, 7); (5, 8); (10, 13)]
  = Ok (merge_slices Z.ltb [(0, 3); (1, 4); (4, 7); (5, 8); (10, 13)]).
Proof.
  apply (melt_slices_strict_merge
           [(0, 3); (1, 4); (4, 7); (5, 8); (10, 13)]).
  - discriminate.
  - simpl. repeat constructor; lia.
  - repeat constructor; simpl; lia.
Defined.

(** C5 as the specification states it fails: two adjacent slices, the
    second beginning where the first ends, are not merged, while merging
    on [next.lower <= current.upper] would merge them. *)
Lemma melt_slices_adjacent_counterexample :
  Sorted Z.le (fst <$> [(0, 3); (3, 6)])
  /\ Cluster.UDBSCANx._melt_slices [(0, 3); (3, 6)] = Ok [(0, 3); (3, 6)]
  /\ merge_slices Z.leb [(0, 3); (3, 6)] = [(0, 6)]
  /\ Cluster.UDBSCANx._melt_slices [(0, 3); (3, 6)]
     <> Ok (merge_slices Z.leb [(0, 3); (3, 6)]).
Proof.
  split; [simpl; repeat constructor; lia|].
  split; [vm_compute; reflexivity|].
  split; [reflexivity|].
  vm_compute. discriminate.
Qed.

(** ** The slices of _subcluster and _cluster *)

Section melt_last_facts.

Lemma melt_last_head l u rest :
  exists u' tl, melt_last l u rest = (l, u') :: tl.
Proof.
  revert l u. induction rest as [|[li ui] rest IH]; intros l u; simpl.
  - by exists u, [].
  - destruct (u <=? li); [by eexists _, _|]. apply IH.
Qed.

Lemma melt_last_chain l u rest : ascending_disjoint (melt_last l u rest).
Proof.
  revert l u. induction rest as [|[li ui] rest IH]; intros l u; simpl.
  - repeat constructor.
  - destruct (Z.leb_spec u li) as [Hle|Hgt]; [|apply IH].
    constructor; [apply IH|].
    destruct (melt_last_head li ui rest) as (u' & tl & ->).
    constructor. simpl. lia.
Qed.

(** A property of slices that survives the merge of two overlapping
    slices holds of every slice emitted. *)
Lemma melt_last_invariant (G : Z -> Z -> Prop) l u rest :
  (forall l u li ui, G l u -> G li ui -> li < u -> G l ui) ->
  G l u -> Forall (fun s => G s.1 s.2) rest ->
  Forall (fun s => G s.1 s.2) (melt_last l u rest).
Proof.
  intros Hmerge. revert l u.
  induction rest as [|[li ui] rest IH]; intros l u Hlu Hrest; simpl.
  - by repeat constructor.
  - inversion Hrest as [|? ? Hi Hrest']; subst. simpl in Hi.
    destruct (Z.leb_spec u li) as [Hle|Hgt].
    + constructor; [done|]. by apply IH.
    + apply IH; [|done]. by apply (Hmerge l u li ui).
Qed.

End melt_last_facts.

Section pick_facts.

Context {A : Type}.

Lemma pick_elem (a : list A) (mask : list bool) (x : A) :
  x ∈ Np.pick a mask ->
  exists i, a !! i = Some x /\ mask !! i = Some true.
Proof.
  revert mask. induction a as [|y a IH]; intros [|b mask]; simpl;
    try (by intros ?%elem_of_nil).
  destruct b.
  - intros [->|Hx]%elem_of_cons.
    + by exists 0%nat.
    + destruct (IH mask Hx) as (i & Hi & Hm). by exists (S i).
  - intros Hx. destruct (IH mask Hx) as (i & Hi & Hm). by exists (S i).
Qed.

Lemma pick_sorted (R : relation A) (a : list A) (mask : list bool) :
  StronglySorted R a -> StronglySorted R (Np.pick a mask).
Proof.
  intros Hs. revert mask.
  induction Hs as [|y a Hs IH Hy]; intros [|b mask]; simpl;
    try constructor.
  destruct b; [|apply IH].
  constructor; [apply IH|].
  apply Forall_forall. intros x Hx.
  apply pick_elem in Hx as (i & Hi & _).
  rewrite Forall_forall in Hy. apply Hy. by eapply list_elem_of_lookup_2.
Qed.

Lemma pick_nil_r {C} (a : list C) : Np.pick a [] = [].
Proof. by destruct a. Qed.

Lemma pick_zip {B} (a : list A) (b : list B) (mask : list bool) :
  zip (Np.pick a mask) (Np.pick b mask) = Np.pick (zip a b) mask.
Proof.
  revert a b. induction mask as [|m mask IH]; intros a b.
  - by rewrite !pick_nil_r.
  - destruct a as [|x a]; [done|]. destruct b as [|y b].
    + simpl. by destruct m, (Np.pick a mask).
    + simpl. destruct m; simpl; by rewrite IH.
Qed.

Lemma pick_fmap {B} (f : A -> B) (a : list A) (mask : list bool) :
  f <$> Np.pick a mask = Np.pick (f <$> a) mask.
Proof.
  revert mask. induction a as [|x a IH]; intros [|m mask]; simpl; try done.
  destruct m; simpl; by rewrite IH.
Qed.

End pick_facts.

Section subcluster_facts.

Lemma zip_with_post {A B C D} (f : A -> B -> C) (g : C -> D)
      (l : list A) (k : list B) :
  zip_with (fun a b => g (f a b)) l k = g <$> zip_with f l k.
Proof.
  revert k. induction l as [|a l IH]; intros [|b k]; simpl; try done.
  by rewrite IH.
Qed.

Lemma windows_zip (k : nat) (m : Z) :
  (1 <= k)%nat ->
  zip (seqZ 0 m) ((fun i => i + 1) <$> seqZ (Z.of_nat k - 1) m)
  = window (Z.of_nat k) <$> seqZ 0 m.
Proof.
  intros Hk. apply list_eq. intros i.
  rewrite lookup_zip_with, !list_lookup_fmap.
  destruct (decide (Z.of_nat i < m)) as [Hi|Hi].
  - rewrite !lookup_seqZ_lt by done. simpl. unfold window.
    f_equal. f_equal. lia.
  - rewrite !lookup_seqZ_ge by lia. done.
Qed.

(** With [2 <= k <= n] the sub-cluster scan yields the windows of [k]
    points whose span is at most [epsilon], in ascending order. *)
Lemma subcluster_windows (array : list Z) (k : nat) (epsilon : Z)
      (bs : list (Z * Z)) :
  (2 <= k <= length array)%nat ->
  Cluster.UDBSCANx._subcluster array (Z.of_nat k) epsilon = Ok bs ->
  bs = Np.pick (window (Z.of_nat k)
                <$> seqZ 0 (Z.of_nat (length array - (k - 1))))
               ((fun e => e <=? epsilon) <$> spans array k).
Proof.
  intros Hk. unfold Cluster.UDBSCANx._subcluster.
  destruct (Cluster.UDBSCANx._sorted_ascending array); simpl;
    [|discriminate].
  rewrite fork_slice_upper, fork_slice_lower by lia.
  unfold Np.broadcast.
  rewrite decide_True by (rewrite length_drop, length_take; lia).
  simpl rbind.
  rewrite (zip_with_post Np.sub (fun e => e <=? epsilon)).
  fold (spans array k).
  unfold Np.select, Np.arange.
  rewrite decide_True.
  2:{ rewrite length_seqZ, length_fmap, spans_length, length_take by lia.
      lia. }
  simpl rbind.
  rewrite decide_True.
  2:{ rewrite length_seqZ, length_fmap, spans_length by lia. lia. }
  simpl rbind. intros [= <-].
  rewrite pick_fmap, pick_zip. f_equal.
  rewrite length_take.
  replace (Z.of_nat ((length array - (k - 1)) `min` length array) - 0)
    with (Z.of_nat (length array - (k - 1))) by lia.
  replace (Z.of_nat (length array) - (Z.of_nat k - 1))
    with (Z.of_nat (length array - (k - 1))) by lia.
  apply windows_zip. lia.
Qed.

(** With fewer than [k] points the scan yields nothing. *)
Lemma subcluster_short (array : list Z) (k : nat) (epsilon : Z)
      (bs : list (Z * Z)) :
  (2 <= k)%nat -> (length array < k)%nat ->
  Cluster.UDBSCANx._subcluster array (Z.of_nat k) epsilon = Ok bs ->
  bs = [].
Proof.
  intros Hk Hn. unfold Cluster.UDBSCANx._subcluster.
  destruct (Cluster.UDBSCANx._sorted_ascending array); simpl;
    [|discriminate].
  assert (Hup : Np.slice_from array (Z.of_nat k - 1) = []).
  { unfold Np.slice_from, Np.bound.
    destruct (Z.ltb_spec (Z.of_nat k - 1) 0); [lia|].
    apply drop_ge. lia. }
  assert (Hlow : Np.slice array 0 (- (Z.of_nat k - 1)) = []).
  { unfold Np.slice. rewrite (bound_nonneg _ 0) by lia.
    unfold Np.bound.
    destruct (Z.ltb_spec (- (Z.of_nat k - 1)) 0); [|lia].
    replace (Z.to_nat (0 `max` (Z.of_nat (length array)
                                + - (Z.of_nat k - 1)))) with 0%nat by lia.
    done. }
  rewrite Hup, Hlow. simpl.
  unfold Np.select, Np.arange. simpl.
  rewrite seqZ_nil by lia. simpl.
  by intros [= <-].
Qed.

(** Every slice of the scan lies inside the array. *)
Lemma subcluster_range (array : list Z) (k : nat) (epsilon : Z)
      (bs : list (Z * Z)) :
  (2 <= k)%nat ->
  Cluster.UDBSCANx._subcluster array (Z.of_nat k) epsilon = Ok bs ->
  Forall (fun s => 0 <= s.1 /\ 0 <= s.2 <= Z.of_nat (length array)) bs.
Proof.
  intros Hk Hsub.
  destruct (decide (k <= length array)%nat) as [Hle|Hgt].
  - apply subcluster_windows in Hsub; [|lia]. subst bs.
    apply Forall_forall. intros s Hs.
    apply pick_elem in Hs as (i & Hi & _).
    rewrite list_lookup_fmap in Hi.
    destruct (seqZ 0 (Z.of_nat (length array - (k - 1))) !! i) as [j|]
      eqn:Hj; [|discriminate].
    apply lookup_seqZ in Hj as [-> Hlt].
    injection Hi as <-. unfold window. simpl. lia.
  - apply subcluster_short in Hsub; [|lia..]. subst bs. constructor.
Qed.

End subcluster_facts.

Section cluster_facts.

Lemma Forall_zip_columns (P Q : Z -> Prop) (Lt Ut : list Z) :
  Forall P Lt -> Forall Q Ut ->
  Forall (fun s => P s.1 /\ Q s.2) (zip Lt Ut).
Proof.
  intros HL. revert Ut. induction HL as [|l Lt Hl HL IH]; intros Ut HU.
  - constructor.
  - destruct HU as [|u Ut Hu HU]; [constructor|]. simpl.
    constructor; [done|]. by apply IH.
Qed.

Lemma melt_slices_inv (slices bs : list (Z * Z)) :
  Cluster.UDBSCANx._melt_slices slices = Ok bs ->
  exists l0 u0 Lt Ut,
    merge_sort Z.le (fst <$> slices) = l0 :: Lt
    /\ merge_sort Z.le (snd <$> slices) = u0 :: Ut
    /\ bs = melt_last l0 u0 (zip Lt Ut).
Proof.
  intros Hm.
  destruct (merge_sort Z.le (fst <$> slices)) as [|l0 Lt] eqn:HL.
  { unfold Cluster.UDBSCANx._melt_slices in Hm. by rewrite HL in Hm. }
  destruct (merge_sort Z.le (snd <$> slices)) as [|u0 Ut] eqn:HU.
  { unfold Cluster.UDBSCANx._melt_slices in Hm. by rewrite HL, HU in Hm. }
  rewrite (melt_slices_melt_last slices l0 u0 Lt Ut HL HU) in Hm.
  injection Hm as <-. by exists l0, u0, Lt, Ut.
Qed.

(** Consecutive clusters do not overlap. *)
Lemma cluster_chain (array : list Z) (k epsilon : Z) (bs : list (Z * Z)) :
  Cluster.UDBSCANx._cluster array k epsilon = Ok bs ->
  ascending_disjoint bs.
Proof.
  unfold Cluster.UDBSCANx._cluster.
  destruct (Cluster.UDBSCANx._subcluster array k epsilon) as [sub|e];
    simpl; [|discriminate].
  destruct (Z.ltb_spec 1 (Z.of_nat (length sub))) as [Hlen|Hlen].
  - intros (l0 & u0 & Lt & Ut & _ & _ & ->)%melt_slices_inv.
    apply melt_last_chain.
  - intros [= <-]. destruct sub as [|s [|s' sub]].
    + constructor.
    + repeat constructor.
    + simpl in Hlen. lia.
Qed.

(** Every cluster lies inside the array. *)
Lemma cluster_range (array : list Z) (k : nat) (epsilon : Z)
      (bs : list (Z * Z)) :
  (2 <= k)%nat ->
  Cluster.UDBSCANx._cluster array (Z.of_nat k) epsilon = Ok bs ->
  Forall (fun s => 0 <= s.1 /\ 0 <= s.2 <= Z.of_nat (length array)) bs.
Proof.
  intros Hk. unfold Cluster.UDBSCANx._cluster.
  destruct (Cluster.UDBSCANx._subcluster array (Z.of_nat k) epsilon)
    as [sub|e] eqn:Hsub; simpl; [|discriminate].
  apply subcluster_range in Hsub; [|done].
  destruct (Z.ltb_spec 1 (Z.of_nat (length sub))) as [Hlen|Hlen].
  - intros (l0 & u0 & Lt & Ut & HL & HU & ->)%melt_slices_inv.
    assert (HLall : Forall (fun l => 0 <= l) (l0 :: Lt)).
    { rewrite <- HL, merge_sort_Permutation. apply Forall_fmap.
      eapply Forall_impl; [exact Hsub|]. by intros ? [? ?]. }
    assert (HUall : Forall (fun u => 0 <= u <= Z.of_nat (length array))
                           (u0 :: Ut)).
    { rewrite <- HU, merge_sort_Permutation. apply Forall_fmap.
      eapply Forall_impl; [exact Hsub|]. by intros ? [? ?]. }
    inversion HLall; subst. inversion HUall; subst.
    apply (melt_last_invariant
             (fun l u => 0 <= l /\ 0 <= u <= Z.of_nat (length array))).
    + intros l u li ui [? ?] [? ?] _. done.
    + done.
    + by apply (Forall_zip_columns (fun l => 0 <= l)
                (fun u => 0 <= u <= Z.of_nat (length array))).
  - by intros [= <-].
Qed.

(** Every gap inside a cluster is covered by a window of the scan. *)
Lemma cluster_gap_covered (array : list Z) (k : nat) (epsilon : Z)
      (bs : list (Z * Z)) :
  (2 <= k <= length array)%nat ->
  Cluster.UDBSCANx._cluster array (Z.of_nat k) epsilon = Ok bs ->
  Forall (fun s => gap_covered array k epsilon s.1 s.2) bs.
Proof.
  intros Hk. unfold Cluster.UDBSCANx._cluster.
  destruct (Cluster.UDBSCANx._subcluster array (Z.of_nat k) epsilon)
    as [sub|e] eqn:Hsub; simpl; [|discriminate].
  apply subcluster_windows in Hsub; [|done].
  set (m := Z.of_nat (length array - (k - 1))) in *.
  set (sel := (fun e => e <=? epsilon) <$> spans array k) in *.
  assert (Hwin : Forall (fun s => gap_covered array k epsilon s.1 s.2) sub).
  { subst sub. apply Forall_forall. intros s Hs.
    apply pick_elem in Hs as (i & Hi & Hsel).
    rewrite list_lookup_fmap in Hi.
    destruct (seqZ 0 m !! i) as [j|] eqn:Hj; [|discriminate].
    apply lookup_seqZ in Hj as [-> Hlt]. injection Hi as <-.
    subst sel. rewrite list_lookup_fmap in Hsel.
    destruct (spans array k !! i) as [e|] eqn:He; [|discriminate].
    injection Hsel as Hle. apply Z.leb_le in Hle.
    intros c Hc. unfold window in Hc. simpl in Hc.
    exists i, e. split; [done|]. split; [done|]. lia. }
  destruct (Z.ltb_spec 1 (Z.of_nat (length sub))) as [Hlen|Hlen];
    [|by intros [= <-]].
  intros (l0 & u0 & Lt & Ut & HL & HU & ->)%melt_slices_inv.
  assert (Hfst : Sorted Z.le (fst <$> sub)).
  { subst sub. rewrite pick_fmap. apply StronglySorted_Sorted.
    apply pick_sorted. rewrite <- list_fmap_compose.
    apply Sorted_StronglySorted; [apply _|].
    apply Sorted_fmap with (R1 := Z.le); [by intros ? ? ?|].
    unfold seqZ. apply Sorted_fmap with (R1 := le); [intros ? ? ?; lia|].
    apply Sorted_LocallySorted_iff.
    generalize 0%nat. induction (Z.to_nat m) as [|p IH]; intros st;
      [constructor|].
    simpl. destruct p; [constructor|]. simpl. constructor; [apply IH|lia]. }
  assert (Hsnd : Sorted Z.le (snd <$> sub)).
  { subst sub. rewrite pick_fmap. apply StronglySorted_Sorted.
    apply pick_sorted. rewrite <- list_fmap_compose.
    apply Sorted_StronglySorted; [apply _|].
    apply Sorted_fmap with (R1 := Z.le);
      [intros ? ? ?; unfold window; simpl; lia|].
    unfold seqZ. apply Sorted_fmap with (R1 := le); [intros ? ? ?; lia|].
    apply Sorted_LocallySorted_iff.
    generalize 0%nat. induction (Z.to_nat m) as [|p IH]; intros st;
      [constructor|].
    simpl. destruct p; [constructor|]. simpl. constructor; [apply IH|lia]. }
  rewrite merge_sort_sorted_id in HL, HU by done.
  destruct sub as [|[l u] rest]; [discriminate|].
  simpl in HL, HU. injection HL as <- <-. injection HU as <- <-.
  rewrite zip_fst_snd.
  inversion Hwin; subst.
  apply (melt_last_invariant (gap_covered array k epsilon)); [|done|done].
  intros l1 u1 li ui Hcur Hnext Hlt c Hc.
  destruct (decide (c < u1 - 1)) as [Hc1|Hc1].
  - apply Hcur. lia.
  - apply Hnext. lia.
Qed.

End cluster_facts.

Section fork_children.

Lemma delete_plateaus_from_elem prev l x :
  x ∈ delete_plateaus_from prev l -> x ∈ l.
Proof.
  revert prev. induction l as [|y l IH]; intros prev; simpl; [done|].
  destruct (y =? prev).
  - intros Hx. right. by eapply IH.
  - intros [->|Hx]%elem_of_cons; [by left|]. right. by eapply IH.
Qed.

Lemma delete_plateaus_elem l x : x ∈ delete_plateaus l -> x ∈ l.
Proof.
  destruct l as [|y l]; simpl; [done|].
  intros [->|Hx]%elem_of_cons; [by left|].
  right. by eapply delete_plateaus_from_elem.
Qed.

Lemma peaks_from_elem prev l x :
  x ∈ peaks_from prev l -> x ∈ l /\ exists y, y ∈ prev :: l /\ y < x.
Proof.
  revert prev. induction l as [|y l IH]; intros prev; simpl.
  - by intros ?%elem_of_nil.
  - destruct l as [|z l']; [by intros ?%elem_of_nil|].
    destruct (Z.ltb_spec prev y) as [Hlt|Hge]; simpl.
    + destruct (Z.ltb_spec z y) as [Hlt'|Hge']; simpl.
      * intros [->|Hx]%elem_of_cons.
        -- split; [by left|]. exists prev. split; [by left|done].
        -- destruct (IH y Hx) as (Hin & w & Hw & Hlt2).
           split; [by right|]. exists w. split; [by right|done].
      * intros Hx. destruct (IH y Hx) as (Hin & w & Hw & Hlt2).
        split; [by right|]. exists w. split; [by right|done].
    + intros Hx. destruct (IH y Hx) as (Hin & w & Hw & Hlt2).
      split; [by right|]. exists w. split; [by right|done].
Qed.

Lemma strict_peaks_elem l x :
  x ∈ strict_peaks l -> x ∈ l /\ exists y, y ∈ l /\ y < x.
Proof.
  destruct l as [|p l]; simpl; [by intros ?%elem_of_nil|].
  intros Hx. destruct (peaks_from_elem p l x Hx) as (Hin & w & Hw & Hlt).
  split; [by right|]. by exists w.
Qed.

(** A fork value is the value of some gap: every window over that gap
    has a span of at least the fork value. *)
Lemma fork_epsilon_gap (array : list Z) (k : nat) (f : Z) :
  (2 <= k)%nat ->
  Cluster.UDBSCANxH._fork_epsilon array (Z.of_nat k) = Ok (Some f) ->
  (k < length array)%nat
  /\ Np.sub f 1 = f - 1
  /\ exists c0 : nat,
       (c0 < length array - 1)%nat
       /\ forall (j : nat) e,
            spans array k !! j = Some e ->
            (j <= c0 < j + (k - 1))%nat -> f <= e.
Proof.
  intros Hk Hfork.
  assert (Hlong : (k < length array)%nat).
  { destruct (decide (k < length array)%nat) as [|Hshort]; [done|].
    unfold Cluster.UDBSCANxH._fork_epsilon in Hfork.
    destruct (Z.leb_spec (Z.of_nat (length array)) (Z.of_nat k));
      [discriminate|lia]. }
  split; [done|].
  destruct (fork_epsilon_stacked array k ltac:(lia)) as (m & Hm & Heq).
  rewrite Heq in Hfork. injection Hfork as Hmax.
  apply list_max_spec in Hmax as [Hpeak _].
  apply strict_peaks_elem in Hpeak as (Hf & y & Hy & Hlt).
  apply delete_plateaus_elem in Hf, Hy.
  assert (Hne : spans array k <> []) by (apply spans_nonempty; lia).
  assert (Hup : forall e, e ∈ spans array k -> e <= m).
  { intros e He. by apply (np_max_spec _ _ Hm). }
  pose proof (stacked_min_int64 m (spans array k) (k - 1) ltac:(lia)
                Hne Hup (spans_int64 array k)) as Hint.
  rewrite Forall_forall in Hint.
  pose proof (Hint f Hf) as Hf64. pose proof (Hint y Hy) as Hy64.
  split.
  { apply sub_exact. unfold Np.int64 in *. lia. }
  apply list_elem_of_lookup_1 in Hf as [c0 Hc0].
  assert (Hc0lt : (c0 < length (spans array k) + (k - 1) - 1)%nat).
  { rewrite <- (stacked_min_length m (spans array k) (k - 1))
      by (lia || done).
    by eapply lookup_lt_Some. }
  exists c0. split.
  { rewrite spans_length in Hc0lt by lia. lia. }
  intros j e He Hj.
  destruct (stacked_min_spec m (spans array k) (k - 1) ltac:(lia)
              Hne Hup c0 Hc0lt) as (v & Hv & _ & Hlow).
  rewrite Hc0 in Hv. injection Hv as <-.
  by apply (Hlow j e).
Qed.

(** The clusters found below a fork are shorter than the cluster that
    forks. *)
Lemma cluster_children_shorter (array : list Z) (k : nat) (f : Z)
      (bs : list (Z * Z)) :
  (2 <= k)%nat ->
  Cluster.UDBSCANxH._fork_epsilon array (Z.of_nat k) = Ok (Some f) ->
  Cluster.UDBSCANx._cluster array (Z.of_nat k) (Np.sub f 1) = Ok bs ->
  Forall (fun s => 0 <= s.1 /\ 0 <= s.2 <= Z.of_nat (length array)
                   /\ s.2 - s.1 < Z.of_nat (length array)) bs.
Proof.
  intros Hk Hfork Hcl.
  destruct (fork_epsilon_gap array k f Hk Hfork)
    as (Hlong & Hsub & c0 & Hc0 & Hgap).
  pose proof (cluster_range array k _ bs Hk Hcl) as Hrange.
  pose proof (cluster_gap_covered array k _ bs ltac:(lia) Hcl) as Hcov.
  rewrite Forall_forall in Hrange, Hcov. apply Forall_forall.
  intros [l u] Hs. specialize (Hrange _ Hs). specialize (Hcov _ Hs).
  simpl in *. split; [lia|]. split; [lia|].
  destruct (decide (u - l < Z.of_nat (length array))) as [|Hfull]; [done|].
  exfalso.
  destruct (Hcov (Z.of_nat c0)) as (j & e & He & Hle & Hj); [lia|].
  assert (f <= e) by (apply (Hgap j e He); lia).
  lia.
Qed.

End fork_children.

(** ** The traversal of the cluster tree *)

Section traversal_facts.

Import Cluster.UDBSCANxH.

Lemma comprehension_Forall2 {A B} (f : A -> option (result B))
      (l : list A) (items : list B) :
  comprehension f l = Some (Ok items) ->
  Forall2 (fun a b => f a = Some (Ok b)) l items.
Proof.
  revert items. induction l as [|a l IH]; intros items; simpl.
  - intros [= <-]. constructor.
  - destruct (f a) as [[b|e]|] eqn:Hfa; try discriminate.
    destruct (comprehension f l) as [[bs|e]|]; try discriminate.
    intros [= <-]. constructor; [done|]. by apply IH.
Qed.

Lemma comprehension_total {A B} (f : A -> option (result B)) (l : list A) :
  Forall (fun a => f a <> None) l -> comprehension f l <> None.
Proof.
  induction 1 as [|a l Ha _ IH]; simpl; [done|].
  destruct (f a) as [[b|e]|]; [|done|done].
  by destruct (comprehension f l) as [[bs|e]|].
Qed.

Lemma chain_strongly_sorted (bs : list (Z * Z)) :
  ascending_disjoint bs -> Forall (fun s => s.1 < s.2) bs ->
  StronglySorted (fun a b => a.2 <= b.1) bs.
Proof.
  induction 1 as [|b bs Hs IH Hhd]; intros Hproper; [constructor|].
  inversion Hproper as [|? ? Hb Hbs]; subst.
  specialize (IH Hbs). constructor; [done|].
  destruct Hhd as [|b' bs' Hbb']; [constructor|].
  constructor; [done|].
  apply StronglySorted_inv in IH as [_ Hall].
  inversion Hbs; subst.
  eapply Forall_impl; [exact Hall|]. intros t Ht. simpl in *. lia.
Qed.

(** The slices of the children, each inside its own child, make up
    slices of the parent. *)
Lemma concat_disjoint_within (base n : Z) (bs : list (Z * Z))
      (outs : list (list (Z * Z))) :
  StronglySorted (fun a b => a.2 <= b.1) bs ->
  Forall (fun b => 0 <= b.1 /\ b.2 <= n) bs ->
  Forall2 (fun b out => disjoint_within (base + b.1) (b.2 - b.1) out)
          bs outs ->
  disjoint_within base n (concat outs)
  /\ forall lo, Forall (fun b => lo <= b.1) bs ->
                Forall (fun t => base + lo <= t.1) (concat outs).
Proof.
  intros Hs Hrange Houts. revert Hs Hrange.
  induction Houts as [|[l u] out bs outs [Hout_s Hout_r] _ IH];
    intros Hs Hrange.
  - split; [split; constructor|]. intros lo _. constructor.
  - apply StronglySorted_inv in Hs as [Hs Hhd].
    inversion Hrange as [|? ? [Hl Hu] Hrange']; subst.
    simpl in Hl, Hu, Hout_r, Hout_s.
    destruct (IH Hs Hrange') as [[IHs IHr] IHlo].
    split; [split|].
    + simpl. apply StronglySorted_app_2; [|done|done].
      intros s t Hsin Htin.
      rewrite Forall_forall in Hout_r.
      destruct (Hout_r s Hsin) as (_ & _ & Hs2).
      assert (Hall : Forall (fun t => base + u <= t.1) (concat outs)).
      { apply IHlo. eapply Forall_impl; [exact Hhd|]. by intros ? ?. }
      rewrite Forall_forall in Hall. specialize (Hall t Htin). lia.
    + simpl. apply Forall_app. split; [|done].
      eapply Forall_impl; [exact Hout_r|]. intros s Hsr. simpl in *. lia.
    + intros lo Hlo. inversion Hlo as [|? ? Hlo1 Hlo']; subst.
      simpl in Hlo1. simpl. apply Forall_app. split.
      * eapply Forall_impl; [exact Hout_r|]. intros s Hsr. simpl in *. lia.
      * by apply IHlo.
Qed.

Lemma consecutive_slice (base : Z) (local : list point) (lo hi : Z) :
  consecutive base local ->
  0 <= lo -> 0 <= hi <= Z.of_nat (length local) ->
  Np.slice local lo hi <> [] ->
  lo < hi
  /\ consecutive (base + lo) (Np.slice local lo hi)
  /\ Z.of_nat (length (Np.slice local lo hi)) = hi - lo.
Proof.
  intros Hc Hlo Hhi Hne. unfold Np.slice in *.
  rewrite (bound_nonneg _ hi) in * by lia.
  unfold Np.bound in *.
  destruct (Z.ltb_spec lo 0); [lia|].
  set (s := Z.to_nat (lo `min` Z.of_nat (length local))) in *.
  assert (Hlen : length (take (Z.to_nat hi - s) (drop s local))
                 = (Z.to_nat hi - s)%nat).
  { rewrite length_take, length_drop. lia. }
  assert (Hpos : (0 < Z.to_nat hi - s)%nat).
  { destruct (take (Z.to_nat hi - s) (drop s local)) eqn:Ht; [done|].
    simpl in Hlen. lia. }
  assert (Hs : s = Z.to_nat lo) by lia.
  split; [lia|]. split; [|lia].
  unfold consecutive in *. rewrite Hlen.
  rewrite fmap_take, fmap_drop, Hc.
  apply list_eq. intros i.
  destruct (decide (i < Z.to_nat hi - s)%nat) as [Hi|Hi].
  - rewrite lookup_take_lt, lookup_drop by done.
    rewrite !lookup_seqZ_lt by lia. f_equal. lia.
  - rewrite lookup_take_ge by lia. rewrite lookup_seqZ_ge by lia. done.
Qed.

Lemma bounds_consecutive (base : Z) (local : list point) :
  consecutive base local -> local <> [] ->
  bounds local = Ok (Leaf (base, base + Z.of_nat (length local))).
Proof.
  intros Hc Hne. unfold bounds.
  destruct local as [|p local]; [done|].
  assert (Hlast : exists q, last (p :: local) = Some q
                            /\ index q = base + Z.of_nat (length local)).
  { destruct (last (p :: local)) as [q|] eqn:Hq.
    - exists q. split; [done|].
      rewrite last_lookup in Hq.
      assert (Hi : (index <$> p :: local) !! pred (length (p :: local))
                   = Some (index q)) by (by rewrite list_lookup_fmap, Hq).
      rewrite Hc in Hi. apply lookup_seqZ in Hi as [-> _]. simpl. lia.
    - by apply last_None in Hq. }
  destruct Hlast as (q & -> & Hq).
  assert (Hp : index p = base).
  { assert (Hi : (index <$> p :: local) !! 0%nat = Some (index p)) by done.
    rewrite Hc in Hi. apply lookup_seqZ in Hi as [-> _]. lia. }
  rewrite Hp, Hq. do 3 f_equal. simpl length. lia.
Qed.

Lemma fork_epsilon_nil (k : Z) :
  0 <= k -> _fork_epsilon [] k = Ok None.
Proof.
  intros Hk. unfold _fork_epsilon.
  change (Z.of_nat (length (@nil Z))) with 0.
  destruct (Z.leb_spec 0 k); [done|lia].
Qed.

Lemma traverse_nonempty (fuel : nat) (self : t) (E : Z) (r : nested) :
  0 <= min_points self ->
  _traverse_cluster_tree fuel self [] E <> Some (Ok r).
Proof.
  intros Hk. destruct fuel as [|fuel]; simpl; [done|].
  rewrite fork_epsilon_nil by done. done.
Qed.

End traversal_facts.

Section slice_lengths.

Lemma slice_length_le {A} (l : list A) (lo hi : Z) :
  (length (Np.slice l lo hi) <= length l)%nat.
Proof.
  unfold Np.slice. rewrite length_take, length_drop. lia.
Qed.

Lemma slice_length_shorter {A} (l : list A) (lo hi : Z) :
  (0 < length l)%nat ->
  0 <= lo -> 0 <= hi <= Z.of_nat (length l) ->
  hi - lo < Z.of_nat (length l) ->
  (length (Np.slice l lo hi) < length l)%nat.
Proof.
  intros Hpos Hlo Hhi Hlt. unfold Np.slice.
  rewrite (bound_nonneg _ hi) by lia.
  unfold Np.bound. destruct (Z.ltb_spec lo 0); [lia|].
  rewrite length_take, length_drop. lia.
Qed.

End slice_lengths.

Section traversal_disjoint.

Import Cluster.UDBSCANxH.

Variables (self : t) (k : nat).
Hypothesis min_points_k : min_points self = Z.of_nat k.
Hypothesis k_valid : (2 <= k)%nat.

Lemma leaf_disjoint_within (base : Z) (local : list point) (r : nested) :
  consecutive base local ->
  bounds local = Ok r ->
  disjoint_within base (Z.of_nat (length local)) (_flatten_list r).
Proof.
  intros Hc Hb.
  destruct local as [|p local]; [discriminate|].
  rewrite (bounds_consecutive base) in Hb by done.
  injection Hb as <-. simpl _flatten_list. split.
  - repeat constructor.
  - repeat constructor; simpl; lia.
Qed.

(** The slices found under children that lie side by side inside
    [local] are disjoint slices of [local]. *)
Lemma children_disjoint_within (fuel : nat) (base E : Z)
      (local : list point) (bs : list (Z * Z)) (items : list nested) :
  (forall local' E' r' base',
      consecutive base' local' ->
      _traverse_cluster_tree fuel self local' E' = Some (Ok r') ->
      disjoint_within base' (Z.of_nat (length local'))
                      (_flatten_list r')) ->
  consecutive base local ->
  ascending_disjoint bs ->
  Forall (fun s => 0 <= s.1 /\ 0 <= s.2 <= Z.of_nat (length local)) bs ->
  comprehension
    (fun '(left_, right_) =>
       _traverse_cluster_tree fuel self (Np.slice local left_ right_) E)
    bs = Some (Ok items) ->
  disjoint_within base (Z.of_nat (length local))
                  (_flatten_list (Nested items)).
Proof.
  intros IH Hc Hchain Hrange Hitems.
  apply comprehension_Forall2 in Hitems.
  assert (Hchild :
    Forall2 (fun b item =>
               b.1 < b.2
               /\ disjoint_within (base + b.1) (b.2 - b.1)
                                  (_flatten_list item)) bs items).
  { apply Forall2_same_length_lookup. split; [by eapply Forall2_length|].
    intros i [l u] item Hb Hi.
    destruct (Forall2_lookup_l _ _ _ _ _ Hitems Hb) as (item' & Hi' & Ht).
    rewrite Hi in Hi'. injection Hi' as <-.
    rewrite Forall_forall in Hrange.
    destruct (Hrange (l, u)) as [Hl Hu];
      [by eapply list_elem_of_lookup_2|].
    simpl in Hl, Hu.
    assert (Hne : Np.slice local l u <> []).
    { intros Hnil. rewrite Hnil in Ht.
      apply (traverse_nonempty fuel self E item); [lia|done]. }
    destruct (consecutive_slice base local l u Hc Hl Hu Hne)
      as (Hlt & Hc' & Hlen).
    simpl. split; [done|]. rewrite <- Hlen. by eapply IH. }
  assert (Hproper : Forall (fun s => s.1 < s.2) bs).
  { apply Forall_forall. intros b Hb.
    apply list_elem_of_lookup_1 in Hb as [i Hb].
    destruct (Forall2_lookup_l _ _ _ _ _ Hchild Hb) as (? & _ & ? & _).
    done. }
  simpl _flatten_list. rewrite flat_map_concat_map.
  apply (concat_disjoint_within base _ bs).
  - by apply chain_strongly_sorted.
  - eapply Forall_impl; [exact Hrange|]. intros s Hs. simpl in *. lia.
  - apply Forall2_fmap_r.
    eapply Forall2_impl; [exact Hchild|]. by intros ? ? [_ ?].
Qed.

(** The slices that the traversal of a cluster selects are disjoint
    slices of that cluster. *)
Lemma traverse_disjoint_within (fuel : nat) :
  forall (local : list point) (E : Z) (r : nested) (base : Z),
    consecutive base local ->
    _traverse_cluster_tree fuel self local E = Some (Ok r) ->
    disjoint_within base (Z.of_nat (length local)) (_flatten_list r).
Proof.
  induction fuel as [|fuel IH]; intros local E r base Hc Ht;
    [discriminate|].
  simpl in Ht.
  destruct (_fork_epsilon (value <$> local) (min_points self))
    as [[f|]|e] eqn:Hfork; [| |discriminate].
  2:{ injection Ht as Ht. by apply leaf_disjoint_within. }
  match type of Ht with
  | match ?sup with Ok _ => _ | Raise _ => _ end = _ =>
      destruct sup as [support|e]; [|discriminate]
  end.
  match type of Ht with
  | (if ?c then _ else _) = _ => destruct c
  end.
  { injection Ht as Ht. by apply leaf_disjoint_within. }
  destruct (Cluster.UDBSCANx._cluster (value <$> local) (min_points self)
              (Np.sub f 1)) as [bs|e] eqn:Hcl; [|discriminate].
  match type of Ht with
  | match ?c with Some _ => _ | None => _ end = _ =>
      destruct c as [[items|e]|] eqn:Hitems; try discriminate
  end.
  injection Ht as <-.
  rewrite min_points_k in Hcl.
  pose proof (cluster_chain _ _ _ _ Hcl) as Hchain.
  pose proof (cluster_range _ _ _ _ k_valid Hcl) as Hrange.
  rewrite length_fmap in Hrange.
  by apply (children_disjoint_within fuel base f local bs items).
Qed.

(** The traversal of a cluster ends within as many levels as the
    cluster has points. *)
Lemma traverse_total (fuel : nat) :
  forall (local : list point) (E : Z),
    (length local < fuel)%nat ->
    _traverse_cluster_tree fuel self local E <> None.
Proof.
  induction fuel as [|fuel IH]; intros local E Hfuel; [lia|].
  simpl.
  destruct (_fork_epsilon (value <$> local) (min_points self))
    as [[f|]|e] eqn:Hfork; [|done|done].
  match goal with
  | |- match ?sup with Ok _ => _ | Raise _ => _ end <> _ =>
      destruct sup as [support|e]; [|done]
  end.
  match goal with
  | |- (if ?c then _ else _) <> _ => destruct c; [done|]
  end.
  destruct (Cluster.UDBSCANx._cluster (value <$> local) (min_points self)
              (Np.sub f 1)) as [bs|e] eqn:Hcl; [|done].
  rewrite min_points_k in Hfork, Hcl.
  pose proof (cluster_children_shorter _ _ _ _ k_valid Hfork Hcl)
    as Hshort.
  destruct (fork_epsilon_gap _ _ _ k_valid Hfork) as (Hlong & _).
  rewrite length_fmap in Hshort, Hlong.
  match goal with
  | |- match ?c with Some _ => _ | None => _ end <> _ =>
      assert (Hc : c <> None); [|by destruct c as [[items|e]|]]
  end.
  apply comprehension_total.
  eapply Forall_impl; [exact Hshort|].
  intros [l u] (Hl & Hu & Hlt). simpl in *.
  apply IH.
  pose proof (slice_length_shorter local l u ltac:(lia) Hl Hu Hlt). lia.
Qed.

End traversal_disjoint.

(** ** _run and fit of the hierarchical clusterer *)

Section run_facts.

Import Cluster.UDBSCANxH.

Lemma core_distances_ok_min_points (X : list Z) (k : Z) (D : list Z) :
  Cluster.core_distances X k = Ok D -> 1 < k.
Proof.
  unfold Cluster.core_distances.
  destruct (Z.ltb_spec 1 k); [done|discriminate].
Qed.

Lemma points_consecutive (X : list Z) (core : list Z) :
  consecutive 0
    (zip_with (fun '(v, i) c => mk_point v i c)
              (zip X (Np.arange 0 (Z.of_nat (length X)))) core).
Proof.
  unfold consecutive, Np.arange.
  apply list_eq. intros i.
  rewrite list_lookup_fmap, lookup_zip_with, lookup_zip_with.
  rewrite length_zip_with, length_zip_with, length_seqZ.
  destruct (X !! i) as [v|] eqn:Hv; simpl.
  - assert (i < length X)%nat by (by eapply lookup_lt_Some).
    rewrite lookup_seqZ_lt by lia. simpl.
    destruct (core !! i) as [c|] eqn:Hc; simpl.
    + assert (i < length core)%nat by (by eapply lookup_lt_Some).
      rewrite lookup_seqZ_lt by lia. done.
    + apply lookup_ge_None in Hc. rewrite lookup_seqZ_ge by lia. done.
  - apply lookup_ge_None in Hv. rewrite lookup_seqZ_ge by lia. done.
Qed.

Lemma points_length (X : list Z) (core : list Z) :
  (length (zip_with (fun '(v, i) c => mk_point v i c)
                    (zip X (Np.arange 0 (Z.of_nat (length X)))) core)
   <= length X)%nat.
Proof. rewrite !length_zip_with. lia. Qed.

Lemma with_max_eps_min_points (self self' : t) (X : list Z) :
  with_max_eps self X = Ok self' -> min_points self' = min_points self.
Proof.
  unfold with_max_eps. destruct (negb (truthy (max_eps self))).
  - destruct (_fork_epsilon X (min_points self)) as [[f|]|e]; simpl;
      try discriminate.
    by intros [= <-].
  - by intros [= <-].
Qed.

(** The slices that [_run] returns are non-empty disjoint slices of the
    array, in ascending order. *)
Lemma run_disjoint_within (fuel : nat) (self self' : t) (X : list Z)
      (out : list (Z * Z)) :
  _run fuel self X = Some (Ok (self', out)) ->
  disjoint_within 0 (Z.of_nat (length X)) out.
Proof.
  unfold _run.
  destruct (Cluster.UDBSCANx._sorted_ascending X); simpl; [|discriminate].
  destruct (valid_method (method self)); simpl; [|discriminate].
  destruct (Z.ltb_spec (Z.of_nat (length X)) (min_points self)).
  { intros [= <- <-]. split; constructor. }
  unfold _core_distances.
  destruct (Cluster.core_distances X (min_points self)) as [core|e]
    eqn:Hcore; [|discriminate].
  apply core_distances_ok_min_points in Hcore.
  fold (with_max_eps self X).
  destruct (with_max_eps self X) as [self2|e] eqn:Hself2; [|discriminate].
  apply with_max_eps_min_points in Hself2.
  set (core' := match min_eps self2 with
                | Some e_min =>
                    if truthy (min_eps self2) then Z.max e_min <$> core
                    else core
                | None => core
                end).
  set (points := zip_with (fun '(v, i) c => mk_point v i c)
                   (zip X (Np.arange 0 (Z.of_nat (length X)))) core').
  destruct (max_eps self2) as [E|]; [|discriminate].
  destruct (Cluster.UDBSCANx._cluster (value <$> points)
              (min_points self2) E) as [bs|e] eqn:Hcl; [|discriminate].
  match goal with
  | |- match ?c with Some _ => _ | None => _ end = _ -> _ =>
      destruct c as [[clusters|e]|] eqn:Hitems; try discriminate
  end.
  intros [= <- <-].
  assert (Hk : min_points self2 = Z.of_nat (Z.to_nat (min_points self2)))
    by lia.
  rewrite Hk in Hcl.
  pose proof (cluster_chain _ _ _ _ Hcl) as Hchain.
  pose proof (cluster_range (value <$> points)
                (Z.to_nat (min_points self2)) E bs ltac:(lia) Hcl)
    as Hrange.
  rewrite length_fmap in Hrange.
  pose proof (points_consecutive X core') as Hc. fold points in Hc.
  pose proof (points_length X core') as Hlen. fold points in Hlen.
  destruct (children_disjoint_within self2 (Z.to_nat (min_points self2))
              Hk ltac:(lia) fuel 0 E points bs clusters) as [Hs Hr];
    try done.
  { intros local' E' r' base'.
    apply traverse_disjoint_within with (k := Z.to_nat (min_points self2));
      [done|lia]. }
  split; [done|].
  eapply Forall_impl; [exact Hr|]. intros s Hs'. simpl in *. lia.
Qed.

(** [_run] ends when it is given more fuel than the array has
    points. *)
Lemma run_total (fuel : nat) (self : t) (X : list Z) :
  (length X < fuel)%nat -> _run fuel self X <> None.
Proof.
  intros Hfuel. unfold _run.
  destruct (Cluster.UDBSCANx._sorted_ascending X); simpl; [|done].
  destruct (valid_method (method self)); simpl; [|done].
  destruct (Z.ltb_spec (Z.of_nat (length X)) (min_points self)); [done|].
  unfold _core_distances.
  destruct (Cluster.core_distances X (min_points self)) as [core|e]
    eqn:Hcore; [|done].
  apply core_distances_ok_min_points in Hcore.
  fold (with_max_eps self X).
  destruct (with_max_eps self X) as [self2|e] eqn:Hself2; [|done].
  apply with_max_eps_min_points in Hself2.
  set (core' := match min_eps self2 with
                | Some e_min =>
                    if truthy (min_eps self2) then Z.max e_min <$> core
                    else core
                | None => core
                end).
  set (points := zip_with (fun '(v, i) c => mk_point v i c)
                   (zip X (Np.arange 0 (Z.of_nat (length X)))) core').
  destruct (max_eps self2) as [E|]; [|done].
  destruct (Cluster.UDBSCANx._cluster (value <$> points)
              (min_points self2) E) as [bs|e]; [|done].
  match goal with
  | |- match ?c with Some _ => _ | None => _ end <> _ =>
      assert (Hc : c <> None); [|by destruct c as [[items|e]|]]
  end.
  apply comprehension_total. apply Forall_forall. intros [l u] _.
  apply traverse_total with (k := Z.to_nat (min_points self2));
    [lia|lia|].
  pose proof (slice_length_le points l u).
  pose proof (points_length X core') as Hlen. fold points in Hlen. lia.
Qed.

End run_facts.

(** ** fit *)

Section fit_facts.

Lemma count_true_zero (mask : list bool) :
  Np.count_true mask = 0 <-> Forall (fun b => b = false) mask.
Proof.
  unfold Np.count_true. induction mask as [|b mask IH].
  - split; [constructor|done].
  - rewrite filter_cons, Forall_cons. destruct b.
    + rewrite decide_True by done. simpl length. split; [lia|].
      by intros [? _].
    + rewrite decide_False by done. rewrite IH. tauto.
Qed.

Lemma sorted_ascending_diffs (x : Z) (l : list Z) :
  Forall small (x :: l) ->
  Forall (fun b => b = false)
         ((fun d => d <? 0) <$> zip_with Np.sub l (x :: l))
  <-> Sorted Z.le (x :: l).
Proof.
  revert x. induction l as [|y l IH]; intros x Hsmall.
  - simpl. split; [repeat constructor|constructor].
  - inversion Hsmall as [|? ? Hx Hsmall']; subst.
    pose proof Hsmall' as Hsmall''.
    inversion Hsmall'' as [|? ? Hy _]; subst.
    simpl. rewrite Forall_cons, (IH y Hsmall').
    rewrite sub_exact by (unfold small, Np.int64 in *; lia).
    split.
    + intros [Hd Hs]. constructor; [done|]. constructor.
      apply Z.ltb_ge in Hd. lia.
    + intros Hs. apply Sorted_inv in Hs as [Hs Hhd].
      inversion Hhd; subst. split; [|done]. apply Z.ltb_ge. lia.
Qed.

(** On coordinates whose differences fit in 64 bits, the check of the
    code is the order of the integers. *)
Lemma sorted_ascending_spec (X : list Z) :
  Forall small X ->
  Cluster.UDBSCANx._sorted_ascending X = true <-> Sorted Z.le X.
Proof.
  intros Hsmall. unfold Cluster.UDBSCANx._sorted_ascending.
  rewrite Z.eqb_eq, count_true_zero, slice_from_1, slice_init.
  destruct X as [|x l]; [simpl; split; constructor|].
  change (drop 1 (x :: l)) with l.
  replace (length (x :: l) - 1)%nat with (length l) by (simpl; lia).
  rewrite zip_with_take_r. by apply sorted_ascending_diffs.
Qed.

(** The scan of a checked array never raises when [k >= 2]. *)
Lemma subcluster_ok (array : list Z) (k : nat) (epsilon : Z) :
  (2 <= k)%nat ->
  Cluster.UDBSCANx._sorted_ascending array = true ->
  exists bs, Cluster.UDBSCANx._subcluster array (Z.of_nat k) epsilon
             = Ok bs.
Proof.
  intros Hk Hsorted. unfold Cluster.UDBSCANx._subcluster.
  rewrite Hsorted. simpl.
  destruct (decide (k <= length array)%nat) as [Hle|Hgt].
  - rewrite fork_slice_upper, fork_slice_lower by lia.
    unfold Np.broadcast.
    rewrite decide_True by (rewrite length_drop, length_take; lia).
    simpl rbind.
    rewrite (zip_with_post Np.sub (fun e => e <=? epsilon)).
    fold (spans array k).
    unfold Np.select, Np.arange.
    rewrite decide_True.
    2:{ rewrite length_seqZ, length_fmap, spans_length, length_take by lia.
        lia. }
    simpl rbind.
    rewrite decide_True.
    2:{ rewrite length_seqZ, length_fmap, spans_length by lia. lia. }
    simpl rbind. eauto.
  - assert (Hup : Np.slice_from array (Z.of_nat k - 1) = []).
    { unfold Np.slice_from, Np.bound.
      destruct (Z.ltb_spec (Z.of_nat k - 1) 0); [lia|].
      apply drop_ge. lia. }
    assert (Hlow : Np.slice array 0 (- (Z.of_nat k - 1)) = []).
    { unfold Np.slice. rewrite (bound_nonneg _ 0) by lia.
      unfold Np.bound.
      destruct (Z.ltb_spec (- (Z.of_nat k - 1)) 0); [|lia].
      replace (Z.to_nat (0 `max` (Z.of_nat (length array)
                                  + - (Z.of_nat k - 1)))) with 0%nat by lia.
      done. }
    rewrite Hup, Hlow. simpl.
    unfold Np.select, Np.arange. simpl.
    rewrite seqZ_nil by lia. simpl. eauto.
Qed.

Lemma melt_slices_ok (slices : list (Z * Z)) :
  slices <> [] ->
  exists bs, Cluster.UDBSCANx._melt_slices slices = Ok bs.
Proof.
  intros Hne.
  destruct (merge_sort Z.le (fst <$> slices)) as [|l0 Lt] eqn:HL.
  { apply (f_equal length) in HL.
    rewrite merge_sort_length, length_fmap in HL.
    destruct slices; [done|discriminate]. }
  destruct (merge_sort Z.le (snd <$> slices)) as [|u0 Ut] eqn:HU.
  { apply (f_equal length) in HU.
    rewrite merge_sort_length, length_fmap in HU.
    destruct slices; [done|discriminate]. }
  rewrite (melt_slices_melt_last slices l0 u0 Lt Ut HL HU). eauto.
Qed.

(** The flat clusterer returns on every array that passes its check,
    for [min_points >= 2]. *)
Lemma udc_fit_sorted_ok (X : list Z) (k epsilon : Z) :
  2 <= k ->
  Cluster.UDBSCANx._sorted_ascending X = true ->
  exists obj, Cluster.UDBSCANx.fit (Cluster.UDBSCANx.__init__ k epsilon) X
              = Ok obj.
Proof.
  intros Hk Hsorted. unfold Cluster.UDBSCANx.fit. rewrite Hsorted. simpl.
  unfold Cluster.UDBSCANx._cluster.
  destruct (subcluster_ok X (Z.to_nat k) epsilon ltac:(lia) Hsorted)
    as [sub Hsub].
  replace (Z.of_nat (Z.to_nat k)) with k in Hsub by lia.
  rewrite Hsub. simpl.
  destruct (Z.ltb_spec 1 (Z.of_nat (length sub))).
  - destruct (melt_slices_ok sub) as [bs ->]; [by destruct sub|].
    simpl. eauto.
  - simpl. eauto.
Qed.

(** Both clusterers raise [AssertionError] on an array that fails the
    check. *)
Lemma udc_fit_unsorted_raises (self : Cluster.UDBSCANx.t) (X : list Z) :
  Cluster.UDBSCANx._sorted_ascending X = false ->
  Cluster.UDBSCANx.fit self X = Raise AssertionError.
Proof. intros H. unfold Cluster.UDBSCANx.fit. by rewrite H. Qed.

Lemma hudc_fit_unsorted_raises (fuel : nat) (self : Cluster.UDBSCANxH.t)
      (X : list Z) :
  Cluster.UDBSCANx._sorted_ascending X = false ->
  Cluster.UDBSCANxH.fit fuel self X = Some (Raise AssertionError).
Proof.
  intros H. unfold Cluster.UDBSCANxH.fit, Cluster.UDBSCANxH._run.
  by rewrite H.
Qed.

Lemma strongly_sorted_chain (out : list (Z * Z)) :
  StronglySorted (fun a b => a.2 <= b.1) out -> ascending_disjoint out.
Proof. apply StronglySorted_Sorted. Qed.

End fit_facts.

(** C3.  For every array [X]: whenever the flat clusterer's [fit] returns
    (which it does only on an array that passes the sortedness check), the
    slices it has stored are ascending and disjoint, [u1 <= l2] for
    consecutive slices; the same holds of the hierarchical clusterer's
    [fit], whose slices are moreover non-empty slices of [X]; and the
    hierarchical clusterer's [fit] ends as soon as it is given more fuel
    than [X] has points. *)
Theorem fit_slices_ascending_disjoint (X : list Z) :
  (forall (k epsilon : Z) (obj : Cluster.UDBSCANx.t),
      Cluster.UDBSCANx.fit (Cluster.UDBSCANx.__init__ k epsilon) X = Ok obj ->
      ascending_disjoint (Cluster.UDBSCANx.slices obj))
  /\ (forall (fuel : nat) (self obj : Cluster.UDBSCANxH.t),
         Cluster.UDBSCANxH.fit fuel self X = Some (Ok obj) ->
         ascending_disjoint (Cluster.UDBSCANxH.slices obj)
         /\ Forall (fun s => 0 <= s.1 /\ s.1 < s.2
                             /\ s.2 <= Z.of_nat (length X))
                   (Cluster.UDBSCANxH.slices obj))
  /\ (forall (fuel : nat) (self : Cluster.UDBSCANxH.t),
         (length X < fuel)%nat ->
         Cluster.UDBSCANxH.fit fuel self X <> None).
Proof.
  split; [|split].
  - intros k epsilon obj. unfold Cluster.UDBSCANx.fit.
    destruct (Cluster.UDBSCANx._sorted_ascending X); simpl; [|discriminate].
    destruct (Cluster.UDBSCANx._cluster X k epsilon) as [bs|e] eqn:Hcl;
      simpl; [|discriminate].
    intros [= <-]. simpl. by eapply cluster_chain.
  - intros fuel self obj. unfold Cluster.UDBSCANxH.fit.
    destruct (Cluster.UDBSCANxH._run fuel self X) as [[[self' out]|e]|]
      eqn:Hrun; try discriminate.
    intros [= <-]. simpl.
    destruct (run_disjoint_within fuel self self' X out Hrun) as [Hs Hr].
    split; [by apply strongly_sorted_chain|].
    eapply Forall_impl; [exact Hr|]. intros s Hs'. simpl in *. lia.
  - intros fuel self Hfuel. unfold Cluster.UDBSCANxH.fit.
    pose proof (run_total fuel self X Hfuel) as Hrun.
    destruct (Cluster.UDBSCANxH._run fuel self X) as [[[self' out]|e]|];
      done.
Qed.

Lemma fit_slices_ascending_disjoint_witness :
  ascending_disjoint [(0, 8); (8, 11)]
  /\ ascending_disjoint [(0, 4); (4, 8); (8, 12)].
Proof.
  split.
  - apply (proj1 (fit_slices_ascending_disjoint
                    [0; 0; 0; 3; 4; 5; 8; 9; 50; 51; 52]) 3 5
             (Cluster.UDBSCANx.mk 3 5 [(0, 8); (8, 11)]
                [0; 0; 0; 3; 4; 5; 8; 9; 50; 51; 52])).
    vm_compute. reflexivity.
  - apply (proj1 (proj2 (fit_slices_ascending_disjoint
                           [0; 1; 2; 3; 20; 21; 22; 23; 40; 41; 42; 43]))
             13%nat
             (Cluster.UDBSCANxH.mk 3 (Some 20) None "conservative" [] [])
             (Cluster.UDBSCANxH.mk 3 (Some 20) None "conservative"
                [(0, 4); (4, 8); (8, 12)]
                [0; 1; 2; 3; 20; 21; 22; 23; 40; 41; 42; 43])).
    vm_compute. reflexivity.
Defined.

(** The scenarios S1 to S4 of the specification. *)
Example udc_scenario_S1 :
  Cluster.UDBSCANx.cluster_extremities
    (Cluster.UDBSCANx.mk 3 5 [(0, 8); (8, 11)]
       [0; 0; 0; 3; 4; 5; 8; 9; 50; 51; 52])
  = [(0, 9); (50, 52)]
  /\ Cluster.UDBSCANx.udbscanx [0; 0; 0; 3; 4; 5; 8; 9; 50; 51; 52] 3 5
     = Ok [(0, 8); (8, 11)]
  /\ Cluster.UDBSCANx.udbscanx [1; 2; 3] 5 100 = Ok [].
Proof. repeat split; vm_compute; reflexivity. Qed.

Example hudc_scenario_S4 :
  (Cluster.UDBSCANxH.slices <$>
   (Cluster.UDBSCANxH.fit 13
      (Cluster.UDBSCANxH.mk 3 (Some 50) None "conservative" [] [])
      [0; 1; 2; 3; 20; 21; 22; 23; 40; 41; 42; 43] ≫= fun r =>
    match r with Ok obj => Some obj | Raise _ => None end))
  = Some [(0, 12)]
  /\ (Cluster.UDBSCANxH.slices <$>
      (Cluster.UDBSCANxH.fit 13
         (Cluster.UDBSCANxH.mk 3 (Some 20) None "conservative" [] [])
         [0; 1; 2; 3; 20; 21; 22; 23; 40; 41; 42; 43] ≫= fun r =>
       match r with Ok obj => Some obj | Raise _ => None end))
     = Some [(0, 4); (4, 8); (8, 12)].
Proof. split; vm_compute; reflexivity. Qed.

(** * Properties of the remaining code *)

(** ** The domain of core_distances *)

(** X1.  [core_distances] returns exactly when [2 <= min_points <= len(array)]:
    it raises [AssertionError] when [min_points <= 1] and [ValueError]
    (the spans are empty or cannot be broadcast) when the array has fewer
    than [min_points] entries. *)
Theorem core_distances_domain (X : list Z) (k : Z) :
  (k <= 1 -> Cluster.core_distances X k = Raise AssertionError)
  /\ (2 <= k -> Z.of_nat (length X) < k ->
      Cluster.core_distances X k = Raise ValueError)
  /\ (2 <= k <= Z.of_nat (length X) ->
      exists D, Cluster.core_distances X k = Ok D /\ length D = length X).
Proof.
  split; [|split].
  - intros Hk. unfold Cluster.core_distances.
    destruct (Z.ltb_spec 1 k); [lia|done].
  - intros Hk Hn. unfold Cluster.core_distances.
    destruct (Z.ltb_spec 1 k); [|lia]. simpl negb. cbv iota.
    assert (Hup : Np.slice X (k - 1) (Z.of_nat (length X)) = []).
    { unfold Np.slice, Np.bound.
      destruct (Z.ltb_spec (k - 1) 0); [lia|].
      destruct (Z.ltb_spec (Z.of_nat (length X)) 0); [lia|].
      replace (Z.to_nat (Z.of_nat (length X) `min` Z.of_nat (length X))
               - Z.to_nat ((k - 1) `min` Z.of_nat (length X)))%nat
        with 0%nat by lia.
      done. }
    rewrite Hup. unfold Np.broadcast.
    destruct (Np.slice X 0 (Z.of_nat (length X) - (k - 1)))
      as [|y [|y' lower]]; simpl; done.
  - intros Hk.
    destruct (core_distances_stacked X (Z.to_nat k) ltac:(lia))
      as (m & Hm & HD).
    replace (Z.of_nat (Z.to_nat k)) with k in HD by lia.
    eexists. split; [exact HD|].
    apply np_max_spec in Hm as [_ Hm].
    rewrite stacked_min_length by lia.
    rewrite spans_length by lia. lia.
Qed.

Lemma core_distances_domain_witness :
  Cluster.core_distances [1; 2; 3] 1 = Raise AssertionError
  /\ Cluster.core_distances [1; 2; 3] 5 = Raise ValueError
  /\ exists D, Cluster.core_distances [1; 2; 3] 2 = Ok D
               /\ length D = 3%nat.
Proof.
  destruct (core_distances_domain [1; 2; 3] 1) as (H1 & _ & _).
  destruct (core_distances_domain [1; 2; 3] 5) as (_ & H2 & _).
  destruct (core_distances_domain [1; 2; 3] 2) as (_ & _ & H3).
  split; [apply H1; lia|].
  split; [apply H2; simpl; lia|].
  apply H3. simpl. lia.
Defined.

(** ** The clusters of the flat clusterer *)

Section dense_windows_facts.

Lemma seqZ_sorted (a m : Z) : Sorted Z.le (seqZ a m).
Proof.
  unfold seqZ. apply Sorted_fmap with (R1 := le); [intros ? ? ?; lia|].
  apply Sorted_LocallySorted_iff.
  generalize 0%nat. induction (Z.to_nat m) as [|p IH]; intros st;
    [constructor|].
  simpl. destruct p; [constructor|]. simpl. constructor; [apply IH|lia].
Qed.

Lemma elem_of_pick {A} (a : list A) (mask : list bool) (i : nat) (x : A) :
  a !! i = Some x -> mask !! i = Some true -> x ∈ Np.pick a mask.
Proof.
  revert mask i. induction a as [|y a IH]; intros [|b mask] [|i];
    simpl; try done.
  - intros [= ->] [= ->]. left.
  - intros Ha Hm. destruct b; [right|]; by eapply IH.
Qed.

Variables (array : list Z) (k : nat) (epsilon : Z).

Lemma dense_windows_elem (s : Z * Z) :
  s ∈ dense_windows array k epsilon
  <-> exists (j : nat) (e : Z),
        s = window (Z.of_nat k) (Z.of_nat j)
        /\ spans array k !! j = Some e /\ e <= epsilon
        /\ (j < length array - (k - 1))%nat.
Proof.
  unfold dense_windows. split.
  - intros (i & Hi & Hsel)%pick_elem.
    rewrite list_lookup_fmap in Hi. rewrite list_lookup_fmap in Hsel.
    destruct (seqZ 0 (Z.of_nat (length array - (k - 1))) !! i) as [j|]
      eqn:Hj; [|discriminate].
    apply lookup_seqZ in Hj as [-> Hlt]. injection Hi as <-.
    destruct (spans array k !! i) as [e|] eqn:He; [|discriminate].
    injection Hsel as Hle. apply Z.leb_le in Hle.
    exists i, e. repeat split; [done|done|lia].
  - intros (j & e & -> & He & Hle & Hj).
    apply (elem_of_pick _ _ j).
    + rewrite list_lookup_fmap, lookup_seqZ_lt by lia. done.
    + rewrite list_lookup_fmap, He. simpl. f_equal. by apply Z.leb_le.
Qed.

Lemma dense_windows_fst_sorted :
  Sorted Z.le (fst <$> dense_windows array k epsilon).
Proof.
  unfold dense_windows. rewrite pick_fmap. apply StronglySorted_Sorted.
  apply pick_sorted. rewrite <- list_fmap_compose.
  apply Sorted_StronglySorted; [apply _|].
  apply Sorted_fmap with (R1 := Z.le); [by intros ? ? ?|].
  apply seqZ_sorted.
Qed.

Lemma dense_windows_snd_sorted :
  Sorted Z.le (snd <$> dense_windows array k epsilon).
Proof.
  unfold dense_windows. rewrite pick_fmap. apply StronglySorted_Sorted.
  apply pick_sorted. rewrite <- list_fmap_compose.
  apply Sorted_StronglySorted; [apply _|].
  apply Sorted_fmap with (R1 := Z.le);
    [intros ? ? ?; unfold window; simpl; lia|].
  apply seqZ_sorted.
Qed.

(** The clusters are the melt of the dense windows, which the sorts of
    [_melt_slices] leave in place. *)
Lemma cluster_dense_windows (bs : list (Z * Z)) :
  (2 <= k <= length array)%nat ->
  Cluster.UDBSCANx._cluster array (Z.of_nat k) epsilon = Ok bs ->
  bs = match dense_windows array k epsilon with
       | [] => []
       | (l, u) :: rest => melt_last l u rest
       end.
Proof.
  intros Hk. unfold Cluster.UDBSCANx._cluster.
  destruct (Cluster.UDBSCANx._subcluster array (Z.of_nat k) epsilon)
    as [sub|e] eqn:Hsub; simpl; [|discriminate].
  apply subcluster_windows in Hsub; [|done].
  fold (dense_windows array k epsilon) in Hsub.
  pose proof dense_windows_fst_sorted as Hfst.
  pose proof dense_windows_snd_sorted as Hsnd.
  rewrite <- Hsub in *. clear Hsub.
  destruct (Z.ltb_spec 1 (Z.of_nat (length sub))) as [Hlen|Hlen].
  - intros (l0 & u0 & Lt & Ut & HL & HU & ->)%melt_slices_inv.
    rewrite merge_sort_sorted_id in HL, HU by done.
    destruct sub as [|[l u] rest]; [discriminate|].
    simpl in HL, HU. injection HL as <- <-. injection HU as <- <-.
    by rewrite zip_fst_snd.
  - intros [= <-]. destruct sub as [|[l u] [|s' sub]]; try done.
    simpl in Hlen. lia.
Qed.

End dense_windows_facts.

Section melt_last_windows.

(** Melting slices whose bounds both ascend keeps their union. *)
Lemma melt_last_union (l u : Z) (rest : list (Z * Z)) (c : Z) :
  StronglySorted Z.le (l :: (fst <$> rest)) ->
  StronglySorted Z.le (u :: (snd <$> rest)) ->
  in_slices c (melt_last l u rest)
  <-> in_slice c (l, u) \/ in_slices c rest.
Proof.
  revert l u. induction rest as [|[li ui] rest IH]; intros l u HL HU.
  - simpl. unfold in_slices. split.
    + intros (s & ->%list_elem_of_singleton & Hs). by left.
    + intros [H|(s & Hs & _)]; [|by apply elem_of_nil in Hs].
      exists (l, u). split; [left|done].
  - simpl in HL, HU.
    apply StronglySorted_inv in HL as [HL HLl].
    apply StronglySorted_inv in HU as [HU HUu].
    inversion HLl as [|? ? Hlli _]; subst.
    inversion HUu as [|? ? Huui _]; subst.
    simpl. destruct (Z.leb_spec u li) as [Hsplit|Hmerge].
    + unfold in_slices at 1. setoid_rewrite elem_of_cons.
      split.
      * intros (s & [->|Hs] & Hc); [by left|].
        assert (Hin : in_slices c (melt_last li ui rest))
          by (by exists s).
        apply IH in Hin; [|done..].
        right. destruct Hin as [Hin|(s' & Hs' & Hc')].
        -- exists (li, ui). split; [left|done].
        -- exists s'. split; [by right|done].
      * intros [Hc|(s & Hs & Hc)].
        -- exists (l, u). split; [by left|done].
        -- assert (Hin : in_slices c (melt_last li ui rest)).
           { apply IH; [done..|].
             apply elem_of_cons in Hs as [->|Hs]; [by left|].
             right. by exists s. }
           destruct Hin as (s' & Hs' & Hc'). exists s'.
           split; [by right|done].
    + rewrite IH.
      2:{ constructor; [by apply StronglySorted_inv in HL as [? ?]|].
          inversion HLl; subst. done. }
      2:{ done. }
      unfold in_slices, in_slice. simpl. split.
      * intros [Hc|(s & Hs & Hc)].
        -- destruct (decide (c < u)); [left; lia|].
           right. exists (li, ui). split; [left|simpl; lia].
        -- right. exists s. split; [by right|done].
      * intros [Hc|(s & Hs & Hc)]; [left; lia|].
        apply elem_of_cons in Hs as [->|Hs].
        -- left. simpl in Hc. lia.
        -- right. by exists s.
Qed.

(** Melting windows of [k] points gives slices of at least [k]
    points. *)
Lemma melt_last_sizes (k : Z) (l u : Z) (rest : list (Z * Z)) :
  StronglySorted Z.le (l :: (fst <$> rest)) ->
  l + k <= u ->
  Forall (fun s => s.1 + k <= s.2) rest ->
  Forall (fun s => s.1 + k <= s.2) (melt_last l u rest).
Proof.
  revert l u. induction rest as [|[li ui] rest IH]; intros l u HL Hlu Hr.
  - by repeat constructor.
  - simpl in HL.
    apply StronglySorted_inv in HL as [HL HLl].
    inversion HLl as [|? ? Hlli HLl']; subst.
    inversion Hr as [|? ? Hi Hr']; subst. simpl in Hi.
    simpl. destruct (Z.leb_spec u li).
    + constructor; [done|]. by apply IH.
    + apply IH; [|lia|done].
      constructor; [by apply StronglySorted_inv in HL as [? ?]|done].
Qed.

End melt_last_windows.

Section flat_clusters.

Variables (array : list Z) (k : nat) (epsilon : Z).
Hypothesis k_valid : (2 <= k)%nat.

(** Every cluster holds at least [k] points of the array. *)
Lemma cluster_sizes (bs : list (Z * Z)) :
  Cluster.UDBSCANx._cluster array (Z.of_nat k) epsilon = Ok bs ->
  Forall (fun s => 0 <= s.1 /\ s.1 + Z.of_nat k <= s.2
                   /\ s.2 <= Z.of_nat (length array)) bs.
Proof.
  intros Hcl.
  pose proof (cluster_range _ _ _ _ k_valid Hcl) as Hrange.
  assert (Hsize : Forall (fun s => s.1 + Z.of_nat k <= s.2) bs).
  { destruct (decide (k <= length array)%nat) as [Hle|Hgt].
    - apply cluster_dense_windows in Hcl; [|lia].
      assert (Hw : Forall (fun s => s.1 + Z.of_nat k <= s.2)
                          (dense_windows array k epsilon)).
      { apply Forall_forall.
        intros s (j & e & -> & _)%dense_windows_elem.
        unfold window. simpl. lia. }
      pose proof (dense_windows_fst_sorted array k epsilon) as Hfst.
      destruct (dense_windows array k epsilon) as [|[l u] rest];
        [subst; constructor|].
      subst bs. inversion Hw; subst.
      apply melt_last_sizes; [|done|done].
      apply Sorted_StronglySorted; [apply _|done].
    - unfold Cluster.UDBSCANx._cluster in Hcl.
      destruct (Cluster.UDBSCANx._subcluster array (Z.of_nat k) epsilon)
        as [sub|e] eqn:Hsub; simpl in Hcl; [|discriminate].
      apply subcluster_short in Hsub; [|lia..]. subst sub.
      simpl in Hcl. injection Hcl as <-. constructor. }
  rewrite Forall_forall in Hrange, Hsize. apply Forall_forall.
  intros s Hs. specialize (Hrange s Hs). specialize (Hsize s Hs). lia.
Qed.

(** The clusters cover exactly the positions that a dense window
    covers. *)
Lemma cluster_union (bs : list (Z * Z)) (c : Z) :
  (k <= length array)%nat ->
  Cluster.UDBSCANx._cluster array (Z.of_nat k) epsilon = Ok bs ->
  in_slices c bs <-> in_slices c (dense_windows array k epsilon).
Proof.
  intros Hle Hcl. apply cluster_dense_windows in Hcl; [|lia].
  pose proof (dense_windows_fst_sorted array k epsilon) as Hfst.
  pose proof (dense_windows_snd_sorted array k epsilon) as Hsnd.
  destruct (dense_windows array k epsilon) as [|[l u] rest];
    [by subst|].
  subst bs. rewrite melt_last_union.
  - unfold in_slices. setoid_rewrite elem_of_cons. split.
    + intros [Hc|(s & Hs & Hc)]; [exists (l, u)|exists s]; auto.
    + intros (s & [->|Hs] & Hc); [by left|right; by exists s].
  - apply Sorted_StronglySorted; [apply _|done].
  - apply Sorted_StronglySorted; [apply _|done].
Qed.

End flat_clusters.

(** X2.  Every cluster that the flat clusterer finds, with
    [min_points >= 2], is a run [X[l:u]] of at least [min_points]
    consecutive entries of the array it was fitted to: [clusters()] yields
    these runs, one for each slice. *)
Theorem udc_clusters_hold_min_points (X : list Z) (k epsilon : Z)
        (obj : Cluster.UDBSCANx.t) :
  2 <= k ->
  Cluster.UDBSCANx.fit (Cluster.UDBSCANx.__init__ k epsilon) X = Ok obj ->
  Forall2 (fun s c =>
             0 <= s.1 /\ s.1 + k <= s.2 /\ s.2 <= Z.of_nat (length X)
             /\ c = take (Z.to_nat (s.2 - s.1)) (drop (Z.to_nat s.1) X)
             /\ k <= Z.of_nat (length c))
          (Cluster.UDBSCANx.slices obj) (Cluster.UDBSCANx.clusters obj).
Proof.
  intros Hk. unfold Cluster.UDBSCANx.fit.
  destruct (Cluster.UDBSCANx._sorted_ascending X); simpl; [|discriminate].
  destruct (Cluster.UDBSCANx._cluster X k epsilon) as [bs|e] eqn:Hcl;
    simpl; [|discriminate].
  intros [= <-]. unfold Cluster.UDBSCANx.clusters. simpl.
  replace k with (Z.of_nat (Z.to_nat k)) in Hcl by lia.
  apply cluster_sizes in Hcl; [|lia].
  apply Forall2_fmap_r, Forall_Forall2_diag.
  eapply Forall_impl; [exact Hcl|].
  intros [l u] (Hl & Hlu & Hu). simpl in *.
  assert (Hslice : Np.slice X l u
                   = take (Z.to_nat (u - l)) (drop (Z.to_nat l) X)).
  { unfold Np.slice. rewrite !bound_nonneg by lia. f_equal. lia. }
  rewrite Hslice. repeat split; try lia.
  rewrite length_take, length_drop. lia.
Qed.

Lemma udc_clusters_hold_min_points_witness :
  Forall2 (fun s c =>
             0 <= s.1 /\ s.1 + 3 <= s.2 /\ s.2 <= 11
             /\ c = take (Z.to_nat (s.2 - s.1)) (drop (Z.to_nat s.1)
                      [0; 0; 0; 3; 4; 5; 8; 9; 50; 51; 52])
             /\ 3 <= Z.of_nat (length c))
          [(0, 8); (8, 11)]
          [[0; 0; 0; 3; 4; 5; 8; 9]; [50; 51; 52]].
Proof.
  apply (udc_clusters_hold_min_points
           [0; 0; 0; 3; 4; 5; 8; 9; 50; 51; 52] 3 5
           (Cluster.UDBSCANx.mk 3 5 [(0, 8); (8, 11)]
              [0; 0; 0; 3; 4; 5; 8; 9; 50; 51; 52])).
  - lia.
  - vm_compute. reflexivity.
Defined.

(** X3.  The flat clusterer and the core distances agree: with
    [2 <= min_points <= len(X)], a point of the fitted array lies in one of
    the clusters exactly when its core distance is at most [epsilon]; the
    other points are the noise. *)
Theorem udc_member_iff_core_distance (X : list Z) (k epsilon : Z)
        (obj : Cluster.UDBSCANx.t) (D : list Z) :
  2 <= k <= Z.of_nat (length X) ->
  Cluster.UDBSCANx.fit (Cluster.UDBSCANx.__init__ k epsilon) X = Ok obj ->
  Cluster.core_distances X k = Ok D ->
  forall (i : nat) (d : Z),
    D !! i = Some d ->
    in_slices (Z.of_nat i) (Cluster.UDBSCANx.slices obj) <-> d <= epsilon.
Proof.
  intros Hk. unfold Cluster.UDBSCANx.fit.
  destruct (Cluster.UDBSCANx._sorted_ascending X); simpl; [|discriminate].
  destruct (Cluster.UDBSCANx._cluster X k epsilon) as [bs|e] eqn:Hcl;
    simpl; [|discriminate].
  intros [= <-] HD i d Hd. simpl.
  set (kn := Z.to_nat k).
  replace k with (Z.of_nat kn) in Hcl, HD by lia.
  rewrite (cluster_union X kn epsilon ltac:(lia) bs (Z.of_nat i)
             ltac:(lia) Hcl).
  destruct (core_distances_stacked X kn ltac:(lia)) as (m & Hm & HD').
  rewrite HD' in HD. injection HD as <-.
  apply np_max_spec in Hm as [_ Hm].
  assert (Hne : spans X kn <> []) by (apply spans_nonempty; lia).
  assert (Hi : (i < length (spans X kn) + kn - 1)%nat).
  { apply lookup_lt_Some in Hd.
    rewrite stacked_min_length in Hd by (done || lia). done. }
  destruct (stacked_min_spec m (spans X kn) kn ltac:(lia) Hne Hm i Hi)
    as (v & Hv & (j & Hj & Hjv) & Hmin).
  rewrite Hd in Hv. injection Hv as <-.
  unfold in_slices. split.
  - intros (s & (j' & e & -> & He & Hle & _)%dense_windows_elem & Hc).
    unfold in_slice, window in Hc. simpl in Hc.
    specialize (Hmin j' e ltac:(lia) He). lia.
  - intros Hle. exists (window (Z.of_nat kn) (Z.of_nat j)). split.
    + apply dense_windows_elem. exists j, d. repeat split; [done|done|].
      apply lookup_lt_Some in Hjv. rewrite spans_length in Hjv by lia.
      done.
    + unfold in_slice, window. simpl. lia.
Qed.

Lemma udc_member_iff_core_distance_witness :
  in_slices 3 [(0, 8); (8, 11)] <-> 2 <= 5.
Proof.
  apply (udc_member_iff_core_distance
           [0; 0; 0; 3; 4; 5; 8; 9; 50; 51; 52] 3 5
           (Cluster.UDBSCANx.mk 3 5 [(0, 8); (8, 11)]
              [0; 0; 0; 3; 4; 5; 8; 9; 50; 51; 52])
           [0; 0; 0; 2; 2; 2; 4; 4; 2; 2; 2]
           ltac:(simpl; lia) ltac:(vm_compute; reflexivity)
           ltac:(vm_compute; reflexivity) 3%nat 2).
  reflexivity.
Defined.

(** ** labels *)

Section labels_facts.

Lemma add_slice_length (a : list Z) (l u c : Z) :
  0 <= l <= u -> u <= Z.of_nat (length a) ->
  length (Np.add_slice a l u c) = length a.
Proof.
  intros Hl Hu. unfold Np.add_slice.
  rewrite !bound_nonneg by lia.
  rewrite !length_app, length_fmap, !length_take, !length_drop. lia.
Qed.

Lemma add_slice_lookup (a : list Z) (l u c : Z) (j : nat) (x : Z) :
  0 <= l <= u -> u <= Z.of_nat (length a) ->
  a !! j = Some x ->
  Np.add_slice a l u c !! j
  = Some (if decide (in_slice (Z.of_nat j) (l, u)) then Np.add x c
          else x).
Proof.
  intros Hl Hu Hx. unfold Np.add_slice, in_slice. simpl.
  rewrite !bound_nonneg by lia.
  set (s := Z.to_nat l). set (e := Z.to_nat u).
  assert (Hj : (j < length a)%nat) by (by eapply lookup_lt_Some).
  destruct (decide (j < s)%nat) as [Hjs|Hjs].
  { rewrite lookup_app_l by (rewrite length_take; lia).
    rewrite lookup_take_lt by lia.
    rewrite decide_False by lia. done. }
  rewrite lookup_app_r by (rewrite length_take; lia).
  rewrite length_take.
  replace (j - s `min` length a)%nat with (j - s)%nat by lia.
  destruct (decide (j < e)%nat) as [Hje|Hje].
  { rewrite lookup_app_l
      by (rewrite length_fmap, length_take, length_drop; lia).
    rewrite list_lookup_fmap, lookup_take_lt, lookup_drop by lia.
    replace (s + (j - s))%nat with j by lia.
    rewrite Hx. simpl. rewrite decide_True by lia. done. }
  rewrite lookup_app_r
    by (rewrite length_fmap, length_take, length_drop; lia).
  rewrite length_fmap, length_take, length_drop, lookup_drop.
  replace (s + (e - s) + (j - s - (e - s) `min` (length a - s)))%nat
    with j by lia.
  rewrite decide_False by lia. done.
Qed.

Lemma disjoint_within_tail (base len : Z) (s : Z * Z)
      (rest : list (Z * Z)) :
  disjoint_within base len (s :: rest) ->
  disjoint_within (base + 1) (len - 1) rest
  /\ Forall (fun t => s.2 <= t.1) rest
  /\ base <= s.1 /\ s.1 < s.2 /\ s.2 <= base + len.
Proof.
  intros [Hs Hr].
  apply StronglySorted_inv in Hs as [Hs Hhd].
  apply Forall_cons in Hr as [Hb Hr].
  split; [|by split]. split; [done|].
  rewrite Forall_forall in Hhd, Hr. apply Forall_forall.
  intros t Ht. specialize (Hhd t Ht). specialize (Hr t Ht). lia.
Qed.

(** The slice number [i] of disjoint non-empty slices begins at the
    position [i] at least. *)
Lemma disjoint_within_index (slices : list (Z * Z)) :
  forall (base len : Z) (i : nat) (s : Z * Z),
    disjoint_within base len slices ->
    slices !! i = Some s -> base + Z.of_nat i <= s.1.
Proof.
  induction slices as [|s0 rest IH]; intros base len i s Hd Hi;
    [done|].
  apply disjoint_within_tail in Hd as (Hd & _ & Hb & _).
  destruct i as [|i]; simpl in Hi.
  - injection Hi as <-. lia.
  - specialize (IH _ _ _ _ Hd Hi). lia.
Qed.

Lemma labels_loop_spec (slices : list (Z * Z)) :
  forall (start : Z) (L : list Z),
    disjoint_within 0 (Z.of_nat (length L)) slices ->
    let R := foldl labels_step L
               (zip (seqZ start (Z.of_nat (length slices))) slices) in
    length R = length L
    /\ forall (j : nat) (x : Z),
         L !! j = Some x ->
         (forall (i : nat) (s : Z * Z),
             slices !! i = Some s -> in_slice (Z.of_nat j) s ->
             R !! j = Some (Np.add x (start + Z.of_nat i + 1)))
         /\ ((forall s, s ∈ slices -> ~ in_slice (Z.of_nat j) s) ->
             R !! j = Some x).
Proof.
  induction slices as [|[l u] rest IH]; intros start L Hd.
  - simpl. split; [done|]. intros j x Hx. split; [done|done].
  - pose proof Hd as [Hs Hr].
    apply StronglySorted_inv in Hs as [Hs Hhd].
    apply Forall_cons in Hr as [Hb Hr]. simpl in Hb.
    rewrite seqZ_cons by (simpl length; lia).
    replace (Z.pred (Z.of_nat (length ((l, u) :: rest))))
      with (Z.of_nat (length rest)) by (simpl length; lia).
    cbn [zip zip_with foldl labels_step].
    set (L' := Np.add_slice L l u (start + 1)).
    assert (Hlen : length L' = length L)
      by (apply add_slice_length; lia).
    assert (Hd' : disjoint_within 0 (Z.of_nat (length L')) rest).
    { rewrite Hlen. by split. }
    destruct (IH (Z.succ start) L' Hd') as [HlenR HR].
    split; [by rewrite HlenR|].
    intros j x Hx.
    pose proof (add_slice_lookup L l u (start + 1) j x
                  ltac:(lia) ltac:(lia) Hx) as Hx'.
    fold L' in Hx'.
    destruct (HR j _ Hx') as [Hin Hout].
    rewrite Forall_forall in Hhd. simpl in Hhd.
    split.
    + intros [|i] s Hi Hj; simpl in Hi.
      * injection Hi as <-. rewrite Hout.
        -- rewrite decide_True by done. do 2 f_equal. lia.
        -- intros s' Hs' Hj'. specialize (Hhd s' Hs').
           unfold in_slice in *. simpl in *. lia.
      * rewrite (Hin i s Hi Hj).
        assert (Hsr : s ∈ rest) by (by eapply list_elem_of_lookup_2).
        specialize (Hhd s Hsr).
        rewrite decide_False
          by (unfold in_slice in *; simpl in *; lia).
        do 2 f_equal. lia.
    + intros Hnone. rewrite Hout.
      * rewrite decide_False; [done|].
        apply Hnone. left.
      * intros s' Hs'. apply Hnone. by right.
Qed.

(** [labels] on slices that are disjoint non-empty slices of an array
    of fewer than [2^63] entries. *)
Lemma labels_spec (n : nat) (slices : list (Z * Z)) :
  Z.of_nat n < 2 ^ 63 ->
  disjoint_within 0 (Z.of_nat n) slices ->
  let R := foldl labels_step (replicate n (-1))
             (zip (seqZ 0 (Z.of_nat (length slices))) slices) in
  length R = n
  /\ forall j : nat,
       (j < n)%nat ->
       (forall (i : nat) (s : Z * Z),
           slices !! i = Some s -> in_slice (Z.of_nat j) s ->
           R !! j = Some (Z.of_nat i))
       /\ ((forall s, s ∈ slices -> ~ in_slice (Z.of_nat j) s) ->
           R !! j = Some (-1)).
Proof.
  intros Hn Hd.
  pose proof (labels_loop_spec slices 0 (replicate n (-1))) as Hspec.
  rewrite length_replicate in Hspec.
  destruct (Hspec Hd) as [Hlen HR]. split; [done|].
  intros j Hj.
  destruct (HR j (-1) ltac:(by apply lookup_replicate_2)) as [Hin Hout].
  split; [|done].
  intros i s Hi Hjs. rewrite (Hin i s Hi Hjs). f_equal.
  pose proof (disjoint_within_index slices 0 _ i s Hd Hi) as Hidx.
  unfold in_slice in Hjs. unfold Np.add.
  replace (-1 + (0 + Z.of_nat i + 1)) with (Z.of_nat i) by lia.
  apply wrap64_id. unfold Np.int64. lia.
Qed.

Lemma udc_fit_disjoint_within (X : list Z) (k epsilon : Z)
      (obj : Cluster.UDBSCANx.t) :
  2 <= k ->
  Cluster.UDBSCANx.fit (Cluster.UDBSCANx.__init__ k epsilon) X = Ok obj ->
  Cluster.UDBSCANx.input_array obj = X
  /\ disjoint_within 0 (Z.of_nat (length X)) (Cluster.UDBSCANx.slices obj).
Proof.
  intros Hk. unfold Cluster.UDBSCANx.fit.
  destruct (Cluster.UDBSCANx._sorted_ascending X); simpl; [|discriminate].
  destruct (Cluster.UDBSCANx._cluster X k epsilon) as [bs|e] eqn:Hcl;
    simpl; [|discriminate].
  intros [= <-]. simpl. split; [done|].
  pose proof (cluster_chain _ _ _ _ Hcl) as Hchain.
  replace k with (Z.of_nat (Z.to_nat k)) in Hcl by lia.
  apply cluster_sizes in Hcl; [|lia].
  split.
  - apply chain_strongly_sorted; [done|].
    eapply Forall_impl; [exact Hcl|]. intros s ?. simpl in *. lia.
  - eapply Forall_impl; [exact Hcl|]. intros s ?. simpl in *. lia.
Qed.

Lemma hudc_fit_disjoint_within (fuel : nat) (self obj : Cluster.UDBSCANxH.t)
      (X : list Z) :
  Cluster.UDBSCANxH.fit fuel self X = Some (Ok obj) ->
  Cluster.UDBSCANxH.input_array obj = X
  /\ disjoint_within 0 (Z.of_nat (length X))
                     (Cluster.UDBSCANxH.slices obj).
Proof.
  unfold Cluster.UDBSCANxH.fit.
  destruct (Cluster.UDBSCANxH._run fuel self X) as [[[self' out]|e]|]
    eqn:Hrun; try discriminate.
  intros [= <-]. simpl. split; [done|].
  by eapply run_disjoint_within.
Qed.

End labels_facts.

(** X4.  [labels()] of a fitted model, flat (with [min_points >= 2]) or
    hierarchical, on an array of fewer than [2^63] entries: it has one
    label for each entry; the entries of the cluster number [i], counted
    from 0 in ascending order, are labelled [i], and the entries of no
    cluster, the noise, are labelled [-1]. *)
Theorem labels_of_fitted_model (X : list Z) :
  Z.of_nat (length X) < 2 ^ 63 ->
  (forall (k epsilon : Z) (obj : Cluster.UDBSCANx.t),
      2 <= k ->
      Cluster.UDBSCANx.fit (Cluster.UDBSCANx.__init__ k epsilon) X = Ok obj ->
      length (Cluster.UDBSCANx.labels obj) = length X
      /\ forall j : nat,
           (j < length X)%nat ->
           (forall (i : nat) (s : Z * Z),
               Cluster.UDBSCANx.slices obj !! i = Some s ->
               in_slice (Z.of_nat j) s ->
               Cluster.UDBSCANx.labels obj !! j = Some (Z.of_nat i))
           /\ (~ in_slices (Z.of_nat j) (Cluster.UDBSCANx.slices obj) ->
               Cluster.UDBSCANx.labels obj !! j = Some (-1)))
  /\ (forall (fuel : nat) (self obj : Cluster.UDBSCANxH.t),
         Cluster.UDBSCANxH.fit fuel self X = Some (Ok obj) ->
         length (Cluster.UDBSCANxH.labels obj) = length X
         /\ forall j : nat,
              (j < length X)%nat ->
              (forall (i : nat) (s : Z * Z),
                  Cluster.UDBSCANxH.slices obj !! i = Some s ->
                  in_slice (Z.of_nat j) s ->
                  Cluster.UDBSCANxH.labels obj !! j = Some (Z.of_nat i))
              /\ (~ in_slices (Z.of_nat j) (Cluster.UDBSCANxH.slices obj) ->
                  Cluster.UDBSCANxH.labels obj !! j = Some (-1))).
Proof.
  intros Hn. split.
  - intros k epsilon obj Hk Hfit.
    destruct (udc_fit_disjoint_within X k epsilon obj Hk Hfit) as [HX Hd].
    unfold Cluster.UDBSCANx.labels. rewrite HX.
    destruct (labels_spec (length X) _ Hn Hd) as [Hlen HR].
    split; [exact Hlen|].
    intros j Hj. destruct (HR j Hj) as [Hin Hout]. split; [exact Hin|].
    intros Hnone. apply Hout. intros s Hs Hjs. apply Hnone. by exists s.
  - intros fuel self obj Hfit.
    destruct (hudc_fit_disjoint_within fuel self obj X Hfit) as [HX Hd].
    unfold Cluster.UDBSCANxH.labels. rewrite HX.
    destruct (labels_spec (length X) _ Hn Hd) as [Hlen HR].
    split; [exact Hlen|].
    intros j Hj. destruct (HR j Hj) as [Hin Hout]. split; [exact Hin|].
    intros Hnone. apply Hout. intros s Hs Hjs. apply Hnone. by exists s.
Qed.

Lemma labels_of_fitted_model_witness :
  Cluster.UDBSCANx.labels
    (Cluster.UDBSCANx.mk 3 5 [(0, 3); (4, 7)] [0; 1; 2; 20; 40; 41; 42])
  !! 5%nat = Some 1.
Proof.
  destruct (labels_of_fitted_model [0; 1; 2; 20; 40; 41; 42]
              ltac:(simpl; lia)) as [Hflat _].
  destruct (Hflat 3 5
              (Cluster.UDBSCANx.mk 3 5 [(0, 3); (4, 7)]
                 [0; 1; 2; 20; 40; 41; 42])
              ltac:(lia) ltac:(vm_compute; reflexivity)) as [_ Hj].
  destruct (Hj 5%nat ltac:(simpl; lia)) as [Hin _].
  apply (Hin 1%nat (4, 7)); [reflexivity|].
  unfold in_slice. simpl. lia.
Defined.

(** ** cluster_extremities *)

Section extremities_facts.

Lemma sorted_lookup_le (X : list Z) :
  Sorted Z.le X ->
  forall (i j : nat) (a b : Z),
    (i <= j)%nat -> X !! i = Some a -> X !! j = Some b -> a <= b.
Proof.
  intros Hs. apply Sorted_StronglySorted in Hs; [|apply _].
  induction Hs as [|x X Hs IH Hx]; intros i j a b Hij Ha Hb; [done|].
  destruct i as [|i], j as [|j]; simpl in *; try lia.
  - injection Ha as <-. injection Hb as <-. lia.
  - injection Ha as <-. rewrite Forall_forall in Hx. apply Hx.
    by eapply list_elem_of_lookup_2.
  - eapply IH; [|done..]. lia.
Qed.

Variable X : list Z.
Hypothesis X_sorted : Sorted Z.le X.

Lemma slice_extremities (l u : Z) :
  0 <= l -> l < u -> u <= Z.of_nat (length X) ->
  let c := Np.slice X l u in
  at_ X l ∈ c /\ at_ X (u - 1) ∈ c
  /\ Forall (fun x => at_ X l <= x <= at_ X (u - 1)) c.
Proof.
  intros Hl Hlu Hu c.
  assert (Hc : c = take (Z.to_nat (u - l)) (drop (Z.to_nat l) X)).
  { unfold c, Np.slice. rewrite !bound_nonneg by lia. f_equal. lia. }
  destruct (lookup_lt_is_Some_2 X (Z.to_nat l) ltac:(lia)) as [a Ha].
  destruct (lookup_lt_is_Some_2 X (Z.to_nat (u - 1)) ltac:(lia))
    as [b Hb].
  unfold at_. rewrite Ha, Hb. simpl.
  assert (Hlook : forall i : nat,
             (i < Z.to_nat (u - l))%nat ->
             c !! i = X !! (Z.to_nat l + i)%nat).
  { intros i Hi. rewrite Hc, lookup_take_lt, lookup_drop by lia. done. }
  split; [|split].
  - apply (list_elem_of_lookup_2 _ 0%nat).
    rewrite Hlook by lia. by rewrite Nat.add_0_r.
  - apply (list_elem_of_lookup_2 _ (Z.to_nat (u - 1 - l))).
    rewrite Hlook by lia.
    replace (Z.to_nat l + Z.to_nat (u - 1 - l))%nat
      with (Z.to_nat (u - 1)) by lia.
    done.
  - apply Forall_forall. intros x Hx.
    apply list_elem_of_lookup_1 in Hx as [i Hi].
    assert (Hilt : (i < Z.to_nat (u - l))%nat).
    { apply lookup_lt_Some in Hi. rewrite Hc, length_take in Hi. lia. }
    rewrite Hlook in Hi by done. split.
    + apply (sorted_lookup_le X X_sorted (Z.to_nat l)
               (Z.to_nat l + i)%nat); [lia|done|done].
    + apply (sorted_lookup_le X X_sorted (Z.to_nat l + i)%nat
               (Z.to_nat (u - 1))); [lia|done|done].
Qed.

Lemma extremities_spec (slices : list (Z * Z)) :
  disjoint_within 0 (Z.of_nat (length X)) slices ->
  extremities_of
    ((fun '(lower, upper) => Np.slice X lower upper) <$> slices)
    ((fun '(lower, upper) => (at_ X lower, at_ X (upper - 1)))
     <$> slices).
Proof.
  intros [Hs Hr]. split.
  - apply Forall2_fmap, Forall_Forall2_diag.
    eapply Forall_impl; [exact Hr|].
    intros [l u] (Hl & Hlu & Hu). simpl in *.
    apply slice_extremities; lia.
  - induction Hs as [|[l u] rest Hs IH Hhd]; [constructor|].
    apply Forall_cons in Hr as [Hb Hr]. simpl in Hb.
    rewrite fmap_cons. constructor; [by apply IH|].
    destruct rest as [|[l' u'] rest]; [constructor|].
    rewrite fmap_cons. constructor. simpl.
    apply Forall_cons in Hhd as [Hul _].
    apply Forall_cons in Hr as [Hb' _]. simpl in *.
    destruct (lookup_lt_is_Some_2 X (Z.to_nat (u - 1)) ltac:(lia))
      as [a Ha].
    destruct (lookup_lt_is_Some_2 X (Z.to_nat l') ltac:(lia)) as [b Hb2].
    unfold at_. rewrite Ha, Hb2. simpl.
    apply (sorted_lookup_le X X_sorted (Z.to_nat (u - 1)) (Z.to_nat l'));
      [lia|done|done].
Qed.

End extremities_facts.

Lemma hudc_fit_checked (fuel : nat) (self obj : Cluster.UDBSCANxH.t)
      (X : list Z) :
  Cluster.UDBSCANxH.fit fuel self X = Some (Ok obj) ->
  Cluster.UDBSCANx._sorted_ascending X = true.
Proof.
  unfold Cluster.UDBSCANxH.fit, Cluster.UDBSCANxH._run.
  by destruct (Cluster.UDBSCANx._sorted_ascending X).
Qed.

Lemma udc_fit_checked (self obj : Cluster.UDBSCANx.t) (X : list Z) :
  Cluster.UDBSCANx.fit self X = Ok obj ->
  Cluster.UDBSCANx._sorted_ascending X = true.
Proof.
  unfold Cluster.UDBSCANx.fit.
  by destruct (Cluster.UDBSCANx._sorted_ascending X).
Qed.

(** X5.  On an array of coordinates below [2^62] in absolute value,
    [cluster_extremities()] of a fitted model, flat (with
    [min_points >= 2]) or hierarchical, yields for every cluster of
    [clusters()] its least and its greatest value, and the pairs ascend:
    the greatest value of a cluster is at most the least value of the
    next. *)
Theorem cluster_extremities_of_fitted_model (X : list Z) :
  Forall small X ->
  (forall (k epsilon : Z) (obj : Cluster.UDBSCANx.t),
      2 <= k ->
      Cluster.UDBSCANx.fit (Cluster.UDBSCANx.__init__ k epsilon) X = Ok obj ->
      extremities_of (Cluster.UDBSCANx.clusters obj)
                     (Cluster.UDBSCANx.cluster_extremities obj))
  /\ (forall (fuel : nat) (self obj : Cluster.UDBSCANxH.t),
         Cluster.UDBSCANxH.fit fuel self X = Some (Ok obj) ->
         extremities_of (Cluster.UDBSCANxH.clusters obj)
                        (Cluster.UDBSCANxH.cluster_extremities obj)).
Proof.
  intros Hsmall. split.
  - intros k epsilon obj Hk Hfit.
    pose proof (udc_fit_checked _ _ _ Hfit) as Hsorted.
    apply sorted_ascending_spec in Hsorted; [|done].
    destruct (udc_fit_disjoint_within X k epsilon obj Hk Hfit) as [HX Hd].
    unfold Cluster.UDBSCANx.clusters, Cluster.UDBSCANx.cluster_extremities.
    rewrite HX. by apply extremities_spec.
  - intros fuel self obj Hfit.
    pose proof (hudc_fit_checked _ _ _ _ Hfit) as Hsorted.
    apply sorted_ascending_spec in Hsorted; [|done].
    destruct (hudc_fit_disjoint_within fuel self obj X Hfit) as [HX Hd].
    unfold Cluster.UDBSCANxH.clusters, Cluster.UDBSCANxH.cluster_extremities.
    rewrite HX. by apply extremities_spec.
Qed.

Lemma cluster_extremities_of_fitted_model_witness :
  extremities_of [[0; 0; 0; 3; 4; 5; 8; 9]; [50; 51; 52]]
                 [(0, 9); (50, 52)].
Proof.
  assert (Hsmall : Forall small [0; 0; 0; 3; 4; 5; 8; 9; 50; 51; 52]).
  { repeat constructor; unfold small; lia. }
  destruct (cluster_extremities_of_fitted_model
              [0; 0; 0; 3; 4; 5; 8; 9; 50; 51; 52] Hsmall) as [Hflat _].
  apply (Hflat 3 5
           (Cluster.UDBSCANx.mk 3 5 [(0, 8); (8, 11)]
              [0; 0; 0; 3; 4; 5; 8; 9; 50; 51; 52])).
  - lia.
  - vm_compute. reflexivity.
Defined.

(** ** The hierarchical clusterer *)

Section slices_of_sorted.

Lemma slice_in_range {A} (a : list A) (l u : Z) :
  0 <= l -> l <= u -> u <= Z.of_nat (length a) ->
  Np.slice a l u = take (Z.to_nat (u - l)) (drop (Z.to_nat l) a).
Proof.
  intros Hl Hlu Hu. unfold Np.slice. rewrite !bound_nonneg by lia.
  f_equal. lia.
Qed.

Lemma slice_length {A} (a : list A) (l u : Z) :
  0 <= l -> l <= u -> u <= Z.of_nat (length a) ->
  Z.of_nat (length (Np.slice a l u)) = u - l.
Proof.
  intros Hl Hlu Hu. rewrite slice_in_range by done.
  rewrite length_take, length_drop. lia.
Qed.

Lemma fmap_slice {A B} (f : A -> B) (a : list A) (l u : Z) :
  f <$> Np.slice a l u = Np.slice (f <$> a) l u.
Proof.
  unfold Np.slice. by rewrite fmap_take, fmap_drop, length_fmap.
Qed.

(** The check looks at the consecutive pairs of the array. *)
Lemma sorted_ascending_pairs (X : list Z) :
  Cluster.UDBSCANx._sorted_ascending X = true
  <-> forall (i : nat) (a b : Z),
        X !! i = Some a -> X !! S i = Some b ->
        (Np.sub b a <? 0) = false.
Proof.
  unfold Cluster.UDBSCANx._sorted_ascending.
  rewrite Z.eqb_eq, count_true_zero, slice_from_1, slice_init.
  rewrite Forall_fmap, Forall_lookup. split.
  - intros H i a b Ha Hb. apply (H i (Np.sub b a)).
    rewrite lookup_zip_with, lookup_drop. simpl. rewrite Hb. simpl.
    rewrite lookup_take_lt.
    + by rewrite Ha.
    + apply lookup_lt_Some in Hb. lia.
  - intros H i d Hd.
    apply lookup_zip_with_Some in Hd as (b & a & -> & Hb & Ha).
    rewrite lookup_drop in Hb. simpl in Hb.
    apply lookup_take_Some in Ha as [Ha _].
    by apply (H i a b).
Qed.

Lemma sorted_ascending_slice (X : list Z) (l u : Z) :
  Cluster.UDBSCANx._sorted_ascending X = true ->
  0 <= l -> l <= u -> u <= Z.of_nat (length X) ->
  Cluster.UDBSCANx._sorted_ascending (Np.slice X l u) = true.
Proof.
  rewrite !sorted_ascending_pairs. intros H Hl Hlu Hu i a b.
  rewrite slice_in_range by done.
  intros [Ha _]%lookup_take_Some [Hb _]%lookup_take_Some.
  rewrite lookup_drop in Ha, Hb.
  apply (H (Z.to_nat l + i)%nat); [done|].
  by rewrite <- Nat.add_succ_r.
Qed.

End slices_of_sorted.

Section clusterer_returns.

Lemma fork_epsilon_ok (X : list Z) (k : nat) :
  (2 <= k)%nat ->
  exists o, Cluster.UDBSCANxH._fork_epsilon X (Z.of_nat k) = Ok o.
Proof.
  intros Hk. destruct (decide (k < length X)%nat) as [Hlt|Hge].
  - destruct (fork_epsilon_stacked X k ltac:(lia)) as (m & _ & ->).
    eauto.
  - unfold Cluster.UDBSCANxH._fork_epsilon.
    destruct (Z.leb_spec (Z.of_nat (length X)) (Z.of_nat k)); [|lia].
    eauto.
Qed.

Lemma cluster_ok (array : list Z) (k : nat) (epsilon : Z) :
  (2 <= k)%nat ->
  Cluster.UDBSCANx._sorted_ascending array = true ->
  exists bs, Cluster.UDBSCANx._cluster array (Z.of_nat k) epsilon = Ok bs.
Proof.
  intros Hk Hsorted. unfold Cluster.UDBSCANx._cluster.
  destruct (subcluster_ok array k epsilon Hk Hsorted) as [sub ->].
  simpl. destruct (Z.ltb_spec 1 (Z.of_nat (length sub))).
  - destruct (melt_slices_ok sub) as [bs ->]; [by destruct sub|].
    eauto.
  - eauto.
Qed.

Lemma comprehension_ok {A B} (f : A -> option (result B)) (l : list A) :
  Forall (fun a => exists b, f a = Some (Ok b)) l ->
  exists bs, Cluster.UDBSCANxH.comprehension f l = Some (Ok bs).
Proof.
  induction 1 as [|a l [b Hb] _ [bs IH]]; simpl; [eauto|].
  rewrite Hb, IH. eauto.
Qed.

End clusterer_returns.

Section traversal_returns.

Import Cluster.UDBSCANxH.

Variables (self : t) (k : nat).
Hypothesis min_points_k : min_points self = Z.of_nat k.
Hypothesis k_valid : (2 <= k)%nat.

(** The children of a cluster are slices of at least [k] of its points,
    shorter than the cluster, and pass the check if it does. *)
Lemma children_slices (local : list point) (f : Z) (bs : list (Z * Z)) :
  Cluster.UDBSCANxH._fork_epsilon (value <$> local) (Z.of_nat k)
  = Ok (Some f) ->
  Cluster.UDBSCANx._cluster (value <$> local) (Z.of_nat k) (Np.sub f 1)
  = Ok bs ->
  Forall (fun s => 0 <= s.1 /\ s.1 + Z.of_nat k <= s.2
                   /\ s.2 <= Z.of_nat (length local)
                   /\ s.2 - s.1 < Z.of_nat (length local)) bs.
Proof.
  intros Hfork Hcl.
  pose proof (cluster_children_shorter _ _ _ _ k_valid Hfork Hcl)
    as Hshort.
  pose proof (cluster_sizes _ _ _ k_valid _ Hcl) as Hsize.
  rewrite length_fmap in Hshort, Hsize.
  rewrite Forall_forall in Hshort, Hsize. apply Forall_forall.
  intros s Hs. specialize (Hshort s Hs). specialize (Hsize s Hs). lia.
Qed.

(** Every cluster that the traversal selects holds at least [k]
    points. *)
Lemma traverse_sizes (fuel : nat) :
  forall (local : list point) (E : Z) (r : nested) (base : Z),
    consecutive base local ->
    (k <= length local)%nat ->
    _traverse_cluster_tree fuel self local E = Some (Ok r) ->
    Forall (fun s => s.1 + Z.of_nat k <= s.2) (_flatten_list r).
Proof.
  induction fuel as [|fuel IH]; intros local E r base Hc Hlen Ht;
    [discriminate|].
  assert (Hleaf : forall r, bounds local = Ok r ->
              Forall (fun s => s.1 + Z.of_nat k <= s.2)
                     (_flatten_list r)).
  { intros r' Hb. rewrite (bounds_consecutive base) in Hb.
    - injection Hb as <-. simpl. repeat constructor. simpl. lia.
    - done.
    - intros ->. simpl in Hlen. lia. }
  simpl in Ht.
  destruct (_fork_epsilon (value <$> local) (min_points self))
    as [[f|]|e] eqn:Hfork; [| |discriminate].
  2:{ injection Ht as Ht. by apply Hleaf. }
  match type of Ht with
  | match ?sup with Ok _ => _ | Raise _ => _ end = _ =>
      destruct sup as [support|e]; [|discriminate]
  end.
  match type of Ht with
  | (if ?c then _ else _) = _ => destruct c
  end.
  { injection Ht as Ht. by apply Hleaf. }
  destruct (Cluster.UDBSCANx._cluster (value <$> local) (min_points self)
              (Np.sub f 1)) as [bs|e] eqn:Hcl; [|discriminate].
  match type of Ht with
  | match ?c with Some _ => _ | None => _ end = _ =>
      destruct c as [[items|e]|] eqn:Hitems; try discriminate
  end.
  injection Ht as <-.
  rewrite min_points_k in Hfork, Hcl.
  pose proof (children_slices local f bs Hfork Hcl) as Hbs.
  apply comprehension_Forall2 in Hitems.
  simpl _flatten_list. rewrite flat_map_concat_map.
  apply Forall_concat, Forall_fmap, Forall_forall.
  intros item Hitem.
  apply list_elem_of_lookup_1 in Hitem as [i Hi].
  destruct (Forall2_lookup_r _ _ _ _ _ Hitems Hi) as ([l u] & Hb & Ht).
  rewrite Forall_forall in Hbs.
  destruct (Hbs (l, u)) as (Hl & Hlu & Hu & _);
    [by eapply list_elem_of_lookup_2|].
  simpl in Hl, Hlu, Hu.
  pose proof (slice_length local l u ltac:(lia) ltac:(lia) Hu) as Hsl.
  destruct (consecutive_slice base local l u Hc ltac:(lia) ltac:(lia))
    as (_ & Hc' & _).
  { intros Hnil. rewrite Hnil in Hsl. simpl in Hsl. lia. }
  eapply (IH _ f item (base + l)); [done|lia|done].
Qed.

Hypothesis method_valid : valid_method (method self) = true.
Hypothesis max_eps_given : is_Some (max_eps self).

(** The traversal of a cluster of at least [k] points that pass the
    check returns. *)
Lemma traverse_ok (fuel : nat) :
  forall (local : list point) (E : Z) (base : Z),
    consecutive base local ->
    (k <= length local)%nat ->
    (length local < fuel)%nat ->
    Cluster.UDBSCANx._sorted_ascending (value <$> local) = true ->
    exists r, _traverse_cluster_tree fuel self local E = Some (Ok r).
Proof.
  induction fuel as [|fuel IH]; intros local E base Hc Hlen Hfuel Hsorted;
    [lia|].
  assert (Hleaf : exists r, bounds local = Ok r).
  { rewrite (bounds_consecutive base); [eauto|done|].
    intros ->. simpl in Hlen. lia. }
  destruct Hleaf as [leaf Hleaf].
  simpl. rewrite min_points_k.
  destruct (fork_epsilon_ok (value <$> local) k k_valid) as [[f|] Hfork];
    rewrite Hfork; [|rewrite Hleaf; eauto].
  destruct max_eps_given as [E0 HE0]. rewrite HE0.
  assert (Hm : String.eqb (method self) "aggressive" = true
               \/ (String.eqb (method self) "aggressive" = false
                   /\ String.eqb (method self) "conservative" = true)).
  { unfold valid_method in method_valid.
    destruct (String.eqb (method self) "aggressive"); [by left|].
    right. by split. }
  match goal with
  | |- exists r, match ?sup with Ok _ => _ | Raise _ => _ end = _ =>
      assert (Hsup : exists v, sup = Ok v)
  end.
  { destruct Hm as [->|[-> ->]]; eauto. }
  destruct Hsup as [support ->].
  match goal with
  | |- exists r, (if ?c then _ else _) = _ => destruct c
  end.
  { rewrite Hleaf. eauto. }
  destruct (cluster_ok (value <$> local) k (Np.sub f 1) k_valid Hsorted)
    as [bs Hcl].
  rewrite Hcl.
  pose proof (children_slices local f bs Hfork Hcl) as Hbs.
  match goal with
  | |- exists r, match ?c with Some _ => _ | None => _ end = _ =>
      assert (Hitems : exists items, c = Some (Ok items))
  end.
  { apply comprehension_ok.
    eapply Forall_impl; [exact Hbs|].
    intros [l u] (Hl & Hlu & Hu & Hshort). simpl in *.
    pose proof (slice_length local l u ltac:(lia) ltac:(lia) Hu) as Hsl.
    destruct (consecutive_slice base local l u Hc ltac:(lia) ltac:(lia))
      as (_ & Hc' & _).
    { intros Hnil. rewrite Hnil in Hsl. simpl in Hsl. lia. }
    apply (IH _ f (base + l)); [done|lia|lia|].
    rewrite fmap_slice. apply sorted_ascending_slice; [done|lia|lia|].
    rewrite length_fmap. lia. }
  destruct Hitems as [items ->]. eauto.
Qed.

End traversal_returns.

Section run_returns.

Import Cluster.UDBSCANxH.

Lemma run_unfold (fuel : nat) (self : t) (X : list Z) :
  _run fuel self X
  = if negb (Cluster.UDBSCANx._sorted_ascending X) then
      Some (Raise AssertionError)
    else if negb (valid_method (method self)) then
      Some (Raise AssertionError)
    else if Z.of_nat (length X) <? min_points self then
      Some (Ok (self, []))
    else
      match Cluster.core_distances X (min_points self) with
      | Raise e => Some (Raise e)
      | Ok core =>
          match with_max_eps self X with
          | Raise e => Some (Raise e)
          | Ok self2 => run_from fuel self2 X core
          end
      end.
Proof. reflexivity. Qed.

Lemma with_max_eps_fields (self self2 : t) (X : list Z) :
  with_max_eps self X = Ok self2 ->
  min_points self2 = min_points self
  /\ method self2 = method self
  /\ min_eps self2 = min_eps self
  /\ is_Some (max_eps self2)
  /\ (truthy (max_eps self) = true -> self2 = self).
Proof.
  unfold with_max_eps. destruct (truthy (max_eps self)) eqn:Ht; simpl.
  - intros [= <-]. repeat split; try done.
    destruct (max_eps self); [eauto|discriminate].
  - destruct (_fork_epsilon X (min_points self)) as [[f|]|e]; simpl;
      try discriminate.
    intros [= <-]. simpl. repeat split; eauto. discriminate.
Qed.

Lemma points_values (X core : list Z) :
  length core = length X -> value <$> points_of X core = X.
Proof.
  intros Hlen. unfold points_of, Np.arange. apply list_eq. intros i.
  rewrite list_lookup_fmap, lookup_zip_with, lookup_zip_with.
  destruct (X !! i) as [v|] eqn:Hv; simpl; [|done].
  assert (i < length X)%nat by (by eapply lookup_lt_Some).
  rewrite lookup_seqZ_lt by lia. simpl.
  destruct (lookup_lt_is_Some_2 core i ltac:(lia)) as [c ->]. done.
Qed.

Lemma raised_core_length (self : t) (core : list Z) :
  length (raised_core self core) = length core.
Proof.
  unfold raised_core. destruct (min_eps self); [|done].
  destruct (truthy _); [|done]. by rewrite length_fmap.
Qed.

Lemma core_distances_length (X : list Z) (k : Z) (D : list Z) :
  k <= Z.of_nat (length X) ->
  Cluster.core_distances X k = Ok D ->
  2 <= k /\ length D = length X.
Proof.
  intros Hk HD.
  pose proof (core_distances_ok_min_points _ _ _ HD) as Hk1.
  split; [lia|].
  destruct (core_distances_stacked X (Z.to_nat k) ltac:(lia))
    as (m & Hm & HD').
  replace (Z.of_nat (Z.to_nat k)) with k in HD' by lia.
  rewrite HD' in HD. injection HD as <-.
  apply np_max_spec in Hm as [_ Hm].
  rewrite stacked_min_length by lia.
  rewrite spans_length by lia. lia.
Qed.

Lemma core_distances_ok (X : list Z) (k : Z) :
  2 <= k <= Z.of_nat (length X) ->
  exists D, Cluster.core_distances X k = Ok D.
Proof.
  intros Hk.
  destruct (core_distances_stacked X (Z.to_nat k) ltac:(lia))
    as (m & Hm & HD').
  replace (Z.of_nat (Z.to_nat k)) with k in HD' by lia. eauto.
Qed.

Lemma points_of_length (X core : list Z) :
  length core = length X -> length (points_of X core) = length X.
Proof.
  intros Hlen. unfold points_of, Np.arange.
  rewrite !length_zip_with, length_seqZ. lia.
Qed.

(** What a returning [run_from] has done. *)
Lemma run_from_inv (fuel : nat) (self self' : t) (X core : list Z)
      (out : list (Z * Z)) :
  length core = length X ->
  run_from fuel self X core = Some (Ok (self', out)) ->
  self' = self
  /\ exists (E : Z) (bs : list (Z * Z)) (clusters : list nested),
       max_eps self = Some E
       /\ Cluster.UDBSCANx._cluster X (min_points self) E = Ok bs
       /\ Forall2 (fun b item =>
                     _traverse_cluster_tree fuel self
                       (Np.slice (points_of X (raised_core self core))
                                 b.1 b.2) E
                     = Some (Ok item)) bs clusters
       /\ out = flat_map _flatten_list clusters.
Proof.
  intros Hlen. unfold run_from.
  rewrite points_values by (by rewrite raised_core_length).
  destruct (max_eps self) as [E|]; [|discriminate].
  destruct (Cluster.UDBSCANx._cluster X (min_points self) E)
    as [bs|e] eqn:Hcl; [|discriminate].
  match goal with
  | |- match ?c with Some _ => _ | None => _ end = _ -> _ =>
      destruct c as [[clusters|e]|] eqn:Hitems; try discriminate
  end.
  intros [= <- <-]. split; [done|].
  exists E, bs, clusters. repeat split; try done.
  apply comprehension_Forall2 in Hitems.
  eapply Forall2_impl; [exact Hitems|]. by intros [l u] item.
Qed.

(** [run_from] returns on an array that passes the check. *)
Lemma run_from_ok (fuel : nat) (self : t) (X core : list Z) :
  length core = length X ->
  Cluster.UDBSCANx._sorted_ascending X = true ->
  valid_method (method self) = true ->
  2 <= min_points self ->
  is_Some (max_eps self) ->
  (length X < fuel)%nat ->
  exists out, run_from fuel self X core = Some (Ok (self, out)).
Proof.
  intros Hlen Hsorted Hvalid Hk Hmax Hfuel. unfold run_from.
  set (points := points_of X (raised_core self core)).
  assert (Hvals : value <$> points = X)
    by (apply points_values; by rewrite raised_core_length).
  assert (Hplen : length points = length X)
    by (apply points_of_length; by rewrite raised_core_length).
  rewrite Hvals.
  pose proof Hmax as [E HE]. rewrite HE.
  set (kn := Z.to_nat (min_points self)).
  assert (Hkn : min_points self = Z.of_nat kn) by lia.
  rewrite Hkn.
  destruct (cluster_ok X kn E ltac:(lia) Hsorted) as [bs Hcl].
  rewrite Hcl.
  pose proof (cluster_sizes X kn E ltac:(lia) bs Hcl) as Hbs.
  match goal with
  | |- exists out, match ?c with Some _ => _ | None => _ end = _ =>
      assert (Hitems : exists items, c = Some (Ok items))
  end.
  { apply comprehension_ok.
    eapply Forall_impl; [exact Hbs|].
    intros [l u] (Hl & Hlu & Hu). simpl in *.
    pose proof (slice_length points l u ltac:(lia) ltac:(lia) ltac:(lia))
      as Hsl.
    pose proof (points_consecutive X (raised_core self core)) as Hc.
    fold (points_of X (raised_core self core)) in Hc. fold points in Hc.
    destruct (consecutive_slice 0 points l u Hc ltac:(lia) ltac:(lia))
      as (_ & Hc' & _).
    { intros Hnil. rewrite Hnil in Hsl. simpl in Hsl. lia. }
    apply (traverse_ok self kn Hkn ltac:(lia) Hvalid Hmax fuel _ E
             (0 + l)); [done|lia|lia|].
    rewrite fmap_slice, Hvals.
    apply sorted_ascending_slice; [done|lia|lia|lia]. }
  destruct Hitems as [items ->]. eauto.
Qed.

End run_returns.

(** X6.  With [max_eps] given and not zero, [max_eps] and [min_eps]
    (when given) within 64 bits, [min_points >= 2] and a valid method,
    the hierarchical clusterer's [fit] returns on every array that passes
    the sortedness check, for every such [min_eps]; it keeps its
    parameters and stores the array.  (The recursion is given more fuel
    than the array has points.) *)
Theorem hudc_fit_returns (fuel : nat) (self : Cluster.UDBSCANxH.t)
        (X : list Z) :
  Cluster.UDBSCANx._sorted_ascending X = true ->
  Cluster.UDBSCANxH.valid_method (Cluster.UDBSCANxH.method self) = true ->
  2 <= Cluster.UDBSCANxH.min_points self ->
  Cluster.UDBSCANxH.truthy (Cluster.UDBSCANxH.max_eps self) = true ->
  int64_param (Cluster.UDBSCANxH.max_eps self) ->
  int64_param (Cluster.UDBSCANxH.min_eps self) ->
  (length X < fuel)%nat ->
  exists slices,
    Cluster.UDBSCANxH.fit fuel self X
    = Some (Ok (Cluster.UDBSCANxH.mk
                  (Cluster.UDBSCANxH.min_points self)
                  (Cluster.UDBSCANxH.max_eps self)
                  (Cluster.UDBSCANxH.min_eps self)
                  (Cluster.UDBSCANxH.method self) slices X)).
Proof.
  intros Hsorted Hvalid Hk Hmax _ _ Hfuel.
  unfold Cluster.UDBSCANxH.fit. rewrite run_unfold, Hsorted, Hvalid.
  simpl negb. cbv iota.
  destruct (Z.ltb_spec (Z.of_nat (length X))
              (Cluster.UDBSCANxH.min_points self)); [eauto|].
  destruct (core_distances_ok X (Cluster.UDBSCANxH.min_points self)
              ltac:(lia)) as [core Hcore].
  rewrite Hcore.
  destruct (core_distances_length X (Cluster.UDBSCANxH.min_points self) core
              ltac:(lia) Hcore) as [_ Hlen].
  assert (Hself : with_max_eps self X = Ok self)
    by (unfold with_max_eps; by rewrite Hmax).
  rewrite Hself.
  destruct (run_from_ok fuel self X core Hlen Hsorted Hvalid Hk) as [out ->];
    [|done|eauto].
  destruct (Cluster.UDBSCANxH.max_eps self); [eauto|discriminate].
Qed.

Lemma hudc_fit_returns_witness :
  exists slices,
    Cluster.UDBSCANxH.fit 13
      (Cluster.UDBSCANxH.mk 3 (Some 20) (Some 2) "conservative" [] [])
      [0; 1; 2; 3; 20; 21; 22; 23; 40; 41; 42; 43]
    = Some (Ok (Cluster.UDBSCANxH.mk 3 (Some 20) (Some 2) "conservative"
                  slices [0; 1; 2; 3; 20; 21; 22; 23; 40; 41; 42; 43])).
Proof.
  apply (hudc_fit_returns 13
           (Cluster.UDBSCANxH.mk 3 (Some 20) (Some 2) "conservative" [] [])
           [0; 1; 2; 3; 20; 21; 22; 23; 40; 41; 42; 43]).
  - reflexivity.
  - reflexivity.
  - simpl. lia.
  - reflexivity.
  - simpl. unfold Np.int64. lia.
  - simpl. unfold Np.int64. lia.
  - simpl. lia.
Defined.

(** X7.  With [max_eps] omitted (or zero), [min_eps] (when given) within
    64 bits, [min_points >= 2] and a valid method, on an array of at
    least [min_points] entries that passes the check: if the array has no
    fork, [fit] raises [TypeError]; if its fork epsilon is [f], [fit]
    assigns [max_eps = f - 1] and returns what it returns when
    [max_eps = f - 1] is given. *)
Theorem hudc_default_max_eps (fuel : nat) (self : Cluster.UDBSCANxH.t)
        (X : list Z) :
  Cluster.UDBSCANx._sorted_ascending X = true ->
  Cluster.UDBSCANxH.valid_method (Cluster.UDBSCANxH.method self) = true ->
  2 <= Cluster.UDBSCANxH.min_points self <= Z.of_nat (length X) ->
  Cluster.UDBSCANxH.truthy (Cluster.UDBSCANxH.max_eps self) = false ->
  int64_param (Cluster.UDBSCANxH.min_eps self) ->
  (length X < fuel)%nat ->
  (Cluster.UDBSCANxH._fork_epsilon X (Cluster.UDBSCANxH.min_points self)
   = Ok None ->
   Cluster.UDBSCANxH.fit fuel self X = Some (Raise TypeError))
  /\ (forall f : Z,
         Cluster.UDBSCANxH._fork_epsilon X (Cluster.UDBSCANxH.min_points self)
         = Ok (Some f) ->
         (exists slices,
             Cluster.UDBSCANxH.fit fuel self X
             = Some (Ok (Cluster.UDBSCANxH.mk
                           (Cluster.UDBSCANxH.min_points self)
                           (Some (f - 1))
                           (Cluster.UDBSCANxH.min_eps self)
                           (Cluster.UDBSCANxH.method self) slices X)))
         /\ Cluster.UDBSCANxH.fit fuel (set_max_eps self (Some (f - 1))) X
            = Cluster.UDBSCANxH.fit fuel self X).
Proof.
  intros Hsorted Hvalid Hk Hmax _ Hfuel.
  destruct (core_distances_ok X (Cluster.UDBSCANxH.min_points self) Hk)
    as [core Hcore].
  destruct (core_distances_length X (Cluster.UDBSCANxH.min_points self) core
              ltac:(lia) Hcore) as [_ Hlen].
  assert (Hfit : Cluster.UDBSCANxH.fit fuel self X
                 = match match with_max_eps self X with
                         | Raise e => Some (Raise e)
                         | Ok self2 => run_from fuel self2 X core
                         end with
                   | None => None
                   | Some (Raise e) => Some (Raise e)
                   | Some (Ok (self, slices)) =>
                       Some (Ok (Cluster.UDBSCANxH.mk
                                   (Cluster.UDBSCANxH.min_points self)
                                   (Cluster.UDBSCANxH.max_eps self)
                                   (Cluster.UDBSCANxH.min_eps self)
                                   (Cluster.UDBSCANxH.method self) slices X))
                   end).
  { unfold Cluster.UDBSCANxH.fit. rewrite run_unfold, Hsorted, Hvalid.
    simpl negb. cbv iota.
    destruct (Z.ltb_spec (Z.of_nat (length X))
                (Cluster.UDBSCANxH.min_points self)); [lia|].
    by rewrite Hcore. }
  split.
  - intros Hfork. rewrite Hfit. unfold with_max_eps.
    by rewrite Hmax, Hfork.
  - intros f Hfork.
    set (kn := Z.to_nat (Cluster.UDBSCANxH.min_points self)).
    assert (Hkn : Cluster.UDBSCANxH.min_points self = Z.of_nat kn) by lia.
    assert (Hsub : Np.sub f 1 = f - 1).
    { rewrite Hkn in Hfork.
      by destruct (fork_epsilon_gap X kn f ltac:(lia) Hfork) as (_ & ? & _). }
    assert (Hself : with_max_eps self X
                    = Ok (set_max_eps self (Some (f - 1)))).
    { unfold with_max_eps. rewrite Hmax, Hfork. simpl. by rewrite Hsub. }
    assert (Hself' : with_max_eps (set_max_eps self (Some (f - 1))) X
                     = Ok (set_max_eps self (Some (f - 1)))).
    { unfold with_max_eps.
      destruct (Cluster.UDBSCANxH.truthy
                  (Cluster.UDBSCANxH.max_eps
                     (set_max_eps self (Some (f - 1))))); simpl; [done|].
      rewrite Hfork. simpl. by rewrite Hsub. }
    destruct (run_from_ok fuel (set_max_eps self (Some (f - 1))) X core)
      as [out Hout]; try done.
    { simpl. lia. }
    split.
    + rewrite Hfit, Hself, Hout. simpl. eauto.
    + rewrite Hfit, Hself.
      unfold Cluster.UDBSCANxH.fit at 1.
      rewrite run_unfold, Hsorted. simpl Cluster.UDBSCANxH.method.
      rewrite Hvalid. simpl negb. cbv iota.
      simpl Cluster.UDBSCANxH.min_points.
      destruct (Z.ltb_spec (Z.of_nat (length X))
                  (Cluster.UDBSCANxH.min_points self)); [lia|].
      by rewrite Hcore, Hself'.
Qed.

Lemma hudc_default_max_eps_witness :
  exists slices,
    Cluster.UDBSCANxH.fit 13
      (Cluster.UDBSCANxH.mk 3 None (Some 2) "conservative" [] [])
      [0; 1; 2; 3; 20; 21; 22; 23; 40; 41; 42; 43]
    = Some (Ok (Cluster.UDBSCANxH.mk 3 (Some (18 - 1)) (Some 2)
                  "conservative" slices
                  [0; 1; 2; 3; 20; 21; 22; 23; 40; 41; 42; 43])).
Proof.
  destruct (hudc_default_max_eps 13
              (Cluster.UDBSCANxH.mk 3 None (Some 2) "conservative" [] [])
              [0; 1; 2; 3; 20; 21; 22; 23; 40; 41; 42; 43]
              ltac:(reflexivity) ltac:(reflexivity) ltac:(simpl; lia)
              ltac:(reflexivity) ltac:(simpl; unfold Np.int64; lia)
              ltac:(simpl; lia)) as [_ Hfork].
  destruct (Hfork 18 ltac:(vm_compute; reflexivity)) as [Hfit _].
  exact Hfit.
Defined.

Section run_leaves_facts.

Import Cluster.UDBSCANxH.

(** Every slice that [_run] returns holds at least [min_points] points
    and lies inside one of the clusters found at [max_eps]. *)
Lemma run_leaves (fuel : nat) (self self' : t) (X : list Z)
      (out : list (Z * Z)) :
  _run fuel self X = Some (Ok (self', out)) ->
  min_points self' = min_points self
  /\ Forall (fun s => s.1 + min_points self <= s.2) out
  /\ forall (E : Z) (bs : list (Z * Z)),
       max_eps self' = Some E ->
       Cluster.UDBSCANx._cluster X (min_points self) E = Ok bs ->
       refines out bs.
Proof.
  rewrite run_unfold.
  destruct (Cluster.UDBSCANx._sorted_ascending X); simpl; [|discriminate].
  destruct (valid_method (method self)); simpl; [|discriminate].
  destruct (Z.ltb_spec (Z.of_nat (length X)) (min_points self)).
  { intros [= <- <-]. split; [done|]. split; [constructor|].
    intros. constructor. }
  destruct (Cluster.core_distances X (min_points self)) as [core|e]
    eqn:Hcore; [|discriminate].
  destruct (core_distances_length X (min_points self) core
              ltac:(lia) Hcore) as [Hk Hlen].
  destruct (with_max_eps self X) as [self2|e] eqn:Hself2; [|discriminate].
  destruct (with_max_eps_fields _ _ _ Hself2) as (Hmp & _).
  intros Hrun.
  destruct (run_from_inv fuel self2 self' X core out Hlen Hrun)
    as (-> & E0 & bs0 & clusters & HE0 & Hcl0 & Hitems & ->).
  split; [done|].
  set (points := points_of X (raised_core self2 core)) in *.
  assert (Hplen : length points = length X)
    by (apply points_of_length; by rewrite raised_core_length).
  pose proof (points_consecutive X (raised_core self2 core)) as Hc.
  fold (points_of X (raised_core self2 core)) in Hc. fold points in Hc.
  set (kn := Z.to_nat (min_points self)).
  assert (Hkn : min_points self2 = Z.of_nat kn) by lia.
  rewrite Hkn in Hcl0.
  pose proof (cluster_sizes X kn E0 ltac:(lia) bs0 Hcl0) as Hbs.
  assert (Hall : Forall2 (fun b item =>
                    Forall (fun s => s.1 + min_points self <= s.2
                                     /\ b.1 <= s.1 /\ s.2 <= b.2)
                           (_flatten_list item)) bs0 clusters).
  { apply Forall2_same_length_lookup. split; [by eapply Forall2_length|].
    intros i [l u] item Hb Hi.
    destruct (Forall2_lookup_l _ _ _ _ _ Hitems Hb) as (item' & Hi' & Ht).
    rewrite Hi in Hi'. injection Hi' as <-. simpl in Ht.
    rewrite Forall_forall in Hbs.
    destruct (Hbs (l, u)) as (Hl & Hlu & Hu);
      [by eapply list_elem_of_lookup_2|].
    simpl in Hl, Hlu, Hu.
    pose proof (slice_length points l u ltac:(lia) ltac:(lia) ltac:(lia))
      as Hsl.
    destruct (consecutive_slice 0 points l u Hc ltac:(lia) ltac:(lia))
      as (_ & Hc' & _).
    { intros Hnil. rewrite Hnil in Hsl. simpl in Hsl. lia. }
    pose proof (traverse_sizes self2 kn Hkn ltac:(lia) fuel _ E0 item
                  (0 + l) Hc' ltac:(lia) Ht) as Hsizes.
    pose proof (traverse_disjoint_within self2 kn Hkn ltac:(lia) fuel _ E0
                  item (0 + l) Hc' Ht) as [_ Hin].
    rewrite Forall_forall in Hsizes, Hin. apply Forall_forall.
    intros s Hs. specialize (Hsizes s Hs). specialize (Hin s Hs).
    simpl. lia. }
  split.
  - rewrite flat_map_concat_map. apply Forall_concat, Forall_fmap.
    apply Forall_forall. intros item Hitem.
    apply list_elem_of_lookup_1 in Hitem as [i Hi].
    destruct (Forall2_lookup_r _ _ _ _ _ Hall Hi) as (b & _ & Hb).
    eapply Forall_impl; [exact Hb|]. by intros s [? _].
  - intros E bs HE Hcl. rewrite HE0 in HE. injection HE as <-.
    rewrite <- Hmp, Hkn, Hcl0 in Hcl. injection Hcl as <-.
    unfold refines.
    rewrite flat_map_concat_map. apply Forall_concat, Forall_fmap.
    apply Forall_forall. intros item Hitem.
    apply list_elem_of_lookup_1 in Hitem as [i Hi].
    destruct (Forall2_lookup_r _ _ _ _ _ Hall Hi) as (b & Hbi & Hb).
    eapply Forall_impl; [exact Hb|]. intros s (_ & ? & ?).
    exists b. split; [by eapply list_elem_of_lookup_2|done].
Qed.

End run_leaves_facts.

(** X8.  Every cluster that the hierarchical clusterer selects is a run
    [X[l:u]] of at least [min_points] consecutive entries of the array it
    was fitted to. *)
Theorem hudc_clusters_hold_min_points (fuel : nat)
        (self obj : Cluster.UDBSCANxH.t) (X : list Z) :
  Cluster.UDBSCANxH.fit fuel self X = Some (Ok obj) ->
  Cluster.UDBSCANxH.min_points obj = Cluster.UDBSCANxH.min_points self
  /\ Forall2 (fun s c =>
                0 <= s.1
                /\ s.1 + Cluster.UDBSCANxH.min_points self <= s.2
                /\ s.2 <= Z.of_nat (length X)
                /\ c = take (Z.to_nat (s.2 - s.1)) (drop (Z.to_nat s.1) X)
                /\ Cluster.UDBSCANxH.min_points self
                   <= Z.of_nat (length c))
             (Cluster.UDBSCANxH.slices obj)
             (Cluster.UDBSCANxH.clusters obj).
Proof.
  intros Hfit.
  destruct (hudc_fit_disjoint_within fuel self obj X Hfit) as [HX [_ Hr]].
  unfold Cluster.UDBSCANxH.fit in Hfit.
  destruct (Cluster.UDBSCANxH._run fuel self X) as [[[self' out]|e]|]
    eqn:Hrun; try discriminate.
  injection Hfit as <-. simpl in *.
  destruct (run_leaves fuel self self' X out Hrun) as (Hmp & Hsize & _).
  split; [done|].
  unfold Cluster.UDBSCANxH.clusters. simpl.
  apply Forall2_fmap_r, Forall_Forall2_diag.
  rewrite Forall_forall in Hr, Hsize. apply Forall_forall.
  intros [l u] Hs. specialize (Hr _ Hs). specialize (Hsize _ Hs).
  simpl in *.
  rewrite slice_in_range by lia.
  repeat split; try lia.
  rewrite length_take, length_drop. lia.
Qed.

Lemma hudc_clusters_hold_min_points_witness :
  3 = 3
  /\ Forall2 (fun s c =>
                0 <= s.1 /\ s.1 + 3 <= s.2 /\ s.2 <= 12
                /\ c = take (Z.to_nat (s.2 - s.1)) (drop (Z.to_nat s.1)
                         [0; 1; 2; 3; 20; 21; 22; 23; 40; 41; 42; 43])
                /\ 3 <= Z.of_nat (length c))
             [(0, 4); (4, 8); (8, 12)]
             [[0; 1; 2; 3]; [20; 21; 22; 23]; [40; 41; 42; 43]].
Proof.
  apply (hudc_clusters_hold_min_points 13
           (Cluster.UDBSCANxH.mk 3 (Some 20) None "conservative" [] [])
           (Cluster.UDBSCANxH.mk 3 (Some 20) None "conservative"
              [(0, 4); (4, 8); (8, 12)]
              [0; 1; 2; 3; 20; 21; 22; 23; 40; 41; 42; 43])
           [0; 1; 2; 3; 20; 21; 22; 23; 40; 41; 42; 43]).
  vm_compute. reflexivity.
Defined.

(** X9.  The hierarchical clusterer refines the flat one: every cluster
    that [UDBSCANxH.fit] selects lies inside one of the clusters that
    [udbscanx] finds in the same array with the same [min_points] and
    [epsilon = max_eps], the [max_eps] of the fitted object. *)
Theorem hudc_refines_udc (fuel : nat) (self obj : Cluster.UDBSCANxH.t)
        (X : list Z) (E : Z) (bs : list (Z * Z)) :
  Cluster.UDBSCANxH.fit fuel self X = Some (Ok obj) ->
  Cluster.UDBSCANxH.max_eps obj = Some E ->
  Cluster.UDBSCANx.udbscanx X (Cluster.UDBSCANxH.min_points obj) E = Ok bs ->
  refines (Cluster.UDBSCANxH.slices obj) bs.
Proof.
  intros Hfit HE Hflat.
  unfold Cluster.UDBSCANxH.fit in Hfit.
  destruct (Cluster.UDBSCANxH._run fuel self X) as [[[self' out]|e]|]
    eqn:Hrun; try discriminate.
  injection Hfit as <-. simpl in *.
  destruct (run_leaves fuel self self' X out Hrun) as (Hmp & _ & Href).
  apply (Href E bs HE).
  unfold Cluster.UDBSCANx.udbscanx, Cluster.UDBSCANx.fit in Hflat.
  destruct (Cluster.UDBSCANx._sorted_ascending X); simpl in Hflat;
    [|discriminate].
  rewrite Hmp in Hflat.
  destruct (Cluster.UDBSCANx._cluster X (Cluster.UDBSCANxH.min_points self) E)
    as [bs'|e]; simpl in Hflat; [|discriminate].
  by injection Hflat as <-.
Qed.

Lemma hudc_refines_udc_witness :
  refines [(0, 4); (4, 8); (8, 12)] [(0, 12)].
Proof.
  apply (hudc_refines_udc 13
           (Cluster.UDBSCANxH.mk 3 (Some 20) None "aggressive" [] [])
           (Cluster.UDBSCANxH.mk 3 (Some 20) None "aggressive"
              [(0, 4); (4, 8); (8, 12)]
              [0; 1; 2; 3; 20; 21; 22; 23; 40; 41; 42; 43])
           [0; 1; 2; 3; 20; 21; 22; 23; 40; 41; 42; 43] 20 [(0, 12)]).
  - vm_compute. reflexivity.
  - reflexivity.
  - vm_compute. reflexivity.
Defined.

(** ** Arrays and parameters at the edge *)

(** X10.  On an array of fewer than [min_points] entries that passes the
    check both clusterers return without a cluster: the flat one for
    [min_points >= 2], the hierarchical one for every valid method,
    whatever [max_eps] and [min_eps] are, and without computing a core
    distance or a fork. *)
Theorem fit_below_min_points (X : list Z) :
  Cluster.UDBSCANx._sorted_ascending X = true ->
  (forall k epsilon : Z,
      2 <= k -> Z.of_nat (length X) < k ->
      Cluster.UDBSCANx.fit (Cluster.UDBSCANx.__init__ k epsilon) X
      = Ok (Cluster.UDBSCANx.mk k epsilon [] X))
  /\ (forall (fuel : nat) (self : Cluster.UDBSCANxH.t),
         Cluster.UDBSCANxH.valid_method (Cluster.UDBSCANxH.method self)
         = true ->
         Z.of_nat (length X) < Cluster.UDBSCANxH.min_points self ->
         Cluster.UDBSCANxH.fit fuel self X
         = Some (Ok (Cluster.UDBSCANxH.mk
                       (Cluster.UDBSCANxH.min_points self)
                       (Cluster.UDBSCANxH.max_eps self)
                       (Cluster.UDBSCANxH.min_eps self)
                       (Cluster.UDBSCANxH.method self) [] X))).
Proof.
  intros Hsorted. split.
  - intros k epsilon Hk Hn. unfold Cluster.UDBSCANx.fit.
    rewrite Hsorted. simpl.
    unfold Cluster.UDBSCANx._cluster.
    destruct (subcluster_ok X (Z.to_nat k) epsilon ltac:(lia) Hsorted)
      as [sub Hsub].
    pose proof (subcluster_short X (Z.to_nat k) epsilon sub
                  ltac:(lia) ltac:(lia) Hsub) as ->.
    replace (Z.of_nat (Z.to_nat k)) with k in Hsub by lia.
    by rewrite Hsub.
  - intros fuel self Hvalid Hn.
    unfold Cluster.UDBSCANxH.fit. rewrite run_unfold, Hsorted, Hvalid.
    simpl negb. cbv iota.
    destruct (Z.ltb_spec (Z.of_nat (length X))
                (Cluster.UDBSCANxH.min_points self)); [done|lia].
Qed.

Lemma fit_below_min_points_witness :
  Cluster.UDBSCANx.fit (Cluster.UDBSCANx.__init__ 5 100) [1; 2; 3]
  = Ok (Cluster.UDBSCANx.mk 5 100 [] [1; 2; 3]).
Proof.
  destruct (fit_below_min_points [1; 2; 3] ltac:(reflexivity)) as [Hflat _].
  apply Hflat; simpl; lia.
Defined.

(** X11.  [min_points = 1] is not supported.  On an array that passes the
    check, the flat clusterer's [fit] raises [ValueError] as soon as the
    array has two entries (the operands of [upper - lower] cannot be
    broadcast), and the hierarchical clusterer's [fit] raises
    [AssertionError], from [core_distances], as soon as it has one. *)
Theorem min_points_one_raises (X : list Z) :
  Cluster.UDBSCANx._sorted_ascending X = true ->
  ((2 <= length X)%nat ->
   forall epsilon : Z,
     Cluster.UDBSCANx.fit (Cluster.UDBSCANx.__init__ 1 epsilon) X
     = Raise ValueError)
  /\ ((1 <= length X)%nat ->
      forall (fuel : nat) (self : Cluster.UDBSCANxH.t),
        Cluster.UDBSCANxH.valid_method (Cluster.UDBSCANxH.method self)
        = true ->
        Cluster.UDBSCANxH.min_points self = 1 ->
        Cluster.UDBSCANxH.fit fuel self X = Some (Raise AssertionError)).
Proof.
  intros Hsorted. split.
  - intros Hn epsilon. unfold Cluster.UDBSCANx.fit. rewrite Hsorted.
    simpl. unfold Cluster.UDBSCANx._cluster, Cluster.UDBSCANx._subcluster.
    rewrite Hsorted. simpl.
    destruct X as [|x [|y X]]; simpl in Hn; try lia.
    reflexivity.
  - intros Hn fuel self Hvalid Hk.
    unfold Cluster.UDBSCANxH.fit. rewrite run_unfold, Hsorted, Hvalid, Hk.
    simpl negb. cbv iota.
    destruct (Z.ltb_spec (Z.of_nat (length X)) 1); [lia|].
    unfold Cluster.core_distances. reflexivity.
Qed.

Lemma min_points_one_raises_witness :
  Cluster.UDBSCANx.fit (Cluster.UDBSCANx.__init__ 1 5) [1; 2; 3]
  = Raise ValueError.
Proof.
  destruct (min_points_one_raises [1; 2; 3] ltac:(reflexivity)) as [Hflat _].
  apply Hflat. simpl. lia.
Defined.

(** ** The sortedness check *)

(** X12.  On an array of coordinates below [2^62] in absolute value,
    [_sorted_ascending] holds exactly when the array ascends: every entry
    is at most every later entry.  The bound matters: the differences are
    taken on 64 bits, and the array [[2^63 - 1, -2^63]] passes the
    check. *)
Theorem sorted_ascending_iff_ascending (X : list Z) :
  Forall small X ->
  (Cluster.UDBSCANx._sorted_ascending X = true
   <-> forall (i j : nat) (a b : Z),
         (i <= j)%nat -> X !! i = Some a -> X !! j = Some b -> a <= b)
  /\ Cluster.UDBSCANx._sorted_ascending [2 ^ 63 - 1; - 2 ^ 63] = true.
Proof.
  intros Hsmall. split; [|reflexivity].
  rewrite (sorted_ascending_spec X Hsmall). split.
  - apply sorted_lookup_le.
  - intros Hle. clear Hsmall.
    induction X as [|x X IH]; [constructor|].
    constructor.
    + apply IH. intros i j a b Hij Ha Hb.
      apply (Hle (S i) (S j)); [lia|done|done].
    + destruct X as [|y X]; constructor.
      apply (Hle 0%nat 1%nat); [lia|done|done].
Qed.

Lemma sorted_ascending_iff_ascending_witness :
  Cluster.UDBSCANx._sorted_ascending [1; 1; 5] = true
  <-> forall (i j : nat) (a b : Z),
        (i <= j)%nat -> [1; 1; 5] !! i = Some a -> [1; 1; 5] !! j = Some b ->
        a <= b.
Proof.
  apply (sorted_ascending_iff_ascending [1; 1; 5]).
  repeat constructor; unfold small; lia.
Defined.

(** ** Melting melted slices *)

Section melt_slices_fixpoint.

Lemma melt_last_columns (l u : Z) (rest : list (Z * Z)) :
  StronglySorted Z.le (l :: (fst <$> rest)) ->
  StronglySorted Z.le (u :: (snd <$> rest)) ->
  exists u' tl,
    melt_last l u rest = (l, u') :: tl
    /\ u <= u'
    /\ StronglySorted Z.le (l :: (fst <$> tl))
    /\ StronglySorted Z.le (u' :: (snd <$> tl)).
Proof.
  revert l u. induction rest as [|[li ui] rest IH]; intros l u HL HU.
  - exists u, []. simpl. repeat split; [lia|done|done].
  - simpl in HL, HU.
    apply StronglySorted_inv in HL as [HL HLl].
    apply StronglySorted_inv in HU as [HU HUu].
    inversion HLl as [|? ? Hlli HLl']; subst.
    inversion HUu as [|? ? Huui HUu']; subst.
    simpl. destruct (Z.leb_spec u li).
    + destruct (IH li ui HL HU) as (u' & tl & -> & Hu' & HL' & HU').
      exists u, ((li, u') :: tl). simpl.
      repeat split; [lia| |].
      * constructor; [done|]. constructor; [done|].
        apply StronglySorted_inv in HL' as [_ HL'].
        eapply Forall_impl; [exact HL'|]. intros ? ?. lia.
      * constructor; [done|]. constructor; [lia|].
        apply StronglySorted_inv in HU' as [_ HU'].
        eapply Forall_impl; [exact HU'|]. intros ? ?. lia.
    + destruct (IH l ui) as (u' & tl & -> & Hu' & HL' & HU').
      * constructor; [by apply StronglySorted_inv in HL as [? ?]|done].
      * done.
      * exists u', tl. repeat split; [lia|done|done].
Qed.

Lemma melt_last_fixpoint (l u : Z) (tl : list (Z * Z)) :
  ascending_disjoint ((l, u) :: tl) -> melt_last l u tl = (l, u) :: tl.
Proof.
  revert l u. induction tl as [|[li ui] tl IH]; intros l u Hs; [done|].
  apply Sorted_inv in Hs as [Hs Hhd].
  inversion Hhd as [|? ? Hle]; subst. simpl in Hle.
  simpl. destruct (Z.leb_spec u li); [|lia].
  by rewrite IH.
Qed.

End melt_slices_fixpoint.

(** X13.  [_melt_slices] is idempotent: melting the slices it returns
    gives them back; on no slice at all both sides raise [IndexError]. *)
Theorem melt_slices_idempotent (slices : list Cluster.slice_t) :
  (out <-- Cluster.UDBSCANx._melt_slices slices ;;
   Cluster.UDBSCANx._melt_slices out)
  = Cluster.UDBSCANx._melt_slices slices.
Proof.
  destruct (Cluster.UDBSCANx._melt_slices slices) as [out|e] eqn:Hm;
    [|done].
  simpl.
  apply melt_slices_inv in Hm as (l0 & u0 & Lt & Ut & HL & HU & ->).
  assert (HLs : StronglySorted Z.le (l0 :: Lt))
    by (rewrite <- HL; apply merge_sort_strongly_sorted).
  assert (HUs : StronglySorted Z.le (u0 :: Ut))
    by (rewrite <- HU; apply merge_sort_strongly_sorted).
  assert (Hlen : length Lt = length Ut).
  { apply (f_equal length) in HL, HU.
    rewrite merge_sort_length, length_fmap in HL, HU. simpl in *. lia. }
  pose proof (melt_last_chain l0 u0 (zip Lt Ut)) as Hchain.
  destruct (melt_last_columns l0 u0 (zip Lt Ut)) as
    (u' & tl & Hout & _ & HL' & HU').
  { by rewrite fst_zip by lia. }
  { by rewrite snd_zip by lia. }
  rewrite Hout in *.
  rewrite (melt_slices_melt_last _ l0 u' (fst <$> tl) (snd <$> tl)).
  - rewrite zip_fst_snd. f_equal. by apply melt_last_fixpoint.
  - simpl. apply merge_sort_sorted_id.
    by apply StronglySorted_Sorted in HL'.
  - simpl. apply merge_sort_sorted_id.
    by apply StronglySorted_Sorted in HU'.
Qed.

(** * loci.py *)

(** ** The union that _loci_melter computes *)

Section loci_melter_union_facts.

#[local] Instance start_le_trans : Transitive start_le.
Proof. intros a b c. unfold start_le. lia. Qed.

#[local] Instance start_le_total : Total start_le.
Proof. intros a b. unfold start_le. lia. Qed.

Lemma insert_sorted_below l0 u0 (Lt V : list Z) :
  l0 <= u0 -> Sorted Z.le (l0 :: Lt) -> Forall2 Z.le Lt V ->
  Forall2 Z.le (l0 :: Lt) (insert_sorted u0 V).
Proof.
  revert l0 Lt. induction V as [|v V IH]; intros l0 Lt Hl0 Hs Hdom.
  - inversion Hdom; subst. simpl. by repeat constructor.
  - inversion Hdom as [|l1 ? Lt' ? Hl1 Hdom']; subst. simpl.
    apply Sorted_inv in Hs as [Hs Hhd]. inversion Hhd; subst.
    destruct (Z.leb_spec u0 v) as [Hle|Hgt].
    + constructor; [done|]. by constructor.
    + constructor; [lia|]. apply IH; [lia|done|done].
Qed.

Lemma isort_below (Lt Ut : list Z) :
  Sorted Z.le Lt -> Forall2 Z.le Lt Ut -> Forall2 Z.le Lt (isort Ut).
Proof.
  revert Lt. induction Ut as [|u Ut IH]; intros Lt Hs Hdom.
  - inversion Hdom; subst. constructor.
  - inversion Hdom as [|l ? Lt' ? Hl Hdom']; subst. simpl.
    apply insert_sorted_below; [done|done|].
    apply IH; [|done]. by apply Sorted_inv in Hs as [? _].
Qed.

Lemma closed_merge_insert l x u (Lt V : list Z) :
  Forall2 Z.le Lt V ->
  match insert_sorted u V with
  | w :: W =>
      interval_merge Z.leb l (Z.max x u) (zip Lt V)
      = interval_merge Z.leb l (Z.max x w) (zip Lt W)
  | [] => False
  end.
Proof.
  revert x Lt. induction V as [|v V IH]; intros x Lt Hdom.
  - inversion Hdom; subst. done.
  - inversion Hdom as [|l2 ? Lt' ? Hl2 Hdom']; subst. simpl.
    destruct (Z.leb_spec u v) as [Hle|Hgt]; [done|].
    specialize (IH (Z.max x v) Lt' Hdom').
    destruct (insert_sorted u V) as [|w2 W2]; [done|]. simpl.
    destruct (Z.leb_spec l2 (Z.max x u)); [|lia].
    destruct (Z.leb_spec l2 (Z.max x v)); [|lia].
    replace (Z.max (Z.max x u) v) with (Z.max (Z.max x v) u) by lia.
    exact IH.
Qed.

Lemma closed_merge_isort l c (Lt Ut : list Z) :
  Sorted Z.le Lt -> Forall2 Z.le Lt Ut ->
  interval_merge Z.leb l c (zip Lt Ut)
  = interval_merge Z.leb l c (zip Lt (isort Ut)).
Proof.
  revert l c Lt. induction Ut as [|u1 Ut IH]; intros l c Lt Hs Hdom.
  - inversion Hdom; subst. done.
  - inversion Hdom as [|l1 ? Lt' ? Hl1 Hdom']; subst.
    assert (Hs' : Sorted Z.le Lt') by (by apply Sorted_inv in Hs as [? _]).
    pose proof (isort_below Lt' Ut Hs' Hdom') as Hdom_sorted.
    simpl isort.
    pose proof (closed_merge_insert l c u1 Lt' (isort Ut) Hdom_sorted)
      as Hmerge.
    pose proof (insert_sorted_head u1 (isort Ut)) as Hhead.
    destruct (insert_sorted u1 (isort Ut)) as [|w W] eqn:Hins; [done|].
    pose proof (closed_merge_insert l1 w u1 Lt' (isort Ut) Hdom_sorted)
      as Hsplit.
    rewrite Hins in Hsplit.
    simpl. destruct (l1 <=? c).
    + rewrite IH by done. exact Hmerge.
    + f_equal. rewrite IH by done.
      replace (Z.max w u1) with u1 in Hsplit by lia.
      replace (Z.max w w) with w in Hsplit by lia.
      exact Hsplit.
Qed.

Lemma closed_merge_sorted_columns (P : list Loci.locus) :
  Sorted Z.le (fst <$> P) -> Forall (fun s => s.1 <= s.2) P ->
  merge_slices Z.leb P
  = merge_slices Z.leb (zip (fst <$> P) (isort (snd <$> P))).
Proof.
  intros Hs Hproper.
  destruct P as [|[l0 u0] rest]; [done|].
  inversion Hproper as [|? ? Hl0 Hrest]; subst. simpl in Hl0.
  change (fst <$> (l0, u0) :: rest) with (l0 :: (fst <$> rest)) in *.
  change (isort (snd <$> (l0, u0) :: rest))
    with (insert_sorted u0 (isort (snd <$> rest))).
  assert (Hdom : Forall2 Z.le (fst <$> rest) (snd <$> rest)).
  { apply Forall2_fmap, Forall_Forall2_diag.
    eapply Forall_impl; [exact Hrest|]. by intros [? ?]. }
  assert (Hs' : Sorted Z.le (fst <$> rest))
    by (by apply Sorted_inv in Hs as [? _]).
  pose proof (isort_below _ _ Hs' Hdom) as Hdom_sorted.
  pose proof (closed_merge_insert l0
                (match insert_sorted u0 (isort (snd <$> rest)) with
                 | w :: _ => w | [] => u0 end)
                u0 _ _ Hdom_sorted) as Hins.
  pose proof (insert_sorted_head u0 (isort (snd <$> rest))) as Hhead.
  destruct (insert_sorted u0 (isort (snd <$> rest))) as [|w W]; [done|].
  replace (Z.max w u0) with u0 in Hins by lia.
  replace (Z.max w w) with w in Hins by lia.
  cbn [merge_slices zip zip_with]. fold (zip (fst <$> rest) W).
  rewrite <- Hins.
  rewrite <- (zip_fst_snd rest) at 1.
  by apply closed_merge_isort.
Qed.

(** The loop of [_loci_melter] is the merge of closed intervals. *)
Lemma loci_melter_loop_merge start stop rest :
  Loci._loci_melter_loop start stop rest
  = interval_merge Z.leb start stop rest.
Proof.
  revert start stop.
  induction rest as [|[start_i stop_i] rest IH]; intros start stop;
    [done|].
  simpl. destruct (start_i <=? stop); [|by rewrite IH].
  destruct (Z.gtb_spec stop_i stop).
  - replace (Z.max stop stop_i) with stop_i by lia. apply IH.
  - replace (Z.max stop stop_i) with stop by lia. apply IH.
Qed.

(** [_loci_melter] sorts starts and stops apart; on intervals with
    [start <= stop] this is the merge of the intervals sorted by
    start. *)
Lemma loci_melter_merge (array : list Loci.locus) :
  array <> [] ->
  Forall (fun s => s.1 <= s.2) array ->
  Loci._loci_melter array
  = Ok (merge_slices Z.leb (merge_sort start_le array)).
Proof.
  intros Hne Hproper.
  set (P := merge_sort start_le array).
  assert (HP : P ≡ₚ array) by apply merge_sort_Permutation.
  assert (HPs : Sorted Z.le (fst <$> P)).
  { apply Sorted_fmap with (R1 := start_le); [by intros ? ? ?|].
    apply Sorted_merge_sort. apply _. }
  assert (HPp : Forall (fun s => s.1 <= s.2) P) by (by rewrite HP).
  rewrite (closed_merge_sorted_columns P HPs HPp).
  unfold Loci._loci_melter.
  rewrite (merge_sort_perm (fst <$> array) (fst <$> P))
    by (by rewrite HP).
  rewrite (merge_sort_perm (snd <$> array) (snd <$> P))
    by (by rewrite HP).
  rewrite (merge_sort_sorted_id (fst <$> P)) by done.
  rewrite isort_merge_sort.
  pose proof (isort_length (snd <$> P)) as Hlen.
  rewrite length_fmap in Hlen.
  destruct P as [|[l0 u0] rest] eqn:HPeq.
  { apply Permutation_nil_l in HP. by subst. }
  destruct (isort (snd <$> (l0, u0) :: rest)) as [|w W]; [discriminate|].
  simpl. rewrite drop_0. f_equal. apply loci_melter_loop_merge.
Qed.

Lemma closed_merge_union l u (rest : list Loci.locus) (c : Z) :
  StronglySorted Z.le (l :: (fst <$> rest)) ->
  l <= u ->
  Forall (fun s => s.1 <= s.2) rest ->
  in_loci c (interval_merge Z.leb l u rest)
  <-> in_locus c (l, u) \/ in_loci c rest.
Proof.
  revert l u. induction rest as [|[li ui] rest IH]; intros l u HL Hlu Hr.
  - simpl. unfold in_loci. split.
    + intros (s & ->%list_elem_of_singleton & Hs). by left.
    + intros [H|(s & Hs & _)]; [|by apply elem_of_nil in Hs].
      exists (l, u). split; [left|done].
  - simpl in HL.
    apply StronglySorted_inv in HL as [HL HLl].
    inversion HLl as [|? ? Hlli HLl']; subst.
    apply Forall_cons in Hr as [Hi Hr]. simpl in Hi.
    simpl. destruct (Z.leb_spec li u) as [Hmerge|Hsplit].
    + rewrite IH; [| |lia|done].
      2:{ constructor; [by apply StronglySorted_inv in HL as [? ?]|done]. }
      unfold in_loci, in_locus. simpl. split.
      * intros [Hc|(s & Hs & Hc)].
        -- destruct (decide (c <= u)); [left; lia|].
           right. exists (li, ui). split; [left|simpl; lia].
        -- right. exists s. split; [by right|done].
      * intros [Hc|(s & Hs & Hc)]; [left; lia|].
        apply elem_of_cons in Hs as [->|Hs].
        -- left. simpl in Hc. lia.
        -- right. by exists s.
    + unfold in_loci at 1. setoid_rewrite elem_of_cons. split.
      * intros (s & [->|Hs] & Hc); [by left|].
        assert (Hin : in_loci c (interval_merge Z.leb li ui rest))
          by (by exists s).
        apply IH in Hin; [|done..].
        right. destruct Hin as [Hin|(s' & Hs' & Hc')].
        -- exists (li, ui). split; [left|done].
        -- exists s'. split; [by right|done].
      * intros [Hc|(s & Hs & Hc)].
        -- exists (l, u). split; [by left|done].
        -- assert (Hin : in_loci c (interval_merge Z.leb li ui rest)).
           { apply IH; [done..|].
             apply elem_of_cons in Hs as [->|Hs]; [by left|].
             right. by exists s. }
           destruct Hin as (s' & Hs' & Hc'). exists s'.
           split; [by right|done].
Qed.

Lemma closed_merge_proper l u (rest : list Loci.locus) :
  l <= u ->
  Forall (fun s => s.1 <= s.2) rest ->
  Forall (fun s => s.1 <= s.2) (interval_merge Z.leb l u rest).
Proof.
  revert l u. induction rest as [|[li ui] rest IH]; intros l u Hlu Hr.
  - by repeat constructor.
  - apply Forall_cons in Hr as [Hi Hr]. simpl in Hi. simpl.
    destruct (li <=? u).
    + apply IH; [lia|done].
    + constructor; [done|]. by apply IH.
Qed.

(** The melt of intervals with [start <= stop] covers exactly the
    positions that the intervals cover. *)
Lemma loci_melter_covers (array out : list Loci.locus) (c : Z) :
  Forall (fun s => s.1 <= s.2) array ->
  Loci._loci_melter array = Ok out ->
  in_loci c out <-> in_loci c array.
Proof.
  intros Hproper Hm.
  assert (Hne : array <> []).
  { intros ->. discriminate. }
  rewrite (loci_melter_merge array Hne Hproper) in Hm.
  injection Hm as <-.
  set (P := merge_sort start_le array).
  assert (HP : P ≡ₚ array) by apply merge_sort_Permutation.
  assert (HPs : StronglySorted Z.le (fst <$> P)).
  { apply Sorted_StronglySorted; [apply _|].
    apply Sorted_fmap with (R1 := start_le); [by intros ? ? ?|].
    apply Sorted_merge_sort. apply _. }
  assert (HPp : Forall (fun s => s.1 <= s.2) P) by (by rewrite HP).
  assert (Hsame : in_loci c P <-> in_loci c array).
  { unfold in_loci. by setoid_rewrite HP. }
  rewrite <- Hsame.
  destruct P as [|[l u] rest]; [done|].
  apply Forall_cons in HPp as [Hlu HPp].
  simpl merge_slices. rewrite closed_merge_union by done.
  unfold in_loci. setoid_rewrite elem_of_cons. split.
  - intros [Hc|(s & Hs & Hc)]; [exists (l, u)|exists s]; auto.
  - intros (s & [->|Hs] & Hc); [by left|right; by exists s].
Qed.

End loci_melter_union_facts.

(** X14.  On a non-empty array of intervals with [start <= stop],
    [_loci_melter] yields the union of the intervals in its shortest
    form: the intervals it yields cover exactly the positions that the
    given intervals cover, and they ascend, each beginning after the end
    of the one before it.  On the empty array it raises [IndexError]. *)
Theorem loci_melter_is_union (array : list Loci.locus) :
  Forall (fun s => s.1 <= s.2) array ->
  match array with
  | [] => Loci._loci_melter array = Raise IndexError
  | _ =>
      exists out,
        Loci._loci_melter array = Ok out
        /\ melted out
        /\ Forall (fun s => s.1 <= s.2) out
        /\ forall c, in_loci c out <-> in_loci c array
  end.
Proof.
  intros Hproper. destruct array as [|s array]; [done|].
  set (P := merge_sort start_le (s :: array)).
  assert (Hm : Loci._loci_melter (s :: array) = Ok (merge_slices Z.leb P))
    by (by apply loci_melter_merge).
  exists (merge_slices Z.leb P). split; [done|].
  split; [by apply loci_melter_melted in Hm as [_ ?]|].
  split.
  - assert (HPp : Forall (fun s => s.1 <= s.2) P).
    { unfold P. by rewrite merge_sort_Permutation. }
    destruct P as [|[l u] rest]; [constructor|].
    apply Forall_cons in HPp as [Hlu HPp].
    by apply closed_merge_proper.
  - intros c. by apply loci_melter_covers.
Qed.

Lemma loci_melter_is_union_witness :
  exists out,
    Loci._loci_melter [(3, 7); (1, 5); (10, 12)] = Ok out
    /\ melted out
    /\ Forall (fun s => s.1 <= s.2) out
    /\ forall c, in_loci c out <-> in_loci c [(3, 7); (1, 5); (10, 12)].
Proof.
  apply (loci_melter_is_union [(3, 7); (1, 5); (10, 12)]).
  repeat constructor; simpl; lia.
Defined.

(** ** The bins of from_union *)

Section from_union_bins_facts.

(** What the loop over the melts returns: all the melts when each of
    them returns, and otherwise what one of them raises. *)
Lemma melt_values_inv (d : gmap Loci.group (result (list Loci.locus))) :
  match Loci.melt_values d with
  | Ok m => forall g, d !! g = Ok <$> (m !! g)
  | Raise e => exists g, d !! g = Some (Raise e)
  end.
Proof.
  unfold Loci.melt_values.
  apply (map_fold_weak_ind
           (fun r d =>
              match r with
              | Ok m => forall g, d !! g = Ok <$> (m !! g)
              | Raise e => exists g, d !! g = Some (Raise e)
              end)).
  - intros g. by rewrite !lookup_empty.
  - intros i x m r Hi IH. destruct r as [acc|e]; simpl.
    + destruct x as [v|e]; simpl.
      * intros g. destruct (decide (i = g)) as [->|Hne].
        -- by rewrite !lookup_insert_eq.
        -- by rewrite !lookup_insert_ne.
      * exists i. by rewrite lookup_insert_eq.
    + destruct IH as [g Hg]. exists g.
      rewrite lookup_insert_ne; [done|]. intros ->. congruence.
Qed.

Lemma loci_melter_raises (array : list Loci.locus) (e : exn) :
  Loci._loci_melter array = Raise e -> array = [] /\ e = IndexError.
Proof.
  unfold Loci._loci_melter.
  pose proof (merge_sort_length (fst <$> array)) as Hls.
  pose proof (merge_sort_length (snd <$> array)) as Hlt.
  rewrite length_fmap in Hls, Hlt.
  destruct (merge_sort Z.le (fst <$> array)) as [|s0 S'].
  - intros [= <-]. split; [|done]. by destruct array.
  - destruct (merge_sort Z.le (snd <$> array)) as [|t0 T']; [|done].
    intros [= <-]. split; [|done]. by destruct array.
Qed.

Lemma from_union_lookup (args : list (Loci.dict (list Loci.locus)))
      (g : Loci.group) :
  (Loci._loci_melter
   <$> foldl Loci.from_union_append
         (gset_to_gmap [] (list_to_set (projected_keys args)
                           : gset Loci.group)) args) !! g
  = if decide (g ∈ projected_keys args)
    then Some (Loci._loci_melter (args ≫= contribution g))
    else None.
Proof.
  rewrite lookup_fmap. unfold projected_keys.
  rewrite from_union_dictionary.
  by destruct (decide _).
Qed.

(** The bins that a returning [from_union] holds under the key [g]. *)
Lemma from_union_inv (args : list (Loci.dict (list Loci.locus)))
      (m : gmap Loci.group (list Loci.locus)) (g : Loci.group) :
  Loci.from_union args = Ok m ->
  match m !! g with
  | Some bins =>
      g ∈ projected_keys args
      /\ Loci._loci_melter (args ≫= contribution g) = Ok bins
  | None => g ∉ projected_keys args
  end.
Proof.
  unfold Loci.from_union. intros Hm.
  pose proof (melt_values_inv
                (Loci._loci_melter
                 <$> foldl Loci.from_union_append
                       (gset_to_gmap [] (list_to_set (projected_keys args)
                                         : gset Loci.group)) args))
    as Hinv.
  unfold projected_keys in Hinv at 1.
  rewrite Hm in Hinv. specialize (Hinv g).
  rewrite from_union_lookup in Hinv.
  destruct (m !! g) as [bins|]; simpl in Hinv.
  - destruct (decide (g ∈ projected_keys args)); [|discriminate].
    split; [done|]. by injection Hinv.
  - by destruct (decide (g ∈ projected_keys args)).
Qed.

End from_union_bins_facts.

(** X15.  The bins of [from_union].  When [from_union] returns, its keys
    are the projections [group[0:3]] of the keys of the arguments, and
    under each key [g] it holds the melt of the intervals that the
    arguments hold under the keys that project to [g]: bins that ascend,
    each beginning after the end of the one before it, and that cover,
    when every interval has [start <= stop], exactly the positions that
    these intervals cover. *)
Theorem from_union_bins (args : list (Loci.dict (list Loci.locus)))
        (m : gmap Loci.group (list Loci.locus)) :
  Loci.from_union args = Ok m ->
  (forall g, is_Some (m !! g) <-> g ∈ projected_keys args)
  /\ forall g bins,
       m !! g = Some bins ->
       bins <> [] /\ melted bins
       /\ (Forall (fun s => s.1 <= s.2) (args ≫= contribution g) ->
           forall c, in_loci c bins <-> in_loci c (args ≫= contribution g)).
Proof.
  intros Hm. split.
  - intros g. pose proof (from_union_inv args m g Hm) as Hg.
    destruct (m !! g) as [bins|].
    + destruct Hg as [Hg _]. split; [done|eauto].
    + split; [by intros [? ?]|done].
  - intros g bins Hbins.
    pose proof (from_union_inv args m g Hm) as Hg.
    rewrite Hbins in Hg. destruct Hg as [_ Hmelt].
    destruct (loci_melter_melted _ _ Hmelt) as [Hne Hmelted].
    split; [done|]. split; [done|].
    intros Hproper c. by apply loci_melter_covers.
Qed.

Lemma from_union_bins_witness :
  (forall g,
      is_Some (({[ ["chr1"; "+"; "gypsy"]%string := [(1, 12); (20, 50)] ]}
                : gmap Loci.group (list Loci.locus)) !! g)
      <-> g ∈ projected_keys
                [[(["chr1"; "+"; "gypsy"; "s1"]%string, [(1, 9); (20, 50)])];
                 [(["chr1"; "+"; "gypsy"; "s2"]%string, [(5, 12)])]])
  /\ forall g bins,
       ({[ ["chr1"; "+"; "gypsy"]%string := [(1, 12); (20, 50)] ]}
        : gmap Loci.group (list Loci.locus)) !! g = Some bins ->
       bins <> [] /\ melted bins
       /\ (Forall (fun s => s.1 <= s.2)
                  ([[(["chr1"; "+"; "gypsy"; "s1"]%string,
                      [(1, 9); (20, 50)])];
                    [(["chr1"; "+"; "gypsy"; "s2"]%string, [(5, 12)])]]
                   ≫= contribution g) ->
           forall c,
             in_loci c bins
             <-> in_loci c
                   ([[(["chr1"; "+"; "gypsy"; "s1"]%string,
                       [(1, 9); (20, 50)])];
                     [(["chr1"; "+"; "gypsy"; "s2"]%string, [(5, 12)])]]
                    ≫= contribution g)).
Proof.
  apply (from_union_bins
           [[(["chr1"; "+"; "gypsy"; "s1"]%string, [(1, 9); (20, 50)])];
            [(["chr1"; "+"; "gypsy"; "s2"]%string, [(5, 12)])]]).
  apply from_union_example.
Defined.

(** X16.  [from_union] raises exactly when some projected key has no
    interval at all (every array that the arguments hold under the keys
    that project to it is empty, as the fingerprint of a group without a
    cluster is), and then it raises [IndexError]. *)
Theorem from_union_raises (args : list (Loci.dict (list Loci.locus)))
        (e : exn) :
  Loci.from_union args = Raise e
  <-> e = IndexError
      /\ exists g, g ∈ projected_keys args /\ args ≫= contribution g = [].
Proof.
  pose proof (melt_values_inv
                (Loci._loci_melter
                 <$> foldl Loci.from_union_append
                       (gset_to_gmap [] (list_to_set (projected_keys args)
                                         : gset Loci.group)) args))
    as Hinv.
  unfold projected_keys in Hinv at 1.
  fold (Loci.from_union args) in Hinv.
  split.
  - intros He. rewrite He in Hinv. destruct Hinv as [g Hg].
    rewrite from_union_lookup in Hg.
    destruct (decide (g ∈ projected_keys args)) as [Hin|]; [|discriminate].
    injection Hg as Hg. apply loci_melter_raises in Hg as [Hnil ->].
    split; [done|]. by exists g.
  - intros [-> (g & Hin & Hnil)].
    destruct (Loci.from_union args) as [m|e'].
    + specialize (Hinv g). rewrite from_union_lookup in Hinv.
      rewrite decide_True, Hnil in Hinv by done.
      by destruct (m !! g).
    + destruct Hinv as [g' Hg']. rewrite from_union_lookup in Hg'.
      destruct (decide (g' ∈ projected_keys args)); [|discriminate].
      injection Hg' as Hg'. by apply loci_melter_raises in Hg' as [_ ->].
Qed.

Lemma from_union_raises_witness :
  Loci.from_union
    [[(["chr1"; "+"; "gypsy"; "s1"]%string, [(1, 9)]);
      (["chr2"; "+"; "gypsy"; "s1"]%string, [])]]
  = Raise IndexError.
Proof.
  apply (proj2 (from_union_raises
                  [[(["chr1"; "+"; "gypsy"; "s1"]%string, [(1, 9)]);
                    (["chr2"; "+"; "gypsy"; "s1"]%string, [])]]
                  IndexError)).
  split; [reflexivity|].
  exists ["chr2"; "+"; "gypsy"]%string. split; [|reflexivity].
  unfold projected_keys. simpl. right. left.
Defined.

(** ** When compare returns *)

Section compare_returns_facts.

Lemma rmapM_raise {A B} (f : A -> result B) (l : list A) (e : exn) :
  rmapM f l = Raise e -> exists x, x ∈ l /\ f x = Raise e.
Proof.
  induction l as [|a l IH]; simpl; [discriminate|].
  destruct (f a) as [b|e'] eqn:Hfa; simpl.
  - destruct (rmapM f l) as [bs|e']; simpl; [discriminate|].
    intros [= ->]. destruct IH as (x & Hx & Hfx); [done|].
    exists x. split; [by right|done].
  - intros [= ->]. exists a. split; [left|done].
Qed.

Lemma rmapM_ok {A B} (f : A -> result B) (l : list A) :
  Forall (fun x => exists y, f x = Ok y) l -> exists l', rmapM f l = Ok l'.
Proof.
  induction 1 as [|a l [b Hb] _ [bs IH]]; simpl; [eauto|].
  rewrite Hb, IH. simpl. eauto.
Qed.

Lemma rmapM_ok_elem {A B} (f : A -> result B) (l : list A) (l' : list B)
      (x : A) :
  rmapM f l = Ok l' -> x ∈ l -> exists y, f x = Ok y.
Proof.
  intros H Hx. apply rmapM_Ok_Forall2 in H.
  apply list_elem_of_lookup_1 in Hx as [i Hi].
  destruct (Forall2_lookup_l _ _ _ _ _ H Hi) as (y & _ & Hy). eauto.
Qed.

Lemma dict_get_key {V} (d : Loci.dict V) (k : Loci.group) :
  k ∈ d.*1 -> exists v, Loci.dict_get d k = Ok v.
Proof.
  induction d as [|[k' v'] d IH]; simpl.
  - by intros ?%elem_of_nil.
  - destruct (decide (k' = k)); [eauto|].
    intros [?|?]%elem_of_cons; [congruence|by apply IH].
Qed.

Lemma dict_get_raise {V} (d : Loci.dict V) (k : Loci.group) (e : exn) :
  Loci.dict_get d k = Raise e -> e = KeyError /\ k ∉ d.*1.
Proof.
  induction d as [|[k' v'] d IH]; simpl.
  - intros [= <-]. split; [done|]. apply not_elem_of_nil.
  - destruct (decide (k' = k)); [discriminate|].
    intros [-> Hk]%IH. split; [done|].
    intros [?|?]%elem_of_cons; [congruence|done].
Qed.

Lemma tips_ok (R : Loci.ReadLoci) :
  Forall (fun item => (2 <= length item.1)%nat) R ->
  exists views, Loci.tips R = Ok views /\ views.*1 = R.*1.
Proof.
  unfold Loci.tips.
  induction 1 as [|[group loci] R Hg _ (views & IH & Hkeys)]; simpl;
    [eauto|].
  simpl in Hg.
  destruct (lookup_lt_is_Some_2 group 1 ltac:(lia)) as [strand Hs].
  apply item_lookup in Hs. rewrite Hs. simpl.
  rewrite IH.
  destruct (String.eqb strand "+"); simpl; eexists;
    (split; [reflexivity|]); rewrite !fmap_cons; by f_equal.
Qed.

Lemma sources_ok (R : Loci.ReadLoci) :
  Forall (fun item => (4 <= length item.1)%nat) R ->
  rmapM (fun '(group, _) => Py.item group 3) R = Ok (all_sources R).
Proof.
  intros HR.
  destruct (rmapM_ok (fun '(group, _) => Py.item group 3) R)
    as [sources Hs].
  { eapply Forall_impl; [exact HR|]. intros [group loci] Hg. simpl in Hg.
    destruct (lookup_lt_is_Some_2 group 3 ltac:(lia)) as [s Hs].
    exists s. by apply item_lookup. }
  rewrite Hs. f_equal. by apply sources_all.
Qed.

Variables (B : Loci.ComparativeBins) (R : Loci.ReadLoci).
Hypothesis keys_4 : Forall (fun item => (4 <= length item.1)%nat) R.

(** The lookup of the tips of one sample under one bin group. *)
Lemma sample_tips_cases (views : Loci.dict Loci.view) (key : Loci.group) :
  Loci.tips R = Ok views -> views.*1 = R.*1 ->
  match (v <-- Loci.dict_get views key ;; Loci.deref R v) with
  | Ok _ => key ∈ R.*1
  | Raise e => e = KeyError /\ key ∉ R.*1
  end.
Proof.
  intros Hviews Hkeys.
  destruct (Loci.dict_get views key) as [v|e] eqn:Hv; simpl.
  - destruct (tips_dict_get R views key v Hviews Hv)
      as [-> [loci Hloci]].
    unfold Loci.deref. simpl. rewrite Hloci. simpl.
    apply dict_get_elem in Hloci.
    apply list_elem_of_fmap. by exists (key, loci).
  - apply dict_get_raise in Hv as [-> Hk]. by rewrite <- Hkeys.
Qed.

Lemma compare_cases :
  match Loci.compare B R with
  | Ok _ =>
      forall g bins s,
        (g, bins) ∈ B -> s ∈ all_sources R -> g ++ [s] ∈ R.*1
  | Raise e =>
      e = KeyError
      /\ exists g bins s,
           (g, bins) ∈ B /\ s ∈ all_sources R /\ g ++ [s] ∉ R.*1
  end.
Proof.
  unfold Loci.compare. rewrite (sources_ok R keys_4). simpl.
  fold (ascending_distinct (all_sources R)).
  destruct (tips_ok R) as (views & Hviews & Hkeys).
  { eapply Forall_impl; [exact keys_4|]. intros item Hitem.
    simpl in Hitem. lia. }
  rewrite Hviews. simpl.
  match goal with
  | |- match ?r with Ok _ => _ | Raise _ => _ end =>
      destruct r as [C|e] eqn:HC
  end.
  - intros g bins s Hg Hs.
    destruct (rmapM_ok_elem _ _ _ (g, bins) HC Hg) as [row Hrow].
    simpl in Hrow.
    match type of Hrow with
    | (sample_tips <-- ?r ;; _) = _ =>
        destruct r as [sample_tips|e] eqn:Hinner; [|discriminate]
    end.
    apply ascending_distinct_elem in Hs.
    destruct (rmapM_ok_elem _ _ _ s Hinner Hs) as [tips Htips].
    pose proof (sample_tips_cases views (g ++ [s]) Hviews Hkeys) as Hc.
    by rewrite Htips in Hc.
  - apply rmapM_raise in HC as ([g bins] & Hg & Hrow). simpl in Hrow.
    match type of Hrow with
    | (sample_tips <-- ?r ;; _) = _ =>
        destruct r as [sample_tips|e'] eqn:Hinner; [discriminate|]
    end.
    simpl in Hrow. injection Hrow as ->.
    apply rmapM_raise in Hinner as (s & Hs & Hraise).
    pose proof (sample_tips_cases views (g ++ [s]) Hviews Hkeys) as Hc.
    rewrite Hraise in Hc. destruct Hc as [-> Hk].
    split; [done|]. exists g, bins, s.
    split; [done|]. split; [by apply ascending_distinct_elem|done].
Qed.

End compare_returns_facts.

(** X17.  When [compare] returns.  For reads whose keys have at least
    four fields, [B.compare(R)] returns exactly when, for every bin group
    [g] of [B] and every sample [s] of [R] (the fourth field of a key of
    [R]), [R] has a read group under the key [g] extended with [s];
    otherwise it raises [KeyError]. *)
Theorem compare_returns_iff_keys (B : Loci.ComparativeBins)
        (R : Loci.ReadLoci) :
  Forall (fun item => (4 <= length item.1)%nat) R ->
  ((exists C, Loci.compare B R = Ok C)
   <-> forall g bins s,
         (g, bins) ∈ B -> s ∈ all_sources R -> g ++ [s] ∈ R.*1)
  /\ (Loci.compare B R = Raise KeyError
      <-> exists g bins s,
            (g, bins) ∈ B /\ s ∈ all_sources R /\ g ++ [s] ∉ R.*1).
Proof.
  intros Hkeys. pose proof (compare_cases B R Hkeys) as Hc.
  destruct (Loci.compare B R) as [C|e].
  - split.
    + split; [done|eauto].
    + split; [discriminate|].
      intros (g & bins & s & Hg & Hs & Hk). exfalso. eauto.
  - destruct Hc as [-> Hmiss]. split.
    + split; [by intros [? ?]|].
      intros Hall. destruct Hmiss as (g & bins & s & Hg & Hs & Hk).
      exfalso. eauto.
    + split; [done|done].
Qed.

Lemma compare_returns_iff_keys_witness :
  Loci.compare
    [(["chr1"; "+"; "gypsy"]%string, [(100, 200)])]
    [(["chr1"; "+"; "gypsy"; "sampleA"]%string,
      [(0, 105, "r1"%string); (0, 150, "r2"%string)]);
     (["chr2"; "+"; "gypsy"; "sampleB"]%string,
      [(0, 199, "r3"%string)])]
  = Raise KeyError.
Proof.
  apply (proj2 (compare_returns_iff_keys
                  [(["chr1"; "+"; "gypsy"]%string, [(100, 200)])]
                  [(["chr1"; "+"; "gypsy"; "sampleA"]%string,
                    [(0, 105, "r1"%string); (0, 150, "r2"%string)]);
                   (["chr2"; "+"; "gypsy"; "sampleB"]%string,
                    [(0, 199, "r3"%string)])]
                  ltac:(repeat constructor; simpl; lia))).
  exists ["chr1"; "+"; "gypsy"]%string, [(100, 200)], "sampleB"%string.
  split; [left|]. split.
  - unfold all_sources. simpl. right. left.
  - simpl. intros H. repeat (apply elem_of_cons in H as [H|H];
      [discriminate|]). by apply elem_of_nil in H.
Defined.

(** ** merge *)

Section merge_facts.

Context {V : Type}.

Lemma dict_get_set (d : Loci.dict V) (k k' : Loci.group) (v : V) :
  Loci.dict_get (Loci.dict_set d k v) k'
  = if decide (k = k') then Ok v else Loci.dict_get d k'.
Proof.
  induction d as [|[k0 v0] d IH]; simpl.
  - by destruct (decide (k = k')).
  - destruct (decide (k0 = k)) as [->|Hne]; simpl.
    + by destruct (decide (k = k')).
    + destruct (decide (k0 = k')) as [->|Hne'].
      * by rewrite decide_False by done.
      * exact IH.
Qed.

Lemma dict_set_keys (d : Loci.dict V) (k : Loci.group) (v : V) :
  (Loci.dict_set d k v).*1
  = if decide (k ∈ d.*1) then d.*1 else d.*1 ++ [k].
Proof.
  induction d as [|[k0 v0] d IH]; [done|].
  cbn [Loci.dict_set]. rewrite (fmap_cons fst (k0, v0) d).
  cbn [fst].
  destruct (decide (k0 = k)) as [->|Hne].
  - rewrite fmap_cons. cbn [fst].
    rewrite (decide_True (P := k ∈ k :: d.*1)); [done|]. left.
  - rewrite fmap_cons, IH. cbn [fst].
    destruct (decide (k ∈ d.*1)) as [Hin|Hout].
    + rewrite (decide_True (P := k ∈ k0 :: d.*1)); [done|]. by right.
    + rewrite (decide_False (P := k ∈ k0 :: d.*1)); [done|].
      intros [?|?]%elem_of_cons; [congruence|done].
Qed.

Lemma dict_set_NoDup (d : Loci.dict V) (k : Loci.group) (v : V) :
  NoDup d.*1 -> NoDup (Loci.dict_set d k v).*1.
Proof.
  intros Hd. rewrite dict_set_keys. destruct (decide (k ∈ d.*1)); [done|].
  apply NoDup_app. split; [done|]. split.
  - intros x Hx ->%list_elem_of_singleton. done.
  - apply NoDup_singleton.
Qed.

Lemma dict_get_snoc (d : Loci.dict V) (k k' : Loci.group) (v : V) :
  Loci.dict_get (d ++ [(k, v)]) k'
  = match Loci.dict_get d k' with
    | Ok x => Ok x
    | Raise _ => if decide (k = k') then Ok v else Raise KeyError
    end.
Proof.
  induction d as [|[k0 v0] d IH]; simpl; [done|].
  by destruct (decide (k0 = k')).
Qed.

Lemma update_dict_get (items d0 : Loci.dict V) (k : Loci.group) :
  Loci.dict_get (Loci._update_dict d0 items) k
  = match Loci.dict_get (reverse items) k with
    | Ok v => Ok v
    | Raise _ => Loci.dict_get d0 k
    end.
Proof.
  unfold Loci._update_dict. revert d0.
  induction items as [|[k1 v1] items IH]; intros d0; [done|].
  simpl. rewrite IH, reverse_cons, dict_get_snoc, dict_get_set.
  destruct (Loci.dict_get (reverse items) k); [done|].
  by destruct (decide (k1 = k)).
Qed.

Lemma update_dict_NoDup (items d0 : Loci.dict V) :
  NoDup d0.*1 -> NoDup (Loci._update_dict d0 items).*1.
Proof.
  unfold Loci._update_dict. revert d0.
  induction items as [|[k1 v1] items IH]; intros d0 Hd; [done|].
  simpl. apply IH. by apply dict_set_NoDup.
Qed.

Lemma dict_get_app (d1 d2 : Loci.dict V) (k : Loci.group) :
  Loci.dict_get (d1 ++ d2) k
  = match Loci.dict_get d1 k with
    | Ok x => Ok x
    | Raise _ => Loci.dict_get d2 k
    end.
Proof.
  induction d1 as [|[k0 v0] d1 IH]; simpl; [done|].
  by destruct (decide (k0 = k)).
Qed.

Lemma merge_fold_get (dicts : list (Loci.dict V)) (d0 : Loci.dict V)
      (k : Loci.group) :
  Loci.dict_get (foldl Loci._update_dict d0 dicts) k
  = match Loci.dict_get (reverse (concat dicts)) k with
    | Ok v => Ok v
    | Raise _ => Loci.dict_get d0 k
    end.
Proof.
  revert d0. induction dicts as [|d dicts IH]; intros d0; [done|].
  simpl. rewrite IH, reverse_app, dict_get_app, update_dict_get.
  by destruct (Loci.dict_get (reverse (concat dicts)) k).
Qed.

Lemma merge_fold_NoDup (dicts : list (Loci.dict V)) (d0 : Loci.dict V) :
  NoDup d0.*1 -> NoDup (foldl Loci._update_dict d0 dicts).*1.
Proof.
  revert d0. induction dicts as [|d dicts IH]; intros d0 Hd; [done|].
  simpl. apply IH. by apply update_dict_NoDup.
Qed.

Lemma merge_fold_snd (args : list (Loci.loci_class * Loci.dict V))
      (d0 : Loci.dict V) :
  foldl (fun merged arg => Loci._update_dict merged arg.2) d0 args
  = foldl Loci._update_dict d0 (snd <$> args).
Proof.
  revert d0. induction args as [|a args IH]; intros d0; [done|].
  simpl. apply IH.
Qed.

Lemma remove_dups_one {A} `{EqDecision A} (l : list A) :
  length (remove_dups l) = 1%nat
  <-> exists c, l <> [] /\ Forall (fun x => x = c) l.
Proof.
  split.
  - intros Hlen.
    destruct (remove_dups l) as [|c [|c' r]] eqn:Hr; try discriminate.
    exists c. split.
    + intros ->. discriminate.
    + apply Forall_forall. intros x Hx.
      apply elem_of_remove_dups in Hx. rewrite Hr in Hx.
      by apply list_elem_of_singleton in Hx.
  - intros (c & Hne & Hall).
    pose proof (NoDup_remove_dups l) as Hnd.
    assert (Hc : forall x, x ∈ remove_dups l -> x = c).
    { intros x Hx. apply (proj1 (elem_of_remove_dups l x)) in Hx.
      rewrite Forall_forall in Hall. by apply Hall. }
    destruct (remove_dups l) as [|x [|y r]] eqn:Hr.
    + destruct l as [|a l]; [done|].
      assert (Ha : a ∈ remove_dups (a :: l))
        by (apply elem_of_remove_dups; left).
      rewrite Hr in Ha. by apply elem_of_nil in Ha.
    + done.
    + assert (x = c) by (apply Hc; left).
      assert (y = c) by (apply Hc; right; left).
      subst. apply NoDup_cons in Hnd as [Hnot _].
      exfalso. apply Hnot. left.
Qed.

End merge_facts.

(** X18.  [merge] returns exactly when it is given at least one argument
    and all the arguments are of one class; otherwise it raises
    [AssertionError].  The merged object is of that class, its dictionary
    has no key twice, and under every key it holds the value of the last
    item with that key among the items of the arguments, taken in order:
    a later argument overrides an earlier one. *)
Theorem merge_last_wins {V} (args : list (Loci.loci_class * Loci.dict V)) :
  match Loci.merge args with
  | Ok (class, d) =>
      args <> [] /\ Forall (fun a => a.1 = class) args
      /\ NoDup d.*1
      /\ forall k, Loci.dict_get d k = last_value (snd <$> args) k
  | Raise e =>
      e = AssertionError
      /\ (args = [] \/ exists a b, a ∈ args /\ b ∈ args /\ a.1 <> b.1)
  end.
Proof.
  unfold Loci.merge.
  destruct (Nat.eqb_spec (length (remove_dups args.*1)) 1) as [Hone|Hnot];
    simpl.
  - apply remove_dups_one in Hone as (c & Hne & Hall).
    destruct args as [|[class d0] args]; [done|].
    rewrite merge_fold_snd.
    split; [done|]. split.
    { apply Forall_fmap in Hall.
      pose proof Hall as Hall'. apply Forall_cons in Hall' as [Hc _].
      simpl in Hc. subst c. exact Hall. }
    split.
    { apply merge_fold_NoDup. constructor. }
    intros k. rewrite merge_fold_get. unfold last_value.
    destruct (Loci.dict_get _ k) as [v|e] eqn:Hget; [done|].
    by apply dict_get_raise in Hget as [-> _].
  - split; [done|].
    destruct args as [|a args]; [by left|]. right.
    destruct (decide (Forall (fun x => x.1 = a.1) (a :: args)))
      as [Hall|Hnall].
    + exfalso. apply Hnot. apply remove_dups_one. exists a.1.
      split; [done|]. by apply Forall_fmap.
    + apply not_Forall_Exists in Hnall; [|apply _].
      apply Exists_exists in Hnall as (b & Hb & Hne).
      exists a, b. split; [left|]. split; [done|]. congruence.
Qed.

(** ** fingerprint *)

Section fingerprint_facts.

Lemma tips_views_of (self : Loci.ReadLoci) :
  Forall (fun item => (2 <= length item.1)%nat) self ->
  Loci.tips self = Ok (views_of self).
Proof.
  unfold Loci.tips, views_of.
  induction 1 as [|[group loci] R Hg _ IH]; [done|].
  simpl in Hg. cbn [rmapM]. rewrite IH.
  destruct (lookup_lt_is_Some_2 group 1 ltac:(lia)) as [strand Hs].
  pose proof Hs as Hitem. apply item_lookup in Hitem. rewrite Hitem.
  assert (Hview :
    (if String.eqb strand "+"
     then Ok (group, Loci.mk_view group Loci.Stop)
     else Ok (group, Loci.mk_view group Loci.Start))
    = Ok (group, Loci.mk_view group (tip_column group))).
  { unfold tip_column. rewrite Hs.
    destruct (String.eqb_spec strand "+") as [->|Hne].
    - by rewrite decide_True.
    - rewrite decide_False; [done|]. by intros [= ->]. }
  cbn [rbind]. rewrite Hview. done.
Qed.

Lemma dict_get_notin {V} (d : Loci.dict V) (k : Loci.group) :
  k ∉ d.*1 -> Loci.dict_get d k = Raise KeyError.
Proof.
  intros Hk. destruct (Loci.dict_get d k) as [v|e] eqn:Hget.
  - apply dict_get_elem in Hget. exfalso. apply Hk.
    apply list_elem_of_fmap. by exists (k, v).
  - by apply dict_get_raise in Hget as [-> _].
Qed.

Lemma dict_set_notin {V} (d : Loci.dict V) (k : Loci.group) (v : V) :
  k ∉ d.*1 -> Loci.dict_set d k v = d ++ [(k, v)].
Proof.
  induction d as [|[k0 v0] d IH]; intros Hk; [done|].
  rewrite fmap_cons in Hk. cbn [fst] in Hk.
  apply not_elem_of_cons in Hk as [Hne Hk].
  cbn [Loci.dict_set]. rewrite decide_False by congruence.
  by rewrite IH.
Qed.

Lemma dict_set_app_notin {V} (d1 d2 : Loci.dict V) (k : Loci.group)
      (v : V) :
  k ∉ d1.*1 -> Loci.dict_set (d1 ++ d2) k v = d1 ++ Loci.dict_set d2 k v.
Proof.
  induction d1 as [|[k0 v0] d1 IH]; intros Hk; [done|].
  rewrite fmap_cons in Hk. cbn [fst] in Hk.
  apply not_elem_of_cons in Hk as [Hne Hk].
  rewrite <- app_comm_cons. cbn [Loci.dict_set].
  rewrite decide_False by congruence.
  by rewrite IH.
Qed.

Lemma get_set_column (c : Loci.column) (vals : list Z)
      (loci : list Loci.read_locus) :
  length vals = length loci ->
  Loci.get_column c (Loci.set_column c vals loci) = vals.
Proof.
  revert loci. induction vals as [|v vals IH]; intros [|r loci] Hlen;
    try done; try (by destruct c).
  simpl in Hlen. injection Hlen as Hlen.
  specialize (IH loci Hlen).
  unfold Loci.get_column, Loci.set_column in *.
  destruct c; cbn [zip_with]; rewrite fmap_cons; by f_equal.
Qed.

Lemma get_column_tips (g : Loci.group) (loci : list Loci.read_locus) :
  Loci.get_column (tip_column g) loci = tip_of g <$> loci.
Proof.
  unfold tip_column, tip_of.
  by destruct (decide (g !! 1%nat = Some "+"%string)).
Qed.

Lemma sorted_tips_store_keys (d : Loci.ReadLoci) :
  (sorted_tips_store d).*1 = d.*1.
Proof.
  unfold sorted_tips_store. rewrite <- list_fmap_compose.
  apply list_fmap_ext. by intros ? [? ?].
Qed.

Lemma sorted_tips_store_app (d1 d2 : Loci.ReadLoci) :
  sorted_tips_store (d1 ++ d2)
  = sorted_tips_store d1 ++ sorted_tips_store d2.
Proof. unfold sorted_tips_store. by rewrite fmap_app. Qed.

Variable model_fit : list Z -> result (list Loci.locus).

Lemma fingerprint_loop_spec (todo : Loci.ReadLoci) :
  forall (done : Loci.ReadLoci) (dictionary : Loci.FingerPrint)
         (self' : Loci.ReadLoci) (fp : Loci.FingerPrint),
    NoDup (done ++ todo).*1 ->
    dictionary.*1 = done.*1 ->
    Loci.fingerprint_loop model_fit (sorted_tips_store done ++ todo)
                          (views_of todo) dictionary
    = (self', Ok fp) ->
    self' = sorted_tips_store (done ++ todo)
    /\ exists fp',
         fp = dictionary ++ fp'
         /\ Forall2 (fun item out =>
                       out.1 = item.1
                       /\ model_fit (merge_sort Z.le
                                       (tip_of item.1 <$> item.2))
                          = Ok out.2) todo fp'.
Proof.
  induction todo as [|[g loci] todo IH];
    intros done dictionary self' fp Hnd Hkeys.
  - simpl. intros [= <- <-]. rewrite !app_nil_r. split; [done|].
    exists []. by rewrite app_nil_r.
  - assert (Hg : g ∉ done.*1).
    { rewrite fmap_app, fmap_cons in Hnd. cbn [fst] in Hnd.
      apply NoDup_app in Hnd as (_ & Hdisj & _).
      intros Hin. apply (Hdisj g Hin). left. }
    assert (Hget : Loci.dict_get (sorted_tips_store done
                                  ++ (g, loci) :: todo) g = Ok loci).
    { rewrite dict_get_app, dict_get_notin
        by (by rewrite sorted_tips_store_keys).
      simpl. by rewrite decide_True. }
    assert (Hstore : Loci.sort_view
                       (sorted_tips_store done ++ (g, loci) :: todo)
                       (Loci.mk_view g (tip_column g))
                     = sorted_tips_store (done ++ [(g, loci)]) ++ todo).
    { unfold Loci.sort_view. cbn [Loci.view_group Loci.view_column].
      rewrite Hget.
      rewrite dict_set_app_notin by (by rewrite sorted_tips_store_keys).
      cbn [Loci.dict_set]. rewrite decide_True by done.
      rewrite sorted_tips_store_app, <- app_assoc. done. }
    assert (Hderef : Loci.deref
                       (sorted_tips_store (done ++ [(g, loci)]) ++ todo)
                       (Loci.mk_view g (tip_column g))
                     = Ok (merge_sort Z.le (tip_of g <$> loci))).
    { unfold Loci.deref. cbn [Loci.view_group Loci.view_column].
      rewrite sorted_tips_store_app, <- app_assoc.
      rewrite dict_get_app, dict_get_notin
        by (by rewrite sorted_tips_store_keys).
      simpl. rewrite decide_True by done. simpl.
      unfold sort_tips. rewrite get_set_column.
      - by rewrite get_column_tips.
      - rewrite merge_sort_length. unfold Loci.get_column.
        destruct (tip_column g); by rewrite length_fmap. }
    unfold views_of. rewrite fmap_cons. fold (views_of todo).
    cbn [Loci.fingerprint_loop]. rewrite Hstore, Hderef.
    destruct (model_fit (merge_sort Z.le (tip_of g <$> loci)))
      as [positions|e] eqn:Hfit; [|discriminate].
    rewrite dict_set_notin by (by rewrite Hkeys).
    intros Hloop.
    destruct (IH (done ++ [(g, loci)]) (dictionary ++ [(g, positions)])
                self' fp) as (-> & fp' & -> & Hfp').
    + by rewrite <- app_assoc.
    + rewrite !fmap_app. by rewrite Hkeys.
    + exact Hloop.
    + split; [by rewrite <- app_assoc|].
      exists ((g, positions) :: fp'). split; [by rewrite <- app_assoc|].
      constructor; [done|exact Hfp'].
Qed.

End fingerprint_facts.

(** X19.  What [fingerprint] computes and what it leaves behind.  For
    reads whose keys are distinct and have a strand, whenever
    [fingerprint] returns, the fingerprint has the groups of the reads, in
    their order, and holds for each group what the model yields on the
    ascending sort of the tips of the group (the stops on the [+] strand,
    the starts otherwise); and the reads hold, in each group, the column
    of tips sorted in place, the other fields left where they were. *)
Theorem fingerprint_clusters_sorted_tips
        (cluster : bool -> Z -> Z -> Z -> list Z -> result (list Loci.locus))
        (self self' : Loci.ReadLoci) (min_reads eps min_eps : Z)
        (hierarchical : bool) (fp : Loci.FingerPrint) :
  NoDup self.*1 ->
  Forall (fun item => (2 <= length item.1)%nat) self ->
  Loci.fingerprint cluster self min_reads eps min_eps hierarchical
  = (self', Ok fp) ->
  self' = sorted_tips_store self
  /\ Forall2 (fun item out =>
                out.1 = item.1
                /\ cluster hierarchical min_reads eps min_eps
                     (merge_sort Z.le (tip_of item.1 <$> item.2))
                   = Ok out.2) self fp.
Proof.
  intros Hnd Hkeys. unfold Loci.fingerprint.
  rewrite (tips_views_of self Hkeys). intros Hloop.
  destruct (fingerprint_loop_spec
              (cluster hierarchical min_reads eps min_eps) self [] []
              self' fp) as (-> & fp' & -> & Hfp'); try done.
Qed.

Lemma fingerprint_clusters_sorted_tips_witness :
  [(["chr1"; "+"; "gypsy"; "s1"]%string,
    [(1, 5, "a"%string); (2, 9, "b"%string)])]
  = sorted_tips_store
      [(["chr1"; "+"; "gypsy"; "s1"]%string,
        [(1, 9, "a"%string); (2, 5, "b"%string)])]
  /\ Forall2 (fun item out =>
                out.1 = item.1
                /\ (fun (_ : bool) (_ _ _ : Z) (tips : list Z) =>
                      Ok [(default 0 (head tips), default 0 (last tips))])
                     true 2 10 0
                     (merge_sort Z.le (tip_of item.1 <$> item.2))
                   = Ok out.2)
             [(["chr1"; "+"; "gypsy"; "s1"]%string,
               [(1, 9, "a"%string); (2, 5, "b"%string)])]
             [(["chr1"; "+"; "gypsy"; "s1"]%string, [(5, 9)])].
Proof.
  apply (fingerprint_clusters_sorted_tips
           (fun _ _ _ _ tips =>
              Ok [(default 0 (head tips), default 0 (last tips))])
           [(["chr1"; "+"; "gypsy"; "s1"]%string,
             [(1, 9, "a"%string); (2, 5, "b"%string)])]
           _ 2 10 0 true).
  - repeat constructor. apply not_elem_of_nil.
  - repeat constructor.
  - vm_compute. reflexivity.
Defined.

(** * libtec.py *)

(** ** simple_cluster *)

Section libtec_orders.

#[global] Instance tip_tail_le_trans : Transitive Libtec.tip_tail_le.
Proof.
  intros [[[ta la] ?] ?] [[[tb lb] ?] ?] [[[tc lc] ?] ?].
  unfold Libtec.tip_tail_le. lia.
Qed.

#[global] Instance tip_tail_le_total : Total Libtec.tip_tail_le.
Proof.
  intros [[[ta la] ?] ?] [[[tb lb] ?] ?].
  unfold Libtec.tip_tail_le. lia.
Qed.

#[global] Instance start_stop_le_trans : Transitive Libtec.start_stop_le.
Proof. intros a b c. unfold Libtec.start_stop_le. lia. Qed.

#[global] Instance start_stop_le_total : Total Libtec.start_stop_le.
Proof. intros a b. unfold Libtec.start_stop_le. lia. Qed.

#[global] Instance start_stop_le_antisymm :
  AntiSymm (=) Libtec.start_stop_le.
Proof.
  intros [a1 a2] [b1 b2]. unfold Libtec.start_stop_le. simpl.
  intros H1 H2. f_equal; lia.
Qed.

Lemma sorted_tips_sorted (reads : list Libtec.sam_read) :
  Sorted Z.le (sorted_tips reads).
Proof.
  unfold sorted_tips.
  apply Sorted_fmap with (R1 := Libtec.tip_tail_le).
  - intros [[[ta la] ?] ?] [[[tb lb] ?] ?].
    unfold Libtec.tip_tail_le, Libtec.tip. simpl. lia.
  - apply Sorted_merge_sort. apply _.
Qed.

Lemma sorted_tips_length (reads : list Libtec.sam_read) :
  length (sorted_tips reads) = length reads.
Proof.
  unfold sorted_tips.
  by rewrite length_fmap, merge_sort_Permutation.
Qed.

Lemma start_stop_sorted_id (l : list Libtec.locus) :
  Sorted Libtec.start_stop_le l -> merge_sort Libtec.start_stop_le l = l.
Proof.
  intros Hs. apply (Sorted_unique Libtec.start_stop_le).
  - apply Sorted_merge_sort. apply _.
  - done.
  - apply merge_sort_Permutation.
Qed.

Lemma Sorted_lookup_intro {A} (R : relation A) (l : list A) :
  (forall i a b, l !! i = Some a -> l !! S i = Some b -> R a b) ->
  Sorted R l.
Proof.
  induction l as [|x l IH]; intros H; [constructor|].
  constructor.
  - apply IH. intros i a b Ha Hb. by apply (H (S i)).
  - destruct l as [|y l]; constructor. by apply (H 0%nat).
Qed.

End libtec_orders.

Section simple_subcluster_facts.

Variables (T : list Z) (k : nat) (epsilon : Z).
Hypothesis k_valid : (2 <= k)%nat.

Lemma at_lookup (i : nat) (x : Z) :
  T !! i = Some x -> at_ T (Z.of_nat i) = x.
Proof. intros H. unfold at_. by rewrite Nat2Z.id, H. Qed.

(** The pairs of values that the scan of [simple_subcluster] builds are
    the extremes of the windows of [k] points. *)
Lemma zip_windows :
  (k <= length T)%nat ->
  zip (take (length T - (k - 1)) T) (drop (k - 1) T)
  = extremes T
    <$> (window (Z.of_nat k)
         <$> seqZ 0 (Z.of_nat (length T - (k - 1)))).
Proof.
  intros Hk. apply list_eq. intros i.
  rewrite lookup_zip_with, !list_lookup_fmap.
  destruct (decide (i < length T - (k - 1))%nat) as [Hi|Hi].
  - rewrite lookup_take_lt, lookup_drop by lia.
    rewrite lookup_seqZ_lt by lia.
    destruct (lookup_lt_is_Some_2 T i ltac:(lia)) as [a Ha].
    destruct (lookup_lt_is_Some_2 T (k - 1 + i) ltac:(lia)) as [b Hb].
    rewrite Ha, Hb. simpl. unfold extremes, window, at_. simpl.
    replace (Z.to_nat (0 + Z.of_nat i)) with i by lia.
    replace (Z.to_nat (0 + Z.of_nat i + Z.of_nat k - 1))
      with (k - 1 + i)%nat by lia.
    by rewrite Ha, Hb.
  - rewrite lookup_take_ge by lia. rewrite lookup_seqZ_ge by lia. done.
Qed.

Lemma dense_windows_short :
  (length T < k)%nat -> dense_windows T k epsilon = [].
Proof.
  intros Hn. unfold dense_windows.
  replace (length T - (k - 1))%nat with 0%nat by lia. done.
Qed.

End simple_subcluster_facts.

(** The sub-clusters of [simple_subcluster] are the extremes of the dense
    windows of the sorted tips. *)
Lemma simple_subcluster_windows (reads : list Libtec.sam_read) (k : nat)
      (epsilon : Z) :
  (2 <= k)%nat ->
  Libtec.simple_subcluster reads (Z.of_nat k) epsilon
  = Ok (extremes (sorted_tips reads)
        <$> dense_windows (sorted_tips reads) k epsilon).
Proof.
  intros Hk. unfold Libtec.simple_subcluster.
  fold (sorted_tips reads). set (T := sorted_tips reads).
  destruct (decide (k <= length T)%nat) as [Hle|Hgt].
  - rewrite fork_slice_upper, fork_slice_lower by lia.
    unfold Np.broadcast.
    rewrite decide_True by (rewrite length_drop, length_take; lia).
    simpl rbind. fold (spans T k).
    unfold Np.select.
    rewrite decide_True
      by (rewrite length_fmap, spans_length, length_take by lia; lia).
    simpl rbind.
    rewrite decide_True
      by (rewrite length_fmap, spans_length, length_drop by lia; lia).
    simpl rbind. f_equal.
    rewrite pick_zip, zip_windows by lia.
    unfold dense_windows. by rewrite <- pick_fmap.
  - assert (Hup : Np.slice_from T (Z.of_nat k - 1) = []).
    { unfold Np.slice_from, Np.bound.
      destruct (Z.ltb_spec (Z.of_nat k - 1) 0); [lia|].
      apply drop_ge. lia. }
    assert (Hlow : Np.slice T 0 (- (Z.of_nat k - 1)) = []).
    { unfold Np.slice. rewrite (bound_nonneg _ 0) by lia.
      unfold Np.bound.
      destruct (Z.ltb_spec (- (Z.of_nat k - 1)) 0); [|lia].
      replace (Z.to_nat (0 `max` (Z.of_nat (length T)
                                  + - (Z.of_nat k - 1)))) with 0%nat by lia.
      done. }
    rewrite Hup, Hlow. simpl.
    rewrite dense_windows_short by lia. done.
Qed.

Section value_melt.

Variables (T : list Z) (k : nat) (epsilon : Z).
Hypothesis k_valid : (2 <= k)%nat.
Hypothesis T_sorted : Sorted Z.le T.
Hypothesis T_small : Forall small T.

Local Abbreviation M := (dense_mask T k epsilon).

Lemma at_le (i j : Z) :
  0 <= i <= j -> j < Z.of_nat (length T) -> at_ T i <= at_ T j.
Proof.
  intros Hij Hj. unfold at_.
  destruct (lookup_lt_is_Some_2 T (Z.to_nat i) ltac:(lia)) as [a Ha].
  destruct (lookup_lt_is_Some_2 T (Z.to_nat j) ltac:(lia)) as [b Hb].
  rewrite Ha, Hb. simpl.
  apply (sorted_lookup_le T T_sorted (Z.to_nat i) (Z.to_nat j));
    [lia|done|done].
Qed.

Lemma at_small (i : Z) : small (at_ T i).
Proof.
  unfold at_. destruct (T !! Z.to_nat i) as [a|] eqn:Ha; simpl.
  - rewrite Forall_forall in T_small. apply T_small.
    by eapply list_elem_of_lookup_2.
  - unfold small. lia.
Qed.

(** An entry of the mask compares the span of its window with
    [epsilon]. *)
Lemma dense_mask_lookup (q : nat) (b : bool) :
  M !! q = Some b ->
  (q + (k - 1) < length T)%nat
  /\ b = (at_ T (Z.of_nat q + Z.of_nat k - 1) - at_ T (Z.of_nat q)
          <=? epsilon).
Proof.
  unfold dense_mask. rewrite list_lookup_fmap.
  destruct (spans T k !! q) as [e|] eqn:He; [|discriminate].
  intros [= <-].
  assert (Hq : (q + (k - 1) < length T)%nat).
  { apply lookup_lt_Some in He. unfold spans in He.
    rewrite length_zip_with, length_drop, length_take in He. lia. }
  split; [done|].
  rewrite spans_window_span in He by lia. injection He as <-.
  unfold window_span. rewrite sub_exact; [done|].
  pose proof (at_small (Z.of_nat q + Z.of_nat k - 1)).
  pose proof (at_small (Z.of_nat q)).
  unfold small, Np.int64 in *. lia.
Qed.

Lemma drop_cons_inv {A} (l : list A) (p : nat) (x : A) (l' : list A) :
  drop p l = x :: l' -> l !! p = Some x /\ drop (S p) l = l'.
Proof.
  intros Hd.
  assert (Hx : l !! p = Some x).
  { pose proof (lookup_drop l p 0) as H. rewrite Hd in H. simpl in H.
    by rewrite Nat.add_0_r in H. }
  split; [done|].
  rewrite (drop_S l x p Hx) in Hd. by injection Hd.
Qed.

(** The merge by values and the merge by positions go the same way. *)
Lemma value_melt_agrees (mask : list bool) :
  forall (p : nat) (l : Z) (jp : nat),
    drop p M = mask ->
    (jp < p)%nat ->
    M !! jp = Some true ->
    (forall q, (jp < q < p)%nat -> M !! q = Some false) ->
    Libtec.merge_loop (at_ T l) (at_ T (Z.of_nat jp + Z.of_nat k - 1))
                      (extremes T <$> scan_from k p mask)
    = extremes T
      <$> melt_last l (Z.of_nat jp + Z.of_nat k) (scan_from k p mask).
Proof.
  induction mask as [|b mask IH]; intros p l jp Hdrop Hjp Hdense Hgap.
  - simpl. unfold extremes. simpl. done.
  - apply drop_cons_inv in Hdrop as [Hp Hdrop].
    destruct b.
    + cbn [scan_from]. rewrite fmap_cons.
      unfold extremes at 1, window at 1. cbn [fst snd].
      cbn [Libtec.merge_loop melt_last window].
      unfold window at 1.
      destruct (dense_mask_lookup p true Hp) as [Hpn _].
      destruct (dense_mask_lookup jp true Hdense) as [Hjn Hjd].
      symmetry in Hjd. apply Z.leb_le in Hjd.
      destruct (Z.leb_spec (Z.of_nat jp + Z.of_nat k) (Z.of_nat p))
        as [Hsplit|Hmerge].
      * assert (Hnext : M !! S jp = Some false) by (apply Hgap; lia).
        destruct (dense_mask_lookup (S jp) false Hnext) as [Hsn Hsd].
        symmetry in Hsd. apply Z.leb_gt in Hsd.
        pose proof (at_le (Z.of_nat jp) (Z.of_nat (S jp))
                      ltac:(lia) ltac:(lia)) as H1.
        pose proof (at_le (Z.of_nat (S jp) + Z.of_nat k - 1) (Z.of_nat p)
                      ltac:(lia) ltac:(lia)) as H2.
        destruct (Z.leb_spec (at_ T (Z.of_nat p))
                    (at_ T (Z.of_nat jp + Z.of_nat k - 1))); [lia|].
        rewrite fmap_cons. f_equal.
        replace (at_ T (Z.of_nat p + Z.of_nat k - 1))
          with (at_ T (Z.of_nat p + Z.of_nat k - 1)) by done.
        apply (IH (S p) (Z.of_nat p) p); [done|lia|done|].
        intros q Hq. lia.
      * pose proof (at_le (Z.of_nat p) (Z.of_nat jp + Z.of_nat k - 1)
                      ltac:(lia) ltac:(lia)) as H1.
        destruct (Z.leb_spec (at_ T (Z.of_nat p))
                    (at_ T (Z.of_nat jp + Z.of_nat k - 1))); [|lia].
        apply (IH (S p) l p); [done|lia|done|].
        intros q Hq. lia.
    + cbn [scan_from]. apply IH; [done|lia|done|].
      intros q Hq. destruct (decide (q = p)) as [->|Hne]; [done|].
      apply Hgap. lia.
Qed.

Lemma scan_melt_agrees (mask : list bool) :
  forall p : nat,
    drop p M = mask ->
    match scan_from k p mask with
    | [] => True
    | (l, u) :: rest =>
        Libtec.merge_loop (at_ T l) (at_ T (u - 1)) (extremes T <$> rest)
        = extremes T <$> melt_last l u rest
    end.
Proof.
  induction mask as [|b mask IH]; intros p Hdrop; [done|].
  apply drop_cons_inv in Hdrop as [Hp Hdrop].
  destruct b.
  - cbn [scan_from]. unfold window at 1.
    apply (value_melt_agrees mask (S p) (Z.of_nat p) p);
      [done|lia|done|].
    intros q Hq. lia.
  - cbn [scan_from]. by apply IH.
Qed.

(** The extremes of the selected windows ascend in the order of
    [('start', 'stop')]. *)
Lemma scan_extremes_sorted (mask : list bool) :
  forall p : nat,
    (p + length mask + (k - 1) <= length T)%nat ->
    Sorted Libtec.start_stop_le (extremes T <$> scan_from k p mask)
    /\ forall q : nat,
         (q <= p)%nat ->
         Forall (Libtec.start_stop_le
                   (extremes T (window (Z.of_nat k) (Z.of_nat q))))
                (extremes T <$> scan_from k p mask).
Proof.
  induction mask as [|b mask IH]; intros p Hp.
  - simpl. split; [constructor|]. intros. constructor.
  - simpl in Hp. destruct (IH (S p) ltac:(lia)) as [Hs Hall].
    destruct b; cbn [scan_from].
    + rewrite fmap_cons. split.
      * constructor; [done|].
        specialize (Hall p ltac:(lia)).
        destruct (extremes T <$> scan_from k (S p) mask);
          constructor. by apply Forall_cons in Hall as [? _].
      * intros q Hq. constructor; [|apply Hall; lia].
        unfold Libtec.start_stop_le, extremes, window. simpl.
        pose proof (at_le (Z.of_nat q) (Z.of_nat p)
                      ltac:(lia) ltac:(lia)).
        pose proof (at_le (Z.of_nat q + Z.of_nat k - 1)
                      (Z.of_nat p + Z.of_nat k - 1)
                      ltac:(lia) ltac:(lia)).
        lia.
    + split; [done|]. intros q Hq. apply Hall. lia.
Qed.

Lemma pick_scan (mask : list bool) (p : nat) :
  Np.pick (window (Z.of_nat k)
           <$> seqZ (Z.of_nat p) (Z.of_nat (length mask))) mask
  = scan_from k p mask.
Proof.
  revert p. induction mask as [|b mask IH]; intros p; [done|].
  rewrite seqZ_cons by (simpl length; lia).
  replace (Z.pred (Z.of_nat (length (b :: mask))))
    with (Z.of_nat (length mask)) by (simpl length; lia).
  replace (Z.succ (Z.of_nat p)) with (Z.of_nat (S p)) by lia.
  rewrite fmap_cons. cbn [Np.pick scan_from]. rewrite IH.
  by destruct b.
Qed.

Lemma dense_windows_scan :
  (k <= length T)%nat ->
  dense_windows T k epsilon = scan_from k 0 M.
Proof.
  intros Hk. unfold dense_windows.
  rewrite <- pick_scan. unfold dense_mask.
  by rewrite length_fmap, spans_length by lia.
Qed.

(** Merging the extremes of the dense windows by their values gives the
    extremes of the clusters that the merge by positions gives. *)
Lemma merge_clusters_windows :
  (k <= length T)%nat ->
  match dense_windows T k epsilon with
  | [] =>
      Libtec.merge_clusters
        (extremes T <$> dense_windows T k epsilon) = Raise IndexError
  | (l, u) :: rest =>
      Libtec.merge_clusters
        (extremes T <$> dense_windows T k epsilon)
      = Ok (extremes T <$> melt_last l u rest)
  end.
Proof.
  intros Hk. unfold Libtec.merge_clusters.
  rewrite start_stop_sorted_id.
  2:{ rewrite dense_windows_scan by done.
      apply scan_extremes_sorted. unfold dense_mask.
      rewrite length_fmap, spans_length by lia. lia. }
  pose proof (scan_melt_agrees M 0 eq_refl) as Hagree.
  rewrite <- dense_windows_scan in Hagree by done.
  destruct (dense_windows T k epsilon) as [|[l u] rest]; [done|].
  rewrite fmap_cons. unfold extremes at 1. cbn [fst snd].
  by rewrite Hagree.
Qed.

End value_melt.

(** X20.  The legacy clusterer agrees with the flat clusterer.  For
    [minpts >= 2] and reads whose tips are below [2^62] in absolute
    value, [UDBSCANx(minpts, eps).fit] returns on the sorted tips of the
    reads, and [simple_cluster(reads, minpts, eps)] returns the
    [cluster_extremities()] of the fitted model whenever the model has a
    cluster; when it has none, [simple_cluster] raises [IndexError]. *)
Theorem simple_cluster_agrees_with_udbscanx (reads : list Libtec.sam_read)
        (minpts eps : Z) :
  2 <= minpts ->
  Forall small (Libtec.tip <$> reads) ->
  exists obj,
    Cluster.UDBSCANx.fit (Cluster.UDBSCANx.__init__ minpts eps)
                         (sorted_tips reads) = Ok obj
    /\ Libtec.simple_cluster reads minpts eps
       = match Cluster.UDBSCANx.slices obj with
         | [] => Raise IndexError
         | _ => Ok (Cluster.UDBSCANx.cluster_extremities obj)
         end.
Proof.
  intros Hk Hsmall.
  set (T := sorted_tips reads). set (k := Z.to_nat minpts).
  assert (Hkz : minpts = Z.of_nat k) by lia.
  assert (HTsmall : Forall small T).
  { unfold T, sorted_tips. by rewrite merge_sort_Permutation. }
  pose proof (sorted_tips_sorted reads) as HTs. fold T in HTs.
  assert (Hcheck : Cluster.UDBSCANx._sorted_ascending T = true)
    by (by apply sorted_ascending_spec).
  destruct (cluster_ok T k eps ltac:(lia) Hcheck) as [bs Hcl].
  exists (Cluster.UDBSCANx.mk minpts eps bs T). split.
  { unfold Cluster.UDBSCANx.fit. rewrite Hcheck. simpl.
    by rewrite Hkz, Hcl. }
  unfold Libtec.simple_cluster. rewrite Hkz.
  rewrite simple_subcluster_windows by lia. fold T. simpl rbind.
  unfold Cluster.UDBSCANx.cluster_extremities. simpl.
  assert (Hext : (fun '(lower, upper) => (at_ T lower, at_ T (upper - 1)))
                 <$> bs = extremes T <$> bs).
  { apply list_fmap_ext. by intros ? [? ?]. }
  rewrite Hext.
  destruct (decide (k <= length T)%nat) as [Hle|Hgt].
  - pose proof (merge_clusters_windows T k eps ltac:(lia) HTs HTsmall Hle)
      as Hmerge.
    apply cluster_dense_windows in Hcl; [|lia].
    destruct (dense_windows T k eps) as [|[l u] rest].
    + by subst bs.
    + subst bs. rewrite Hmerge.
      destruct (melt_last_head l u rest) as (u' & tl & ->). done.
  - rewrite dense_windows_short by lia.
    assert (Hbs : bs = []).
    { unfold Cluster.UDBSCANx._cluster in Hcl.
      destruct (Cluster.UDBSCANx._subcluster T (Z.of_nat k) eps)
        as [sub|e] eqn:Hsub; simpl in Hcl; [|discriminate].
      apply subcluster_short in Hsub; [|lia..]. subst sub.
      simpl in Hcl. by injection Hcl. }
    subst bs. done.
Qed.

Lemma simple_cluster_agrees_with_udbscanx_witness :
  exists obj,
    Cluster.UDBSCANx.fit (Cluster.UDBSCANx.__init__ 3 5)
      (sorted_tips [(52, 57, 5, false); (0, 5, 5, false); (51, 56, 5, false);
                    (1, 6, 5, false); (2, 7, 5, false); (50, 55, 5, false)])
    = Ok obj
    /\ Libtec.simple_cluster
         [(52, 57, 5, false); (0, 5, 5, false); (51, 56, 5, false);
          (1, 6, 5, false); (2, 7, 5, false); (50, 55, 5, false)] 3 5
       = match Cluster.UDBSCANx.slices obj with
         | [] => Raise IndexError
         | _ => Ok (Cluster.UDBSCANx.cluster_extremities obj)
         end.
Proof.
  apply (simple_cluster_agrees_with_udbscanx
           [(52, 57, 5, false); (0, 5, 5, false); (51, 56, 5, false);
            (1, 6, 5, false); (2, 7, 5, false); (50, 55, 5, false)] 3 5).
  - lia.
  - repeat constructor; unfold small, Libtec.tip; simpl; lia.
Defined.

Section merge_clusters_facts.

Lemma merge_loop_head (start stop : Z) (rest : list Libtec.locus) :
  exists stop' tl, Libtec.merge_loop start stop rest = (start, stop') :: tl.
Proof.
  revert start stop. induction rest as [|[si ti] rest IH];
    intros start stop; simpl; [eauto|].
  destruct (si <=? stop); [apply IH|eauto].
Qed.

(** [merge_clusters] raises on no sub-cluster and returns at least one
    cluster otherwise. *)
Lemma merge_clusters_cases (clusters : list Libtec.locus) :
  match clusters with
  | [] => Libtec.merge_clusters clusters = Raise IndexError
  | _ => exists c out, Libtec.merge_clusters clusters = Ok (c :: out)
  end.
Proof.
  unfold Libtec.merge_clusters.
  pose proof (merge_sort_Permutation Libtec.start_stop_le clusters)
    as Hperm.
  destruct clusters as [|w W].
  - apply Permutation_nil_r in Hperm. by rewrite Hperm.
  - destruct (merge_sort Libtec.start_stop_le (w :: W))
      as [|[start stop] rest].
    + apply Permutation_nil_l in Hperm. discriminate.
    + destruct (merge_loop_head start stop rest) as (stop' & tl & ->).
      eauto.
Qed.

End merge_clusters_facts.

(** X21.  [simple_cluster] has no empty answer: for [minpts >= 2] it
    raises [IndexError], from [merge_clusters], exactly when no window of
    [minpts] sorted tips has a span of at most [eps], as when there are
    fewer than [minpts] reads; otherwise it returns at least one
    cluster. *)
Theorem simple_cluster_without_cluster (reads : list Libtec.sam_read)
        (minpts eps : Z) :
  2 <= minpts ->
  (Libtec.simple_cluster reads minpts eps = Raise IndexError
   <-> dense_windows (sorted_tips reads) (Z.to_nat minpts) eps = [])
  /\ (dense_windows (sorted_tips reads) (Z.to_nat minpts) eps <> [] ->
      exists c out, Libtec.simple_cluster reads minpts eps = Ok (c :: out))
  /\ (Z.of_nat (length reads) < minpts ->
      Libtec.simple_cluster reads minpts eps = Raise IndexError).
Proof.
  intros Hk.
  set (T := sorted_tips reads). set (k := Z.to_nat minpts).
  assert (Hkz : minpts = Z.of_nat k) by lia.
  assert (Hsc : Libtec.simple_cluster reads minpts eps
                = Libtec.merge_clusters
                    (extremes T <$> dense_windows T k eps)).
  { unfold Libtec.simple_cluster. rewrite Hkz.
    by rewrite simple_subcluster_windows by lia. }
  pose proof (merge_clusters_cases (extremes T <$> dense_windows T k eps))
    as Hcases.
  rewrite <- Hsc in Hcases.
  assert (Hshort : Z.of_nat (length reads) < minpts ->
                   dense_windows T k eps = []).
  { intros Hn. apply dense_windows_short; [lia|].
    pose proof (sorted_tips_length reads) as Hlen. fold T in Hlen. lia. }
  destruct (dense_windows T k eps) as [|w W]; simpl in Hcases.
  - split; [done|]. split; [done|]. done.
  - destruct Hcases as (c & out & Hok). split; [|split].
    + rewrite Hok. split; discriminate.
    + eauto.
    + intros Hn. by specialize (Hshort Hn).
Qed.

Lemma simple_cluster_without_cluster_witness :
  Libtec.simple_cluster [(1, 6, 5, false); (2, 7, 5, false)] 3 5
  = Raise IndexError.
Proof.
  destruct (simple_cluster_without_cluster
              [(1, 6, 5, false); (2, 7, 5, false)] 3 5 ltac:(lia))
    as (_ & _ & Hshort).
  apply Hshort. simpl. lia.
Defined.

Section cluster_depth_facts.

Lemma occurrences_cons (i t : Z) (l : list Z) :
  occurrences i (t :: l)
  = (if decide (t = i) then 1 else 0) + occurrences i l.
Proof.
  unfold occurrences. rewrite filter_cons.
  destruct (decide (t = i)); simpl length; lia.
Qed.

Lemma occurrences_nonneg (i : Z) (l : list Z) : 0 <= occurrences i l.
Proof. unfold occurrences. lia. Qed.

Lemma occurrences_notin (i : Z) (l : list Z) :
  i ∉ l -> occurrences i l = 0.
Proof.
  induction l as [|t l IH]; intros Hi; [done|].
  rewrite occurrences_cons, IH.
  - destruct (decide (t = i)) as [->|]; [|done].
    exfalso. apply Hi. left.
  - intros ?. apply Hi. by right.
Qed.

Lemma depth_step_raise (e : exn) (tips : list Z) :
  foldl depth_step (Raise e) tips = Raise e.
Proof. induction tips as [|t tips IH]; [done|]. simpl. apply IH. Qed.

Lemma increment_cases (depth : list Z) (t : Z) :
  let n := Z.of_nat (length depth) in
  (- n <= t < n
   /\ Libtec.increment depth t
      = Ok (alter (fun x => Np.add x 1)
                  (Z.to_nat (if decide (0 <= t) then t else n + t)) depth))
  \/ (~ (- n <= t < n) /\ Libtec.increment depth t = Raise IndexError).
Proof.
  intros n. unfold Libtec.increment. fold n.
  destruct (Z.leb_spec 0 t), (Z.ltb_spec t n); simpl.
  - left. split; [lia|]. by rewrite decide_True by lia.
  - destruct (Z.leb_spec (- n) t), (Z.ltb_spec t 0); simpl; try lia.
    right. split; [lia|done].
  - destruct (Z.leb_spec (- n) t), (Z.ltb_spec t 0); simpl; try lia.
    + left. split; [lia|]. by rewrite decide_False by lia.
    + right. split; [lia|done].
  - lia.
Qed.

(** An offset outside [[-n, n)] stops the loop with [IndexError]. *)
Lemma depth_loop_raises (tips : list Z) (depth : list Z) :
  Exists (fun t => ~ (- Z.of_nat (length depth) <= t
                      < Z.of_nat (length depth))) tips ->
  foldl depth_step (Ok depth) tips = Raise IndexError.
Proof.
  revert depth. induction tips as [|t tips IH]; intros depth Hex.
  - by apply Exists_nil in Hex.
  - simpl. destruct (increment_cases depth t) as [[Ht ->]|[Ht ->]].
    + apply IH. apply Exists_cons in Hex as [Hex|Hex]; [done|].
      by rewrite length_alter.
    + apply depth_step_raise.
Qed.

(** With every offset in [[-n, n)] the loop returns; entry [i] has
    grown by the number of offsets equal to [i] or to [i - n]. *)
Lemma depth_loop_spec (tips : list Z) (depth : list Z) :
  Forall (fun t => - Z.of_nat (length depth) <= t
                   < Z.of_nat (length depth)) tips ->
  Forall (fun x => 0 <= x /\ x + Z.of_nat (length tips) < 2 ^ 63) depth ->
  exists out,
    foldl depth_step (Ok depth) tips = Ok out
    /\ length out = length depth
    /\ forall (i : nat) (x : Z), depth !! i = Some x ->
         out !! i
         = Some (x + occurrences (Z.of_nat i) tips
                   + occurrences (Z.of_nat i - Z.of_nat (length depth))
                                 tips).
Proof.
  revert depth. induction tips as [|t tips IH]; intros depth Hin Hb.
  - exists depth. split; [done|]. split; [done|].
    intros i x Hi. rewrite Hi. unfold occurrences. simpl. f_equal. lia.
  - apply Forall_cons in Hin as [Ht Hin]. simpl foldl.
    destruct (increment_cases depth t) as [[_ Hinc]|[Hno _]]; [|done].
    change (depth_step (Ok depth) t) with (Libtec.increment depth t).
    rewrite Hinc.
    set (n := Z.of_nat (length depth)) in *.
    set (j := Z.to_nat (if decide (0 <= t) then t else n + t)).
    assert (Hj : (j < length depth)%nat).
    { unfold j. destruct (decide (0 <= t)); lia. }
    destruct (IH (alter (fun x => Np.add x 1) j depth)) as (out & Hout & Hlen & Hval).
    + by rewrite length_alter.
    + apply Forall_lookup. intros i x Hi.
      destruct (decide (i = j)) as [->|Hij].
      * rewrite list_lookup_alter_eq in Hi.
        destruct (depth !! j) as [y|] eqn:Hy; [|done].
        injection Hi as <-.
        pose proof (proj1 (Forall_lookup _ _) Hb _ _ Hy) as Hyb.
        simpl in Hyb. unfold Np.add.
        rewrite wrap64_id by (unfold Np.int64; lia). lia.
      * rewrite list_lookup_alter_ne in Hi by done.
        pose proof (proj1 (Forall_lookup _ _) Hb _ _ Hi) as Hyb.
        simpl in Hyb. lia.
    + exists out. split; [done|]. rewrite length_alter in Hlen.
      split; [done|]. intros i x Hi.
      assert (Hil : (i < length depth)%nat) by (by eapply lookup_lt_Some).
      pose proof (proj1 (Forall_lookup _ _) Hb _ _ Hi) as Hxb.
      simpl in Hxb. rewrite length_alter in Hval.
      rewrite !occurrences_cons.
      destruct (decide (i = j)) as [->|Hij].
      * rewrite (Hval j (Np.add x 1)).
        2:{ by rewrite list_lookup_alter_eq, Hi. }
        unfold Np.add. rewrite wrap64_id by (unfold Np.int64; lia).
        f_equal. fold n. unfold j.
        destruct (decide (0 <= t)).
        -- rewrite decide_True by lia. rewrite decide_False by lia. lia.
        -- rewrite decide_False by lia. rewrite decide_True by lia. lia.
      * rewrite (Hval i x).
        2:{ by rewrite list_lookup_alter_ne. }
        f_equal. fold n. unfold j in Hij.
        destruct (decide (0 <= t)).
        -- rewrite decide_False by lia. rewrite decide_False by lia. lia.
        -- rewrite decide_False by lia. rewrite decide_False by lia. lia.
Qed.

End cluster_depth_facts.

Section cluster_depth_spec.

Variables (start stop : Z).
Hypothesis start_small : small start.

Lemma count_tip_cons (r : Libtec.sam_read) (reads : list Libtec.sam_read)
      (p : Z) :
  count_tip (r :: reads) p
  = (if decide (Libtec.tip r = p) then 1 else 0) + count_tip reads p.
Proof. unfold count_tip. by rewrite fmap_cons, occurrences_cons. Qed.

(** The offsets [reads['tip'] - start] occur as the tips do. *)
Lemma occurrences_offsets (reads : list Libtec.sam_read) (i : Z) :
  Forall small (Libtec.tip <$> reads) ->
  occurrences i ((fun r => Np.sub (Libtec.tip r) start) <$> reads)
  = count_tip reads (start + i).
Proof.
  induction reads as [|r reads IH]; intros Hs; [done|].
  rewrite fmap_cons in Hs. apply Forall_cons in Hs as [Hr Hs].
  rewrite fmap_cons, occurrences_cons, count_tip_cons, IH by done.
  unfold small in *. rewrite sub_exact by (unfold Np.int64; lia).
  destruct (decide (Libtec.tip r - start = i)),
           (decide (Libtec.tip r = start + i)); lia.
Qed.

Lemma reads_in_locus_filter (reads : list Libtec.sam_read) (margin : Z) :
  Libtec.reads_in_locus reads (start, stop) margin
  = filter (fun r => start - margin <= Libtec.tip r <= stop + margin)
           reads.
Proof.
  unfold Libtec.reads_in_locus.
  induction reads as [|r reads IH]; [done|].
  rewrite fmap_cons, filter_cons. simpl Np.pick. rewrite IH.
  destruct (Z.geb_spec (Libtec.tip r) (start - margin)),
           (Z.leb_spec (Libtec.tip r) (stop + margin)); simpl.
  - by rewrite decide_True by lia.
  - by rewrite decide_False by lia.
  - by rewrite decide_False by lia.
  - by rewrite decide_False by lia.
Qed.

Lemma count_tip_filter (P : Libtec.sam_read -> Prop)
      `{!forall r, Decision (P r)} (reads : list Libtec.sam_read) (p : Z) :
  (forall r, Libtec.tip r = p -> P r) ->
  count_tip (filter P reads) p = count_tip reads p.
Proof.
  intros HP. induction reads as [|r reads IH]; [done|].
  rewrite filter_cons, count_tip_cons.
  destruct (decide (P r)) as [Hr|Hr].
  - by rewrite count_tip_cons, IH.
  - rewrite IH. destruct (decide (Libtec.tip r = p)) as [Hp|]; [|done].
    by apply HP in Hp.
Qed.

Lemma count_tip_none (reads : list Libtec.sam_read) (p : Z) :
  Forall (fun r => Libtec.tip r <> p) reads -> count_tip reads p = 0.
Proof.
  induction 1 as [|r reads Hr _ IH]; [done|].
  rewrite count_tip_cons, IH. by rewrite decide_False by done.
Qed.

(** The three outcomes of [cluster_depth]. *)
Lemma cluster_depth_cases (reads : list Libtec.sam_read) :
  Forall small (Libtec.tip <$> reads) ->
  let size := stop - start + 1 in
  (size < 0 ->
   Libtec.cluster_depth reads (start, stop) = Raise ValueError)
  /\ (0 <= size ->
      Exists (fun r => Libtec.tip r < start - size \/ stop < Libtec.tip r)
             reads ->
      Libtec.cluster_depth reads (start, stop) = Raise IndexError)
  /\ (0 <= size ->
      Forall (fun r => start - size <= Libtec.tip r <= stop) reads ->
      Z.of_nat (length reads) < 2 ^ 63 ->
      exists depth,
        Libtec.cluster_depth reads (start, stop) = Ok depth
        /\ Z.of_nat (length depth) = size
        /\ forall p, start <= p <= stop ->
             depth !! Z.to_nat (p - start)
             = Some (count_tip reads p + count_tip reads (p - size))).
Proof.
  intros Hs size.
  assert (Hcd : Libtec.cluster_depth reads (start, stop)
                = if size <? 0 then Raise ValueError
                  else foldl depth_step
                         (Ok (replicate (Z.to_nat size) 0))
                         ((fun r => Np.sub (Libtec.tip r) start)
                          <$> reads)).
  { unfold Libtec.cluster_depth, size.
    by replace (stop - (start - 1)) with (stop - start + 1) by lia. }
  rewrite Hcd. clear Hcd.
  assert (Hoff : forall r, r ∈ reads ->
                 Np.sub (Libtec.tip r) start = Libtec.tip r - start).
  { intros r Hr. apply sub_exact.
    assert (small (Libtec.tip r)) as Hsr.
    { apply (proj1 (Forall_forall _ _) Hs). by apply list_elem_of_fmap_2. }
    unfold small, Np.int64 in *. lia. }
  split; [|split].
  - intros Hneg. by destruct (Z.ltb_spec size 0); [|lia].
  - intros Hpos Hex. destruct (Z.ltb_spec size 0); [lia|].
    apply depth_loop_raises. rewrite length_replicate.
    apply Exists_fmap. apply Exists_exists.
    apply Exists_exists in Hex as (r & Hr & Hout).
    exists r. split; [done|]. simpl. rewrite (Hoff r Hr). lia.
  - intros Hpos Hall Hlen. destruct (Z.ltb_spec size 0); [lia|].
    destruct (depth_loop_spec
                ((fun r => Np.sub (Libtec.tip r) start) <$> reads)
                (replicate (Z.to_nat size) 0))
      as (out & Hout & Hlo & Hval).
    + rewrite length_replicate. apply Forall_fmap.
      apply Forall_forall. intros r Hr. simpl. rewrite (Hoff r Hr).
      pose proof (proj1 (Forall_forall _ _) Hall r Hr) as Hb.
      simpl in Hb. lia.
    + apply Forall_replicate. rewrite length_fmap. lia.
    + exists out. split; [done|].
      rewrite length_replicate in Hlo, Hval.
      split; [lia|]. intros p Hp.
      rewrite (Hval (Z.to_nat (p - start)) 0).
      2:{ apply lookup_replicate_2. lia. }
      rewrite !occurrences_offsets by done. f_equal.
      rewrite Z.add_0_l. f_equal; f_equal; lia.
Qed.

End cluster_depth_spec.

(** X22.  [cluster_depth] of the reads that [reads_in_locus] selects for
    the same locus is the histogram of the tips: for bounds below [2^62]
    in absolute value with [start <= stop + 1] and fewer than [2^63]
    reads, it returns an array of [stop - start + 1] counts in which the
    entry at offset [p - start] is the number of reads whose tip is [p],
    for every position [p] of the locus. *)
Theorem cluster_depth_of_reads_in_locus (reads : list Libtec.sam_read)
        (start stop : Z) :
  small start -> small stop -> start <= stop + 1 ->
  Z.of_nat (length reads) < 2 ^ 63 ->
  exists depth,
    Libtec.cluster_depth (Libtec.reads_in_locus reads (start, stop) 0)
                         (start, stop) = Ok depth
    /\ Z.of_nat (length depth) = stop - start + 1
    /\ forall p, start <= p <= stop ->
         depth !! Z.to_nat (p - start) = Some (count_tip reads p).
Proof.
  intros Hstart Hstop Hsize Hlen.
  rewrite reads_in_locus_filter.
  set (P := fun r : Libtec.sam_read => start - 0 <= Libtec.tip r <= stop + 0).
  assert (Hin : Forall P (filter P reads)).
  { apply Forall_forall. intros r Hr. by apply list_elem_of_filter in Hr as [? _]. }
  assert (Hsmall : Forall small (Libtec.tip <$> filter P reads)).
  { apply Forall_fmap. eapply Forall_impl; [exact Hin|].
    intros r Hr. unfold P, small in *. simpl. lia. }
  destruct (cluster_depth_cases start stop Hstart (filter P reads)
                                Hsmall) as (_ & _ & Hok).
  destruct Hok as (depth & Hcd & Hl & Hval).
  - lia.
  - eapply Forall_impl; [exact Hin|]. intros r Hr. unfold P in Hr. lia.
  - pose proof (length_filter P reads). lia.
  - exists depth. split; [done|]. split; [done|]. intros p Hp.
    rewrite (Hval p Hp). f_equal.
    rewrite (count_tip_filter P reads p) by (intros r <-; unfold P; lia).
    rewrite (count_tip_none (filter P reads) (p - (stop - start + 1))); [lia|].
    eapply Forall_impl; [exact Hin|]. intros r Hr. unfold P in Hr. lia.
Qed.

Lemma cluster_depth_of_reads_in_locus_witness :
  exists depth,
    Libtec.cluster_depth
      (Libtec.reads_in_locus
         [(3, 8, 5, false); (5, 10, 5, false); (9, 14, 5, false);
          (5, 9, 4, false); (1, 6, 5, false)] (3, 6) 0) (3, 6) = Ok depth
    /\ Z.of_nat (length depth) = 6 - 3 + 1
    /\ forall p, 3 <= p <= 6 ->
         depth !! Z.to_nat (p - 3)
         = Some (count_tip [(3, 8, 5, false); (5, 10, 5, false);
                            (9, 14, 5, false); (5, 9, 4, false);
                            (1, 6, 5, false)] p).
Proof.
  apply (cluster_depth_of_reads_in_locus
           [(3, 8, 5, false); (5, 10, 5, false); (9, 14, 5, false);
            (5, 9, 4, false); (1, 6, 5, false)] 3 6).
  - unfold small. lia.
  - unfold small. lia.
  - lia.
  - simpl. lia.
Defined.

(** X23.  The edges of [cluster_depth(reads, (start, stop))], for bounds
    and tips below [2^62] in absolute value and
    [size = stop - start + 1]: a negative [size] raises [ValueError]; a
    read whose tip is above [stop] or below [start - size] raises
    [IndexError]; otherwise, with fewer than [2^63] reads, the array of
    [size] counts is returned, and a read whose tip lies below [start]
    is not refused but counted from the end of the array: the entry at
    offset [p - start] counts the reads with tip [p] and those with tip
    [p - size]. *)
Theorem cluster_depth_index_rule (reads : list Libtec.sam_read)
        (start stop : Z) :
  small start -> small stop ->
  Forall small (Libtec.tip <$> reads) ->
  (stop - start + 1 < 0 ->
   Libtec.cluster_depth reads (start, stop) = Raise ValueError)
  /\ (0 <= stop - start + 1 ->
      Exists (fun r => Libtec.tip r < start - (stop - start + 1)
                       \/ stop < Libtec.tip r) reads ->
      Libtec.cluster_depth reads (start, stop) = Raise IndexError)
  /\ (0 <= stop - start + 1 ->
      Forall (fun r => start - (stop - start + 1) <= Libtec.tip r <= stop)
             reads ->
      Z.of_nat (length reads) < 2 ^ 63 ->
      exists depth,
        Libtec.cluster_depth reads (start, stop) = Ok depth
        /\ Z.of_nat (length depth) = stop - start + 1
        /\ forall p, start <= p <= stop ->
             depth !! Z.to_nat (p - start)
             = Some (count_tip reads p
                     + count_tip reads (p - (stop - start + 1)))).
Proof.
  intros Hstart Hstop Hs.
  exact (cluster_depth_cases start stop Hstart reads Hs).
Qed.

Lemma cluster_depth_index_rule_witness :
  Libtec.cluster_depth [(7, 12, 5, false)] (3, 6) = Raise IndexError
  /\ exists depth,
       Libtec.cluster_depth [(2, 7, 5, false); (6, 11, 5, false)] (3, 6)
       = Ok depth
       /\ depth !! Z.to_nat (6 - 3) = Some 2.
Proof.
  split.
  - destruct (cluster_depth_index_rule [(7, 12, 5, false)] 3 6)
      as (_ & Hraise & _).
    + unfold small. lia.
    + unfold small. lia.
    + repeat constructor; unfold small, Libtec.tip; simpl; lia.
    + apply Hraise; [lia|]. left. unfold Libtec.tip. simpl. lia.
  - destruct (cluster_depth_index_rule
                [(2, 7, 5, false); (6, 11, 5, false)] 3 6)
      as (_ & _ & Hok).
    + unfold small. lia.
    + unfold small. lia.
    + repeat constructor; unfold small, Libtec.tip; simpl; lia.
    + destruct Hok as (depth & Hcd & _ & Hval).
      * lia.
      * repeat constructor; unfold Libtec.tip; simpl; lia.
      * simpl. lia.
      * exists depth. split; [done|].
        rewrite (Hval 6) by lia. reflexivity.
Defined.

Section reads_facts.

Lemma pick_within (field : Reads.read -> Z) (lo hi : Z)
      (reads : list Reads.read) :
  Np.pick reads (Reads.within field lo hi reads)
  = filter (fun r => lo <= field r <= hi) reads.
Proof.
  unfold Reads.within.
  induction reads as [|r reads IH]; [done|].
  rewrite !fmap_cons, filter_cons. cbn [zip_with Np.pick]. rewrite IH.
  destruct (Z.geb_spec (field r) lo), (Z.leb_spec (field r) hi); simpl.
  - by rewrite decide_True by lia.
  - by rewrite decide_False by lia.
  - by rewrite decide_False by lia.
  - by rewrite decide_False by lia.
Qed.

Lemma filter_ext_iff {A} (P Q : A -> Prop) `{!forall x, Decision (P x)}
      `{!forall x, Decision (Q x)} (l : list A) :
  (forall x, P x <-> Q x) -> filter P l = filter Q l.
Proof.
  intros HPQ. induction l as [|x l IH]; [done|].
  rewrite !filter_cons, IH.
  destruct (decide (P x)) as [Hp|Hp], (decide (Q x)) as [Hq|Hq];
    try done; exfalso; apply HPQ in Hp || apply HPQ in Hq; done.
Qed.

Lemma filter_idemp {A} (P : A -> Prop) `{!forall x, Decision (P x)}
      (l : list A) :
  filter P (filter P l) = filter P l.
Proof.
  induction l as [|x l IH]; [done|].
  rewrite filter_cons. destruct (decide (P x)) as [Hp|Hp]; [|done].
  rewrite filter_cons, decide_True by done. by rewrite IH.
Qed.

(** An accepted [end] turns the method into a filter. *)
Lemma subset_by_locus_filter (reads : list Reads.read)
      (start stop margin : Z) (end_ : string) :
  end_ ∈ ["tip"; "tail"; "both"]%string ->
  Reads.subset_by_locus reads start stop margin end_
  = Ok (filter (end_within end_ (start - margin) (stop + margin)) reads).
Proof.
  intros Hend. unfold Reads.subset_by_locus.
  repeat (apply elem_of_cons in Hend as [->|Hend]);
    [| | |by apply elem_of_nil in Hend]; simpl; f_equal.
  - rewrite pick_within. apply filter_ext_iff. intros r.
    unfold end_within. split; [intros H; by split|].
    intros [H _]. by apply H.
  - rewrite pick_within. apply filter_ext_iff. intros r.
    unfold end_within. split; [intros H; by split|].
    intros [_ H]. by apply H.
  - rewrite !pick_within, list_filter_filter.
    apply filter_ext_iff. intros r.
    unfold end_within. split.
    + intros [H1 H2]. by split.
    + intros [H1 H2]. split; [by apply H2|by apply H1].
Qed.

Lemma strand_variation (reads : list Reads.read) :
  Reads.strand reads
  = match remove_dups (Reads.read_strand <$> reads) with
    | [] => Raise KeyError
    | [s] => Ok s
    | _ => Ok "."%string
    end.
Proof.
  unfold Reads.strand.
  destruct (remove_dups (Reads.read_strand <$> reads)) as [|a [|b l]];
    [done|done|].
  destruct (Z.ltb_spec 1 (Z.of_nat (length (a :: b :: l)))) as [|Hlen];
    [done|].
  simpl length in Hlen. lia.
Qed.

(** The two outcomes of [subset_by_locus]. *)
Lemma subset_by_locus_cases (reads : list Reads.read)
      (start stop margin : Z) (end_ : string) :
  match Reads.subset_by_locus reads start stop margin end_ with
  | Ok out =>
      end_ ∈ ["tip"; "tail"; "both"]%string
      /\ out = filter (end_within end_ (start - margin) (stop + margin))
                      reads
  | Raise e => e = AssertionError /\ end_ ∉ ["tip"; "tail"; "both"]%string
  end.
Proof.
  destruct (decide (end_ ∈ ["tip"; "tail"; "both"]%string)) as [Hend|Hend].
  - by rewrite subset_by_locus_filter by done.
  - unfold Reads.subset_by_locus.
    destruct (String.eqb_spec end_ "tip") as [->|H1].
    { exfalso. apply Hend. set_solver. }
    destruct (String.eqb_spec end_ "tail") as [->|H2].
    { exfalso. apply Hend. set_solver. }
    destruct (String.eqb_spec end_ "both") as [->|H3].
    { exfalso. apply Hend. set_solver. }
    simpl. done.
Qed.

End reads_facts.

(** X24.  For widened bounds that fit in 64 bits,
    [ReadGroup.subset_by_locus(start, stop, margin, end)] raises
    [AssertionError] unless [end] is ['tip'], ['tail'] or ['both'];
    otherwise it keeps, in their order, exactly the reads whose tip (for
    ['tip']), tail (for ['tail']) or tip and tail (for ['both']) lie in
    the inclusive range from [start - margin] to [stop + margin], and
    taking the same subset of the result changes nothing. *)
Theorem subset_by_locus_selects (reads : list Reads.read)
        (start stop margin : Z) (end_ : string) :
  Np.int64 (start - margin) -> Np.int64 (stop + margin) ->
  match Reads.subset_by_locus reads start stop margin end_ with
  | Ok out =>
      end_ ∈ ["tip"; "tail"; "both"]%string
      /\ out = filter (end_within end_ (start - margin) (stop + margin))
                      reads
      /\ Reads.subset_by_locus out start stop margin end_ = Ok out
  | Raise e => e = AssertionError /\ end_ ∉ ["tip"; "tail"; "both"]%string
  end.
Proof.
  intros _ _.
  pose proof (subset_by_locus_cases reads start stop margin end_) as Hcases.
  destruct (Reads.subset_by_locus reads start stop margin end_)
    as [out|e]; [|done].
  destruct Hcases as [Hend ->]. split; [done|]. split; [done|].
  rewrite subset_by_locus_filter by done. by rewrite filter_idemp.
Qed.

Lemma subset_by_locus_selects_witness :
  Reads.subset_by_locus
    [(1, 9, "+", "a"); (3, 4, "-", "b"); (5, 2, "-", "c")]%string
    2 5 0 "both"
  = Ok [(3, 4, "-", "b"); (5, 2, "-", "c")]%string.
Proof.
  pose proof (subset_by_locus_selects
                [(1, 9, "+", "a"); (3, 4, "-", "b"); (5, 2, "-", "c")]%string
                2 5 0 "both") as Hsel.
  destruct (Reads.subset_by_locus
              [(1, 9, "+", "a"); (3, 4, "-", "b"); (5, 2, "-", "c")]%string
              2 5 0 "both") as [out|e].
  - destruct Hsel as (_ & -> & _).
    + unfold Np.int64. lia.
    + unfold Np.int64. lia.
    + reflexivity.
  - destruct Hsel as [_ Hno].
    + unfold Np.int64. lia.
    + unfold Np.int64. lia.
    + exfalso. apply Hno. set_solver.
Defined.

(** X25.  [ReadGroup.strand()] raises [KeyError] on a group without
    reads, returns the common strand when all reads have the same one,
    and returns ['.'] as soon as two reads differ; so the consensus
    strand of a subset that selects no read is an error, not ['.']. *)
Theorem strand_consensus (reads : list Reads.read) :
  (reads = [] -> Reads.strand reads = Raise KeyError)
  /\ (forall s, reads <> [] ->
        Forall (fun r => Reads.read_strand r = s) reads ->
        Reads.strand reads = Ok s)
  /\ (forall r1 r2, r1 ∈ reads -> r2 ∈ reads ->
        Reads.read_strand r1 <> Reads.read_strand r2 ->
        Reads.strand reads = Ok "."%string)
  /\ (forall start stop margin end_ out,
        Np.int64 (start - margin) -> Np.int64 (stop + margin) ->
        Reads.subset_by_locus reads start stop margin end_ = Ok out ->
        Forall (fun r => ~ end_within end_ (start - margin) (stop + margin) r)
               reads ->
        Reads.strand out = Raise KeyError).
Proof.
  split; [by intros ->|]. split; [|split].
  - intros s Hne Hall. rewrite strand_variation.
    assert (Hone : length (remove_dups (Reads.read_strand <$> reads))
                   = 1%nat).
    { apply remove_dups_one. exists s. split.
      - by destruct reads.
      - by apply Forall_fmap. }
    destruct (remove_dups (Reads.read_strand <$> reads)) as [|a [|b l]] eqn:Hr;
      try discriminate.
    assert (Ha : a ∈ remove_dups (Reads.read_strand <$> reads))
      by (rewrite Hr; left).
    apply (proj1 (elem_of_remove_dups _ _)) in Ha.
    apply list_elem_of_fmap_1 in Ha as (r & -> & Hr').
    f_equal. by apply (proj1 (Forall_forall _ _) Hall).
  - intros r1 r2 H1 H2 Hne. rewrite strand_variation.
    assert (Hin : forall r, r ∈ reads -> Reads.read_strand r
                    ∈ remove_dups (Reads.read_strand <$> reads)).
    { intros r Hr. apply elem_of_remove_dups. by apply list_elem_of_fmap_2. }
    pose proof (Hin r1 H1) as Hs1. pose proof (Hin r2 H2) as Hs2.
    destruct (remove_dups (Reads.read_strand <$> reads)) as [|a [|b l]].
    + by apply elem_of_nil in Hs1.
    + apply list_elem_of_singleton in Hs1, Hs2. congruence.
    + done.
  - intros start stop margin end_ out _ _ Hsub Hnone.
    pose proof (subset_by_locus_cases reads start stop margin end_) as Hsel.
    rewrite Hsub in Hsel. destruct Hsel as (_ & ->).
    assert (Hnil : filter (end_within end_ (start - margin) (stop + margin))
                          reads = []).
    { clear Hsub. induction Hnone as [|r reads Hr _ IH]; [done|].
      by rewrite filter_cons, decide_False. }
    by rewrite Hnil.
Qed.

Section sam_flag_facts.

Lemma chars_app (s1 s2 : string) :
  list_ascii_of_string (s1 ++ s2)%string
  = list_ascii_of_string s1 ++ list_ascii_of_string s2.
Proof.
  induction s1 as [|c s1 IH]; [done|].
  change (list_ascii_of_string (String c s1 ++ s2)%string)
    with (c :: list_ascii_of_string (s1 ++ s2)%string).
  by rewrite IH.
Qed.

Lemma rmapM_snoc {A B} (f : A -> result B) (l : list A) (c : A)
      (bs : list B) :
  rmapM f l = Ok bs ->
  rmapM f (l ++ [c]) = (b <-- f c ;; Ok (bs ++ [b])).
Proof.
  revert bs. induction l as [|a l IH]; intros bs.
  - intros [= <-]. simpl. by destruct (f c).
  - simpl. destruct (f a) as [b|e]; simpl; [|done].
    destruct (rmapM f l) as [bs'|e] eqn:Hl; simpl; [|done].
    intros [= <-]. rewrite (IH bs' eq_refl). by destruct (f c).
Qed.

Lemma parse_sam_flag_unfold (flag : Z) :
  Classes._parse_sam_flag flag
  = (bits <-- rmapM parse_bit
                (reverse (drop 2 (list_ascii_of_string (Py.bin flag)))) ;;
     Np.assign_slice (replicate 12 false) 0 (Z.of_nat (length bits)) bits).
Proof. reflexivity. Qed.

(** The digits of [bin], read from the last, are the bits from the
    lowest. *)
Lemma digits_bits (p : positive) :
  rmapM parse_bit (reverse (list_ascii_of_string (Py.bin_digits p)))
  = Ok (pos_bits p).
Proof.
  induction p as [p IH|p IH|]; [| |reflexivity].
  - cbn [Py.bin_digits]. rewrite chars_app, reverse_app.
    change (reverse (list_ascii_of_string "1")) with ["1"%char].
    change (rmapM parse_bit (["1"%char] ++
              reverse (list_ascii_of_string (Py.bin_digits p))))
      with (bs <-- rmapM parse_bit
                     (reverse (list_ascii_of_string (Py.bin_digits p))) ;;
            Ok (true :: bs)).
    by rewrite IH.
  - cbn [Py.bin_digits]. rewrite chars_app, reverse_app.
    change (reverse (list_ascii_of_string "0")) with ["0"%char].
    change (rmapM parse_bit (["0"%char] ++
              reverse (list_ascii_of_string (Py.bin_digits p))))
      with (bs <-- rmapM parse_bit
                     (reverse (list_ascii_of_string (Py.bin_digits p))) ;;
            Ok (false :: bs)).
    by rewrite IH.
Qed.

Lemma parse_sam_flag_pos (p : positive) :
  Classes._parse_sam_flag (Z.pos p)
  = Np.assign_slice (replicate 12 false) 0
                    (Z.of_nat (length (pos_bits p))) (pos_bits p).
Proof.
  rewrite parse_sam_flag_unfold.
  change (drop 2 (list_ascii_of_string (Py.bin (Z.pos p))))
    with (list_ascii_of_string (Py.bin_digits p)).
  by rewrite digits_bits.
Qed.

(** The sign of a negative flag leaves the letter of the prefix among
    the digits. *)
Lemma parse_sam_flag_neg (p : positive) :
  Classes._parse_sam_flag (Z.neg p) = Raise ValueError.
Proof.
  rewrite parse_sam_flag_unfold.
  change (drop 2 (list_ascii_of_string (Py.bin (Z.neg p))))
    with ("b"%char :: list_ascii_of_string (Py.bin_digits p)).
  rewrite reverse_cons, (rmapM_snoc _ _ _ _ (digits_bits p)).
  reflexivity.
Qed.

Lemma pos_bits_length (p : positive) (n : nat) :
  Z.pos p < 2 ^ Z.of_nat n <-> (length (pos_bits p) <= n)%nat.
Proof.
  revert n. induction p as [p IH|p IH|]; intros [|n].
  - change (2 ^ Z.of_nat 0) with 1. simpl length. lia.
  - rewrite Nat2Z.inj_succ, Z.pow_succ_r by lia.
    specialize (IH n). simpl length. lia.
  - change (2 ^ Z.of_nat 0) with 1. simpl length. lia.
  - rewrite Nat2Z.inj_succ, Z.pow_succ_r by lia.
    specialize (IH n). simpl length. lia.
  - change (2 ^ Z.of_nat 0) with 1. simpl length. lia.
  - rewrite Nat2Z.inj_succ, Z.pow_succ_r by lia.
    pose proof (Z.pow_pos_nonneg 2 (Z.of_nat n) ltac:(lia) ltac:(lia)).
    simpl length. lia.
Qed.

Lemma pos_bits_testbit (p : positive) (i : nat) :
  Z.testbit (Z.pos p) (Z.of_nat i) = default false (pos_bits p !! i).
Proof.
  revert i. induction p as [p IH|p IH|]; intros [|i]; try reflexivity.
  - rewrite Nat2Z.inj_succ, Pos2Z.inj_xI, Z.testbit_odd_succ by lia.
    apply IH.
  - rewrite Nat2Z.inj_succ, Pos2Z.inj_xO, Z.testbit_even_succ by lia.
    apply IH.
Qed.

(** [attributes[:bits.shape[0]] = bits] on twelve [False]. *)
Lemma assign_front (bits : list bool) :
  Np.assign_slice (replicate 12 false) 0 (Z.of_nat (length bits)) bits
  = if decide (length bits <= 12)%nat
    then Ok (bits ++ replicate (12 - length bits) false)
    else Raise ValueError.
Proof.
  unfold Np.assign_slice. rewrite length_replicate.
  change (Np.bound 12 0) with 0%nat.
  destruct (decide (length bits <= 12)%nat) as [Hle|Hgt].
  - rewrite bound_nonneg by lia. rewrite Nat2Z.id, Nat.sub_0_r.
    rewrite decide_True by done.
    rewrite take_0, drop_replicate. done.
  - assert (Hb : Np.bound 12 (Z.of_nat (length bits)) = 12%nat).
    { unfold Np.bound.
      destruct (Z.ltb_spec (Z.of_nat (length bits)) 0); lia. }
    rewrite Hb, decide_False by lia.
    destruct bits as [|b [|b' bits]]; simpl in Hgt; try lia. done.
Qed.

Lemma padded_bits (p : positive) :
  (length (pos_bits p) <= 12)%nat ->
  pos_bits p ++ replicate (12 - length (pos_bits p)) false
  = Z.testbit (Z.pos p) <$> seqZ 0 12.
Proof.
  intros Hlen. apply list_eq. intros i. rewrite list_lookup_fmap.
  destruct (decide (i < 12)%nat) as [Hi|Hi].
  - rewrite lookup_seqZ_lt by lia. rewrite Z.add_0_l.
    change (Z.testbit (Z.pos p) <$> Some (Z.of_nat i))
      with (Some (Z.testbit (Z.pos p) (Z.of_nat i))).
    rewrite pos_bits_testbit.
    destruct (decide (i < length (pos_bits p))%nat) as [Hil|Hil].
    + rewrite lookup_app_l by done.
      destruct (lookup_lt_is_Some_2 _ _ Hil) as [b Hb]. by rewrite Hb.
    + rewrite lookup_app_r by lia.
      rewrite (lookup_ge_None_2 (pos_bits p)) by lia. simpl.
      apply lookup_replicate_2. lia.
  - rewrite lookup_seqZ_ge by lia. simpl.
    apply lookup_ge_None_2. rewrite length_app, length_replicate. lia.
Qed.

(** The flags that [_parse_sam_flag] accepts. *)
Lemma parse_sam_flag_cases (flag : Z) :
  Classes._parse_sam_flag flag
  = if decide (0 <= flag < 4096)
    then Ok (Z.testbit flag <$> seqZ 0 12)
    else Raise ValueError.
Proof.
  destruct flag as [|p|p].
  - by rewrite decide_True by lia.
  - rewrite parse_sam_flag_pos, assign_front.
    pose proof (pos_bits_length p 12) as Hl.
    change (2 ^ Z.of_nat 12) with 4096 in Hl.
    destruct (decide (length (pos_bits p) <= 12)%nat).
    + rewrite decide_True by lia. f_equal. by apply padded_bits.
    + by rewrite decide_False by lia.
  - by rewrite parse_sam_flag_neg, decide_False by lia.
Qed.

Lemma flag_orientation_cases (flag : Z) :
  Classes._flag_orientation flag
  = if decide (0 <= flag < 4096)
    then Ok (Reads.flag_orientation flag)
    else Raise ValueError.
Proof.
  unfold Classes._flag_orientation. rewrite parse_sam_flag_cases.
  destruct (decide (0 <= flag < 4096)); [|done].
  change (seqZ 0 12) with [0; 1; 2; 3; 4; 5; 6; 7; 8; 9; 10; 11].
  unfold Reads.flag_orientation. generalize (Z.testbit flag).
  intros bit. simpl. by destruct (bit 2), (bit 4).
Qed.

Lemma dict_of_notin {V} (ks : list string) (vs : list V)
      (d : gmap string V) (k : string) :
  k ∉ ks ->
  foldl (fun d '(k, v) => <[k := v]> d) d (zip ks vs) !! k = d !! k.
Proof.
  revert vs d. induction ks as [|k0 ks IH]; intros vs d Hk; [done|].
  destruct vs as [|v vs]; [done|]. simpl. rewrite IH.
  - apply lookup_insert_ne. intros ->. apply Hk. left.
  - intros ?. apply Hk. by right.
Qed.

Lemma dict_of_lookup {V} (ks : list string) (vs : list V)
      (d : gmap string V) (i : nat) (k : string) (v : V) :
  NoDup ks -> ks !! i = Some k -> vs !! i = Some v ->
  foldl (fun d '(k, v) => <[k := v]> d) d (zip ks vs) !! k = Some v.
Proof.
  revert vs d i. induction ks as [|k0 ks IH]; intros vs d i Hnd Hk Hv;
    [done|].
  destruct vs as [|v0 vs]; [done|].
  apply NoDup_cons in Hnd as [Hnotin Hnd].
  destruct i as [|i]; simpl in Hk, Hv.
  - injection Hk as ->. injection Hv as ->. simpl.
    rewrite dict_of_notin by done. apply lookup_insert_eq.
  - simpl. by eapply IH.
Qed.

Lemma attribute_names_NoDup : NoDup Classes.attribute_names.
Proof. apply (bool_decide_unpack _). by vm_compute. Qed.

End sam_flag_facts.

(** X26.  For a flag from 0 to 4095, [ReadGroup._parse_sam_flag] of
    classes.py returns the twelve bits of the flag, the lowest first,
    and [ReadGroup._flag_orientation] returns what the model of
    [bam_io.flag_orientation] used for reads.py returns: [None] when bit
    0x4 is set, otherwise ['-'] when bit 0x10 is set and ['+'] when it is
    not. *)
Theorem flag_orientation_reads_bits (flag : Z) :
  0 <= flag < 4096 ->
  Classes._parse_sam_flag flag = Ok (Z.testbit flag <$> seqZ 0 12)
  /\ Classes._flag_orientation flag = Ok (Reads.flag_orientation flag).
Proof.
  intros Hflag. rewrite parse_sam_flag_cases, flag_orientation_cases.
  by rewrite !decide_True by done.
Qed.

Lemma flag_orientation_reads_bits_witness :
  Classes._parse_sam_flag 16 = Ok (Z.testbit 16 <$> seqZ 0 12)
  /\ Classes._flag_orientation 16 = Ok (Reads.flag_orientation 16).
Proof. apply (flag_orientation_reads_bits 16). lia. Defined.

(** X27.  A flag outside 0..4095 is refused: for a negative flag and for
    a flag of 4096 or more, [_parse_sam_flag], [_flag_orientation] and
    [_flag_attributes] of classes.py raise [ValueError]. *)
Theorem flag_out_of_range_raises (flag : Z) :
  flag < 0 \/ 4096 <= flag ->
  Classes._parse_sam_flag flag = Raise ValueError
  /\ Classes._flag_orientation flag = Raise ValueError
  /\ Classes._flag_attributes flag = Raise ValueError.
Proof.
  intros Hflag. unfold Classes._flag_attributes.
  rewrite parse_sam_flag_cases, flag_orientation_cases.
  by rewrite !decide_False by lia.
Qed.

Lemma flag_out_of_range_raises_witness :
  Classes._parse_sam_flag 4096 = Raise ValueError
  /\ Classes._flag_orientation 4096 = Raise ValueError
  /\ Classes._flag_attributes 4096 = Raise ValueError.
Proof. apply (flag_out_of_range_raises 4096). lia. Defined.

(** X28.  For a flag from 0 to 4095, [ReadGroup._flag_attributes]
    returns a dictionary that gives the name at position [i] of its
    tuple of eleven names the bit [i] of the flag, and has no other key.
    As ["read unmapped mate unmapped"] is one name of the tuple, the key
    ["read reverse strand"] holds bit 0x8 and not the bit 0x10 that
    [_flag_orientation] reads, and ["read unmapped"] is not a key. *)
Theorem flag_attributes_by_position (flag : Z) :
  0 <= flag < 4096 ->
  exists d,
    Classes._flag_attributes flag = Ok d
    /\ (forall (i : nat) (name : string),
          Classes.attribute_names !! i = Some name ->
          d !! name = Some (Z.testbit flag (Z.of_nat i)))
    /\ (forall name, name ∉ Classes.attribute_names -> d !! name = None)
    /\ d !! "read reverse strand"%string = Some (Z.testbit flag 3)
    /\ d !! "read unmapped"%string = None.
Proof.
  intros Hflag. unfold Classes._flag_attributes.
  rewrite parse_sam_flag_cases, decide_True by done. simpl rbind.
  eexists. split; [reflexivity|].
  assert (Hpos : forall (i : nat) (name : string),
            Classes.attribute_names !! i = Some name ->
            foldl (fun d '(k, v) => <[k := v]> d) (∅ : gmap string bool)
                  (zip Classes.attribute_names
                       (Z.testbit flag <$> seqZ 0 12)) !! name
            = Some (Z.testbit flag (Z.of_nat i))).
  { intros i name Hname.
    apply (dict_of_lookup _ _ _ i); [apply attribute_names_NoDup|done|].
    rewrite list_lookup_fmap, lookup_seqZ_lt.
    - done.
    - apply lookup_lt_Some in Hname. simpl in Hname. lia. }
  assert (Hno : forall name, name ∉ Classes.attribute_names ->
            foldl (fun d '(k, v) => <[k := v]> d) (∅ : gmap string bool)
                  (zip Classes.attribute_names
                       (Z.testbit flag <$> seqZ 0 12)) !! name = None).
  { intros name Hname. by rewrite dict_of_notin. }
  split; [exact Hpos|]. split; [exact Hno|]. split.
  - exact (Hpos 3%nat "read reverse strand"%string eq_refl).
  - apply Hno. apply (bool_decide_unpack _). by vm_compute.
Qed.

Lemma flag_attributes_by_position_witness :
  exists d,
    Classes._flag_attributes 16 = Ok d
    /\ (forall (i : nat) (name : string),
          Classes.attribute_names !! i = Some name ->
          d !! name = Some (Z.testbit 16 (Z.of_nat i)))
    /\ (forall name, name ∉ Classes.attribute_names -> d !! name = None)
    /\ d !! "read reverse strand"%string = Some (Z.testbit 16 3)
    /\ d !! "read unmapped"%string = None.
Proof. apply (flag_attributes_by_position 16). lia. Defined.
